(** * Betweenness centrality, pull variant

    A shallow embedding of
    [dist_apps/experimental/apps/cgo/bc_pull/gen.cpp]: the per-vertex
    record [NodeData], the operators that Galois runs over the local
    vertices ([operator()] of each functor) and the [go] drivers that
    repeat supersteps until the work accumulator reads zero.

    Modelling choices, fixed once for the whole file.
    - [uint32_t] and [uint64_t] values are numbers of [N]; every
      arithmetic result is reduced modulo the width where the source
      computes in that width.
    - [float] is IEEE binary32 and [double] is binary64, both through the
      standard library's [SpecFloat] operations (round to nearest even).
    - One host: the node array holds every replica and the reductions and
      broadcasts of the sync structures leave it as it is.
    - A parallel [do_all] is run as the sequential pass over its range in
      ascending order, one legal schedule of the loop.
    - [assert] is compiled in: a failing assertion ends the run with
      [Fault AssertionFailure]. *)

From Stdlib Require Import ZArith NArith Lia Bool List Sorted.
From Stdlib Require Import Floats.SpecFloat.
From stdpp Require Import base numbers list.

Local Open Scope N_scope.

(** ** Fixed-width unsigned arithmetic *)

Module U32.
Definition modulus : N := 2 ^ 32.
Definition max : N := modulus - 1.
Definition wrap (x : N) : N := x `mod` modulus.
Definition add (a b : N) : N := wrap (a + b).
(** [a -= b] on [uint32_t]. *)
Definition sub (a b : N) : N := wrap (wrap a + modulus - wrap b).
End U32.

Module U64.
Definition modulus : N := 2 ^ 64.
Definition wrap (x : N) : N := x `mod` modulus.
End U64.

(** ** Floating point *)

Module F32.
Definition prec : Z := 24.
Definition emax : Z := 128.
Definition zero : spec_float := S754_zero false.
Definition add : spec_float → spec_float → spec_float := SFadd prec emax.
Definition mul : spec_float → spec_float → spec_float := SFmul prec emax.
Definition div : spec_float → spec_float → spec_float := SFdiv prec emax.
Definition ltb : spec_float → spec_float → bool := SFltb.
Definition leb : spec_float → spec_float → bool := SFleb.
Definition eqb : spec_float → spec_float → bool := SFeqb.
Definition valid : spec_float → bool := valid_binary prec emax.
(** [(float)n] for an unsigned integer [n]. *)
Definition of_N (n : N) : spec_float :=
  binary_normalize prec emax (Z.of_N n) 0 false.
(** The integer part of a float, rounding toward zero; [None] for a NaN
    or an infinity. *)
Definition truncate (f : spec_float) : option Z :=
  match f with
  | S754_zero _ => Some 0%Z
  | S754_finite s m e =>
      Some (cond_Zopp s
              (if (0 <=? e)%Z then Z.pos m * 2 ^ e
               else Z.pos m `div` 2 ^ (- e)))%Z
  | S754_infinity _ | S754_nan => None
  end.
(** [(uint32_t)f]: defined by the language only when the truncated
    value fits the destination type. *)
Definition to_u32 (f : spec_float) : option N :=
  match truncate f with
  | Some z =>
      if ((0 <=? z) && (z <? Z.of_N U32.modulus))%Z then Some (Z.to_N z)
      else None
  | None => None
  end.
End F32.

Module F64.
Definition prec : Z := 53.
Definition emax : Z := 1024.
Definition add : spec_float → spec_float → spec_float := SFadd prec emax.
Definition of_N (n : N) : spec_float :=
  binary_normalize prec emax (Z.of_N n) 0 false.
(** The literal [1.0]. *)
Definition one : spec_float := of_N 1.
(** [(float)d] for a double [d]: the value rounded to binary32. *)
Definition to_f32 (d : spec_float) : spec_float :=
  match d with
  | S754_finite s m e => binary_round F32.prec F32.emax s m e
  | _ => d
  end.
End F64.

(** ** Faults *)

Inductive fault : Type :=
| AssertionFailure
| UndefinedBehaviour.

Inductive res (A : Type) : Type :=
| Ok (a : A)
| Fault (f : fault).
Arguments Ok {A} a.
Arguments Fault {A} f.

#[global] Instance res_ret : MRet res := λ A a, Ok a.
#[global] Instance res_bind : MBind res :=
  λ A B k m, match m with Ok a => k a | Fault f => Fault f end.

Definition assert (b : bool) : res unit :=
  if b then Ok () else Fault AssertionFailure.

(** A sequential pass of a fallible loop body over a range. *)
Fixpoint for_each {A S : Type} (body : A → S → res S) (range : list A) (s : S)
  : res S :=
  match range with
  | [] => Ok s
  | x :: range' => s' ← body x s; for_each body range' s'
  end.

(** A sequential pass of a loop body that cannot fail. *)
Definition do_all {A S : Type} (body : A → S → S) (range : list A) (s : S) : S :=
  foldl (λ s x, body x s) s range.

(** ** Command line options and globals *)

Record Config : Type := {
  maxIterations : N;
  verify : bool;
  singleSourceBC : bool;
  startSource : N;
  numberOfSources : N;
}.

Definition default_config : Config := {|
  maxIterations := 10000;
  verify := false;
  singleSourceBC := false;
  startSource := 0;
  numberOfSources := 0;
|}.

Definition infinity : N := U32.max `div` 4.

(** ** Vertex data *)

Record NodeData : Type := {
  current_length : N;
  num_shortest_paths : N;
  num_successors : N;
  num_predecessors : N;
  dependency : spec_float;
  betweeness_centrality : spec_float;
  propogation_flag : bool;
  trim : N;
  to_add : N;
  trim2 : N;
  to_add_float : spec_float;
  num_short_paths_flag : bool;
  dep_prop_flag : bool;
}.

Definition set_current_length (v : N) (d : NodeData) : NodeData :=
  {| current_length := v; num_shortest_paths := num_shortest_paths d;
     num_successors := num_successors d; num_predecessors := num_predecessors d;
     dependency := dependency d; betweeness_centrality := betweeness_centrality d;
     propogation_flag := propogation_flag d; trim := trim d; to_add := to_add d;
     trim2 := trim2 d; to_add_float := to_add_float d;
     num_short_paths_flag := num_short_paths_flag d; dep_prop_flag := dep_prop_flag d |}.

Definition set_num_shortest_paths (v : N) (d : NodeData) : NodeData :=
  {| current_length := current_length d; num_shortest_paths := v;
     num_successors := num_successors d; num_predecessors := num_predecessors d;
     dependency := dependency d; betweeness_centrality := betweeness_centrality d;
     propogation_flag := propogation_flag d; trim := trim d; to_add := to_add d;
     trim2 := trim2 d; to_add_float := to_add_float d;
     num_short_paths_flag := num_short_paths_flag d; dep_prop_flag := dep_prop_flag d |}.

Definition set_num_successors (v : N) (d : NodeData) : NodeData :=
  {| current_length := current_length d; num_shortest_paths := num_shortest_paths d;
     num_successors := v; num_predecessors := num_predecessors d;
     dependency := dependency d; betweeness_centrality := betweeness_centrality d;
     propogation_flag := propogation_flag d; trim := trim d; to_add := to_add d;
     trim2 := trim2 d; to_add_float := to_add_float d;
     num_short_paths_flag := num_short_paths_flag d; dep_prop_flag := dep_prop_flag d |}.

Definition set_num_predecessors (v : N) (d : NodeData) : NodeData :=
  {| current_length := current_length d; num_shortest_paths := num_shortest_paths d;
     num_successors := num_successors d; num_predecessors := v;
     dependency := dependency d; betweeness_centrality := betweeness_centrality d;
     propogation_flag := propogation_flag d; trim := trim d; to_add := to_add d;
     trim2 := trim2 d; to_add_float := to_add_float d;
     num_short_paths_flag := num_short_paths_flag d; dep_prop_flag := dep_prop_flag d |}.

Definition set_dependency (v : spec_float) (d : NodeData) : NodeData :=
  {| current_length := current_length d; num_shortest_paths := num_shortest_paths d;
     num_successors := num_successors d; num_predecessors := num_predecessors d;
     dependency := v; betweeness_centrality := betweeness_centrality d;
     propogation_flag := propogation_flag d; trim := trim d; to_add := to_add d;
     trim2 := trim2 d; to_add_float := to_add_float d;
     num_short_paths_flag := num_short_paths_flag d; dep_prop_flag := dep_prop_flag d |}.

Definition set_betweeness_centrality (v : spec_float) (d : NodeData) : NodeData :=
  {| current_length := current_length d; num_shortest_paths := num_shortest_paths d;
     num_successors := num_successors d; num_predecessors := num_predecessors d;
     dependency := dependency d; betweeness_centrality := v;
     propogation_flag := propogation_flag d; trim := trim d; to_add := to_add d;
     trim2 := trim2 d; to_add_float := to_add_float d;
     num_short_paths_flag := num_short_paths_flag d; dep_prop_flag := dep_prop_flag d |}.

Definition set_propogation_flag (v : bool) (d : NodeData) : NodeData :=
  {| current_length := current_length d; num_shortest_paths := num_shortest_paths d;
     num_successors := num_successors d; num_predecessors := num_predecessors d;
     dependency := dependency d; betweeness_centrality := betweeness_centrality d;
     propogation_flag := v; trim := trim d; to_add := to_add d;
     trim2 := trim2 d; to_add_float := to_add_float d;
     num_short_paths_flag := num_short_paths_flag d; dep_prop_flag := dep_prop_flag d |}.

Definition set_trim (v : N) (d : NodeData) : NodeData :=
  {| current_length := current_length d; num_shortest_paths := num_shortest_paths d;
     num_successors := num_successors d; num_predecessors := num_predecessors d;
     dependency := dependency d; betweeness_centrality := betweeness_centrality d;
     propogation_flag := propogation_flag d; trim := v; to_add := to_add d;
     trim2 := trim2 d; to_add_float := to_add_float d;
     num_short_paths_flag := num_short_paths_flag d; dep_prop_flag := dep_prop_flag d |}.

Definition set_to_add (v : N) (d : NodeData) : NodeData :=
  {| current_length := current_length d; num_shortest_paths := num_shortest_paths d;
     num_successors := num_successors d; num_predecessors := num_predecessors d;
     dependency := dependency d; betweeness_centrality := betweeness_centrality d;
     propogation_flag := propogation_flag d; trim := trim d; to_add := v;
     trim2 := trim2 d; to_add_float := to_add_float d;
     num_short_paths_flag := num_short_paths_flag d; dep_prop_flag := dep_prop_flag d |}.

Definition set_trim2 (v : N) (d : NodeData) : NodeData :=
  {| current_length := current_length d; num_shortest_paths := num_shortest_paths d;
     num_successors := num_successors d; num_predecessors := num_predecessors d;
     dependency := dependency d; betweeness_centrality := betweeness_centrality d;
     propogation_flag := propogation_flag d; trim := trim d; to_add := to_add d;
     trim2 := v; to_add_float := to_add_float d;
     num_short_paths_flag := num_short_paths_flag d; dep_prop_flag := dep_prop_flag d |}.

Definition set_to_add_float (v : spec_float) (d : NodeData) : NodeData :=
  {| current_length := current_length d; num_shortest_paths := num_shortest_paths d;
     num_successors := num_successors d; num_predecessors := num_predecessors d;
     dependency := dependency d; betweeness_centrality := betweeness_centrality d;
     propogation_flag := propogation_flag d; trim := trim d; to_add := to_add d;
     trim2 := trim2 d; to_add_float := v;
     num_short_paths_flag := num_short_paths_flag d; dep_prop_flag := dep_prop_flag d |}.

Definition set_num_short_paths_flag (v : bool) (d : NodeData) : NodeData :=
  {| current_length := current_length d; num_shortest_paths := num_shortest_paths d;
     num_successors := num_successors d; num_predecessors := num_predecessors d;
     dependency := dependency d; betweeness_centrality := betweeness_centrality d;
     propogation_flag := propogation_flag d; trim := trim d; to_add := to_add d;
     trim2 := trim2 d; to_add_float := to_add_float d;
     num_short_paths_flag := v; dep_prop_flag := dep_prop_flag d |}.

Definition set_dep_prop_flag (v : bool) (d : NodeData) : NodeData :=
  {| current_length := current_length d; num_shortest_paths := num_shortest_paths d;
     num_successors := num_successors d; num_predecessors := num_predecessors d;
     dependency := dependency d; betweeness_centrality := betweeness_centrality d;
     propogation_flag := propogation_flag d; trim := trim d; to_add := to_add d;
     trim2 := trim2 d; to_add_float := to_add_float d;
     num_short_paths_flag := num_short_paths_flag d; dep_prop_flag := v |}.

(** ** The graph *)

(** Modelled from the spec: the partitioned graph container ([hGraph]) is
    an external collaborator.  Local vertices are numbered from [0]; the
    vertices with outgoing edges come first.  [edge_dsts src] lists the
    destinations of the edges [edge_begin(src) .. edge_end(src)] in
    order, [getGID] gives the global id of a local vertex. *)
Record Graph : Type := {
  numNodesWithEdges : nat;
  edge_dsts : nat → list nat;
  getGID : nat → N;
  totalNodes : N;
  size : N;
}.

(** The node array, indexed by local id; [getData(v)] is [st !! v]. *)
Abbreviation State := (list NodeData).

Definition allNodesRange (st : State) : list nat := seq 0 (length st).
Definition allNodesWithEdgesRange (g : Graph) : list nat :=
  seq 0 (numNodesWithEdges g).

(** Modelled from the spec: the helpers of [Galois/Runtime] are not part
    of the sources at hand.  [Galois::min(a, b)] stores the smaller value
    in [a] and returns the value [a] had: [Galois_min] gives the new
    content of [a] and the returned value.  [Galois::add] and
    [Galois::atomicAdd] add [b] to [a] in the type of [a]; their callers
    drop the returned value, so the model keeps the new content of [a]
    only. *)
Definition Galois_min (a b : N) : N * N := (if b <? a then b else a, a).
Definition Galois_add (a b : N) : N := U32.add a b.
Definition Galois_atomicAdd (a b : N) : N := U32.add a b.
Definition Galois_add_float (a b : spec_float) : spec_float := F32.add a b.
Definition Galois_atomicAdd_float (a b : spec_float) : spec_float := F32.add a b.

(** ** InitializeGraph *)

Definition InitializeGraph_node (src_data : NodeData) : NodeData :=
  let d := set_betweeness_centrality F32.zero src_data in
  let d := set_num_shortest_paths 0 d in
  let d := set_num_successors 0 d in
  let d := set_num_predecessors 0 d in
  let d := set_dependency F32.zero d in
  set_propogation_flag false d.

Definition InitializeGraph_op (src : nat) (st : State) : State :=
  alter InitializeGraph_node src st.

Definition InitializeGraph_go (st : State) : State :=
  do_all InitializeGraph_op (allNodesRange st) st.

(** ** InitializeIteration *)

Definition InitializeIteration_node
    (local_infinity local_current_src_node gid : N) (src_data : NodeData)
  : res NodeData :=
  let is_source := gid =? local_current_src_node in
  let d :=
    if negb is_source then
      set_propogation_flag false
        (set_num_shortest_paths 0 (set_current_length local_infinity src_data))
    else
      set_propogation_flag true
        (set_num_shortest_paths 1 (set_current_length 0 src_data)) in
  let d := set_num_successors 0 d in
  _ ← assert (num_predecessors d =? 0);
  _ ← assert (num_successors d =? 0);
  let d := set_num_short_paths_flag false d in
  Ok (set_dep_prop_flag false d).

Definition InitializeIteration_op
    (g : Graph) (current_src_node : N) (src : nat) (st : State) : res State :=
  match st !! src with
  | Some src_data =>
      d ← InitializeIteration_node infinity current_src_node (getGID g src) src_data;
      Ok (<[src := d]> st)
  | None => Ok st
  end.

Definition InitializeIteration_go
    (g : Graph) (current_src_node : N) (st : State) : res State :=
  for_each (InitializeIteration_op g current_src_node) (allNodesRange st) st.

(** ** The superstep loop of a phase *)

(** The three phases share one loop,
    [do { dga.reset(); round; iterations++; accum_result = dga.reduce(); }
     while (accum_result);]
    with [iterations] a [uint32_t].  A round yields the node array and the
    reduced accumulator.  The loop yields the node array and the final
    value of [iterations]; [None] when [fuel] rounds were not enough. *)
Fixpoint do_while_accum
    (fuel : nat) (round : State → res (State * N)) (iterations : N) (st : State)
  : option (res (State * N)) :=
  match fuel with
  | O => None
  | S fuel' =>
      match round st with
      | Fault f => Some (Fault f)
      | Ok (st', accum_result) =>
          let iterations := U32.add iterations 1 in
          if accum_result =? 0 then Some (Ok (st', iterations))
          else do_while_accum fuel' round iterations st'
      end
  end.

(** ** SSSP: pull-style breadth-first distances *)

(** The accumulator [DGAccumulator<uint32_t>] travels with the node
    array through a superstep. *)
Definition SSSP_edge (src dst : nat) (w : State * N) : State * N :=
  let '(st, accum) := w in
  match st !! src, st !! dst with
  | Some src_data, Some dst_data =>
      let new_dist := U32.add 1 (current_length dst_data) in
      let '(len, old) := Galois_min (current_length src_data) new_dist in
      let st := <[src := set_current_length len src_data]> st in
      if new_dist <? old then (st, U32.add accum 1) else (st, accum)
  | _, _ => w
  end.

Definition SSSP_op (g : Graph) (src : nat) (w : State * N) : State * N :=
  do_all (SSSP_edge src) (edge_dsts g src) w.

Definition SSSP_superstep (g : Graph) (st : State) : State * N :=
  do_all (SSSP_op g) (allNodesWithEdgesRange g) (st, 0).

Definition SSSP_round (g : Graph) (st : State) : res (State * N) :=
  Ok (SSSP_superstep g st).

Definition SSSP_go (fuel : nat) (g : Graph) (st : State)
  : option (res (State * N)) :=
  do_while_accum fuel (SSSP_round g) 0 st.

(** ** PredAndSucc *)

Definition PredAndSucc_edge (src dst : nat) (st : State) : State :=
  match st !! src, st !! dst with
  | Some src_data, Some dst_data =>
      let edge_weight := 1 in
      if U32.add (current_length dst_data) edge_weight =? current_length src_data
      then
        let st :=
          <[src := set_num_predecessors
                     (Galois_add (num_predecessors src_data) 1) src_data]> st in
        match st !! dst with
        | Some dst_data =>
            <[dst := set_num_successors
                       (Galois_atomicAdd (num_successors dst_data) 1) dst_data]> st
        | None => st
        end
      else st
  | _, _ => st
  end.

Definition PredAndSucc_op (g : Graph) (local_infinity : N) (src : nat) (st : State)
  : State :=
  match st !! src with
  | Some src_data =>
      if negb (current_length src_data =? local_infinity) then
        do_all (PredAndSucc_edge src) (edge_dsts g src) st
      else st
  | None => st
  end.

Definition PredAndSucc_go (g : Graph) (st : State) : State :=
  do_all (PredAndSucc_op g infinity) (allNodesWithEdgesRange g) st.

(** ** The sigma phase: NSPTrim, NSPAdd, NumShortestPathsChanges,
       NumShortestPaths *)

Definition NSPTrim_node (src_data : NodeData) : NodeData :=
  if 0 <? trim src_data then
    set_trim 0
      (set_num_predecessors
         (U32.sub (num_predecessors src_data) (trim src_data)) src_data)
  else src_data.

Definition NSPTrim_op (src : nat) (st : State) : State :=
  alter NSPTrim_node src st.

Definition NSPTrim_go (st : State) : State :=
  do_all NSPTrim_op (allNodesRange st) st.

Definition NSPAdd_node (src_data : NodeData) : NodeData :=
  if 0 <? to_add src_data then
    set_to_add 0
      (set_num_shortest_paths
         (U32.add (num_shortest_paths src_data) (to_add src_data)) src_data)
  else src_data.

Definition NSPAdd_op (src : nat) (st : State) : State :=
  alter NSPAdd_node src st.

Definition NSPAdd_go (st : State) : State :=
  do_all NSPAdd_op (allNodesRange st) st.

Definition NumShortestPathsChanges_node (local_infinity : N) (src_data : NodeData)
  : res NodeData :=
  if negb (current_length src_data =? local_infinity) then
    if (num_predecessors src_data =? 0) && propogation_flag src_data then
      if negb (num_successors src_data =? 0) then
        let d := set_propogation_flag false src_data in
        if negb (num_short_paths_flag d) then Ok (set_num_short_paths_flag true d)
        else Ok d
      else Ok src_data
    else
      if (num_predecessors src_data =? 0) && negb (num_short_paths_flag src_data)
      then
        _ ← assert (negb (propogation_flag src_data));
        Ok (set_num_short_paths_flag true (set_propogation_flag true src_data))
      else Ok src_data
  else Ok src_data.

Definition NumShortestPathsChanges_op (local_infinity : N) (src : nat) (st : State)
  : res State :=
  match st !! src with
  | Some src_data =>
      d ← NumShortestPathsChanges_node local_infinity src_data;
      Ok (<[src := d]> st)
  | None => Ok st
  end.

Definition NumShortestPathsChanges_go (st : State) : res State :=
  for_each (NumShortestPathsChanges_op infinity) (allNodesRange st) st.

Definition NumShortestPaths_edge (src dst : nat) (w : State * N) : State * N :=
  let '(st, accum) := w in
  match st !! src, st !! dst with
  | Some src_data, Some dst_data =>
      let edge_weight := 1 in
      if propogation_flag dst_data then
        if U32.add (current_length dst_data) edge_weight =? current_length src_data
        then
          let d := set_trim (Galois_add (trim src_data) 1) src_data in
          let d :=
            set_to_add
              (Galois_add (to_add d) (U32.wrap (num_shortest_paths dst_data))) d in
          (<[src := d]> st, U32.add accum 1)
        else w
      else w
  | _, _ => w
  end.

Definition NumShortestPaths_op
    (g : Graph) (local_infinity : N) (src : nat) (w : State * N) : State * N :=
  match w.1 !! src with
  | Some src_data =>
      if negb (current_length src_data =? local_infinity) then
        if 0 <? num_predecessors src_data then
          do_all (NumShortestPaths_edge src) (edge_dsts g src) w
        else w
      else w
  | None => w
  end.

(** One round of [NumShortestPaths::go]: the propagate pass, then
    [NSPTrim], [NSPAdd] and [NumShortestPathsChanges]. *)
Definition NumShortestPaths_round (g : Graph) (st : State) : res (State * N) :=
  let '(st, accum) :=
    do_all (NumShortestPaths_op g infinity) (allNodesWithEdgesRange g) (st, 0) in
  let st := NSPTrim_go st in
  let st := NSPAdd_go st in
  st ← NumShortestPathsChanges_go st;
  Ok (st, accum).

Definition NumShortestPaths_go (fuel : nat) (g : Graph) (st : State)
  : option (res (State * N)) :=
  do_while_accum fuel (NumShortestPaths_round g) 0 st.

(** ** The delta phase: DPTrim, DPAdd, DependencyPropChanges,
       DependencyPropogation *)

Definition DPTrim_node (src_data : NodeData) : NodeData :=
  if 0 <? trim2 src_data then
    set_trim 0
      (set_num_successors
         (U32.sub (num_successors src_data) (trim2 src_data)) src_data)
  else src_data.

Definition DPTrim_op (src : nat) (st : State) : State :=
  alter DPTrim_node src st.

Definition DPTrim_go (st : State) : State :=
  do_all DPTrim_op (allNodesRange st) st.

Definition DPAdd_node (src_data : NodeData) : NodeData :=
  if F32.ltb F32.zero (to_add_float src_data) then
    set_to_add_float F32.zero
      (set_dependency
         (F32.add (dependency src_data) (to_add_float src_data)) src_data)
  else src_data.

Definition DPAdd_op (src : nat) (st : State) : State :=
  alter DPAdd_node src st.

Definition DPAdd_go (st : State) : State :=
  do_all DPAdd_op (allNodesRange st) st.

Definition DependencyPropChanges_node (local_infinity : N) (src_data : NodeData)
  : NodeData :=
  if negb (current_length src_data =? local_infinity) then
    if (num_successors src_data =? 0) && negb (dep_prop_flag src_data) then
      set_dep_prop_flag true (set_propogation_flag true src_data)
    else src_data
  else src_data.

Definition DependencyPropChanges_op (local_infinity : N) (src : nat) (st : State)
  : State :=
  alter (DependencyPropChanges_node local_infinity) src st.

Definition DependencyPropChanges_go (g : Graph) (st : State) : State :=
  do_all (DependencyPropChanges_op infinity) (allNodesWithEdgesRange g) st.

(** The value handed to the second [atomicAdd]:
    [((float)sigma_dst / (float)sigma_src) * (float)(1.0 + dep)], where
    [dep] is an unsigned integer and [1.0 + dep] is a double. *)
Definition dependency_contribution (sigma_dst sigma_src dep : N) : spec_float :=
  F32.mul (F32.div (F32.of_N sigma_dst) (F32.of_N sigma_src))
          (F64.to_f32 (F64.add F64.one (F64.of_N dep))).

Definition DependencyPropogation_edge
    (g : Graph) (local_current_src_node : N) (src dst : nat) (w : State * N)
  : res (State * N) :=
  let '(st, accum) := w in
  if getGID g dst =? local_current_src_node then Ok w
  else
    match st !! src, st !! dst with
    | Some src_data, Some dst_data =>
        let edge_weight := 1 in
        match F32.to_u32 (dependency src_data) with
        | None => Fault UndefinedBehaviour
        | Some dep =>
            if U32.add (current_length dst_data) edge_weight
               =? current_length src_data
            then
              let d :=
                set_trim2 (Galois_atomicAdd (trim2 dst_data) 1) dst_data in
              let d :=
                set_to_add_float
                  (Galois_atomicAdd_float (to_add_float d)
                     (dependency_contribution
                        (num_shortest_paths dst_data)
                        (num_shortest_paths src_data) dep)) d in
              Ok (<[dst := d]> st, U32.add accum 1)
            else Ok w
        end
    | _, _ => Ok w
    end.

Definition DependencyPropogation_op
    (g : Graph) (local_infinity local_current_src_node : N) (src : nat)
    (w : State * N) : res (State * N) :=
  match w.1 !! src with
  | Some src_data =>
      if negb (current_length src_data =? local_infinity) then
        if propogation_flag src_data then
          _ ← (if negb (num_successors src_data =? 0)
               then assert (num_successors src_data =? 0) else Ok ());
          w ← for_each (DependencyPropogation_edge g local_current_src_node src)
                (edge_dsts g src) w;
          let '(st, accum) := w in
          match st !! src with
          | Some src_data =>
              let d := set_propogation_flag false src_data in
              let d := if negb (dep_prop_flag d) then set_dep_prop_flag true d
                       else d in
              Ok (<[src := d]> st, accum)
          | None => Ok w
          end
        else Ok w
      else Ok w
  | None => Ok w
  end.

(** One round of [DependencyPropogation::go]. *)
Definition DependencyPropogation_round (g : Graph) (current_src_node : N) (st : State)
  : res (State * N) :=
  w ← for_each (DependencyPropogation_op g infinity current_src_node)
        (allNodesWithEdgesRange g) (st, 0);
  let '(st, accum) := w in
  let st := DPTrim_go st in
  let st := DPAdd_go st in
  let st := DependencyPropChanges_go g st in
  Ok (st, accum).

Definition DependencyPropogation_go
    (fuel : nat) (g : Graph) (current_src_node : N) (st : State)
  : option (res (State * N)) :=
  do_while_accum fuel (DependencyPropogation_round g current_src_node) 0 st.

(** ** BC: folding the dependency into the centrality *)

Definition BC_node (src_data : NodeData) : NodeData :=
  if F32.ltb F32.zero (dependency src_data) then
    set_dependency F32.zero
      (set_betweeness_centrality
         (Galois_add_float (betweeness_centrality src_data) (dependency src_data))
         src_data)
  else src_data.

Definition BC_op (src : nat) (st : State) : State :=
  alter BC_node src st.

(** ** BC::go: the driver over the sources *)

(** A phase loop may run out of fuel ([None]) or end in a fault; the
    driver stops at the first of either. *)
Definition and_then {A B : Type}
    (m : option (res A)) (k : A → option (res B)) : option (res B) :=
  match m with
  | None => None
  | Some (Fault f) => Some (Fault f)
  | Some (Ok a) => k a
  end.

(** The body of the [for] loop of [BC::go] for one source. *)
Definition BC_iteration (fuel : nat) (g : Graph) (current_src_node : N) (st : State)
  : option (res State) :=
  and_then (Some (InitializeIteration_go g current_src_node st)) (λ st,
  and_then (SSSP_go fuel g st) (λ '(st, _),
  let st := PredAndSucc_go g st in
  and_then (NumShortestPaths_go fuel g st) (λ '(st, _),
  and_then (DependencyPropogation_go fuel g current_src_node st) (λ '(st, _),
  Some (Ok (do_all BC_op (allNodesRange st) st)))))).

Definition loop_end (cfg : Config) (g : Graph) : N :=
  if negb (singleSourceBC cfg) then
    if negb (numberOfSources cfg =? 0) then numberOfSources cfg
    else totalNodes g
  else 1.

Definition use_random (cfg : Config) : bool :=
  negb (singleSourceBC cfg) && negb (numberOfSources cfg =? 0).

(** The choice of [current_src_node] in round [i]; the iterator over
    [random_sources] is the list of the elements not yet visited.
    Reading the iterator past the end has no defined result. *)
Definition next_source (cfg : Config) (i : N) (random_sources_iterator : list N)
  : option (N * list N) :=
  if singleSourceBC cfg then Some (startSource cfg, random_sources_iterator)
  else if use_random cfg then
    match random_sources_iterator with
    | x :: rest => Some (x, rest)
    | [] => None
    end
  else Some (i, random_sources_iterator).

(** [rounds] counts the rounds left, [i] is the loop index.  Next to the
    node array the loop records the successive values of
    [current_src_node]. *)
Fixpoint BC_loop (fuel : nat) (cfg : Config) (g : Graph) (rounds : nat) (i : N)
    (random_sources_iterator : list N) (w : State * list N)
  : option (res (State * list N)) :=
  match rounds with
  | O => Some (Ok w)
  | S rounds' =>
      match next_source cfg i random_sources_iterator with
      | None => Some (Fault UndefinedBehaviour)
      | Some (current_src_node, rest) =>
          and_then (BC_iteration fuel g current_src_node w.1) (λ st,
          BC_loop fuel cfg g rounds' (U64.wrap (i + 1)) rest
            (st, w.2 ++ [current_src_node]))
      end
  end.

Definition BC_go (fuel : nat) (cfg : Config) (g : Graph) (random_sources : list N)
    (st : State) : option (res (State * list N)) :=
  BC_loop fuel cfg g (N.to_nat (loop_end cfg g)) 0 random_sources (st, []).

(** ** main: the choice of the sampled sources *)

(** [std::set<uint64_t>]: the elements in ascending order, each once. *)
Fixpoint set_insert (x : N) (s : list N) : list N :=
  match s with
  | [] => [x]
  | y :: s' =>
      if x <? y then x :: s
      else if x =? y then s
      else y :: set_insert x s'
  end.

(** [std::minstd_rand0]: the multiplicative congruential engine with
    multiplier 16807 and modulus 2^31 - 1; a call advances the state and
    returns it.  [seed(s)] sets the state to [s mod m], or to 1 when that
    is 0. *)
Module minstd_rand0.
Definition multiplier : N := 16807.
Definition modulus : N := 2147483647.
Definition seed (s : N) : N :=
  if s `mod` modulus =? 0 then 1 else s `mod` modulus.
Definition next (x : N) : N * N :=
  let x' := (multiplier * x) `mod` modulus in (x', x').
End minstd_rand0.

Section Sources.
(** [std::uniform_int_distribution<uint64_t>]: how a draw in [[a, b]] is
    made from the engine is left to the C++ library, so it is a
    parameter: from the bounds, the engine and its state to the drawn
    value and the new state. *)
Variable uniform_int_distribution : N → N → (N → N * N) → N → N * N.

Definition r_dist (g : Graph) (gen : N) : N * N :=
  uniform_int_distribution 0 (U64.wrap (size g + U64.modulus - 1))
    minstd_rand0.next gen.

(** [while (random_sources.size() < numberOfSources)
       random_sources.insert(r_dist(r_generator));] *)
Fixpoint fill_random_sources (fuel : nat) (cfg : Config) (g : Graph)
    (random_sources : list N) (r_generator : N) : option (list N) :=
  if N.of_nat (length random_sources) <? numberOfSources cfg then
    match fuel with
    | O => None
    | S fuel' =>
        let '(x, r_generator) := r_dist g r_generator in
        fill_random_sources fuel' cfg g (set_insert x random_sources) r_generator
    end
  else Some random_sources.

Definition main_random_sources (fuel : nat) (cfg : Config) (g : Graph)
  : option (list N) :=
  let r_generator := minstd_rand0.seed 100 in
  if negb (numberOfSources cfg =? 0) then
    fill_random_sources fuel cfg g (set_insert (startSource cfg) []) r_generator
  else Some [].

(** One run of [main]: the sources, [InitializeGraph::go], [BC::go]. *)
Definition main_run (fuel : nat) (cfg : Config) (g : Graph) (st : State)
  : option (res (State * list N)) :=
  match main_random_sources fuel cfg g with
  | None => None
  | Some random_sources =>
      BC_go fuel cfg g random_sources (InitializeGraph_go st)
  end.
End Sources.

(** * Definitions used by the statements *)

(** [getData(src)] followed by an update of that one record. *)
Definition update_node (f : nat → NodeData → res NodeData) (src : nat) (st : State)
  : res State :=
  match st !! src with
  | Some src_data => d ← f src src_data; Ok (<[src := d]> st)
  | None => Ok st
  end.

(** The records [f k d0, f (k+1) d1, ...], up to the first fault. *)
Fixpoint map_nodes (f : nat → NodeData → res NodeData) (k : nat) (st : State)
  : res State :=
  match st with
  | [] => Ok []
  | d :: st' => d' ← f k d; r ← map_nodes f (S k) st'; Ok (d' :: r)
  end.

(** What [InitializeIteration] leaves in a record when it completes. *)
Definition reset_node (local_infinity current_src_node gid : N) (d : NodeData)
  : NodeData :=
  {| current_length := if gid =? current_src_node then 0 else local_infinity;
     num_shortest_paths := if gid =? current_src_node then 1 else 0;
     num_successors := 0;
     num_predecessors := num_predecessors d;
     dependency := dependency d;
     betweeness_centrality := betweeness_centrality d;
     propogation_flag := gid =? current_src_node;
     trim := trim d; to_add := to_add d; trim2 := trim2 d;
     to_add_float := to_add_float d;
     num_short_paths_flag := false; dep_prop_flag := false |}.

(** A record with every counter zero, every flag clear and both scores
    [+0]; the examples start from it. *)
Definition zero_node : NodeData :=
  {| current_length := 0; num_shortest_paths := 0; num_successors := 0;
     num_predecessors := 0; dependency := F32.zero;
     betweeness_centrality := F32.zero; propogation_flag := false;
     trim := 0; to_add := 0; trim2 := 0; to_add_float := F32.zero;
     num_short_paths_flag := false; dep_prop_flag := false |}.

(** A record that enters the reset with a successor count left over. *)
Definition leftover_successors : NodeData := set_num_successors 5 zero_node.

(** A record that enters [DPTrim] with one pending decrement. *)
Definition pending_trim2 : NodeData :=
  set_trim 7 (set_trim2 1 (set_num_successors 1 zero_node)).

(** Two vertices with global ids 0 and 1 and no edges. *)
Definition two_isolated : Graph :=
  {| numNodesWithEdges := 0; edge_dsts := λ _, []; getGID := N.of_nat;
     totalNodes := 2; size := 2 |}.

(** ** The shortest-path DAG as the operators see it *)

(** The test [dst_data.current_length + edge_weight ==
    src_data.current_length] of the operators, in [uint32_t]. *)
Definition on_dag (dst_data src_data : NodeData) : bool :=
  U32.add (current_length dst_data) 1 =? current_length src_data.

(** The out-edges of a vertex with record [src_data] that the sigma
    phase consumes in this round: the destination holds the token and
    precedes the vertex on the DAG. *)
Definition feeds (st : State) (src_data : NodeData) (dst : nat) : bool :=
  match st !! dst with
  | Some dst_data => propogation_flag dst_data && on_dag dst_data src_data
  | None => false
  end.

Definition sigma_of (st : State) (dst : nat) : N :=
  match st !! dst with
  | Some dst_data => num_shortest_paths dst_data
  | None => 0
  end.

Definition sum_N (l : list N) : N := foldr N.add 0 l.

(** A vertex whose record says it was reached. *)
Definition reached (st : State) (s : nat) : bool :=
  match st !! s with
  | Some src_data => negb (current_length src_data =? infinity)
  | None => false
  end.

(** The out-edge [(s, t)] lies on the DAG: [dist(t) + 1 = dist(s)]. *)
Definition dag_edge (st : State) (s t : nat) : bool :=
  match st !! s, st !! t with
  | Some src_data, Some dst_data => on_dag dst_data src_data
  | _, _ => false
  end.

(** The DAG edges leaving [s], one for each parallel edge. *)
Definition out_dag_edges (g : Graph) (st : State) (s : nat) : list (nat * nat) :=
  if reached st s then
    pair s <$> filter (λ t, dag_edge st s t = true) (edge_dsts g s)
  else [].

(** All DAG edges, in the order the phase walks them. *)
Definition dag_edges (g : Graph) (st : State) : list (nat * nat) :=
  allNodesWithEdgesRange g ≫= out_dag_edges g st.

Definition count_out (E : list (nat * nat)) (v : nat) : N :=
  N.of_nat (length (filter (λ e, e.1 = v) E)).
Definition count_in (E : list (nat * nat)) (v : nat) : N :=
  N.of_nat (length (filter (λ e, e.2 = v) E)).

(** One more predecessor for the source of an edge, one more successor
    for its destination. *)
Definition count_edge (e : nat * nat) (st : State) : State :=
  alter (λ d, set_num_successors (U32.add (num_successors d) 1) d) e.2
    (alter (λ d, set_num_predecessors (U32.add (num_predecessors d) 1) d) e.1 st).

(** The record of [v] after the edges [E] were counted. *)
Definition counted (E : list (nat * nat)) (v : nat) (d : NodeData) : NodeData :=
  set_num_successors (U32.wrap (num_successors d + count_in E v))
    (set_num_predecessors (U32.wrap (num_predecessors d + count_out E v)) d).

(** The number of edges of [E] whose end picked by [key] is [v]. *)
Definition count_key (key : nat * nat → nat) (E : list (nat * nat)) (v : nat) : N :=
  N.of_nat (length (filter (λ e, key e = v) E)).

(** Both counters of a record fit their type. *)
Definition counts_in_range (d : NodeData) : Prop :=
  num_predecessors d < U32.modulus ∧ num_successors d < U32.modulus.


(** The measure of the BFS loop: the sum of all distances. *)
Definition sum_dist (st : State) : N := sum_N (current_length <$> st).

(** A step of the BFS pass on a node array and an accumulator: it either
    leaves the accumulator alone and the sum no larger, or strictly
    lowers the sum. *)
Definition lowers (w w' : State * N) : Prop :=
  length w'.1 = length w.1
  ∧ sum_dist w'.1 ≤ sum_dist w.1
  ∧ (w'.2 ≠ w.2 → sum_dist w'.1 < sum_dist w.1).


(** ** Runs of the superstep loop *)

Definition with_maxIterations (m : N) (cfg : Config) : Config :=
  {| maxIterations := m; verify := verify cfg;
     singleSourceBC := singleSourceBC cfg; startSource := startSource cfg;
     numberOfSources := numberOfSources cfg |}.

(** [k] rounds in a row, each of which left a nonzero accumulator. *)
Inductive rounds_with_work (round : State → res (State * N))
  : nat → State → State → Prop :=
| no_round st : rounds_with_work round 0 st st
| one_more_round k st st1 a st' :
    round st = Ok (st1, a) → a ≠ 0 →
    rounds_with_work round k st1 st' →
    rounds_with_work round (S k) st st'.

(** The loop is left after round [k + 1], the first one to read zero. *)
Definition ends_after (round : State → res (State * N)) (fuel : nat)
    (st st' : State) (iterations : N) : Prop :=
  ∃ k st_last,
    (k < fuel)%nat
    ∧ rounds_with_work round k st st_last
    ∧ round st_last = Ok (st', 0)
    ∧ iterations = U32.wrap (N.of_nat (S k)).

(** Three vertices in a chain, each pulling from the next; the source is
    the last one, global id 2. *)
Definition chain3 : Graph :=
  {| numNodesWithEdges := 2;
     edge_dsts := λ v, match v with 0%nat => [1%nat] | 1%nat => [2%nat] | _ => [] end;
     getGID := N.of_nat; totalNodes := 3; size := 3 |}.

Definition chain3_reset : State :=
  [reset_node infinity 2 0 zero_node; reset_node infinity 2 1 zero_node;
   reset_node infinity 2 2 zero_node].

Definition chain3_bfs : State :=
  [set_current_length 2 (reset_node infinity 2 0 zero_node);
   set_current_length 1 (reset_node infinity 2 1 zero_node);
   reset_node infinity 2 2 zero_node].

(** A configuration that asks for a cap of two iterations. *)
Definition capped_config : Config :=
  {| maxIterations := 2; verify := false; singleSourceBC := true;
     startSource := 2; numberOfSources := 0 |}.

(** ** The sampled sources *)

(** The first [n] values that [r_dist(r_generator)] returns from engine
    state [gen] on. *)
Fixpoint draws (uid : N → N → (N → N * N) → N → N * N) (g : Graph)
    (n : nat) (gen : N) : list N :=
  match n with
  | O => []
  | S n' => let '(x, gen') := r_dist uid g gen in x :: draws uid g n' gen'
  end.

(** The set that holds the elements of [l], inserted one by one. *)
Definition set_of (l : list N) : list N := foldl (λ s x, set_insert x s) [] l.

(** The set of sources after [n] draws: [startSource] and the first [n]
    values drawn from the engine seeded with 100. *)
Definition sources_after (uid : N → N → (N → N * N) → N → N * N)
    (cfg : Config) (g : Graph) (n : nat) : list N :=
  set_of (startSource cfg :: draws uid g n (minstd_rand0.seed 100)).

(** The [n]-th draw is the first to bring the set to [numberOfSources]
    elements: the set is too small after each smaller number of draws
    and large enough after [n]. *)
Definition first_full (uid : N → N → (N → N * N) → N → N * N)
    (cfg : Config) (g : Graph) (n : nat) : bool :=
  forallb (λ m, N.of_nat (length (sources_after uid cfg g m))
                <? numberOfSources cfg) (seq 0 n)
  && (numberOfSources cfg <=? N.of_nat (length (sources_after uid cfg g n))).

(** Following the specification's words ("the order of iteration is the
    set's ascending order"), the driver iterating over the sources in
    order: one iteration of [BC::go] for each element of the list, from
    the first to the last, stopping at the first that does not return a
    node array. *)
Fixpoint visit_in_order (fuel : nat) (g : Graph) (sources : list N) (st : State)
  : option (res State) :=
  match sources with
  | [] => Some (Ok st)
  | current_src_node :: rest =>
      and_then (BC_iteration fuel g current_src_node st)
        (visit_in_order fuel g rest)
  end.

(** ** The distribution of the GNU C++ library *)

(** [a - b] on [uint64_t]. *)
Definition U64_sub (a b : N) : N :=
  U64.wrap (U64.wrap a + U64.modulus - U64.wrap b).

(** [std::uniform_int_distribution<uint64_t>::operator()] belongs to the
    C++ library, not to the sources at hand, and the language leaves to
    the library how a draw is made from the engine.  This is the
    operator of the GNU library (bits/uniform_int_dist.h) for an engine
    whose values span neither 2^32 nor 2^64, with the library's names;
    [urngmin] and [urngmax] are the engine's [min()] and [max()], the
    arithmetic is that of [uint64_t], and [fuel] bounds the rounds of
    the two loops and the depth of the recursion.

    [do __ret = __uctype(__urng()) - __urngmin; while (__ret >= __past);] *)
Fixpoint downscale_retry (fuel : nat) (urngmin past : N) (urng : N → N * N)
    (s : N) : option (N * N) :=
  match fuel with
  | O => None
  | S fuel' =>
      let '(x, s) := urng s in
      let ret := U64_sub x urngmin in
      if past <=? ret then downscale_retry fuel' urngmin past urng s
      else Some (ret, s)
  end.

(** [do { __tmp = __uerngrange * operator()(__urng, param_type(0,
          __urange / __uerngrange));
         __ret = __tmp + (__uctype(__urng()) - __urngmin); }
    while (__ret > __urange || __ret < __tmp);]
    where [high] is the recursive call. *)
Fixpoint upscale_retry (fuel : nat) (high : N → option (N * N))
    (urngmin uerngrange urange : N) (urng : N → N * N) (s : N)
  : option (N * N) :=
  match fuel with
  | O => None
  | S fuel' =>
      match high s with
      | None => None
      | Some (h, s) =>
          let tmp := U64.wrap (uerngrange * h) in
          let '(x, s) := urng s in
          let ret := U64.wrap (tmp + U64_sub x urngmin) in
          if (urange <? ret) || (ret <? tmp)
          then upscale_retry fuel' high urngmin uerngrange urange urng s
          else Some (ret, s)
      end
  end.

(** The three cases of the operator: an engine range wider than the
    requested one is scaled down, a narrower one is scaled up with a
    second draw for the high part, an equal one is used as it is. *)
Fixpoint gnu_uniform_int (fuel : nat) (urngmin urngmax a b : N)
    (urng : N → N * N) (s : N) : option (N * N) :=
  match fuel with
  | O => None
  | S fuel' =>
      let urngrange := urngmax - urngmin in
      let urange := U64_sub b a in
      r ← (if urange <? urngrange then
             let uerange := urange + 1 in
             let scaling := urngrange / uerange in
             let past := uerange * scaling in
             '(ret, s) ← downscale_retry fuel' urngmin past urng s;
             Some (ret / scaling, s)
           else if urngrange <? urange then
             let uerngrange := U64.wrap (urngrange + 1) in
             upscale_retry fuel'
               (gnu_uniform_int fuel' urngmin urngmax 0 (urange / uerngrange) urng)
               urngmin uerngrange urange urng s
           else
             let '(x, s) := urng s in Some (U64_sub x urngmin, s));
      Some (U64.wrap (r.1 + a), r.2)
  end.

(** [std::minstd_rand0::min()] and [max()]. *)
Definition minstd_rand0_min : N := 1.
Definition minstd_rand0_max : N := minstd_rand0.modulus - 1.

(** The distribution over [std::minstd_rand0], in the form [main] is
    stated for.  A draw that has not ended within [fuel] rounds has no
    value in the program; it is reported as [a] here. *)
Definition gnu_uniform_int_distribution (fuel : nat)
  : N → N → (N → N * N) → N → N * N :=
  λ a b urng s,
    default (a, s) (gnu_uniform_int fuel minstd_rand0_min minstd_rand0_max a b urng s).

(** ** The period of the engine *)

(** [a ^ e mod p] by repeated squaring. *)
Fixpoint pow_mod (a : N) (e : positive) (p : N) : N :=
  match e with
  | xH => a `mod` p
  | xO e' => let r := pow_mod a e' p in (r * r) `mod` p
  | xI e' => let r := pow_mod a e' p in (a * ((r * r) `mod` p)) `mod` p
  end.

(** The state of [std::minstd_rand0] after [j] calls from state [s]. *)
Definition minstd_rand0_after (j : nat) (s : N) : N :=
  Nat.iter j (λ x, (minstd_rand0.next x).2) s.

Definition sampled_config : Config :=
  {| maxIterations := 10000; verify := false; singleSourceBC := false;
     startSource := 0; numberOfSources := 5 |}.

(** A graph of 1000 vertices; only its size matters to the sampling. *)
Definition thousand : Graph :=
  {| numNodesWithEdges := 0; edge_dsts := λ _, []; getGID := N.of_nat;
     totalNodes := 1000; size := 1000 |}.

(** ** A graph on which the dependency of a vertex is not an integer *)

(** Global ids: 0 is the source; 0 -> 1, 1 -> 2, 1 -> 3, 2 -> 4, 3 -> 4.
    The operators pull, so [edge_dsts] lists for each vertex the vertices
    it is reached from.  Local ids 0, 1, 2, 3, 4 stand for the global ids
    1, 2, 3, 4, 0: the source has no edge to pull along and comes last. *)
Definition kite : Graph :=
  {| numNodesWithEdges := 4;
     edge_dsts := λ v, match v with
                       | 0%nat => [4%nat]
                       | 1%nat => [0%nat]
                       | 2%nat => [0%nat]
                       | 3%nat => [1%nat; 2%nat]
                       | _ => []
                       end;
     getGID := λ v, match v with
                    | 0%nat => 1 | 1%nat => 2 | 2%nat => 3 | 3%nat => 4 | _ => 0
                    end;
     totalNodes := 5; size := 5 |}.

Definition single_source_config : Config :=
  {| maxIterations := 10000; verify := false; singleSourceBC := true;
     startSource := 0; numberOfSources := 0 |}.

(** The phases of one source up to the end of the sigma phase. *)
Definition through_sigma (fuel : nat) (g : Graph) (current_src_node : N) (st : State)
  : option (res State) :=
  and_then (Some (InitializeIteration_go g current_src_node st)) (λ st,
  and_then (SSSP_go fuel g st) (λ '(st, _),
  and_then (NumShortestPaths_go fuel g (PredAndSucc_go g st)) (λ '(st, _),
  Some (Ok st)))).

Definition state_or_empty (r : option (res State)) : State :=
  match r with Some (Ok st) => st | _ => [] end.

(** The node array of [kite] when the delta phase starts, and after its
    first round. *)
Definition kite_sigma : State :=
  Eval vm_compute in
    state_or_empty
      (through_sigma 10 kite 0 (InitializeGraph_go (replicate 5 zero_node))).

Definition kite_round1 : State :=
  Eval vm_compute in
    state_or_empty
      (Some (match DependencyPropogation_round kite 0 kite_sigma with
             | Ok (st, _) => Ok st
             | Fault f => Fault f
             end)).

(** 0.5, 1.5, 2 and 3 in binary32. *)
Definition f32_half : spec_float := S754_finite false 8388608 (-24).
Definition f32_one_and_half : spec_float := S754_finite false 12582912 (-23).
Definition f32_two : spec_float := S754_finite false 8388608 (-22).
Definition f32_three : spec_float := S754_finite false 12582912 (-22).

(** ** The two scores and the fields the phases work on *)

(** A view of a record that does not look at the integer fields and the
    flags the phases work on: the distance, the path count, both
    counters, the three flags and the three integer delta buffers.  What
    is left are the floats: [dependency], [betweeness_centrality] and the
    delta buffer [to_add_float]. *)
Definition ignores_work {A : Type} (proj : NodeData → A) : Prop :=
  (∀ v d, proj (set_current_length v d) = proj d)
  ∧ (∀ v d, proj (set_num_shortest_paths v d) = proj d)
  ∧ (∀ v d, proj (set_num_successors v d) = proj d)
  ∧ (∀ v d, proj (set_num_predecessors v d) = proj d)
  ∧ (∀ v d, proj (set_propogation_flag v d) = proj d)
  ∧ (∀ v d, proj (set_trim v d) = proj d)
  ∧ (∀ v d, proj (set_to_add v d) = proj d)
  ∧ (∀ v d, proj (set_trim2 v d) = proj d)
  ∧ (∀ v d, proj (set_num_short_paths_flag v d) = proj d)
  ∧ (∀ v d, proj (set_dep_prop_flag v d) = proj d).

(** ** Rounding *)

(** What [binary_round_aux] returns for a final mantissa and exponent. *)
Definition build (prec emax : Z) (s : bool) (m e : Z) : spec_float :=
  match m with
  | Z0 => S754_zero s
  | Z.pos p => if (e <=? emax - prec)%Z then S754_finite s p e else S754_infinity s
  | Z.neg _ => S754_nan
  end.

(** The number of bits a mantissa [m] at exponent [e] has to lose. *)
Definition excess_bits (prec emax m e : Z) : Z :=
  Z.max 0 (fexp prec emax (Zdigits2 m + e) - e).

(** ** The states in which a source iteration starts *)

(** The node array after [InitializeGraph::go], and after every completed
    source iteration that started from such an array.  The memory
    [InitializeGraph] finds is arbitrary but typed: the delta buffer
    [to_add_float], which it does not write, holds a binary32 value. *)
Inductive iteration_start (g : Graph) : State → Prop :=
| start_after_load st0 :
    Forall (λ d, F32.valid (to_add_float d) = true) st0 →
    iteration_start g (InitializeGraph_go st0)
| start_after_source fuel current_src_node st st' :
    iteration_start g st →
    BC_iteration fuel g current_src_node st = Some (Ok st') →
    iteration_start g st'.

(** [x >= 0] and [x == 0] as the C++ comparisons read them. *)
Definition f32_nonneg (x : spec_float) : Prop := F32.leb F32.zero x = true.
Definition f32_is_zero (x : spec_float) : Prop := F32.eqb x F32.zero = true.

(** The three floats of a record, and what holds of them throughout a
    run: each is a binary32 value and the centrality is not negative. *)
Definition floats (d : NodeData) : spec_float * spec_float * spec_float :=
  (dependency d, to_add_float d, betweeness_centrality d).

Definition floats_ok (x : spec_float * spec_float * spec_float) : Prop :=
  F32.valid x.1.1 = true ∧ F32.valid x.1.2 = true
  ∧ F32.valid x.2 = true ∧ f32_nonneg x.2.

(** The node array of [kite] at three more points of the iteration for
    source 0: after the BFS, after the counting of predecessors and
    successors, and at the end. *)
Definition kite_loaded : State := InitializeGraph_go (replicate 5 zero_node).

Definition kite_bfs : State :=
  Eval vm_compute in
    state_or_empty
      (and_then (Some (InitializeIteration_go kite 0 kite_loaded)) (λ st,
       and_then (SSSP_go 10 kite st) (λ '(st, _), Some (Ok st)))).

Definition kite_counted : State := Eval vm_compute in PredAndSucc_go kite kite_bfs.

Definition kite_final : State :=
  Eval vm_compute in state_or_empty (BC_iteration 10 kite 0 kite_loaded).

(** No vertex has a smaller centrality in [st'] than in [st]. *)
Definition bc_no_smaller (st st' : State) : Prop :=
  length st' = length st
  ∧ ∀ v d, st !! v = Some d →
      ∃ d', st' !! v = Some d'
        ∧ F32.leb (betweeness_centrality d) (betweeness_centrality d') = true.

(** ** Walks along the edges the BFS pulls over *)

(** Every out-edge of the vertices with edges, in the order a pass walks
    them. *)
Definition all_edges (g : Graph) : list (nat * nat) :=
  allNodesWithEdgesRange g ≫= λ s, pair s <$> edge_dsts g s.

(** An out-edge [(s, t)] whose two ends have a record in a node array of
    [n] records. *)
Definition bfs_edge (g : Graph) (n : nat) (s t : nat) : Prop :=
  (s < numNodesWithEdges g)%nat ∧ t ∈ edge_dsts g s ∧ (s < n)%nat ∧ (t < n)%nat.

(** [walk g n v u k]: [k] edges lead from [v] to [u]. *)
Inductive walk (g : Graph) (n : nat) : nat → nat → N → Prop :=
| walk_here v : (v < n)%nat → walk g n v v 0
| walk_edge s t u k :
    bfs_edge g n s t → walk g n t u k → walk g n s u (k + 1).

(** What the BFS loop keeps of the node array [st0] it started from: no
    distance is above [infinity] or above what it was, and each one is
    the length of a walk added to the first distance of the vertex the
    walk ends in. *)
Definition bfs_sound (g : Graph) (st0 st : State) : Prop :=
  length st = length st0
  ∧ ∀ v d, st !! v = Some d →
      current_length d ≤ infinity
      ∧ (∃ d00, st0 !! v = Some d00 ∧ current_length d ≤ current_length d00)
      ∧ ∃ u k d0, walk g (length st0) v u k ∧ st0 !! u = Some d0
                  ∧ current_length d = current_length d0 + k.

(** No edge of the list can lower the distance of its source. *)
Definition relaxed (st : State) (E : list (nat * nat)) : Prop :=
  ∀ e ds dt, e ∈ E → st !! e.1 = Some ds → st !! e.2 = Some dt →
    current_length ds ≤ U32.add 1 (current_length dt).

(** The node array of [kite] after the reset for source 0. *)
Definition kite_reset : State :=
  Eval vm_compute in
    state_or_empty (Some (InitializeIteration_go kite 0 kite_loaded)).

(** The node array of [kite] when the delta phase of source 0 ends. *)
Definition kite_delta : State :=
  Eval vm_compute in
    state_or_empty
      (and_then (DependencyPropogation_go 10 kite 0 kite_sigma) (λ '(st, _),
       Some (Ok st))).

(** No vertex has a larger distance in [st'] than in [st]. *)
Definition dist_no_larger (st st' : State) : Prop :=
  length st' = length st
  ∧ ∀ v d d', st !! v = Some d → st' !! v = Some d' →
      current_length d' ≤ current_length d.

(** The fields the sigma phase does not write, and those the delta phase
    does not write. *)
Definition outside_sigma (d : NodeData) :=
  (current_length d, num_successors d, dependency d, betweeness_centrality d,
   trim2 d, to_add_float d, dep_prop_flag d).

Definition outside_delta (d : NodeData) :=
  (current_length d, num_shortest_paths d, num_predecessors d,
   betweeness_centrality d, to_add d, num_short_paths_flag d).

(** The fields the BFS does not write. *)
Definition outside_bfs (d : NodeData) :=
  (set_current_length 0 d).

(** ** The delta operator on one vertex *)

(** The destinations of the out-edges of [src] that the delta operator
    updates, one for each parallel edge: the destination is not a
    replica of the current source and precedes [src] on the DAG. *)
Definition delta_targets (g : Graph) (current_src_node : N) (st : State)
    (src : nat) : list nat :=
  filter (λ t, negb (getGID g t =? current_src_node) && dag_edge st src t = true)
    (edge_dsts g src).

(** What one such edge adds at its destination, for a vertex with path
    count [sigma_src] and integer dependency [dep]. *)
Definition delta_bump (sigma_src dep : N) (dst_data : NodeData) : NodeData :=
  set_to_add_float
    (F32.add (to_add_float dst_data)
       (dependency_contribution (num_shortest_paths dst_data) sigma_src dep))
    (set_trim2 (U32.add (trim2 dst_data) 1) dst_data).

(** The flags of a vertex once its edges are done. *)
Definition delta_done (src_data : NodeData) : NodeData :=
  set_dep_prop_flag true (set_propogation_flag false src_data).

(** An out-edge of [src] on which the operator reads the dependency. *)
Definition reads_dependency (g : Graph) (current_src_node : N) (st : State)
    (t : nat) : bool :=
  negb (getGID g t =? current_src_node) && bool_decide (is_Some (st !! t)).

(** What the edge loop of the operator keeps of the node array [st0] it
    started from: the fields it reads. *)
Definition delta_reads (st0 st : State) : Prop :=
  current_length <$> st = current_length <$> st0
  ∧ num_shortest_paths <$> st = num_shortest_paths <$> st0
  ∧ dependency <$> st = dependency <$> st0.

(** The record of the vertex with global id 2 of [kite] after the first
    round of the delta phase. *)
Definition kite_round1_gid2 : NodeData :=
  Eval vm_compute in default zero_node (kite_round1 !! 1%nat).

(** The node array of [two_isolated] after a run over all sources. *)
Definition two_isolated_final : State :=
  Eval vm_compute in
    match BC_go 5 default_config two_isolated [] [zero_node; zero_node] with
    | Some (Ok (st, _)) => st
    | _ => []
    end.

(** ** Sanity: the extreme values and the sum of the centrality *)

(** [(double)f] for a float [f]: every binary32 value is a binary64
    value. *)
Definition f32_to_f64 (f : spec_float) : spec_float :=
  match f with
  | S754_finite s m e => binary_round F64.prec F64.emax s m e
  | _ => f
  end.

(** [std::numeric_limits<float>::max()]. *)
Definition FLT_MAX : spec_float := S754_finite false 16777215 104.

(** The two static members of [Sanity] and its accumulator of doubles. *)
Record SanityState : Type := {
  current_max : spec_float;
  current_min : spec_float;
  DGAccumulator_sum : spec_float;
}.

(** The values [main] stores before it calls [Sanity::go], which resets
    the accumulator. *)
Definition Sanity_start : SanityState :=
  {| current_max := F32.of_N 0;
     current_min := F32.div FLT_MAX (F32.of_N 4);
     DGAccumulator_sum := F64.of_N 0 |}.

(** Modelled from the spec: [isOwned] and the range [begin() .. end()]
    belong to the graph container, which is not among the sources at
    hand; both are parameters, the range as the list [nodes] of the
    vertices it walks. *)
Definition Sanity_op (isOwned : N → bool) (g : Graph) (st : State) (src : nat)
    (a : SanityState) : SanityState :=
  match st !! src with
  | Some sdata =>
      if isOwned (getGID g src) then
        let bc := betweeness_centrality sdata in
        {| current_max := if F32.ltb (current_max a) bc then bc else current_max a;
           current_min := if F32.ltb bc (current_min a) then bc else current_min a;
           DGAccumulator_sum := F64.add (DGAccumulator_sum a) (f32_to_f64 bc) |}
      else a
  | None => a
  end.

(** [Sanity::go]: the maximum, the minimum and the sum it prints. *)
Definition Sanity_go (isOwned : N → bool) (g : Graph) (nodes : list nat)
    (st : State) : SanityState :=
  do_all (Sanity_op isOwned g st) nodes Sanity_start.

(** The vertices of the range that [Sanity] looks at. *)
Definition owned_in (isOwned : N → bool) (g : Graph) (nodes : list nat)
    (st : State) (v : nat) (d : NodeData) : Prop :=
  v ∈ nodes ∧ st !! v = Some d ∧ isOwned (getGID g v) = true.

(** The record of the vertex with global id 4 of [kite] after the BFS. *)
Definition kite_bfs_gid4 : NodeData :=
  Eval vm_compute in default zero_node (kite_bfs !! 3%nat).

(** ** The sigma phase, round by round *)

(** The fields the propagate pass of the sigma phase reads. *)
Definition sigma_reads (d : NodeData) : N * N * bool * N :=
  (current_length d, num_shortest_paths d, propogation_flag d, num_predecessors d).

(** The destinations of the out-edges of [s] that the propagate pass
    consumes in the node array [st]. *)
Definition fed (g : Graph) (st : State) (s : nat) : list nat :=
  match st !! s with
  | Some src_data =>
      if negb (current_length src_data =? infinity)
         && (0 <? num_predecessors src_data)
      then filter (λ t, feeds st src_data t = true) (edge_dsts g s)
      else []
  | None => []
  end.

(** What the propagate pass leaves in the record of [s]. *)
Definition sigma_take (g : Graph) (st : State) (s : nat) (d : NodeData) : NodeData :=
  set_to_add (U32.wrap (to_add d + sum_N (sigma_of st <$> fed g st s)))
    (set_trim (U32.wrap (trim d + N.of_nat (length (fed g st s)))) d).

(** What [NumShortestPathsChanges] leaves in a record; its assertion
    cannot fail. *)
Definition sigma_changes (d : NodeData) : NodeData :=
  if negb (current_length d =? infinity) then
    if (num_predecessors d =? 0) && propogation_flag d then
      if negb (num_successors d =? 0) then
        set_num_short_paths_flag true (set_propogation_flag false d)
      else d
    else if (num_predecessors d =? 0) && negb (num_short_paths_flag d) then
      set_num_short_paths_flag true (set_propogation_flag true d)
    else d
  else d.

(** The record of [s] after one round of the phase. *)
Definition sigma_round_node (g : Graph) (st : State) (s : nat) (d : NodeData)
  : NodeData :=
  sigma_changes (NSPAdd_node (NSPTrim_node (sigma_take g st s d))).

(** The DAG predecessors of [v]: the destinations of its DAG edges. *)
Definition dag_preds (g : Graph) (st : State) (v : nat) : list nat :=
  (out_dag_edges g st v).*2.

(** The path count of a reached vertex obeys the recurrence of the
    shortest-path DAG: 1 at distance 0, the sum over the predecessors
    elsewhere, in [uint32_t]. *)
Definition sigma_ok (g : Graph) (st0 st : State) (v : nat) (d : NodeData) : Prop :=
  (current_length d = 0 → num_shortest_paths d = 1)
  ∧ (0 < current_length d →
     num_shortest_paths d
     = U32.wrap (sum_N (sigma_of st <$> dag_preds g st0 v))).

(** The node array when the sigma phase starts: distances of a BFS, both
    buffers empty, the counters as [PredAndSucc] leaves them, the token
    and a path count of 1 at distance 0 only, and a DAG predecessor for
    every other reached vertex. *)
Definition sigma_ready (g : Graph) (st0 : State) : Prop :=
  N.of_nat (length (all_edges g)) < U32.modulus
  ∧ ∀ v d, st0 !! v = Some d →
      current_length d ≤ infinity
      ∧ trim d = 0 ∧ to_add d = 0 ∧ num_short_paths_flag d = false
      ∧ num_predecessors d = count_out (dag_edges g st0) v
      ∧ num_successors d = count_in (dag_edges g st0) v
      ∧ (current_length d = 0 →
         num_shortest_paths d = 1 ∧ propogation_flag d = true)
      ∧ (current_length d ≠ 0 →
         num_shortest_paths d = 0 ∧ propogation_flag d = false)
      ∧ (0 < current_length d < infinity →
         0 < count_out (dag_edges g st0) v).

(** The node array when round [r] of the phase starts: the vertices at
    distance [r] hold the token, those nearer are done and those farther
    wait with all their predecessors uncounted. *)
Definition sigma_level (g : Graph) (st0 : State) (r : N) (st : State) : Prop :=
  length st = length st0
  ∧ ∀ v d0, st0 !! v = Some d0 →
      ∃ d, st !! v = Some d
        ∧ current_length d = current_length d0
        ∧ num_successors d = num_successors d0
        ∧ trim d = 0 ∧ to_add d = 0
        ∧ (current_length d0 = infinity → d = d0)
        ∧ (current_length d0 < infinity →
           (current_length d0 ≤ r →
            num_predecessors d = 0 ∧ sigma_ok g st0 st v d)
           ∧ (current_length d0 < r →
              (propogation_flag d = true → num_successors d = 0)
              ∧ (propogation_flag d = false → num_short_paths_flag d = true))
           ∧ (current_length d0 = r → propogation_flag d = true)
           ∧ (r < current_length d0 →
              num_predecessors d = count_out (dag_edges g st0) v
              ∧ num_shortest_paths d = 0 ∧ propogation_flag d = false
              ∧ num_short_paths_flag d = false)).

(** What the phase leaves: no predecessor uncounted, and path counts
    that obey the recurrence. *)
Definition sigma_done (g : Graph) (st0 st : State) : Prop :=
  length st = length st0
  ∧ ∀ v d0, st0 !! v = Some d0 →
      ∃ d, st !! v = Some d
        ∧ current_length d = current_length d0
        ∧ trim d = 0 ∧ to_add d = 0
        ∧ (current_length d0 = infinity → d = d0)
        ∧ (current_length d0 < infinity →
           num_predecessors d = 0 ∧ sigma_ok g st0 st v d).

(** The counters and the integer buffers of the sigma phase are zero:
    what the reset asserts of [num_predecessors], and what the sigma
    phase needs of [trim] and [to_add], which no initialisation
    writes. *)
Definition counters_clean (d : NodeData) : Prop :=
  num_predecessors d = 0 ∧ trim d = 0 ∧ to_add d = 0.

(** The path counts obey the recurrence of the shortest-path DAG of the
    node array itself, no predecessor is left uncounted and the two
    integer buffers are empty. *)
Definition paths_counted (g : Graph) (st : State) : Prop :=
  ∀ v d, st !! v = Some d →
    current_length d ≤ infinity
    ∧ num_predecessors d = 0 ∧ trim d = 0 ∧ to_add d = 0
    ∧ (current_length d = 0 → num_shortest_paths d = 1)
    ∧ (0 < current_length d < infinity →
       num_shortest_paths d = U32.wrap (sum_N (sigma_of st <$> dag_preds g st v)))
    ∧ (current_length d = infinity → num_shortest_paths d = 0).

(** ** The measure of the delta phase *)

(** A vertex that may still pass its dependency on: it holds the token
    or has not been marked by [dep_prop_flag]. *)
Definition token_pending (d : NodeData) : bool :=
  propogation_flag d || negb (dep_prop_flag d).

Definition pending_count (st : State) : nat :=
  length (filter (λ d, token_pending d = true) st).

(** No vertex is pending in [st'] that was not pending in [st]. *)
Definition pending_le (st st' : State) : Prop :=
  length st' = length st
  ∧ ∀ v d d', st !! v = Some d → st' !! v = Some d' →
      token_pending d' = true → token_pending d = true.

(** The two flags of a record. *)
Definition token_flags (d : NodeData) : bool * bool :=
  (propogation_flag d, dep_prop_flag d).

(** ** The vertices an iteration passes by *)

(** What the delta phase keeps at a vertex [v] that is a replica of the
    current source or is unreached: distances of a BFS everywhere, and
    at [v] the three floats of the record [d0], none of whose buffers is
    positive. *)
Definition passed_by (g : Graph) (current_src_node : N) (v : nat)
    (d0 : NodeData) (st : State) : Prop :=
  Forall (λ d, current_length d ≤ infinity) st
  ∧ ∃ d, st !! v = Some d
      ∧ floats d = floats d0
      ∧ (getGID g v = current_src_node ∨ current_length d = infinity).

(** * Properties *)

(** ** Passes over a range *)

Lemma do_all_cons {A S : Type} (body : A → S → S) x l s :
  do_all body (x :: l) s = do_all body l (body x s).
Proof. reflexivity. Qed.

Lemma do_all_app {A S : Type} (body : A → S → S) l1 l2 s :
  do_all body (l1 ++ l2) s = do_all body l2 (do_all body l1 s).
Proof. unfold do_all. apply foldl_app. Qed.

Lemma do_all_alter_from (f : NodeData → NodeData) (st pre : State) :
  do_all (λ src st, alter f src st) (seq (length pre) (length st)) (pre ++ st)
  = pre ++ (f <$> st).
Proof.
  revert pre. induction st as [|d st IH]; intros pre; [reflexivity|].
  cbn [length seq fmap list_fmap]. rewrite do_all_cons.
  replace (alter f (length pre) (pre ++ d :: st)) with ((pre ++ [f d]) ++ st).
  - specialize (IH (pre ++ [f d])). rewrite length_app in IH. simpl in IH.
    replace (length pre + 1)%nat with (S (length pre)) in IH by lia.
    rewrite IH, <- app_assoc. reflexivity.
  - rewrite <- app_assoc.
    rewrite alter_app_r_alt by lia. rewrite Nat.sub_diag. reflexivity.
Qed.

(** An operator that rewrites only its own record, run over all nodes,
    rewrites every record once. *)
Lemma do_all_alter_all (f : NodeData → NodeData) (st : State) :
  do_all (λ src st, alter f src st) (allNodesRange st) st = f <$> st.
Proof. apply (do_all_alter_from f st []). Qed.

Lemma for_each_cons {A S : Type} (body : A → S → res S) x l s :
  for_each body (x :: l) s = (s' ← body x s; for_each body l s').
Proof. reflexivity. Qed.

Lemma update_node_middle f (pre st : State) d :
  update_node f (length pre) (pre ++ d :: st)
  = (d' ← f (length pre) d; Ok ((pre ++ [d']) ++ st)).
Proof.
  unfold update_node. rewrite lookup_app_r by lia. rewrite Nat.sub_diag.
  cbn [lookup list_lookup]. destruct (f (length pre) d) as [d'|e]; [|reflexivity].
  cbn [mbind res_bind]. rewrite insert_app_r_alt by lia.
  rewrite Nat.sub_diag, <- app_assoc. reflexivity.
Qed.

Lemma for_each_update_from f (st pre : State) :
  for_each (update_node f) (seq (length pre) (length st)) (pre ++ st)
  = (r ← map_nodes f (length pre) st; Ok (pre ++ r)).
Proof.
  revert pre. induction st as [|d st IH]; intros pre.
  - simpl. rewrite app_nil_r. reflexivity.
  - cbn [length seq map_nodes]. rewrite for_each_cons, update_node_middle.
    destruct (f (length pre) d) as [d'|e]; [|reflexivity].
    cbn [mbind res_bind].
    specialize (IH (pre ++ [d'])). rewrite length_app in IH. simpl in IH.
    replace (length pre + 1)%nat with (S (length pre)) in IH by lia.
    rewrite IH. destruct (map_nodes f (S (length pre)) st); [|reflexivity].
    cbn [mbind res_bind]. rewrite <- app_assoc. reflexivity.
Qed.

Lemma for_each_update_all f (st : State) :
  for_each (update_node f) (allNodesRange st) st = map_nodes f 0 st.
Proof.
  unfold allNodesRange. pose proof (for_each_update_from f st []) as H.
  cbn [length app] in H. rewrite H.
  destruct (map_nodes f 0 st); reflexivity.
Qed.

Lemma map_nodes_Ok f k st st' :
  map_nodes f k st = Ok st' →
  length st' = length st ∧
  ∀ v d, st !! v = Some d → ∃ d', f (k + v)%nat d = Ok d' ∧ st' !! v = Some d'.
Proof.
  revert k st'. induction st as [|d0 st IH]; intros k st' H.
  - inversion H. split; [reflexivity|]. intros v d Hv. discriminate.
  - cbn [map_nodes] in H. destruct (f k d0) as [d0'|] eqn:Hf; [|discriminate].
    cbn [mbind res_bind] in H.
    destruct (map_nodes f (S k) st) as [r|] eqn:Hr; [|discriminate].
    cbn [mbind res_bind] in H. inversion H; subst st'.
    destruct (IH _ _ Hr) as [Hlen Hnodes]. split; [simpl; lia|].
    intros [|v] d Hv; simpl in Hv.
    + inversion Hv; subst. exists d0'. rewrite Nat.add_0_r. auto.
    + destruct (Hnodes v d Hv) as (d' & Hd' & Hl). exists d'.
      replace (k + S v)%nat with (S k + v)%nat by lia. auto.
Qed.

Lemma map_nodes_total f k st :
  (∀ v d, st !! v = Some d → ∃ d', f (k + v)%nat d = Ok d') →
  ∃ st', map_nodes f k st = Ok st'.
Proof.
  revert k. induction st as [|d0 st IH]; intros k H.
  - exists []. reflexivity.
  - destruct (H 0%nat d0 eq_refl) as [d0' Hd0]. rewrite Nat.add_0_r in Hd0.
    destruct (IH (S k)) as [r Hr].
    { intros v d Hv. destruct (H (S v) d Hv) as [d' Hd'].
      exists d'. replace (S k + v)%nat with (k + S v)%nat by lia. exact Hd'. }
    exists (d0' :: r). cbn [map_nodes]. rewrite Hd0. cbn [mbind res_bind].
    rewrite Hr. reflexivity.
Qed.

Lemma map_nodes_Fault f k st v d e :
  st !! v = Some d → f (k + v)%nat d = Fault e →
  ∃ e', map_nodes f k st = Fault e'.
Proof.
  revert k v. induction st as [|d0 st IH]; intros k v Hv Hf; [discriminate|].
  cbn [map_nodes]. destruct v as [|v]; simpl in Hv.
  - inversion Hv; subst. rewrite Nat.add_0_r in Hf. rewrite Hf. eauto.
  - destruct (f k d0); [|eauto]. cbn [mbind res_bind].
    destruct (IH (S k) v Hv) as [e' He'].
    { replace (S k + v)%nat with (k + S v)%nat by lia. exact Hf. }
    rewrite He'. eauto.
Qed.

(** ** InitializeIteration *)

Lemma InitializeIteration_node_eq local_infinity cur gid d :
  InitializeIteration_node local_infinity cur gid d
  = if num_predecessors d =? 0 then Ok (reset_node local_infinity cur gid d)
    else Fault AssertionFailure.
Proof.
  unfold InitializeIteration_node, reset_node.
  destruct (gid =? cur); cbn; destruct (num_predecessors d =? 0); reflexivity.
Qed.

Lemma InitializeIteration_go_eq g cur st :
  InitializeIteration_go g cur st
  = map_nodes (λ v, InitializeIteration_node infinity cur (getGID g v)) 0 st.
Proof. apply for_each_update_all. Qed.

(** C4, as the code has it: a completed reset leaves [npred = 0],
    [nsucc = 0], both done flags clear, [(dist, sigma, prop_flag)] equal to
    [(0, 1, true)] on the replica of the current source and to
    [(INF, 0, false)] elsewhere, and the scores and delta buffers as they
    were.  The successor count is zeroed before the assertions are
    evaluated and the predecessor count is never written: the reset
    completes exactly when every replica enters it with [npred = 0],
    whatever its [nsucc]. *)
Theorem InitializeIteration_go_spec (g : Graph) (cur : N) (st : State) :
  (Forall (λ d, num_predecessors d = 0) st
   ↔ ∃ st', InitializeIteration_go g cur st = Ok st')
  ∧ ∀ st', InitializeIteration_go g cur st = Ok st' →
      length st' = length st
      ∧ ∀ v d, st !! v = Some d →
          ∃ d', st' !! v = Some d'
            ∧ num_predecessors d = 0
            ∧ num_predecessors d' = 0
            ∧ num_successors d' = 0
            ∧ num_short_paths_flag d' = false
            ∧ dep_prop_flag d' = false
            ∧ (getGID g v = cur →
               current_length d' = 0 ∧ num_shortest_paths d' = 1
               ∧ propogation_flag d' = true)
            ∧ (getGID g v ≠ cur →
               current_length d' = infinity ∧ num_shortest_paths d' = 0
               ∧ propogation_flag d' = false)
            ∧ dependency d' = dependency d
            ∧ betweeness_centrality d' = betweeness_centrality d
            ∧ trim d' = trim d ∧ to_add d' = to_add d
            ∧ trim2 d' = trim2 d ∧ to_add_float d' = to_add_float d.
Proof.
  rewrite InitializeIteration_go_eq. split; [split|].
  - intros Hall. apply map_nodes_total. intros v d Hv.
    rewrite InitializeIteration_node_eq.
    rewrite Forall_lookup in Hall. rewrite (Hall v d Hv). eauto.
  - intros [st' Hst']. apply Forall_lookup. intros v d Hv.
    destruct (map_nodes_Ok _ _ _ _ Hst') as [_ Hnodes].
    destruct (Hnodes v d Hv) as (d' & Hd' & _).
    rewrite InitializeIteration_node_eq in Hd'.
    destruct (num_predecessors d =? 0) eqn:E; [|discriminate].
    apply N.eqb_eq in E. exact E.
  - intros st' Hst'. destruct (map_nodes_Ok _ _ _ _ Hst') as [Hlen Hnodes].
    split; [exact Hlen|]. intros v d Hv.
    destruct (Hnodes v d Hv) as (d' & Hd' & Hl). exists d'.
    rewrite InitializeIteration_node_eq in Hd'. cbn [Nat.add] in Hd'.
    destruct (num_predecessors d =? 0) eqn:E; [|discriminate].
    apply N.eqb_eq in E. inversion Hd'; subst d'. cbn.
    repeat split; try assumption;
      match goal with
      | Hg : _ = cur |- _ => apply N.eqb_eq in Hg; rewrite Hg; reflexivity
      | Hg : _ ≠ cur |- _ => apply N.eqb_neq in Hg; rewrite Hg; reflexivity
      end.
Qed.

Lemma InitializeIteration_go_spec_witness :
  length [reset_node infinity 0 0 zero_node;
          reset_node infinity 0 1 leftover_successors]
  = length [zero_node; leftover_successors]
  ∧ ∀ v d, [zero_node; leftover_successors] !! v = Some d →
      ∃ d', [reset_node infinity 0 0 zero_node;
             reset_node infinity 0 1 leftover_successors] !! v = Some d'
        ∧ num_predecessors d = 0
        ∧ num_predecessors d' = 0
        ∧ num_successors d' = 0
        ∧ num_short_paths_flag d' = false
        ∧ dep_prop_flag d' = false
        ∧ (getGID two_isolated v = 0 →
           current_length d' = 0 ∧ num_shortest_paths d' = 1
           ∧ propogation_flag d' = true)
        ∧ (getGID two_isolated v ≠ 0 →
           current_length d' = infinity ∧ num_shortest_paths d' = 0
           ∧ propogation_flag d' = false)
        ∧ dependency d' = dependency d
        ∧ betweeness_centrality d' = betweeness_centrality d
        ∧ trim d' = trim d ∧ to_add d' = to_add d
        ∧ trim2 d' = trim2 d ∧ to_add_float d' = to_add_float d.
Proof.
  apply (proj2 (InitializeIteration_go_spec two_isolated 0
                  [zero_node; leftover_successors])).
  reflexivity.
Defined.

(** C4 as stated fails on its last part: a record that enters the reset
    with [nsucc = 5] passes both assertions, because [nsucc] is zeroed
    before they are evaluated. *)
Lemma InitializeIteration_nsucc_zeroed_before_assert :
  num_successors leftover_successors = 5
  ∧ InitializeIteration_node infinity 0 1 leftover_successors
    = Ok (reset_node infinity 0 1 leftover_successors)
  ∧ InitializeIteration_go two_isolated 0 [zero_node; leftover_successors]
    = Ok [reset_node infinity 0 0 zero_node;
          reset_node infinity 0 1 leftover_successors].
Proof. repeat split. Qed.

(** The successor count of the source is never trimmed, the delta phase
    skips the edges that lead to it: on [kite] it is still 1 when the
    iteration for source 0 is over, and the reset for the next source
    completes all the same. *)
Lemma InitializeIteration_after_a_source :
  num_successors <$> kite_final !! 4%nat = Some 1
  ∧ ∃ st', InitializeIteration_go kite 1 kite_final = Ok st'.
Proof. split; [reflexivity|]. eexists. vm_compute. reflexivity. Qed.

(** ** DPTrim *)

Lemma DPTrim_node_trim2 d : trim2 (DPTrim_node d) = trim2 d.
Proof. unfold DPTrim_node. destruct (0 <? trim2 d); reflexivity. Qed.

Lemma DPTrim_go_eq st : DPTrim_go st = DPTrim_node <$> st.
Proof. apply do_all_alter_all. Qed.

(** C2 at the failing input: [DPTrim] subtracts the pending decrement
    from [nsucc] and then zeroes [trim], so [trim2] is still 1 after the
    apply superstep, and the apply superstep of the next round subtracts
    the same decrement once more. *)
Theorem DPTrim_leaves_trim2 :
  DPTrim_go [pending_trim2]
  = [set_trim 0 (set_num_successors 0 pending_trim2)]
  ∧ trim2 pending_trim2 = 1
  ∧ (∀ d', DPTrim_go [pending_trim2] !! 0%nat = Some d' →
           trim2 d' = 1 ∧ trim d' = 0 ∧ num_successors d' = 0)
  ∧ (∀ d', DPTrim_go (DPTrim_go [pending_trim2]) !! 0%nat = Some d' →
           trim2 d' = 1 ∧ num_successors d' = U32.max).
Proof.
  split; [reflexivity|]. split; [reflexivity|]. split.
  - intros d' H. vm_compute in H. inversion H. repeat split.
  - intros d' H. vm_compute in H. inversion H. repeat split.
Qed.

(** ** Arithmetic modulo 2^32 *)

Lemma U32_wrap_small x : x < U32.modulus → U32.wrap x = x.
Proof. apply N.mod_small. Qed.

Lemma U32_wrap_lt x : U32.wrap x < U32.modulus.
Proof. apply N.mod_lt. discriminate. Qed.

Lemma U32_wrap_add_l a b : U32.wrap (U32.wrap a + b) = U32.wrap (a + b).
Proof. unfold U32.wrap. apply N.Div0.add_mod_idemp_l. Qed.

Lemma U32_wrap_add_r a b : U32.wrap (a + U32.wrap b) = U32.wrap (a + b).
Proof. unfold U32.wrap. apply N.Div0.add_mod_idemp_r. Qed.

Lemma U32_add_lt a b : U32.add a b < U32.modulus.
Proof. apply U32_wrap_lt. Qed.

Lemma U32_add_wrap_add a s r :
  U32.wrap (U32.add a (U32.wrap s) + r) = U32.wrap (a + (s + r)).
Proof.
  unfold U32.add. rewrite U32_wrap_add_l.
  replace (a + U32.wrap s + r) with (U32.wrap s + (a + r)) by lia.
  rewrite U32_wrap_add_l. f_equal. lia.
Qed.

Lemma U32_add_1_add b n :
  U32.wrap (U32.add b 1 + N.of_nat n) = U32.wrap (b + N.of_nat (S n)).
Proof. unfold U32.add. rewrite U32_wrap_add_l. f_equal. lia. Qed.

(** ** Fields an operator leaves alone *)

Lemma set_get_eta d :
  {| current_length := current_length d;
     num_shortest_paths := num_shortest_paths d;
     num_successors := num_successors d;
     num_predecessors := num_predecessors d;
     dependency := dependency d;
     betweeness_centrality := betweeness_centrality d;
     propogation_flag := propogation_flag d; trim := trim d;
     to_add := to_add d; trim2 := trim2 d; to_add_float := to_add_float d;
     num_short_paths_flag := num_short_paths_flag d;
     dep_prop_flag := dep_prop_flag d |} = d.
Proof. destruct d; reflexivity. Qed.

Section Frames.
Context {A : Type} (proj : NodeData → A).

Lemma frame_insert (st : State) i d d' :
  st !! i = Some d → proj d' = proj d →
  proj <$> <[i := d']> st = proj <$> st.
Proof.
  intros Hi Hp. rewrite list_fmap_insert, Hp.
  apply list_insert_id. rewrite list_lookup_fmap, Hi. reflexivity.
Qed.

Lemma frame_alter (f : NodeData → NodeData) (st : State) i :
  (∀ d, proj (f d) = proj d) → proj <$> alter f i st = proj <$> st.
Proof.
  intros Hf. rewrite (list_fmap_alter proj f id).
  - apply list_alter_id. reflexivity.
  - apply Forall_forall. intros d _. apply Hf.
Qed.

Lemma frame_do_all {X : Type} (body : X → State → State) (l : list X) :
  (∀ x st, proj <$> body x st = proj <$> st) →
  ∀ st, proj <$> do_all body l st = proj <$> st.
Proof.
  intros Hb. induction l as [|x l IH]; intros st; [reflexivity|].
  rewrite do_all_cons, IH. apply Hb.
Qed.

Lemma frame_do_all_accum {X : Type} (body : X → State * N → State * N)
    (l : list X) :
  (∀ x w, proj <$> (body x w).1 = proj <$> w.1) →
  ∀ w, proj <$> (do_all body l w).1 = proj <$> w.1.
Proof.
  intros Hb. induction l as [|x l IH]; intros w; [reflexivity|].
  rewrite do_all_cons, IH. apply Hb.
Qed.

Lemma frame_for_each {X : Type} (body : X → State → res State) (l : list X) :
  (∀ x st st', body x st = Ok st' → proj <$> st' = proj <$> st) →
  ∀ st st', for_each body l st = Ok st' → proj <$> st' = proj <$> st.
Proof.
  intros Hb. induction l as [|x l IH]; intros st st' H.
  - inversion H. reflexivity.
  - rewrite for_each_cons in H. destruct (body x st) as [s1|] eqn:E;
      [|discriminate]. cbn [mbind res_bind] in H.
    rewrite (IH _ _ H). eapply Hb, E.
Qed.

Lemma frame_for_each_accum {X : Type}
    (body : X → State * N → res (State * N)) (l : list X) :
  (∀ x w w', body x w = Ok w' → proj <$> w'.1 = proj <$> w.1) →
  ∀ w w', for_each body l w = Ok w' → proj <$> w'.1 = proj <$> w.1.
Proof.
  intros Hb. induction l as [|x l IH]; intros w w' H.
  - inversion H. reflexivity.
  - rewrite for_each_cons in H. destruct (body x w) as [s1|] eqn:E;
      [|discriminate]. cbn [mbind res_bind] in H.
    rewrite (IH _ _ H). eapply Hb, E.
Qed.

Lemma frame_do_while round :
  (∀ st st' a, round st = Ok (st', a) → proj <$> st' = proj <$> st) →
  ∀ fuel i st st' n,
    do_while_accum fuel round i st = Some (Ok (st', n)) →
    proj <$> st' = proj <$> st.
Proof.
  intros Hr. induction fuel as [|fuel IH]; intros i st st' n H; [discriminate|].
  cbn [do_while_accum] in H.
  destruct (round st) as [[s1 a]|] eqn:E; [|discriminate].
  destruct (a =? 0).
  - inversion H; subst. eapply Hr, E.
  - rewrite (IH _ _ _ _ H). eapply Hr, E.
Qed.
End Frames.

Lemma frame_lookup {A : Type} (proj : NodeData → A) (st st' : State) v d :
  proj <$> st' = proj <$> st → st !! v = Some d →
  ∃ d', st' !! v = Some d' ∧ proj d' = proj d.
Proof.
  intros H Hv.
  assert (Hp : (proj <$> st') !! v = Some (proj d)).
  { rewrite H, list_lookup_fmap, Hv. reflexivity. }
  rewrite list_lookup_fmap in Hp. destruct (st' !! v) as [d'|]; [|discriminate].
  exists d'. split; [reflexivity|]. inversion Hp. reflexivity.
Qed.

Lemma frame_length {A : Type} (proj : NodeData → A) (st st' : State) :
  proj <$> st' = proj <$> st → length st' = length st.
Proof. intros H. rewrite <- (length_fmap proj st'), H. apply length_fmap. Qed.

(** ** NumShortestPaths: the propagate operator of the sigma phase *)

(** While the edges of [src] are walked only the [trim] and [to_add]
    fields of its own record move, so what the loop reads ([dist],
    [sigma] and the token of each destination) is what it would read in
    the state it started from. *)
Lemma feeds_insert_own (st : State) src ds a b dst :
  st !! src = Some ds →
  feeds (<[src := set_to_add a (set_trim b ds)]> st) (set_to_add a (set_trim b ds)) dst
  = feeds st ds dst.
Proof.
  intros Hs. unfold feeds. destruct (decide (src = dst)) as [->|Hne].
  - rewrite list_lookup_insert_eq by (eapply lookup_lt_Some, Hs).
    rewrite Hs. reflexivity.
  - rewrite list_lookup_insert_ne by exact Hne. reflexivity.
Qed.

Lemma sigma_of_insert_own (st : State) src ds a b dst :
  st !! src = Some ds →
  sigma_of (<[src := set_to_add a (set_trim b ds)]> st) dst = sigma_of st dst.
Proof.
  intros Hs. unfold sigma_of. destruct (decide (src = dst)) as [->|Hne].
  - rewrite list_lookup_insert_eq by (eapply lookup_lt_Some, Hs).
    rewrite Hs. reflexivity.
  - rewrite list_lookup_insert_ne by exact Hne. reflexivity.
Qed.

Lemma NumShortestPaths_edge_step (st : State) src ds a b accum dst :
  st !! src = Some ds →
  NumShortestPaths_edge src dst
    (<[src := set_to_add a (set_trim b ds)]> st, accum)
  = if feeds st ds dst then
      (<[src := set_to_add (U32.add a (U32.wrap (sigma_of st dst)))
                  (set_trim (U32.add b 1) ds)]> st,
       U32.add accum 1)
    else (<[src := set_to_add a (set_trim b ds)]> st, accum).
Proof.
  intros Hs. pose proof (lookup_lt_Some _ _ _ Hs) as Hlt.
  rewrite <- (feeds_insert_own st src ds a b dst Hs).
  rewrite <- (sigma_of_insert_own st src ds a b dst Hs).
  unfold NumShortestPaths_edge, feeds, sigma_of, on_dag.
  rewrite (list_lookup_insert_eq st src) by exact Hlt.
  destruct (<[src := set_to_add a (set_trim b ds)]> st !! dst) as [dd|];
    [|reflexivity].
  destruct (propogation_flag dd); [|reflexivity]. cbn [andb].
  cbn [current_length set_to_add set_trim].
  destruct (U32.add (current_length dd) 1 =? current_length ds); [|reflexivity].
  rewrite list_insert_insert_eq. reflexivity.
Qed.

Lemma NumShortestPaths_edges (edges : list nat) :
  ∀ (st : State) src ds a b accum,
    st !! src = Some ds →
    (do_all (NumShortestPaths_edge src) edges
       (<[src := set_to_add a (set_trim b ds)]> st, accum)
     = let Q := filter (λ dst, feeds st ds dst = true) edges in
       (<[src := set_to_add (U32.wrap (a + sum_N (sigma_of st <$> Q)))
                   (set_trim (U32.wrap (b + N.of_nat (length Q))) ds)]> st,
        U32.wrap (accum + N.of_nat (length Q))))
    ∨ (filter (λ dst, feeds st ds dst = true) edges = []
       ∧ do_all (NumShortestPaths_edge src) edges
           (<[src := set_to_add a (set_trim b ds)]> st, accum)
         = (<[src := set_to_add a (set_trim b ds)]> st, accum)).
Proof.
  induction edges as [|dst edges IH]; intros st src ds a b accum Hs.
  - right. split; reflexivity.
  - rewrite do_all_cons, NumShortestPaths_edge_step by exact Hs.
    rewrite filter_cons. destruct (feeds st ds dst) eqn:Hf.
    + left. destruct (decide (true = true)) as [_|]; [|congruence].
      cbn [length fmap list_fmap sum_N foldr]. fold (sum_N).
      destruct (IH st src ds (U32.add a (U32.wrap (sigma_of st dst)))
                  (U32.add b 1) (U32.add accum 1) Hs) as [E|[Hnil E]];
        rewrite E; cbv zeta.
      * rewrite U32_add_wrap_add, !U32_add_1_add. reflexivity.
      * rewrite Hnil. cbn [length fmap list_fmap sum_N foldr].
        rewrite <- (N.add_0_r (U32.add a _)), <- (N.add_0_r (U32.add b 1)).
        rewrite <- (N.add_0_r (U32.add accum 1)).
        rewrite <- (U32_wrap_small (U32.add a _ + 0)), U32_add_wrap_add
          by (rewrite N.add_0_r; apply U32_add_lt).
        rewrite <- (U32_wrap_small (U32.add b 1 + 0))
          by (rewrite N.add_0_r; apply U32_add_lt).
        rewrite <- (U32_wrap_small (U32.add accum 1 + 0))
          by (rewrite N.add_0_r; apply U32_add_lt).
        change 0 with (N.of_nat 0). rewrite !U32_add_1_add. reflexivity.
    + destruct (decide (false = true)) as [|_]; [congruence|].
      apply IH, Hs.
Qed.

(** C6: for a vertex [s] with [dist(s) ≠ INF] and [npred(s) > 0] the
    operator adds to [trim(s)] the number of out-edges [(s, t)] whose
    destination holds the token and has [dist(t) + 1 = dist(s)], adds to
    [to_add(s)] the sum of [sigma(t)] over these edges, and records one
    work unit in the accumulator for each of them; nothing else in the
    node array moves.  For a vertex with [npred(s) = 0] or
    [dist(s) = INF] the node array and the accumulator stay as they
    are. *)
Theorem NumShortestPaths_op_spec
    (g : Graph) (st : State) (accum : N) (src : nat) (src_data : NodeData) :
  st !! src = Some src_data →
  trim src_data < U32.modulus →
  to_add src_data < U32.modulus →
  accum < U32.modulus →
  (current_length src_data ≠ infinity ∧ 0 < num_predecessors src_data →
   let Q := filter (λ dst, feeds st src_data dst = true) (edge_dsts g src) in
   NumShortestPaths_op g infinity src (st, accum)
   = (<[src := set_to_add
                 (U32.wrap (to_add src_data + sum_N (sigma_of st <$> Q)))
                 (set_trim (U32.wrap (trim src_data + N.of_nat (length Q)))
                    src_data)]> st,
      U32.wrap (accum + N.of_nat (length Q))))
  ∧ (current_length src_data = infinity ∨ num_predecessors src_data = 0 →
     NumShortestPaths_op g infinity src (st, accum) = (st, accum)).
Proof.
  intros Hs Htrim Hadd Hacc.
  assert (Hid : <[src := set_to_add (to_add src_data)
                           (set_trim (trim src_data) src_data)]> st = st).
  { apply list_insert_id. rewrite Hs. f_equal. unfold set_to_add, set_trim.
    cbn. symmetry. apply set_get_eta. }
  unfold NumShortestPaths_op. cbn [fst]. rewrite Hs. split.
  - intros [Hd Hp]. apply N.eqb_neq in Hd. rewrite Hd. cbn [negb].
    apply N.ltb_lt in Hp. rewrite Hp. cbv zeta.
    rewrite <- Hid at 1.
    destruct (NumShortestPaths_edges (edge_dsts g src) st src src_data
                (to_add src_data) (trim src_data) accum Hs) as [E|[Hnil E]];
      rewrite E; cbv zeta; [reflexivity|].
    rewrite Hnil. cbn [length fmap list_fmap sum_N foldr].
    rewrite !N.add_0_r, !U32_wrap_small by assumption. reflexivity.
  - intros [Hd|Hp].
    + apply N.eqb_eq in Hd. rewrite Hd. reflexivity.
    + destruct (negb _); [|reflexivity]. rewrite Hp. reflexivity.
Qed.

(** ** PredAndSucc *)

Lemma alter_lookup_insert (f : NodeData → NodeData) (st : State) i d :
  st !! i = Some d → alter f i st = <[i := f d]> st.
Proof.
  intros Hi. apply list_eq. intros j. destruct (decide (i = j)) as [->|Hne].
  - rewrite list_lookup_alter_eq, Hi.
    rewrite list_lookup_insert_eq by (eapply lookup_lt_Some, Hi). reflexivity.
  - rewrite list_lookup_alter_ne, list_lookup_insert_ne by exact Hne. reflexivity.
Qed.

Lemma PredAndSucc_edge_eq (st : State) src dst :
  PredAndSucc_edge src dst st
  = if dag_edge st src dst then count_edge (src, dst) st else st.
Proof.
  unfold PredAndSucc_edge, dag_edge, on_dag, count_edge, Galois_add,
    Galois_atomicAdd. cbn [fst snd].
  destruct (st !! src) as [ds|] eqn:Hs; [|reflexivity].
  destruct (st !! dst) as [dt|] eqn:Ht; [|reflexivity].
  destruct (U32.add (current_length dt) 1 =? current_length ds); [|reflexivity].
  rewrite (alter_lookup_insert
             (λ d, set_num_predecessors (U32.add (num_predecessors d) 1) d)
             st src ds Hs).
  assert (Hlt : (dst < length (<[src := set_num_predecessors
                    (U32.add (num_predecessors ds) 1) ds]> st))%nat).
  { rewrite length_insert. eapply lookup_lt_Some, Ht. }
  destruct (lookup_lt_is_Some_2 _ _ Hlt) as [dt' Hdt']. rewrite Hdt'.
  symmetry.
  apply (alter_lookup_insert
           (λ d, set_num_successors (U32.add (num_successors d) 1) d)), Hdt'.
Qed.

Lemma count_edge_dists e (st : State) :
  current_length <$> count_edge e st = current_length <$> st.
Proof.
  unfold count_edge. rewrite !frame_alter; [reflexivity| |]; reflexivity.
Qed.

Lemma dag_edge_dists (st st' : State) s t :
  current_length <$> st' = current_length <$> st →
  dag_edge st' s t = dag_edge st s t.
Proof.
  intros H. unfold dag_edge, on_dag.
  assert (L : ∀ v, current_length <$> (st' !! v) = current_length <$> (st !! v)).
  { intros v. rewrite <- !list_lookup_fmap, H. reflexivity. }
  pose proof (L s) as Ls. pose proof (L t) as Lt.
  destruct (st' !! s), (st !! s); try discriminate; [|reflexivity].
  destruct (st' !! t), (st !! t); try discriminate; [|reflexivity].
  cbn in Ls, Lt. inversion Ls. inversion Lt. congruence.
Qed.

Lemma reached_dists (st st' : State) s :
  current_length <$> st' = current_length <$> st →
  reached st' s = reached st s.
Proof.
  intros H. unfold reached.
  assert (L : current_length <$> (st' !! s) = current_length <$> (st !! s)).
  { rewrite <- !list_lookup_fmap, H. reflexivity. }
  destruct (st' !! s), (st !! s); try discriminate; [|reflexivity].
  cbn in L. inversion L. congruence.
Qed.

Lemma do_all_count_edge_dists E (st : State) :
  current_length <$> do_all count_edge E st = current_length <$> st.
Proof. apply frame_do_all. intros e s. apply count_edge_dists. Qed.

(** Walking the out-edges of one vertex counts its DAG edges. *)
Lemma PredAndSucc_edges (st0 : State) src (edges : list nat) :
  ∀ st, current_length <$> st = current_length <$> st0 →
    do_all (PredAndSucc_edge src) edges st
    = do_all count_edge
        (pair src <$> filter (λ t, dag_edge st0 src t = true) edges) st.
Proof.
  induction edges as [|dst edges IH]; intros st Hd; [reflexivity|].
  rewrite do_all_cons, PredAndSucc_edge_eq, (dag_edge_dists st0 st _ _ Hd).
  rewrite filter_cons. destruct (dag_edge st0 src dst).
  - destruct (decide (true = true)) as [_|]; [|congruence].
    cbn [fmap list_fmap]. rewrite do_all_cons. apply IH.
    rewrite count_edge_dists. exact Hd.
  - destruct (decide (false = true)) as [|_]; [congruence|]. apply IH, Hd.
Qed.

Lemma PredAndSucc_op_eq (g : Graph) (st0 st : State) src :
  current_length <$> st = current_length <$> st0 →
  PredAndSucc_op g infinity src st = do_all count_edge (out_dag_edges g st0 src) st.
Proof.
  intros Hd. unfold PredAndSucc_op, out_dag_edges.
  rewrite <- (reached_dists st0 st src Hd). unfold reached.
  destruct (st !! src) as [ds|]; [|reflexivity].
  destruct (negb (current_length ds =? infinity)); [|reflexivity].
  apply PredAndSucc_edges, Hd.
Qed.

Lemma PredAndSucc_range (g : Graph) (st0 : State) (range : list nat) :
  ∀ st, current_length <$> st = current_length <$> st0 →
    do_all (PredAndSucc_op g infinity) range st
    = do_all count_edge (range ≫= out_dag_edges g st0) st.
Proof.
  induction range as [|s range IH]; intros st Hd; [reflexivity|].
  rewrite do_all_cons, bind_cons, do_all_app.
  rewrite (PredAndSucc_op_eq g st0 st s Hd). apply IH.
  rewrite do_all_count_edge_dists. exact Hd.
Qed.

(** The phase is the count of the DAG edges of the state it starts
    from. *)
Lemma PredAndSucc_go_eq (g : Graph) (st : State) :
  PredAndSucc_go g st = do_all count_edge (dag_edges g st) st.
Proof. apply PredAndSucc_range. reflexivity. Qed.

Lemma count_key_cons key e E v :
  count_key key (e :: E) v = (if decide (key e = v) then 1 else 0) + count_key key E v.
Proof.
  unfold count_key. rewrite filter_cons.
  destruct (decide (key e = v)); cbn [length]; lia.
Qed.

Lemma count_key_le key E v : count_key key E v ≤ N.of_nat (length E).
Proof. unfold count_key. pose proof (length_filter (λ e, key e = v) E). lia. Qed.

Lemma sum_N_indicator (k : nat) (n start : nat) :
  sum_N ((λ v, if decide (k = v) then 1 else 0) <$> seq start n)
  = if decide (start ≤ k < start + n)%nat then 1 else 0.
Proof.
  revert start. induction n as [|n IH]; intros start.
  - cbn. destruct (decide _); [lia|reflexivity].
  - cbn [seq fmap list_fmap sum_N foldr]. fold (sum_N).
    change (foldr N.add 0) with sum_N. rewrite IH.
    destruct (decide (k = start)), (decide (S start ≤ k < S start + n)%nat),
      (decide (start ≤ k < start + S n)%nat); lia.
Qed.

Lemma sum_N_add {X : Type} (f h : X → N) (l : list X) :
  sum_N ((λ x, f x + h x) <$> l) = sum_N (f <$> l) + sum_N (h <$> l).
Proof.
  induction l as [|x l IH]; [reflexivity|].
  cbn [fmap list_fmap sum_N foldr]. change (foldr N.add 0) with sum_N.
  rewrite IH. lia.
Qed.

Lemma sum_N_ext {X : Type} (f h : X → N) (l : list X) :
  (∀ x, f x = h x) → sum_N (f <$> l) = sum_N (h <$> l).
Proof. intros H. f_equal. apply list_fmap_ext. intros _ x _. apply H. Qed.

(** Every edge is counted at exactly one vertex. *)
Lemma sum_count_key key (E : list (nat * nat)) (n : nat) :
  Forall (λ e, (key e < n)%nat) E →
  sum_N (count_key key E <$> seq 0 n) = N.of_nat (length E).
Proof.
  induction 1 as [|e E He HE IH].
  - cbn [length]. induction (seq 0 n) as [|v l IHl]; [reflexivity|].
    cbn [fmap list_fmap sum_N foldr]. change (foldr N.add 0) with sum_N.
    rewrite IHl. reflexivity.
  - rewrite (sum_N_ext _ _ _ (count_key_cons key e E)).
    rewrite sum_N_add, IH, sum_N_indicator.
    destruct (decide _); cbn [length]; lia.
Qed.

Lemma count_edge_lookup e (st : State) v :
  count_edge e st !! v
  = (λ d,
       (if decide (e.2 = v)
        then λ d, set_num_successors (U32.add (num_successors d) 1) d else id)
         ((if decide (e.1 = v)
           then λ d, set_num_predecessors (U32.add (num_predecessors d) 1) d
           else id) d)) <$> st !! v.
Proof.
  unfold count_edge.
  destruct (decide (e.2 = v)) as [E2|E2], (decide (e.1 = v)) as [E1|E1].
  - rewrite E2, list_lookup_alter_eq, E1, list_lookup_alter_eq.
    destruct (st !! v); reflexivity.
  - rewrite E2, list_lookup_alter_eq, list_lookup_alter_ne by exact E1.
    destruct (st !! v); reflexivity.
  - rewrite list_lookup_alter_ne by exact E2. rewrite E1, list_lookup_alter_eq.
    destruct (st !! v); reflexivity.
  - rewrite !list_lookup_alter_ne by assumption. destruct (st !! v); reflexivity.
Qed.

Lemma count_edge_in_range e (st : State) :
  Forall counts_in_range st → Forall counts_in_range (count_edge e st).
Proof.
  intros H. apply Forall_lookup. intros v d' Hv.
  rewrite count_edge_lookup in Hv.
  destruct (st !! v) as [d|] eqn:Hd; [|discriminate]. cbn in Hv.
  inversion Hv; subst d'. clear Hv.
  rewrite Forall_lookup in H. destruct (H v d Hd) as [Hp Hs].
  unfold counts_in_range.
  destruct (decide (e.2 = v)), (decide (e.1 = v)); cbn;
    split; try assumption; apply U32_add_lt.
Qed.

Lemma counted_cons e E v d :
  counted E v
    ((if decide (e.2 = v)
      then λ d, set_num_successors (U32.add (num_successors d) 1) d else id)
       ((if decide (e.1 = v)
         then λ d, set_num_predecessors (U32.add (num_predecessors d) 1) d
         else id) d))
  = counted (e :: E) v d.
Proof.
  unfold counted, count_in, count_out.
  change (N.of_nat (length (filter (λ e, e.2 = v) ?l))) with (count_key snd l v).
  change (N.of_nat (length (filter (λ e0, e0.2 = v) (e :: E))))
    with (count_key snd (e :: E) v).
  change (N.of_nat (length (filter (λ e0, e0.2 = v) E)))
    with (count_key snd E v).
  change (N.of_nat (length (filter (λ e0, e0.1 = v) (e :: E))))
    with (count_key fst (e :: E) v).
  change (N.of_nat (length (filter (λ e0, e0.1 = v) E)))
    with (count_key fst E v).
  rewrite !count_key_cons. cbn [fst snd].
  destruct (decide (e.2 = v)), (decide (e.1 = v)); cbn;
    unfold set_num_successors, set_num_predecessors; cbn; f_equal;
    unfold U32.add; rewrite ?U32_wrap_add_l; f_equal; lia.
Qed.

Lemma counted_nil v d : counts_in_range d → counted [] v d = d.
Proof.
  intros [Hp Hs]. unfold counted, count_in, count_out. cbn [filter length].
  change (N.of_nat 0) with 0. rewrite !N.add_0_r.
  cbn. rewrite !U32_wrap_small by assumption. destruct d; reflexivity.
Qed.

Lemma do_all_count_edge (E : list (nat * nat)) :
  ∀ st, Forall counts_in_range st →
    do_all count_edge E st = imap (counted E) st.
Proof.
  induction E as [|e E IH]; intros st Hr.
  - apply list_eq. intros v. rewrite list_lookup_imap. cbn.
    destruct (st !! v) as [d|] eqn:Hd; [|reflexivity]. cbn. f_equal.
    symmetry. apply counted_nil. rewrite Forall_lookup in Hr. eapply Hr, Hd.
  - rewrite do_all_cons, IH by (apply count_edge_in_range, Hr).
    apply list_eq. intros v. rewrite !list_lookup_imap, count_edge_lookup.
    destruct (st !! v) as [d|]; [|reflexivity]. cbn. f_equal.
    apply counted_cons.
Qed.

Lemma elem_of_dag_edges (g : Graph) (st : State) s t :
  (s, t) ∈ dag_edges g st
  ↔ (s < numNodesWithEdges g)%nat ∧ t ∈ edge_dsts g s
    ∧ ∃ src_data dst_data,
        st !! s = Some src_data ∧ st !! t = Some dst_data
        ∧ current_length src_data ≠ infinity
        ∧ U32.add (current_length dst_data) 1 = current_length src_data.
Proof.
  unfold dag_edges, allNodesWithEdgesRange. rewrite list_elem_of_bind. split.
  - intros (s' & Hin & Hs').
    apply elem_of_seq in Hs'. unfold out_dag_edges, reached in Hin.
    destruct (st !! s') as [ds|] eqn:Hds; [|inversion Hin].
    destruct (negb (current_length ds =? infinity)) eqn:Hr; [|inversion Hin].
    apply list_elem_of_fmap in Hin as (t' & Heq & Ht'). inversion Heq; subst s' t'.
    apply list_elem_of_filter in Ht' as [Hdag Ht']. unfold dag_edge in Hdag.
    rewrite Hds in Hdag. destruct (st !! t) as [dt|] eqn:Hdt; [|discriminate].
    split; [lia|]. split; [exact Ht'|]. exists ds, dt.
    split; [first [exact Hds|reflexivity]|].
    split; [first [exact Hdt|reflexivity]|]. split.
    + apply negb_true_iff, N.eqb_neq in Hr. exact Hr.
    + apply N.eqb_eq. exact Hdag.
  - intros (Hs & Ht & ds & dt & Hds & Hdt & Hinf & Hdag).
    exists s. split.
    + unfold out_dag_edges, reached. rewrite Hds.
      apply N.eqb_neq in Hinf. rewrite Hinf. cbn [negb].
      apply list_elem_of_fmap. exists t. split; [reflexivity|].
      apply list_elem_of_filter. split; [|exact Ht].
      unfold dag_edge, on_dag. rewrite Hds, Hdt. apply N.eqb_eq. exact Hdag.
    + apply elem_of_seq. lia.
Qed.

Lemma dag_edges_in_range (g : Graph) (st : State) :
  Forall (λ e, (e.1 < length st)%nat) (dag_edges g st)
  ∧ Forall (λ e, (e.2 < length st)%nat) (dag_edges g st).
Proof.
  split; apply Forall_forall; intros [s t] He;
    apply elem_of_dag_edges in He as (_ & _ & ds & dt & Hs & Ht & _);
    cbn [fst snd]; eapply lookup_lt_Some; eassumption.
Qed.

Lemma fmap_imap_counts {X : Type} (proj : NodeData → X) (h : nat → X)
    (f : nat → NodeData → NodeData) (st : State) :
  (∀ v d, st !! v = Some d → proj (f v d) = h v) →
  proj <$> imap f st = h <$> seq 0 (length st).
Proof.
  intros H. apply list_eq. intros v.
  rewrite !list_lookup_fmap, list_lookup_imap.
  destruct (st !! v) as [d|] eqn:Hd.
  - rewrite lookup_seq_lt by (eapply lookup_lt_Some, Hd). cbn. f_equal.
    apply H, Hd.
  - rewrite lookup_seq_ge by (apply lookup_ge_None, Hd). reflexivity.
Qed.

(** C5: the superstep counts, for every vertex [s] with [dist(s) ≠ INF]
    and every out-edge [(s, t)] with [dist(t) + 1 = dist(s)], one
    predecessor at [s] and one successor at [t], and counts nothing for
    any other edge; so when the counters start from zero, as the reset
    leaves them, the sum of [npred] over the vertices and the sum of
    [nsucc] over the vertices both equal the number of DAG edges (a
    number that fits the 32-bit counters). *)
Theorem PredAndSucc_go_spec (g : Graph) (st : State) :
  Forall (λ d, num_predecessors d < U32.modulus
               ∧ num_successors d < U32.modulus) st →
  let E := dag_edges g st in
  let st' := PredAndSucc_go g st in
  (∀ s t, (s, t) ∈ E
     ↔ (s < numNodesWithEdges g)%nat ∧ t ∈ edge_dsts g s
       ∧ ∃ src_data dst_data,
           st !! s = Some src_data ∧ st !! t = Some dst_data
           ∧ current_length src_data ≠ infinity
           ∧ U32.add (current_length dst_data) 1 = current_length src_data)
  ∧ length st' = length st
  ∧ (∀ v d, st !! v = Some d →
       st' !! v
       = Some (set_num_successors
                 (U32.wrap (num_successors d + count_in E v))
                 (set_num_predecessors
                    (U32.wrap (num_predecessors d + count_out E v)) d)))
  ∧ (Forall (λ d, num_predecessors d = 0 ∧ num_successors d = 0) st →
     N.of_nat (length E) < U32.modulus →
     sum_N (num_predecessors <$> st') = N.of_nat (length E)
     ∧ sum_N (num_successors <$> st') = N.of_nat (length E)).
Proof.
  intros Hr E st'.
  assert (Hst' : st' = imap (counted E) st).
  { unfold st'. rewrite PredAndSucc_go_eq. apply do_all_count_edge, Hr. }
  split; [intros s t; apply elem_of_dag_edges|].
  split; [rewrite Hst'; apply length_imap|].
  split.
  - intros v d Hv. rewrite Hst', list_lookup_imap, Hv. reflexivity.
  - intros Hzero Hfit. destruct (dag_edges_in_range g st) as [H1 H2].
    fold E in H1, H2. rewrite Hst'. split.
    + rewrite (fmap_imap_counts num_predecessors (count_key fst E)).
      * apply sum_count_key, H1.
      * intros v d Hv. rewrite Forall_lookup in Hzero.
        destruct (Hzero v d Hv) as [Hp Hs]. unfold counted. cbn.
        rewrite Hp, N.add_0_l. apply U32_wrap_small.
        pose proof (count_key_le fst E v). unfold count_out.
        unfold count_key in *. lia.
    + rewrite (fmap_imap_counts num_successors (count_key snd E)).
      * apply sum_count_key, H2.
      * intros v d Hv. rewrite Forall_lookup in Hzero.
        destruct (Hzero v d Hv) as [Hp Hs]. unfold counted. cbn.
        rewrite Hs, N.add_0_l. apply U32_wrap_small.
        pose proof (count_key_le snd E v). unfold count_in.
        unfold count_key in *. lia.
Qed.

(** ** SSSP: every superstep that records work shrinks the distances *)

Lemma sum_N_insert (l : list N) i x y :
  l !! i = Some x → sum_N (<[i := y]> l) + x = sum_N l + y.
Proof.
  revert i. induction l as [|z l IH]; intros [|i] H; try discriminate.
  - simpl in *. inversion H; subst. lia.
  - simpl in *. specialize (IH i H). lia.
Qed.

Lemma sum_dist_insert (st : State) src ds len :
  st !! src = Some ds →
  sum_dist (<[src := set_current_length len ds]> st) + current_length ds
  = sum_dist st + len.
Proof.
  intros Hs. unfold sum_dist. rewrite list_fmap_insert. apply sum_N_insert.
  rewrite list_lookup_fmap, Hs. reflexivity.
Qed.

Lemma SSSP_edge_eq (st : State) src dst accum ds dt :
  st !! src = Some ds → st !! dst = Some dt →
  SSSP_edge src dst (st, accum)
  = let new_dist := U32.add 1 (current_length dt) in
    if new_dist <? current_length ds
    then (<[src := set_current_length new_dist ds]> st, U32.add accum 1)
    else (st, accum).
Proof.
  intros Hs Ht. unfold SSSP_edge, Galois_min. rewrite Hs, Ht. cbv zeta.
  destruct (U32.add 1 (current_length dt) <? current_length ds); [reflexivity|].
  f_equal. apply list_insert_id. rewrite Hs. f_equal. destruct ds; reflexivity.
Qed.

Lemma lowers_refl w : lowers w w.
Proof. unfold lowers. split; [reflexivity|]. split; [lia|congruence]. Qed.

Lemma lowers_trans w1 w2 w3 : lowers w1 w2 → lowers w2 w3 → lowers w1 w3.
Proof.
  intros (L1 & S1 & A1) (L2 & S2 & A2). unfold lowers.
  split; [congruence|]. split; [lia|]. intros Hne.
  destruct (N.eq_dec w2.2 w1.2) as [E|E].
  - rewrite <- E in Hne. specialize (A2 Hne). lia.
  - specialize (A1 E). lia.
Qed.

Lemma SSSP_edge_lowers src dst w : lowers w (SSSP_edge src dst w).
Proof.
  destruct w as [st accum].
  destruct (st !! src) as [ds|] eqn:Hs.
  2: { unfold SSSP_edge. rewrite Hs. apply lowers_refl. }
  destruct (st !! dst) as [dt|] eqn:Ht.
  2: { unfold SSSP_edge. rewrite Hs, Ht. apply lowers_refl. }
  rewrite (SSSP_edge_eq st src dst accum ds dt Hs Ht). cbv zeta.
  destruct (U32.add 1 (current_length dt) <? current_length ds) eqn:Hlt;
    [|apply lowers_refl].
  apply N.ltb_lt in Hlt.
  pose proof (sum_dist_insert st src ds (U32.add 1 (current_length dt)) Hs).
  unfold lowers. cbn [fst snd]. rewrite length_insert.
  split; [reflexivity|]. split; [lia|]. intros _. lia.
Qed.

Lemma do_all_lowers {X : Type} (body : X → State * N → State * N) (l : list X) :
  (∀ x w, lowers w (body x w)) → ∀ w, lowers w (do_all body l w).
Proof.
  intros Hb. induction l as [|x l IH]; intros w; [apply lowers_refl|].
  rewrite do_all_cons. eapply lowers_trans; [apply Hb|apply IH].
Qed.

Lemma SSSP_superstep_lowers g st : lowers (st, 0) (SSSP_superstep g st).
Proof.
  unfold SSSP_superstep. apply do_all_lowers. intros src w.
  unfold SSSP_op. apply do_all_lowers. intros dst w'. apply SSSP_edge_lowers.
Qed.

Lemma SSSP_superstep_decreases g st st1 a :
  SSSP_superstep g st = (st1, a) → a ≠ 0 → sum_dist st1 < sum_dist st.
Proof.
  intros E Ha. destruct (SSSP_superstep_lowers g st) as (_ & _ & H).
  rewrite E in H. cbn [fst snd] in H. apply H, Ha.
Qed.

(** ** The superstep loop *)

Lemma do_while_accum_last fuel round :
  ∀ i st st' n,
    do_while_accum fuel round i st = Some (Ok (st', n)) →
    ∃ st_prev, round st_prev = Ok (st', 0).
Proof.
  induction fuel as [|fuel IH]; intros i st st' n H; [discriminate|].
  cbn [do_while_accum] in H.
  destruct (round st) as [[s1 a]|] eqn:E; [|discriminate].
  destruct (a =? 0) eqn:Ha.
  - apply N.eqb_eq in Ha. inversion H; subst. exists st. exact E.
  - eapply IH, H.
Qed.

Lemma do_while_accum_more_fuel fuel round :
  ∀ i st r fuel',
    do_while_accum fuel round i st = Some r → (fuel ≤ fuel')%nat →
    do_while_accum fuel' round i st = Some r.
Proof.
  induction fuel as [|fuel IH]; intros i st r fuel' H Hle; [discriminate|].
  destruct fuel' as [|fuel']; [lia|]. cbn [do_while_accum] in *.
  destruct (round st) as [[s1 a]|]; [|exact H].
  destruct (a =? 0); [exact H|]. apply IH; [exact H|lia].
Qed.

Lemma SSSP_loop_terminates g :
  ∀ fuel i st, (N.to_nat (sum_dist st) < fuel)%nat →
    ∃ st' n, do_while_accum fuel (SSSP_round g) i st = Some (Ok (st', n)).
Proof.
  induction fuel as [|fuel IH]; intros i st Hm; [lia|].
  cbn [do_while_accum]. unfold SSSP_round at 1.
  destruct (SSSP_superstep g st) as [s1 a] eqn:E.
  destruct (a =? 0) eqn:Ha; [eauto|].
  apply N.eqb_neq in Ha.
  pose proof (SSSP_superstep_decreases g st s1 a E Ha).
  apply IH. lia.
Qed.

Lemma do_while_accum_ends fuel round :
  ∀ i st st' n,
    i < U32.modulus →
    do_while_accum fuel round i st = Some (Ok (st', n))
    ↔ ∃ k st_last,
        (k < fuel)%nat
        ∧ rounds_with_work round k st st_last
        ∧ round st_last = Ok (st', 0)
        ∧ n = U32.wrap (i + N.of_nat (S k)).
Proof.
  induction fuel as [|fuel IH]; intros i st st' n Hi.
  - split; [discriminate|]. intros (k & sl & Hk & _). lia.
  - cbn [do_while_accum]. split.
    + destruct (round st) as [[s1 a]|] eqn:E; [|discriminate].
      destruct (a =? 0) eqn:Ha.
      * apply N.eqb_eq in Ha. subst a. intros H. inversion H; subst.
        exists 0%nat, st. split; [lia|]. split; [constructor|].
        split; [exact E|]. reflexivity.
      * intros H. apply IH in H; [|apply U32_add_lt].
        destruct H as (k & sl & Hk & Hrun & Hlast & Hn).
        exists (S k), sl. split; [lia|]. split.
        { econstructor; [exact E| |exact Hrun]. apply N.eqb_neq, Ha. }
        split; [exact Hlast|]. rewrite Hn. unfold U32.add.
        rewrite U32_wrap_add_l. f_equal. lia.
    + intros (k & sl & Hk & Hrun & Hlast & Hn). inversion Hrun; subst.
      * rewrite Hlast. cbn. reflexivity.
      * match goal with H : round st = Ok _ |- _ => rewrite H end.
        match goal with H : _ ≠ 0 |- _ => apply N.eqb_neq in H; rewrite H end.
        apply IH; [apply U32_add_lt|].
        match goal with H : rounds_with_work _ ?k0 _ _ |- _ =>
          exists k0, sl end.
        split; [lia|]. split; [assumption|]. split; [exact Hlast|].
        unfold U32.add. rewrite U32_wrap_add_l. f_equal. lia.
Qed.

Lemma do_all_pairs {X Y S : Type} (f : X → Y → S → S) (h : X → list Y)
    (l : list X) (w : S) :
  do_all (λ x, do_all (f x) (h x)) l w
  = do_all (λ e, f e.1 e.2) (l ≫= λ x, pair x <$> h x) w.
Proof.
  revert w. induction l as [|x l IH]; intros w; [reflexivity|].
  rewrite do_all_cons, bind_cons, do_all_app, IH. f_equal.
  generalize (h x) w. clear. intros ys.
  induction ys as [|y ys IH]; intros w; [reflexivity|].
  cbn [fmap list_fmap]. rewrite !do_all_cons. apply IH.
Qed.

Lemma SSSP_superstep_edges g st :
  SSSP_superstep g st = do_all (λ e, SSSP_edge e.1 e.2) (all_edges g) (st, 0).
Proof. apply (do_all_pairs SSSP_edge). Qed.

(** C7: an edge step computes [nd = 1 + dist(t)] and writes it to
    [dist(s)], recording a work unit, only when [nd < dist(s)]; a
    superstep starts from a zero accumulator and applies that step to
    each out-edge [(s, t)] of each vertex with edges, in the order of
    the vertices and of their edge lists; a superstep that records work
    strictly lowers the sum of the distances; so on every graph and from
    every node array the loop of [SSSP::go] ends: it runs [k] supersteps
    that record work, [k] at most that sum, then one whose accumulator
    reads zero, and returns the array of that last superstep with the
    count [k + 1]. *)
Theorem SSSP_go_terminates (g : Graph) (st : State) :
  (∀ src dst accum src_data dst_data,
     st !! src = Some src_data → st !! dst = Some dst_data →
     SSSP_edge src dst (st, accum)
     = let nd := U32.add 1 (current_length dst_data) in
       if nd <? current_length src_data
       then (<[src := set_current_length nd src_data]> st, U32.add accum 1)
       else (st, accum))
  ∧ SSSP_superstep g st
    = foldl (λ w e, SSSP_edge e.1 e.2 w) (st, 0)
        (seq 0 (numNodesWithEdges g) ≫= λ s, pair s <$> edge_dsts g s)
  ∧ (∀ st1 a, SSSP_superstep g st = (st1, a) → a ≠ 0 →
       sum_dist st1 < sum_dist st)
  ∧ ∃ st' n,
      (∀ fuel, (N.to_nat (sum_dist st) < fuel)%nat →
         SSSP_go fuel g st = Some (Ok (st', n)))
      ∧ ∃ k st_last,
          (k ≤ N.to_nat (sum_dist st))%nat
          ∧ rounds_with_work (SSSP_round g) k st st_last
          ∧ SSSP_superstep g st_last = (st', 0)
          ∧ n = N.of_nat (S k) `mod` U32.modulus.
Proof.
  split; [intros; apply SSSP_edge_eq; assumption|].
  split; [apply SSSP_superstep_edges|].
  split; [apply SSSP_superstep_decreases|].
  destruct (SSSP_loop_terminates g (S (N.to_nat (sum_dist st))) 0 st)
    as (st' & n & H); [lia|].
  exists st', n. split.
  - intros fuel Hf. unfold SSSP_go.
    eapply do_while_accum_more_fuel; [exact H|lia].
  - apply do_while_accum_ends in H; [|reflexivity].
    destruct H as (k & sl & Hk & Hrun & Hlast & Hn).
    exists k, sl. split; [lia|]. split; [exact Hrun|].
    split; [unfold SSSP_round in Hlast; congruence|]. exact Hn.
Qed.

(** ** The iteration cap *)

Lemma do_while_accum_fault fuel round :
  ∀ i st f,
    do_while_accum fuel round i st = Some (Fault f) →
    ∃ st_last, round st_last = Fault f.
Proof.
  induction fuel as [|fuel IH]; intros i st f H; [discriminate|].
  cbn [do_while_accum] in H.
  destruct (round st) as [[s1 a]|f'] eqn:E.
  - destruct (a =? 0); [discriminate|]. eapply IH, H.
  - inversion H; subst. eauto.
Qed.

Lemma fill_random_sources_maxIterations uid m cfg g :
  ∀ fuel rs gen,
    fill_random_sources uid fuel (with_maxIterations m cfg) g rs gen
    = fill_random_sources uid fuel cfg g rs gen.
Proof.
  induction fuel as [|fuel IH]; intros rs gen; [reflexivity|].
  cbn [fill_random_sources numberOfSources with_maxIterations].
  destruct (N.of_nat (length rs) <? numberOfSources cfg); [|reflexivity].
  destruct (r_dist uid g gen) as [x gen']. apply IH.
Qed.

Lemma BC_loop_maxIterations fuel m cfg g :
  ∀ rounds i it w,
    BC_loop fuel (with_maxIterations m cfg) g rounds i it w
    = BC_loop fuel cfg g rounds i it w.
Proof.
  induction rounds as [|rounds IH]; intros i it w; [reflexivity|].
  cbn [BC_loop].
  change (next_source (with_maxIterations m cfg) i it) with (next_source cfg i it).
  destruct (next_source cfg i it) as [[cur rest]|]; [|reflexivity].
  unfold and_then. destruct (BC_iteration fuel g cur w.1) as [[s|f]|];
    try reflexivity. apply IH.
Qed.

Lemma main_run_maxIterations uid fuel m cfg g st :
  main_run uid fuel (with_maxIterations m cfg) g st = main_run uid fuel cfg g st.
Proof.
  unfold main_run, main_random_sources.
  cbn [numberOfSources startSource with_maxIterations].
  rewrite fill_random_sources_maxIterations.
  destruct (if negb (numberOfSources cfg =? 0) then _ else _); [|reflexivity].
  unfold BC_go. apply BC_loop_maxIterations.
Qed.

(** C3, as the code has it: [maxIterations] (default 10000) does not
    reach the result of a run.  Each of the three phases repeats its
    round for as long as the accumulator reads nonzero: the loop is left
    after round [k + 1] exactly when the first [k] rounds recorded work
    and round [k + 1] recorded none, whatever [k] is, and it ends in a
    fault only when one of its rounds does. *)
Theorem phase_loops_run_until_no_work
    (uid : N → N → (N → N * N) → N → N * N)
    (cfg : Config) (g : Graph) (cur : N) (m : N) (fuel : nat) (st : State) :
  maxIterations default_config = 10000
  ∧ main_run uid fuel (with_maxIterations m cfg) g st = main_run uid fuel cfg g st
  ∧ (∀ st' n,
       (SSSP_go fuel g st = Some (Ok (st', n))
        ↔ ends_after (SSSP_round g) fuel st st' n)
       ∧ (NumShortestPaths_go fuel g st = Some (Ok (st', n))
          ↔ ends_after (NumShortestPaths_round g) fuel st st' n)
       ∧ (DependencyPropogation_go fuel g cur st = Some (Ok (st', n))
          ↔ ends_after (DependencyPropogation_round g cur) fuel st st' n))
  ∧ (∀ f,
       SSSP_go fuel g st ≠ Some (Fault f)
       ∧ (NumShortestPaths_go fuel g st = Some (Fault f) →
          ∃ st_last, NumShortestPaths_round g st_last = Fault f)
       ∧ (DependencyPropogation_go fuel g cur st = Some (Fault f) →
          ∃ st_last, DependencyPropogation_round g cur st_last = Fault f)).
Proof.
  split; [reflexivity|]. split; [apply main_run_maxIterations|]. split.
  - intros st' n. unfold SSSP_go, NumShortestPaths_go, DependencyPropogation_go,
      ends_after.
    repeat split; intros H;
      first [apply do_while_accum_ends in H; [exact H|reflexivity]
            |apply do_while_accum_ends; [reflexivity|exact H]].
  - intros f. split; [|split].
    + intros H. apply do_while_accum_fault in H as [sl Hsl]. discriminate.
    + apply do_while_accum_fault.
    + apply do_while_accum_fault.
Qed.

Lemma phase_loops_run_until_no_work_witness :
  ends_after (SSSP_round chain3) 5 chain3_reset chain3_bfs 3.
Proof.
  apply (proj1 (proj1 (proj1 (proj2 (proj2
           (phase_loops_run_until_no_work (λ _ _ gen s, gen s) capped_config
              chain3 2 7 5 chain3_reset))) chain3_bfs 3))).
  vm_compute. reflexivity.
Defined.

(** C3 as stated fails: with a cap of two iterations configured, the BFS
    loop on the chain of three vertices runs three supersteps and
    returns without a fault, and so does the whole run. *)
Lemma SSSP_go_runs_past_maxIterations :
  maxIterations capped_config = 2
  ∧ SSSP_go 5 chain3 chain3_reset = Some (Ok (chain3_bfs, 3))
  ∧ maxIterations capped_config < 3
  ∧ ∃ st', main_run (λ _ _ gen s, gen s) 5 capped_config chain3
             [zero_node; zero_node; zero_node]
           = Some (Ok (st', [2])).
Proof.
  split; [reflexivity|]. split; [vm_compute; reflexivity|].
  split; [reflexivity|]. eexists. vm_compute. reflexivity.
Qed.

(** ** The sampled sources *)

Lemma elem_of_set_insert x y s : y ∈ set_insert x s ↔ y = x ∨ y ∈ s.
Proof.
  induction s as [|z s IH]; cbn [set_insert].
  - rewrite list_elem_of_singleton, elem_of_nil. tauto.
  - destruct (x <? z) eqn:Hlt.
    + rewrite elem_of_cons. tauto.
    + destruct (x =? z) eqn:Heq.
      * apply N.eqb_eq in Heq. subst z. rewrite elem_of_cons. tauto.
      * rewrite !elem_of_cons, IH. tauto.
Qed.

Lemma HdRel_set_insert a x s :
  a < x → HdRel N.lt a s → HdRel N.lt a (set_insert x s).
Proof.
  intros Hax Hs. destruct s as [|z s]; cbn [set_insert].
  - constructor. exact Hax.
  - inversion Hs; subst. destruct (x <? z); [constructor; exact Hax|].
    destruct (x =? z); constructor; assumption.
Qed.

Lemma Sorted_set_insert x s : Sorted N.lt s → Sorted N.lt (set_insert x s).
Proof.
  induction 1 as [|z s Hs IH Hd]; cbn [set_insert].
  - repeat constructor.
  - destruct (x <? z) eqn:Hlt.
    + apply N.ltb_lt in Hlt. repeat constructor; assumption.
    + destruct (x =? z) eqn:Heq; [constructor; assumption|].
      apply N.ltb_ge in Hlt. apply N.eqb_neq in Heq.
      constructor; [exact IH|]. apply HdRel_set_insert; [lia|exact Hd].
Qed.

Lemma length_set_insert x s :
  length (set_insert x s) = length s ∨ length (set_insert x s) = S (length s).
Proof.
  induction s as [|z s IH]; cbn [set_insert]; [right; reflexivity|].
  destruct (x <? z); [right; reflexivity|].
  destruct (x =? z); [left; reflexivity|].
  cbn [length]. destruct IH as [->| ->]; [left|right]; reflexivity.
Qed.

Lemma draws_snoc uid g n :
  ∀ gen, ∃ x, draws uid g (S n) gen = draws uid g n gen ++ [x].
Proof.
  induction n as [|n IH]; intros gen.
  - cbn [draws]. destruct (r_dist uid g gen) as [x gen']. exists x. reflexivity.
  - cbn [draws] in *. destruct (r_dist uid g gen) as [x gen'].
    destruct (IH gen') as [y Hy]. exists y. rewrite Hy. reflexivity.
Qed.

(** The filling loop inserts draws, in the order they are made, until
    the set is large enough, and not one more. *)
Lemma fill_random_sources_spec uid cfg g :
  ∀ fuel rs gen rs',
    fill_random_sources uid fuel cfg g rs gen = Some rs' →
    ∃ n, (n ≤ fuel)%nat
      ∧ rs' = foldl (λ s x, set_insert x s) rs (draws uid g n gen)
      ∧ ¬ (N.of_nat (length rs') < numberOfSources cfg)
      ∧ ∀ m, (m < n)%nat →
          N.of_nat (length (foldl (λ s x, set_insert x s) rs (draws uid g m gen)))
          < numberOfSources cfg.
Proof.
  induction fuel as [|fuel IH]; intros rs gen rs' H; cbn [fill_random_sources] in H.
  - destruct (N.of_nat (length rs) <? numberOfSources cfg) eqn:Hlt; [discriminate|].
    inversion H; subst. apply N.ltb_ge in Hlt.
    exists 0%nat. split; [lia|]. split; [reflexivity|]. split; [lia|]. lia.
  - destruct (N.of_nat (length rs) <? numberOfSources cfg) eqn:Hlt.
    + destruct (r_dist uid g gen) as [x gen'] eqn:Hd.
      destruct (IH _ _ _ H) as (n & Hn & Hrs & Hlen & Hmin).
      exists (S n). split; [lia|]. cbn [draws]. rewrite Hd. cbn [foldl].
      split; [exact Hrs|]. split; [exact Hlen|].
      intros [|m] Hm.
      * cbn [draws foldl]. apply N.ltb_lt, Hlt.
      * cbn [draws]. rewrite Hd. cbn [foldl]. apply Hmin. lia.
    + inversion H; subst. apply N.ltb_ge in Hlt.
      exists 0%nat. split; [lia|]. split; [reflexivity|]. split; [lia|]. lia.
Qed.

Lemma foldl_set_insert_sorted l :
  ∀ s, Sorted N.lt s → Sorted N.lt (foldl (λ s x, set_insert x s) s l).
Proof.
  induction l as [|x l IH]; intros s Hs; [exact Hs|].
  cbn [foldl]. apply IH, Sorted_set_insert, Hs.
Qed.

Lemma foldl_set_insert_elem l :
  ∀ s y, y ∈ foldl (λ s x, set_insert x s) s l ↔ y ∈ s ∨ y ∈ l.
Proof.
  induction l as [|x l IH]; intros s y; cbn [foldl].
  - rewrite elem_of_nil. tauto.
  - rewrite IH, elem_of_set_insert, elem_of_cons. tauto.
Qed.

(** The driver reads the set from its first element on, one element a
    round. *)
Lemma BC_loop_trace fuel cfg g :
  use_random cfg = true →
  ∀ rounds i it st tr st' tr',
    BC_loop fuel cfg g rounds i it (st, tr) = Some (Ok (st', tr')) →
    tr' = tr ++ take rounds it ∧ (rounds ≤ length it)%nat.
Proof.
  intros Hr. assert (Hs : singleSourceBC cfg = false).
  { unfold use_random in Hr. destruct (singleSourceBC cfg); [discriminate|reflexivity]. }
  induction rounds as [|rounds IH]; intros i it st tr st' tr' H.
  - inversion H; subst. rewrite take_0, app_nil_r. split; [reflexivity|lia].
  - cbn [BC_loop] in H. unfold next_source in H. rewrite Hs, Hr in H.
    destruct it as [|x rest]; [discriminate|].
    unfold and_then in H. cbn [fst snd] in H.
    destruct (BC_iteration fuel g x st) as [[s1|]|]; try discriminate.
    apply IH in H as [-> Hlen]. cbn [take length].
    rewrite <- app_assoc. split; [reflexivity|lia].
Qed.

(** The converse: the loop returns at the first draw that fills the
    set. *)
Lemma fill_random_sources_returns uid cfg g :
  ∀ n fuel rs gen,
    (n ≤ fuel)%nat →
    (∀ m, (m < n)%nat →
       N.of_nat (length (foldl (λ s x, set_insert x s) rs (draws uid g m gen)))
       < numberOfSources cfg) →
    numberOfSources cfg
    ≤ N.of_nat (length (foldl (λ s x, set_insert x s) rs (draws uid g n gen))) →
    fill_random_sources uid fuel cfg g rs gen
    = Some (foldl (λ s x, set_insert x s) rs (draws uid g n gen)).
Proof.
  induction n as [|n IH]; intros fuel rs gen Hfuel Hmin Hfull.
  - cbn [draws foldl] in *.
    destruct fuel; cbn [fill_random_sources];
      destruct (N.ltb_spec (N.of_nat (length rs)) (numberOfSources cfg));
      first [lia|reflexivity].
  - destruct fuel as [|fuel]; [lia|]. cbn [fill_random_sources].
    pose proof (Hmin 0%nat ltac:(lia)) as H0. cbn [draws foldl] in H0.
    apply N.ltb_lt in H0. rewrite H0.
    cbn [draws] in Hfull |- *.
    destruct (r_dist uid g gen) as [x gen'] eqn:Hd. cbn [foldl] in Hfull |- *.
    apply IH; [lia| |exact Hfull].
    intros m Hm. specialize (Hmin (S m) ltac:(lia)).
    cbn [draws] in Hmin. rewrite Hd in Hmin. exact Hmin.
Qed.

Lemma first_full_spec uid cfg g n :
  first_full uid cfg g n = true
  ↔ (∀ m, (m < n)%nat →
       N.of_nat (length (sources_after uid cfg g m)) < numberOfSources cfg)
    ∧ numberOfSources cfg ≤ N.of_nat (length (sources_after uid cfg g n)).
Proof.
  unfold first_full. rewrite andb_true_iff, forallb_forall, N.leb_le.
  split; intros [H1 H2]; (split; [|exact H2]).
  - intros m Hm. apply N.ltb_lt, H1, list_elem_of_In, elem_of_seq. lia.
  - intros m Hm. apply list_elem_of_In, elem_of_seq in Hm. apply N.ltb_lt, H1. lia.
Qed.

Lemma main_random_sources_spec uid fuel cfg g random_sources :
  numberOfSources cfg ≠ 0 →
  main_random_sources uid fuel cfg g = Some random_sources
  ↔ ∃ n, (n ≤ fuel)%nat ∧ first_full uid cfg g n = true
         ∧ random_sources = sources_after uid cfg g n.
Proof.
  intros Hk. unfold main_random_sources. apply N.eqb_neq in Hk. rewrite Hk.
  cbn [negb]. split.
  - intros H. destruct (fill_random_sources_spec _ _ _ _ _ _ _ H)
      as (n & Hn & Hrs & Hlen & Hmin).
    exists n. split; [exact Hn|]. split; [|exact Hrs].
    apply first_full_spec. split; [exact Hmin|].
    unfold sources_after, set_of. cbn [foldl]. rewrite <- Hrs. lia.
  - intros (n & Hn & Hfull & ->). apply first_full_spec in Hfull as [Hmin Hfull].
    apply (fill_random_sources_returns uid cfg g n); assumption.
Qed.

(** The choice of the sources reads the graph only through its size and
    the options only through [startSource] and [numberOfSources]. *)
Lemma main_random_sources_same uid fuel cfg cfg' g g' :
  startSource cfg' = startSource cfg →
  numberOfSources cfg' = numberOfSources cfg →
  size g' = size g →
  main_random_sources uid fuel cfg' g' = main_random_sources uid fuel cfg g.
Proof.
  intros Hs' Hk' Hg'. unfold main_random_sources. rewrite Hk', Hs'.
  destruct (negb _); [|reflexivity].
  generalize (set_insert (startSource cfg) []).
  generalize (minstd_rand0.seed 100).
  induction fuel as [|fuel IH]; intros gen rs; cbn [fill_random_sources];
    rewrite Hk'; [reflexivity|].
  destruct (_ <? _); [|reflexivity].
  unfold r_dist. rewrite Hg'.
  destruct (uid 0 _ minstd_rand0.next gen) as [x gen']. apply IH.
Qed.

(** The driver reads the set from its first element on, one element a
    round, whether or not the iterations return. *)
Lemma BC_loop_visit_in_order fuel cfg g :
  use_random cfg = true →
  ∀ it i st tr,
    BC_loop fuel cfg g (length it) i it (st, tr)
    = and_then (visit_in_order fuel g it st) (λ st', Some (Ok (st', tr ++ it))).
Proof.
  intros Hr. assert (Hs : singleSourceBC cfg = false).
  { unfold use_random in Hr. destruct (singleSourceBC cfg); [discriminate|reflexivity]. }
  induction it as [|x it IH]; intros i st tr.
  - cbn. rewrite app_nil_r. reflexivity.
  - cbn [length BC_loop visit_in_order]. unfold next_source. rewrite Hs, Hr.
    cbn [fst snd]. unfold and_then at 1 3.
    destruct (BC_iteration fuel g x st) as [[s1|f]|]; try reflexivity.
    rewrite IH, <- app_assoc. reflexivity.
Qed.

(** C9: with [numOfSources = k > 0] and [singleSource] off, [main]
    inserts [startSource] and then the values drawn, one after the
    other, from the engine seeded with 100, for as long as the set has
    fewer than [k] elements.  The loop returns exactly when some number
    of draws brings the set to [k] elements, at the first such draw and
    with the set of [startSource] and the draws made so far; when no
    number of draws does, it never returns.  The set it returns has
    exactly [k] elements in strictly ascending order; the driver runs
    one iteration for each of them in that order; and the choice depends
    on the graph only through its size and on the options only through
    [startSource] and [k], so a second run selects the same sequence. *)
Theorem sampled_sources_spec
    (uid : N → N → (N → N * N) → N → N * N) (cfg : Config) (g : Graph) :
  numberOfSources cfg ≠ 0 →
  singleSourceBC cfg = false →
  (∀ fuel random_sources,
     main_random_sources uid fuel cfg g = Some random_sources
     ↔ ∃ n, (n ≤ fuel)%nat ∧ first_full uid cfg g n = true
            ∧ random_sources = sources_after uid cfg g n)
  ∧ ((∀ n, N.of_nat (length (sources_after uid cfg g n)) < numberOfSources cfg) →
     ∀ fuel, main_random_sources uid fuel cfg g = None)
  ∧ ∀ n, first_full uid cfg g n = true →
      let random_sources := sources_after uid cfg g n in
      (∀ x, x ∈ random_sources
            ↔ x = startSource cfg ∨ x ∈ draws uid g n (minstd_rand0.seed 100))
      ∧ N.of_nat (length random_sources) = numberOfSources cfg
      ∧ Sorted N.lt random_sources
      ∧ (∀ fuel st,
           BC_go fuel cfg g random_sources st
           = and_then (visit_in_order fuel g random_sources st)
               (λ st', Some (Ok (st', random_sources))))
      ∧ (∀ fuel cfg' g',
           (n ≤ fuel)%nat →
           startSource cfg' = startSource cfg →
           numberOfSources cfg' = numberOfSources cfg →
           size g' = size g →
           main_random_sources uid fuel cfg' g' = Some random_sources).
Proof.
  intros Hk Hsingle. split; [|split].
  - intros fuel rs. apply main_random_sources_spec, Hk.
  - intros Hnever fuel.
    destruct (main_random_sources uid fuel cfg g) as [rs|] eqn:E; [|reflexivity].
    apply main_random_sources_spec in E as (n & _ & Hfull & _); [|exact Hk].
    apply first_full_spec in Hfull as [_ Hfull]. specialize (Hnever n). lia.
  - intros n Hfull random_sources.
    pose proof Hfull as Hfirst. apply first_full_spec in Hfirst as [Hmin Hlen].
    assert (Hsize : N.of_nat (length random_sources) = numberOfSources cfg).
    { destruct n as [|n].
      - subst random_sources. unfold sources_after, set_of in *.
        cbn [draws foldl set_insert length] in *. lia.
      - specialize (Hmin n ltac:(lia)).
        destruct (draws_snoc uid g n (minstd_rand0.seed 100)) as [x Hx].
        subst random_sources. unfold sources_after, set_of in *.
        cbn [foldl] in *. rewrite Hx, foldl_app in *. cbn [foldl] in *.
        pose proof (length_set_insert x
          (foldl (λ s x, set_insert x s) (set_insert (startSource cfg) [])
             (draws uid g n (minstd_rand0.seed 100)))) as Hl.
        lia. }
    split.
    { intros x. subst random_sources. unfold sources_after, set_of.
      cbn [foldl]. rewrite foldl_set_insert_elem, elem_of_set_insert, elem_of_nil.
      tauto. }
    split; [exact Hsize|]. split.
    { subst random_sources. unfold sources_after, set_of. cbn [foldl].
      apply foldl_set_insert_sorted. repeat constructor. }
    split.
    + intros fuel st. unfold BC_go.
      assert (Hend : N.to_nat (loop_end cfg g) = length random_sources).
      { unfold loop_end. rewrite Hsingle. apply N.eqb_neq in Hk. rewrite Hk.
        cbn [negb]. lia. }
      rewrite Hend. apply (BC_loop_visit_in_order fuel cfg g).
      unfold use_random. rewrite Hsingle. apply N.eqb_neq in Hk. rewrite Hk.
      reflexivity.
    + intros fuel cfg' g' Hfuel Hs' Hk' Hg'.
      rewrite (main_random_sources_same uid fuel cfg cfg' g g' Hs' Hk' Hg').
      apply main_random_sources_spec; [exact Hk|]. exists n. auto.
Qed.

Lemma sampled_sources_spec_witness :
  draws (gnu_uniform_int_distribution 8) thousand 5 (minstd_rand0.seed 100)
  = [0; 153; 560; 865; 276]
  ∧ main_random_sources (gnu_uniform_int_distribution 8) 5 sampled_config thousand
    = Some [0; 153; 276; 560; 865]
  ∧ (∀ fuel, (fuel < 5)%nat →
       main_random_sources (gnu_uniform_int_distribution 8) fuel sampled_config
         thousand = None)
  ∧ N.of_nat (length [0; 153; 276; 560; 865]) = numberOfSources sampled_config
  ∧ Sorted N.lt [0; 153; 276; 560; 865]
  ∧ (∀ fuel st,
       BC_go fuel sampled_config thousand [0; 153; 276; 560; 865] st
       = and_then (visit_in_order fuel thousand [0; 153; 276; 560; 865] st)
           (λ st', Some (Ok (st', [0; 153; 276; 560; 865]))))
  ∧ (∀ fuel cfg' g',
       (5 ≤ fuel)%nat →
       startSource cfg' = startSource sampled_config →
       numberOfSources cfg' = numberOfSources sampled_config →
       size g' = size thousand →
       main_random_sources (gnu_uniform_int_distribution 8) fuel cfg' g'
       = Some [0; 153; 276; 560; 865]).
Proof.
  pose proof (sampled_sources_spec (gnu_uniform_int_distribution 8)
                sampled_config thousand ltac:(discriminate) eq_refl)
    as (Hiff & _ & Hset).
  specialize (Hset 5%nat ltac:(vm_compute; reflexivity)).
  change (sources_after (gnu_uniform_int_distribution 8) sampled_config thousand 5)
    with [0; 153; 276; 560; 865] in Hset.
  cbv zeta in Hset. destruct Hset as (_ & Hlen & Hsorted & Hgo & Hsame).
  split; [vm_compute; reflexivity|].
  split; [apply Hiff; exists 5%nat; repeat split; vm_compute; reflexivity|].
  split; [|auto].
  intros fuel Hfuel.
  destruct (main_random_sources _ fuel sampled_config thousand) as [rs|] eqn:E;
    [|reflexivity].
  apply Hiff in E as (n & Hn & Hfull & _).
  do 5 (destruct n as [|n]; [vm_compute in Hfull; discriminate|]). lia.
Defined.

(** ** DependencyPropogation: the propagate operator of the delta phase *)

(** C1 at the failing input.  On [kite], after the first round of the
    delta phase, the vertex with global id 2 holds the token with
    [delta = 0.5], and its out-edge leads to the vertex with global id 1,
    one step nearer to the source, [sigma = 1] at both ends.  The
    operator adds 1 to [trim2] of the destination and clears the token,
    but it adds [(1/1) * (1 + 0) = 1] to [to_add_f] of the destination,
    not [(1/1) * (1 + 0.5) = 1.5]: the dependency was converted to
    [uint32_t] first.  At the end of the run the centrality of global id
    1 is 2 where the sum of [(sigma(t)/sigma(s)) * (1 + delta(s))] over
    its two successors is 3. *)
Theorem DependencyPropogation_op_truncates_dependency :
  through_sigma 10 kite 0 (InitializeGraph_go (replicate 5 zero_node))
  = Some (Ok kite_sigma)
  ∧ DependencyPropogation_round kite 0 kite_sigma = Ok (kite_round1, 2)
  ∧ (∃ s t,
       kite_round1 !! 1%nat = Some s ∧ kite_round1 !! 0%nat = Some t
       ∧ edge_dsts kite 1 = [0%nat]
       ∧ current_length s ≠ infinity ∧ propogation_flag s = true
       ∧ getGID kite 0 ≠ 0 ∧ on_dag t s = true
       ∧ num_shortest_paths t = 1 ∧ num_shortest_paths s = 1
       ∧ dependency s = f32_half
       ∧ to_add_float t = F32.zero ∧ trim2 t = 0)
  ∧ (∃ st',
       DependencyPropogation_op kite infinity 0 1 (kite_round1, 0) = Ok (st', 1)
       ∧ trim2 <$> st' !! 0%nat = Some 1
       ∧ propogation_flag <$> st' !! 1%nat = Some false
       ∧ to_add_float <$> st' !! 0%nat = Some (F32.of_N 1))
  ∧ F32.add F32.zero
      (F32.mul (F32.div (F32.of_N 1) (F32.of_N 1)) (F32.add (F32.of_N 1) f32_half))
    = f32_one_and_half
  ∧ F32.of_N 1 ≠ f32_one_and_half
  ∧ (∃ st',
       main_run (λ _ _ gen s, gen s) 10 single_source_config kite
         (replicate 5 zero_node) = Some (Ok (st', [0]))
       ∧ betweeness_centrality <$> st' !! 0%nat = Some f32_two)
  ∧ F32.add (F32.mul (F32.div (F32.of_N 1) (F32.of_N 1))
               (F32.add (F32.of_N 1) f32_half))
            (F32.mul (F32.div (F32.of_N 1) (F32.of_N 1))
               (F32.add (F32.of_N 1) f32_half))
    = f32_three.
Proof.
  split; [vm_compute; reflexivity|]. split; [vm_compute; reflexivity|].
  split.
  { eexists _, _. split; [reflexivity|]. split; [reflexivity|].
    vm_compute. repeat split; discriminate. }
  split.
  { eexists. split; [vm_compute; reflexivity|]. vm_compute. repeat split. }
  split; [vm_compute; reflexivity|]. split; [vm_compute; discriminate|].
  split; [|vm_compute; reflexivity].
  eexists. split; [vm_compute; reflexivity|]. vm_compute. reflexivity.
Qed.

(** ** The phases leave the scores alone *)

Lemma ignores_work_dependency : ignores_work dependency.
Proof. repeat split. Qed.

Lemma ignores_work_betweeness_centrality : ignores_work betweeness_centrality.
Proof. repeat split. Qed.

Section WorkFrames.
Context {A : Type} (proj : NodeData → A) (Hw : ignores_work proj).

Ltac ignore_work :=
  let H := fresh "Hw" in
  pose proof Hw as H;
  destruct H as (?H & ?H & ?H & ?H & ?H & ?H & ?H & ?H & ?H & ?H);
  repeat match goal with
  | Hs : ∀ v d, proj (?set v d) = proj d |- context [proj (?set _ _)] =>
      rewrite Hs
  end; try reflexivity.

Lemma reset_node_frame local_infinity cur gid d :
  proj (reset_node local_infinity cur gid d) = proj d.
Proof.
  replace (reset_node local_infinity cur gid d)
    with (set_dep_prop_flag false (set_num_short_paths_flag false
            (set_num_successors 0 (set_propogation_flag (gid =? cur)
               (set_num_shortest_paths (if gid =? cur then 1 else 0)
                  (set_current_length
                     (if gid =? cur then 0 else local_infinity) d))))))
    by reflexivity.
  ignore_work.
Qed.

Lemma InitializeIteration_go_frame g cur st st' :
  InitializeIteration_go g cur st = Ok st' → proj <$> st' = proj <$> st.
Proof.
  apply frame_for_each. intros src s s' H. unfold InitializeIteration_op in H.
  destruct (s !! src) as [d|] eqn:Hd; [|inversion H; reflexivity].
  rewrite InitializeIteration_node_eq in H.
  destruct (num_predecessors d =? 0); [|discriminate].
  cbn [mbind res_bind] in H. inversion H; subst.
  eapply frame_insert; [exact Hd|]. apply reset_node_frame.
Qed.

Lemma SSSP_edge_frame src dst w :
  proj <$> (SSSP_edge src dst w).1 = proj <$> w.1.
Proof.
  destruct w as [st accum]. unfold SSSP_edge.
  destruct (st !! src) as [ds|] eqn:Hs; [|reflexivity].
  destruct (st !! dst) as [dt|]; [|reflexivity].
  destruct (Galois_min _ _) as [len old].
  destruct (_ <? old); cbn [fst]; (eapply frame_insert; [exact Hs|]);
    ignore_work.
Qed.

Lemma SSSP_superstep_frame g st :
  proj <$> (SSSP_superstep g st).1 = proj <$> st.
Proof.
  unfold SSSP_superstep.
  rewrite (frame_do_all_accum proj (SSSP_op g)); [reflexivity|].
  intros src w. unfold SSSP_op. apply frame_do_all_accum.
  intros dst w'. apply SSSP_edge_frame.
Qed.

Lemma SSSP_go_frame fuel g st st' n :
  SSSP_go fuel g st = Some (Ok (st', n)) → proj <$> st' = proj <$> st.
Proof.
  apply frame_do_while. intros s s' a H. unfold SSSP_round in H.
  inversion H as [E]. rewrite <- (SSSP_superstep_frame g s), E. reflexivity.
Qed.

Lemma count_edge_frame e st : proj <$> count_edge e st = proj <$> st.
Proof.
  unfold count_edge. rewrite !frame_alter; [reflexivity| |];
    intros d; ignore_work.
Qed.

Lemma PredAndSucc_go_frame g st : proj <$> PredAndSucc_go g st = proj <$> st.
Proof.
  rewrite PredAndSucc_go_eq. apply frame_do_all. intros e s.
  apply count_edge_frame.
Qed.

Lemma NumShortestPaths_edge_frame src dst w :
  proj <$> (NumShortestPaths_edge src dst w).1 = proj <$> w.1.
Proof.
  destruct w as [st accum]. unfold NumShortestPaths_edge.
  destruct (st !! src) as [ds|] eqn:Hs; [|reflexivity].
  destruct (st !! dst) as [dt|]; [|reflexivity].
  destruct (propogation_flag dt); [|reflexivity].
  destruct (_ =? _); [|reflexivity]. cbn [fst].
  eapply frame_insert; [exact Hs|]. ignore_work.
Qed.

Lemma NumShortestPaths_op_frame g src w :
  proj <$> (NumShortestPaths_op g infinity src w).1 = proj <$> w.1.
Proof.
  unfold NumShortestPaths_op. destruct (w.1 !! src) as [ds|]; [|reflexivity].
  destruct (negb _); [|reflexivity]. destruct (0 <? _); [|reflexivity].
  apply frame_do_all_accum. intros dst w'. apply NumShortestPaths_edge_frame.
Qed.

Lemma NSPTrim_go_frame st : proj <$> NSPTrim_go st = proj <$> st.
Proof.
  apply frame_do_all. intros src s. apply frame_alter. intros d.
  unfold NSPTrim_node. destruct (0 <? trim d); [|reflexivity]. ignore_work.
Qed.

Lemma NSPAdd_go_frame st : proj <$> NSPAdd_go st = proj <$> st.
Proof.
  apply frame_do_all. intros src s. apply frame_alter. intros d.
  unfold NSPAdd_node. destruct (0 <? to_add d); [|reflexivity]. ignore_work.
Qed.

Lemma NumShortestPathsChanges_node_frame local_infinity d d' :
  NumShortestPathsChanges_node local_infinity d = Ok d' → proj d' = proj d.
Proof.
  unfold NumShortestPathsChanges_node.
  destruct (negb (current_length d =? local_infinity));
    [|intros H; inversion H; reflexivity].
  destruct ((num_predecessors d =? 0) && propogation_flag d).
  - destruct (negb (num_successors d =? 0));
      [|intros H; inversion H; reflexivity].
    cbn [num_short_paths_flag set_propogation_flag].
    destruct (negb (num_short_paths_flag d)); intros H; inversion H;
      ignore_work.
  - destruct ((num_predecessors d =? 0) && negb (num_short_paths_flag d));
      [|intros H; inversion H; reflexivity].
    destruct (assert _); [|discriminate]. cbn [mbind res_bind].
    intros H; inversion H. ignore_work.
Qed.

Lemma NumShortestPathsChanges_go_frame st st' :
  NumShortestPathsChanges_go st = Ok st' → proj <$> st' = proj <$> st.
Proof.
  apply frame_for_each. intros src s s' H.
  unfold NumShortestPathsChanges_op in H.
  destruct (s !! src) as [d|] eqn:Hd; [|inversion H; reflexivity].
  destruct (NumShortestPathsChanges_node infinity d) as [d'|] eqn:E;
    [|discriminate].
  cbn [mbind res_bind] in H. inversion H; subst.
  eapply frame_insert; [exact Hd|].
  eapply NumShortestPathsChanges_node_frame, E.
Qed.

Lemma NumShortestPaths_round_frame g st st' a :
  NumShortestPaths_round g st = Ok (st', a) → proj <$> st' = proj <$> st.
Proof.
  unfold NumShortestPaths_round.
  assert (Hf : proj <$> (do_all (NumShortestPaths_op g infinity)
                           (allNodesWithEdgesRange g) (st, 0)).1 = proj <$> st).
  { apply (frame_do_all_accum proj (NumShortestPaths_op g infinity)).
    intros src w. apply NumShortestPaths_op_frame. }
  destruct (do_all (NumShortestPaths_op g infinity) _ (st, 0)) as [s1 a1].
  cbn [fst] in Hf.
  destruct (NumShortestPathsChanges_go (NSPAdd_go (NSPTrim_go s1))) as [s2|] eqn:E2;
    [|discriminate].
  cbn [mbind res_bind]. intros H; inversion H; subst.
  rewrite (NumShortestPathsChanges_go_frame _ _ E2).
  rewrite NSPAdd_go_frame, NSPTrim_go_frame. exact Hf.
Qed.

Lemma NumShortestPaths_go_frame fuel g st st' n :
  NumShortestPaths_go fuel g st = Some (Ok (st', n)) →
  proj <$> st' = proj <$> st.
Proof. apply frame_do_while. apply NumShortestPaths_round_frame. Qed.

Lemma DPTrim_go_frame st : proj <$> DPTrim_go st = proj <$> st.
Proof.
  apply frame_do_all. intros src s. apply frame_alter. intros d.
  unfold DPTrim_node. destruct (0 <? trim2 d); [|reflexivity]. ignore_work.
Qed.

Lemma DependencyPropChanges_go_frame g st :
  proj <$> DependencyPropChanges_go g st = proj <$> st.
Proof.
  apply frame_do_all. intros src s. apply frame_alter. intros d.
  unfold DependencyPropChanges_node. destruct (negb _); [|reflexivity].
  destruct (_ && _); [|reflexivity]. ignore_work.
Qed.
Hypothesis Hbuf : ∀ v d, proj (set_to_add_float v d) = proj d.

Lemma DependencyPropogation_edge_frame g cur src dst w w' :
  DependencyPropogation_edge g cur src dst w = Ok w' →
  proj <$> w'.1 = proj <$> w.1.
Proof.
  destruct w as [st accum]. unfold DependencyPropogation_edge.
  destruct (getGID g dst =? cur); [intros H; inversion H; reflexivity|].
  destruct (st !! src) as [ds|]; [|intros H; inversion H; reflexivity].
  destruct (st !! dst) as [dt|] eqn:Ht; [|intros H; inversion H; reflexivity].
  destruct (F32.to_u32 (dependency ds)) as [dep|]; [|discriminate].
  destruct (_ =? _); intros H; inversion H; [|reflexivity]. cbn [fst].
  eapply frame_insert; [exact Ht|]. rewrite Hbuf. ignore_work.
Qed.

Lemma DependencyPropogation_op_frame g cur src w w' :
  DependencyPropogation_op g infinity cur src w = Ok w' →
  proj <$> w'.1 = proj <$> w.1.
Proof.
  unfold DependencyPropogation_op.
  destruct (w.1 !! src) as [ds|]; [|intros H; inversion H; reflexivity].
  destruct (negb _); [|intros H; inversion H; reflexivity].
  destruct (propogation_flag ds); [|intros H; inversion H; reflexivity].
  destruct (if negb _ then _ else _); [|discriminate]. cbn [mbind res_bind].
  destruct (for_each _ (edge_dsts g src) w) as [[s1 a1]|] eqn:E; [|discriminate].
  cbn [mbind res_bind].
  pose proof (frame_for_each_accum proj _ _
                (DependencyPropogation_edge_frame g cur src) _ _ E) as Hf.
  cbn [fst] in Hf.
  destruct (s1 !! src) as [d1|] eqn:H1; intros H; inversion H; subst;
    cbn [fst]; [|exact Hf].
  rewrite <- Hf. eapply frame_insert; [exact H1|].
  cbn [dep_prop_flag set_propogation_flag].
  destruct (negb (dep_prop_flag d1)); ignore_work.
Qed.

End WorkFrames.

(** ** Binary floating point: canonical results and monotone addition *)

Section BinaryDigits.
Local Open Scope Z_scope.

Lemma digits2_pos_size p : digits2_pos p = Pos.size p.
Proof. induction p; simpl; congruence. Qed.

Lemma Zdigits2_log2 m : 0 < m → Zdigits2 m = Z.log2 m + 1.
Proof.
destruct m as [|p|p]; try lia. intros _. cbn [Zdigits2].
rewrite digits2_pos_size. destruct p; cbn; lia.
Qed.

Lemma Zdigits2_bounds m : 0 < m → 2 ^ (Zdigits2 m - 1) ≤ m < 2 ^ Zdigits2 m.
Proof.
intros Hm. rewrite Zdigits2_log2 by exact Hm.
replace (Z.log2 m + 1 - 1) with (Z.log2 m) by lia.
pose proof (Z.log2_spec m Hm). lia.
Qed.

Lemma Zdigits2_nonneg m : 0 ≤ Zdigits2 m.
Proof. destruct m; cbn; lia. Qed.

Lemma Zdigits2_pos m : 0 < m → 0 < Zdigits2 m.
Proof. destruct m; cbn; lia. Qed.

Lemma Zdigits2_mono a b : 0 < a → a ≤ b → Zdigits2 a ≤ Zdigits2 b.
Proof.
intros Ha Hab. rewrite !Zdigits2_log2 by lia.
pose proof (Z.log2_le_mono a b Hab). lia.
Qed.

(** Shifting right divides the mantissa. *)
Lemma shr_1_m r : 0 ≤ shr_m r → shr_m (shr_1 r) = shr_m r / 2.
Proof.
destruct r as [m rb sb]. cbn [shr_m]. intros Hm.
destruct m as [|p|p]; [reflexivity| |lia].
destruct p as [p|p|]; cbn [shr_1 shr_m].
- rewrite Pos2Z.inj_xI. apply Z.div_unique with (r := 1); lia.
- rewrite Pos2Z.inj_xO. apply Z.div_unique with (r := 0); lia.
- reflexivity.
Qed.

Lemma iter_pos_shr_1_m p : ∀ r, 0 ≤ shr_m r →
shr_m (SpecFloat.iter_pos shr_1 p r) = shr_m r / 2 ^ Z.pos p.
Proof.
induction p as [p IH|p IH|]; intros r Hr; cbn [SpecFloat.iter_pos].
- assert (H1 : 0 ≤ shr_m (shr_1 r)) by (rewrite shr_1_m by exact Hr; apply Z.div_pos; lia).
  assert (H2 : 0 ≤ shr_m (SpecFloat.iter_pos shr_1 p (shr_1 r))) by (rewrite IH by exact H1; apply Z.div_pos; lia).
  rewrite IH, IH, shr_1_m by assumption.
  rewrite !Z.div_div by lia. f_equal. rewrite Pos2Z.inj_xI.
  rewrite <- !Z.pow_add_r by lia. change 2 with (2 ^ 1) at 1. rewrite <- Z.pow_add_r by lia. f_equal. lia.
- assert (H2 : 0 ≤ shr_m (SpecFloat.iter_pos shr_1 p r)) by (rewrite IH by exact Hr; apply Z.div_pos; lia).
  rewrite IH, IH by assumption.
  rewrite !Z.div_div by lia. f_equal. rewrite Pos2Z.inj_xO.
  rewrite <- !Z.pow_add_r by lia. f_equal. lia.
- rewrite shr_1_m by exact Hr. reflexivity.
Qed.

End BinaryDigits.

Section Rounding.
Local Open Scope Z_scope.
Variables prec emax : Z.
Hypothesis Hprec : 0 < prec.
Hypothesis Hmax : prec < emax.

Local Abbreviation fexp := (SpecFloat.fexp prec emax).
Local Abbreviation emin := (SpecFloat.emin prec emax).

Local Abbreviation excess := (excess_bits prec emax).

Lemma excess_nonneg m e : 0 ≤ excess m e.
Proof. unfold excess_bits. lia. Qed.

Lemma pow2_excess_pos m e : 0 < 2 ^ excess m e.
Proof. apply Z.pow_pos_nonneg; [lia|apply excess_nonneg]. Qed.

Lemma shr_m_of_loc m l : shr_m (shr_record_of_loc m l) = m.
Proof. destruct l as [|[]]; reflexivity. Qed.

Lemma shr_fexp_spec m e l :
  0 ≤ m →
  shr_m (shr_fexp prec emax m e l).1 = m / 2 ^ excess m e
  ∧ (shr_fexp prec emax m e l).2 = e + excess m e.
Proof.
  intros Hm. unfold shr_fexp, shr, excess_bits.
  destruct (fexp (Zdigits2 m + e) - e) as [|p|p] eqn:E; cbn [fst snd].
  - rewrite shr_m_of_loc, Z.max_l, Z.div_1_r by lia. lia.
  - rewrite iter_pos_shr_1_m by (rewrite shr_m_of_loc; exact Hm).
    rewrite shr_m_of_loc, Z.max_r by lia. split; reflexivity.
  - rewrite shr_m_of_loc, Z.max_l, Z.div_1_r by lia. lia.
Qed.

Lemma round_nearest_even_bounds m l :
  m ≤ round_nearest_even m l ≤ m + 1.
Proof.
  unfold round_nearest_even. destruct l as [|[]]; try lia.
  destruct (Z.even m); lia.
Qed.

Lemma binary_round_aux_spec s mx ex lx :
  0 ≤ mx →
  ∃ m2,
    mx / 2 ^ excess mx ex ≤ m2 ≤ mx / 2 ^ excess mx ex + 1
    ∧ binary_round_aux prec emax s mx ex lx
      = build prec emax s (m2 / 2 ^ excess m2 (ex + excess mx ex))
          (ex + excess mx ex + excess m2 (ex + excess mx ex)).
Proof.
  intros Hm. unfold binary_round_aux.
  destruct (shr_fexp_spec mx ex lx Hm) as [H1 H1e].
  destruct (shr_fexp prec emax mx ex lx) as [r1 e1]. cbn [fst snd] in H1, H1e.
  set (m2 := round_nearest_even (shr_m r1) (loc_of_shr_record r1)).
  assert (H2 : shr_m r1 ≤ m2 ≤ shr_m r1 + 1) by apply round_nearest_even_bounds.
  assert (H0 : 0 ≤ shr_m r1).
  { rewrite H1. apply Z.div_pos; [lia|apply pow2_excess_pos]. }
  destruct (shr_fexp_spec m2 e1 loc_Exact ltac:(lia)) as [H3 H3e].
  destruct (shr_fexp prec emax m2 e1 loc_Exact) as [r3 e3]. cbn [fst snd] in H3, H3e.
  exists m2. rewrite <- H1. split; [exact H2|].
  subst e1. rewrite <- H3, <- H3e. reflexivity.
Qed.

(** *** Canonical results *)

Lemma fexp_ge_emin e : emin ≤ fexp e.
Proof. unfold SpecFloat.fexp. lia. Qed.

Lemma fexp_mono a b : a ≤ b → fexp a ≤ fexp b.
Proof. unfold SpecFloat.fexp. lia. Qed.

Lemma pow2_le a b : 0 ≤ a → a ≤ b → 2 ^ a ≤ 2 ^ b.
Proof. intros. apply Z.pow_le_mono_r; lia. Qed.

Lemma pow2_lt a b : 0 ≤ a → a < b → 2 ^ a < 2 ^ b.
Proof. intros. apply Z.pow_lt_mono_r; lia. Qed.

Lemma Zdigits2_pow2 k : 0 ≤ k → Zdigits2 (2 ^ k) = k + 1.
Proof.
  intros Hk. rewrite Zdigits2_log2 by (apply Z.pow_pos_nonneg; lia).
  rewrite Z.log2_pow2 by exact Hk. reflexivity.
Qed.

Lemma Zdigits2_le_iff m k : 0 < m → 0 ≤ k → (Zdigits2 m ≤ k ↔ m < 2 ^ k).
Proof.
  intros Hm Hk. rewrite Zdigits2_log2 by exact Hm.
  pose proof (Z.log2_lt_pow2 m k Hm). lia.
Qed.

Lemma Zdigits2_ge_iff m k : 0 < m → 0 < k → (k ≤ Zdigits2 m ↔ 2 ^ (k - 1) ≤ m).
Proof.
  intros Hm Hk. rewrite Zdigits2_log2 by exact Hm.
  pose proof (Z.log2_le_pow2 m (k - 1) Hm). lia.
Qed.

(** The second normalisation: a mantissa of at most [prec] bits, or
    exactly [2^prec], at an exponent where it has no bits to spare. *)
Lemma renormalise_canonical m e :
  0 < m → m ≤ 2 ^ prec → emin ≤ e →
  (prec ≤ Zdigits2 m ∨ e = emin) →
  let m' := m / 2 ^ excess m e in
  let e' := e + excess m e in
  0 < m' ∧ fexp (Zdigits2 m' + e') = e' ∧ e ≤ e' ∧ (e' = e → m' = m).
Proof.
  intros Hm Hle He Hd.
  destruct (Z.eq_dec m (2 ^ prec)) as [->|Hne].
  - cbv zeta. unfold excess_bits. rewrite Zdigits2_pow2 by lia.
    replace (fexp (prec + 1 + e)) with (e + 1) by (unfold SpecFloat.fexp; lia).
    replace (Z.max 0 (e + 1 - e)) with 1 by lia.
    replace (2 ^ prec / 2 ^ 1) with (2 ^ (prec - 1)).
    2: { rewrite <- Z.pow_sub_r by lia. reflexivity. }
    rewrite Zdigits2_pow2 by lia.
    split; [apply Z.pow_pos_nonneg; lia|].
    split; [unfold SpecFloat.fexp; lia|]. split; lia.
  - assert (Hlt : m < 2 ^ prec) by lia.
    assert (Hdm : Zdigits2 m ≤ prec) by (apply Zdigits2_le_iff; lia).
    assert (Hf : fexp (Zdigits2 m + e) = e) by (unfold SpecFloat.fexp; lia).
    unfold excess_bits. rewrite Hf, Z.sub_diag, Z.max_l by lia. cbv zeta.
    rewrite Z.div_1_r, Z.add_0_r. repeat split; try assumption; lia.
Qed.

(** The first shift: what is left has fewer than [prec + 1] bits, and
    exactly [prec] unless the exponent is the smallest one. *)
Lemma first_shift m e :
  0 < m → e ≤ fexp (Zdigits2 m + e) →
  let m1 := m / 2 ^ excess m e in
  let e1 := e + excess m e in
  e1 = fexp (Zdigits2 m + e) ∧ m1 < 2 ^ prec
  ∧ (2 ^ (prec - 1) ≤ m1 ∨ e1 = emin).
Proof.
  intros Hm Hpre. cbv zeta. unfold excess_bits.
  set (f := fexp (Zdigits2 m + e)) in *.
  rewrite Z.max_r by lia. replace (e + (f - e)) with f by lia.
  pose proof (Zdigits2_bounds m Hm) as [Hlo Hhi].
  pose proof (Zdigits2_pos m Hm) as Hd.
  assert (Hfe : 0 ≤ f - e) by lia.
  assert (Hp : 0 < 2 ^ (f - e)) by (apply Z.pow_pos_nonneg; lia).
  split; [reflexivity|]. split.
  - apply Z.div_lt_upper_bound; [exact Hp|].
    rewrite <- Z.pow_add_r by lia.
    eapply Z.lt_le_trans; [exact Hhi|]. apply pow2_le; [lia|].
    unfold f, SpecFloat.fexp. lia.
  - destruct (Z.eq_dec f emin) as [E|E]; [right; exact E|left].
    assert (Hf : f = Zdigits2 m + e - prec) by (unfold f, SpecFloat.fexp in *; lia).
    apply Z.div_le_lower_bound; [exact Hp|].
    rewrite <- Z.pow_add_r by lia.
    eapply Z.le_trans; [|exact Hlo]. apply pow2_le; lia.
Qed.

Lemma build_valid s m e :
  0 ≤ m → (0 < m → fexp (Zdigits2 m + e) = e) →
  valid_binary prec emax (build prec emax s m e) = true.
Proof.
  intros Hm Hc. unfold build. destruct m as [|p|p]; [reflexivity| |lia].
  destruct (e <=? emax - prec) eqn:E; [|reflexivity].
  cbn [valid_binary]. unfold bounded, canonical_mantissa.
  rewrite E, andb_true_r. apply Z.eqb_eq. apply (Hc ltac:(lia)).
Qed.

(** Rounding a mantissa that has no fewer bits than its exponent asks
    for gives a canonical float. *)
Lemma binary_round_aux_valid s mx ex lx :
  0 ≤ mx → ex ≤ fexp (Zdigits2 mx + ex) →
  valid_binary prec emax (binary_round_aux prec emax s mx ex lx) = true.
Proof.
  intros Hm Hpre.
  destruct (binary_round_aux_spec s mx ex lx Hm) as (m2 & Hm2 & ->).
  set (m1 := mx / 2 ^ excess mx ex) in *.
  set (e1 := ex + excess mx ex) in *.
  assert (H1 : e1 = fexp (Zdigits2 mx + ex) ∧ 0 ≤ m1 ∧ m1 < 2 ^ prec
               ∧ (2 ^ (prec - 1) ≤ m1 ∨ e1 = emin)).
  { destruct (Z.eq_dec mx 0) as [->|Hne].
    - unfold m1, e1, excess_bits in *. cbn [Zdigits2] in *. rewrite Z.add_0_l in *.
      rewrite Z.div_0_l by (pose proof (pow2_excess_pos 0 ex); unfold excess_bits in *; cbn [Zdigits2] in *; rewrite ?Z.add_0_l in *; lia).
      split; [lia|]. split; [lia|]. split; [apply Z.pow_pos_nonneg; lia|].
      right. unfold SpecFloat.fexp in *. lia.
    - destruct (first_shift mx ex ltac:(lia) Hpre) as (A & B & C).
      split; [exact A|]. split; [|split; assumption].
      apply Z.div_pos; [lia|apply pow2_excess_pos]. }
  destruct H1 as (He1 & Hm1 & Hm1lt & Hnorm).
  assert (Hemin : emin ≤ e1) by (rewrite He1; apply fexp_ge_emin).
  destruct (Z.eq_dec m2 0) as [->|Hne].
  { rewrite Z.div_0_l by (pose proof (pow2_excess_pos 0 e1); lia). reflexivity. }
  assert (Hd : prec ≤ Zdigits2 m2 ∨ e1 = emin).
  { destruct Hnorm as [Hn|Hn]; [left|right; exact Hn].
    apply Zdigits2_ge_iff; lia. }
  destruct (renormalise_canonical m2 e1 ltac:(lia) ltac:(lia) Hemin Hd)
    as (Hpos & Hcan & _).
  apply build_valid; [lia|]. intros _. exact Hcan.
Qed.

(** *** Alignment *)

Lemma Pos_iter_xO m d : Z.pos (Pos.iter xO m d) = Z.pos m * 2 ^ Z.pos d.
Proof.
  change (Pos.iter xO m d) with (shift_pos d m).
  rewrite shift_pos_correct. change (Zpower_pos 2 d) with (2 ^ Z.pos d). lia.
Qed.

Lemma shl_align_spec mx ex ex' :
  (shl_align mx ex ex').2 = Z.min ex ex'
  ∧ Z.pos (shl_align mx ex ex').1 = Z.pos mx * 2 ^ (ex - Z.min ex ex').
Proof.
  unfold shl_align. destruct (ex' - ex) as [|d|d] eqn:E; cbn [fst snd].
  - rewrite Z.min_l by lia. rewrite Z.sub_diag. lia.
  - rewrite Z.min_l by lia. rewrite Z.sub_diag. lia.
  - rewrite Z.min_r by lia. split; [reflexivity|].
    rewrite Pos_iter_xO. f_equal. f_equal. lia.
Qed.

Lemma Zdigits2_shift m d : 0 < m → 0 ≤ d → Zdigits2 (m * 2 ^ d) = Zdigits2 m + d.
Proof.
  intros Hm Hd. assert (0 < 2 ^ d) by (apply Z.pow_pos_nonneg; lia).
  rewrite !Zdigits2_log2 by nia. rewrite Z.log2_mul_pow2 by lia. lia.
Qed.

Lemma binary_round_valid s p e :
  valid_binary prec emax (binary_round prec emax s p e) = true.
Proof.
  unfold binary_round.
  destruct (shl_align_spec p e (fexp (Z.pos (digits2_pos p) + e))) as [He Hm].
  destruct (shl_align p e _) as [mz ez]. cbn [fst snd] in He, Hm.
  apply binary_round_aux_valid; [lia|].
  rewrite Hm, Zdigits2_shift by lia. cbn [Zdigits2]. subst ez.
  set (f := fexp (Z.pos (digits2_pos p) + e)).
  replace (Z.pos (digits2_pos p) + (e - Z.min e f) + Z.min e f)
    with (Z.pos (digits2_pos p) + e) by lia.
  fold f. lia.
Qed.

Lemma binary_normalize_valid m e sz :
  valid_binary prec emax (binary_normalize prec emax m e sz) = true.
Proof. destruct m; [reflexivity| |]; apply binary_round_valid. Qed.

Lemma SFadd_valid x y :
  valid_binary prec emax x = true → valid_binary prec emax y = true →
  valid_binary prec emax (SFadd prec emax x y) = true.
Proof.
  intros Hx Hy.
  destruct x as [sx|sx| |sx mx ex], y as [sy|sy| |sy my ey];
    try reflexivity; try assumption;
    try (destruct sx, sy; reflexivity).
  apply binary_normalize_valid.
Qed.

(** *** Adding a positive float does not go below the first summand *)

Lemma SFleb_build mx ex m3 e3 :
  0 < m3 → ex ≤ e3 → (e3 = ex → Z.pos mx ≤ m3) →
  SFleb (S754_finite false mx ex) (build prec emax false m3 e3) = true.
Proof.
  intros Hm He Hmm. unfold build. destruct m3 as [|p|p]; try lia.
  destruct (e3 <=? emax - prec); [|reflexivity].
  unfold SFleb, SFcompare. destruct (Z.compare_spec ex e3) as [E|E|E].
  - specialize (Hmm (eq_sym E)).
    change (Pos.compare_cont Eq mx p) with (Pos.compare mx p).
    destruct (Pos.compare_spec mx p); try reflexivity. lia.
  - reflexivity.
  - lia.
Qed.

Lemma SFadd_finite_le mx ex my ey :
  valid_binary prec emax (S754_finite false mx ex) = true →
  let r := SFadd prec emax (S754_finite false mx ex) (S754_finite false my ey) in
  SFleb (S754_finite false mx ex) r = true
  ∧ SFleb (S754_zero false) r = true.
Proof.
  intros Hx. cbn [valid_binary] in Hx. unfold bounded, canonical_mantissa in Hx.
  apply andb_true_iff in Hx as [Hcan _]. apply Z.eqb_eq in Hcan.
  cbv zeta. cbn [SFadd cond_Zopp].
  set (ez := Z.min ex ey).
  destruct (shl_align_spec mx ex ez) as [_ HX].
  destruct (shl_align_spec my ey ez) as [_ HY].
  rewrite Z.min_r in HX by (unfold ez; lia).
  rewrite Z.min_r in HY by (unfold ez; lia).
  set (X := (shl_align mx ex ez).1) in *. set (Y := (shl_align my ey ez).1) in *.
  change (Z.pos X + Z.pos Y) with (Z.pos (X + Y)).
  cbn [binary_normalize]. unfold binary_round.
  set (M := (X + Y)%positive).
  assert (HM : Z.pos mx * 2 ^ (ex - ez) < Z.pos M) by (unfold M; lia).
  assert (Hez : ez ≤ ex) by (unfold ez; lia).
  assert (Hp2 : 0 < 2 ^ (ex - ez)) by (apply Z.pow_pos_nonneg; lia).
  assert (HdM : Zdigits2 (Z.pos mx) + (ex - ez) ≤ Zdigits2 (Z.pos M)).
  { rewrite <- Zdigits2_shift by lia. apply Zdigits2_mono; nia. }
  set (f := fexp (Z.pos (digits2_pos M) + ez)).
  assert (Hf : ex ≤ f).
  { rewrite <- Hcan. apply fexp_mono. cbn [Zdigits2] in HdM. lia. }
  destruct (shl_align_spec M ez f) as [He Hm].
  destruct (shl_align M ez f) as [mz ez']. cbn [fst snd] in He, Hm.
  rewrite Z.min_l in He by lia. subst ez'.
  rewrite Z.min_l, Z.sub_diag, Z.mul_1_r in Hm by lia.
  rewrite Hm.
  destruct (binary_round_aux_spec false (Z.pos M) ez loc_Exact ltac:(lia))
    as (m2 & Hm2 & ->).
  destruct (first_shift (Z.pos M) ez ltac:(lia) ltac:(cbn [Zdigits2]; fold f; lia))
    as (He1 & Hm1lt & Hnorm).
  cbn [Zdigits2] in He1. fold f in He1.
  set (m1 := Z.pos M / 2 ^ excess (Z.pos M) ez) in *.
  set (e1 := ez + excess (Z.pos M) ez) in *.
  assert (Hex : excess (Z.pos M) ez = f - ez) by lia.
  assert (Hm1 : 0 < m1 ∧ (f = ex → Z.pos mx ≤ m1)).
  { assert (Hcase : f = ex → Z.pos mx ≤ m1).
    { intros E. unfold m1. rewrite Hex, E.
      apply Z.div_le_lower_bound; [exact Hp2|]. lia. }
    split; [|exact Hcase].
    destruct Hnorm as [Hn|Hn].
    - assert (0 < 2 ^ (prec - 1)) by (apply Z.pow_pos_nonneg; lia). lia.
    - assert (f = ex).
      { pose proof (fexp_ge_emin (Z.pos (digits2_pos mx) + ex)). lia. }
      specialize (Hcase ltac:(assumption)). lia. }
  destruct Hm1 as [Hm1pos Hm1x].
  assert (Hd : prec ≤ Zdigits2 m2 ∨ e1 = emin).
  { destruct Hnorm as [Hn|Hn]; [left|right; exact Hn].
    apply Zdigits2_ge_iff; lia. }
  destruct (renormalise_canonical m2 e1 ltac:(lia) ltac:(lia)
              ltac:(rewrite He1; apply fexp_ge_emin) Hd)
    as (Hpos & _ & Hge & Hsame).
  split.
  - apply SFleb_build; [exact Hpos|lia|].
    intros E. assert (e1 + excess m2 e1 = e1) by lia.
    rewrite (Hsame ltac:(assumption)). specialize (Hm1x ltac:(lia)). lia.
  - unfold build.
    destruct (m2 / 2 ^ excess m2 e1) as [|p|p]; try lia.
    destruct (_ <=? _); reflexivity.
Qed.

(** *** Products and quotients *)

Lemma canonical_finite s m e :
  valid_binary prec emax (S754_finite s m e) = true →
  fexp (Zdigits2 (Z.pos m) + e) = e.
Proof.
  cbn [valid_binary]. unfold bounded, canonical_mantissa. intros H.
  apply andb_true_iff in H as [H _]. apply Z.eqb_eq in H. exact H.
Qed.

Lemma SFmul_valid x y :
  valid_binary prec emax x = true → valid_binary prec emax y = true →
  valid_binary prec emax (SFmul prec emax x y) = true.
Proof.
  intros Hx Hy.
  destruct x as [sx|sx| |sx mx ex], y as [sy|sy| |sy my ey]; try reflexivity.
  cbn [SFmul]. apply binary_round_aux_valid; [lia|].
  apply canonical_finite in Hx, Hy.
  pose proof (Zdigits2_bounds (Z.pos mx) ltac:(lia)) as [Hxl _].
  pose proof (Zdigits2_bounds (Z.pos my) ltac:(lia)) as [Hyl _].
  pose proof (Zdigits2_pos (Z.pos mx) ltac:(lia)) as Hdx.
  pose proof (Zdigits2_pos (Z.pos my) ltac:(lia)) as Hdy.
  assert (HD : Zdigits2 (Z.pos mx) + Zdigits2 (Z.pos my) - 1
               ≤ Zdigits2 (Z.pos (mx * my))).
  { apply Zdigits2_ge_iff; [lia|lia|].
    replace (Zdigits2 (Z.pos mx) + Zdigits2 (Z.pos my) - 1 - 1)
      with ((Zdigits2 (Z.pos mx) - 1) + (Zdigits2 (Z.pos my) - 1)) by lia.
    rewrite Z.pow_add_r by lia. rewrite Pos2Z.inj_mul.
    apply Z.mul_le_mono_nonneg; try assumption; apply Z.pow_nonneg; lia. }
  unfold SpecFloat.fexp, SpecFloat.emin in *. lia.
Qed.

Lemma SFdiv_core_binary_pre m1 e1 m2 e2 :
  0 < m1 → 0 < m2 →
  let '(q, e', _) := SFdiv_core_binary prec emax m1 e1 m2 e2 in
  0 ≤ q ∧ e' ≤ fexp (Zdigits2 q + e').
Proof.
  intros H1 H2. unfold SFdiv_core_binary.
  set (d1 := Zdigits2 m1). set (d2 := Zdigits2 m2).
  set (e' := Z.min (fexp (d1 + e1 - (d2 + e2))) (e1 - e2)).
  set (s := e1 - e2 - e').
  assert (Hs : 0 ≤ s) by (unfold s, e'; lia).
  set (m' := match s with Z.pos _ => Z.shiftl m1 s | 0 => m1 | Z.neg _ => 0 end).
  assert (Hm' : m' = m1 * 2 ^ s).
  { unfold m'. destruct s as [|p|p] eqn:E; [lia| |lia].
    rewrite Z.shiftl_mul_pow2 by lia. reflexivity. }
  assert (Hp : 0 < 2 ^ s) by (apply Z.pow_pos_nonneg; lia).
  pose proof (Z_div_mod_eq_full m' m2) as Hdm.
  assert (Hq : Z.div_eucl m' m2 = (m' / m2, m' mod m2)).
  { unfold Z.div, Z.modulo. destruct (Z.div_eucl m' m2). reflexivity. }
  rewrite Hq.
  assert (Hq0 : 0 ≤ m' / m2) by (apply Z.div_pos; nia).
  split; [exact Hq0|].
  destruct (Z_le_gt_dec e' emin) as [Hle|Hgt].
  { pose proof (fexp_ge_emin (Zdigits2 (m' / m2) + e')). lia. }
  assert (Hfd : fexp (d1 + e1 - (d2 + e2)) = d1 + e1 - (d2 + e2) - prec).
  { unfold e', SpecFloat.fexp in *. lia. }
  assert (Hsl : prec - d1 + d2 ≤ s) by (unfold s, e'; lia).
  pose proof (Zdigits2_bounds m1 H1) as [Hl1 _]. fold d1 in Hl1.
  pose proof (Zdigits2_bounds m2 H2) as [_ Hh2]. fold d2 in Hh2.
  pose proof (Zdigits2_pos m1 H1) as Hd1. fold d1 in Hd1.
  pose proof (Zdigits2_pos m2 H2) as Hd2. fold d2 in Hd2.
  assert (Hbig : 2 ^ (prec - 1) ≤ m' / m2).
  { apply Z.div_le_lower_bound; [lia|].
    assert (A : m2 * 2 ^ (prec - 1) ≤ 2 ^ (d2 + (prec - 1))).
    { rewrite Z.pow_add_r by lia.
      apply Z.mul_le_mono_nonneg_r; [apply Z.pow_nonneg; lia|lia]. }
    assert (B : 2 ^ (d2 + (prec - 1)) ≤ 2 ^ ((d1 - 1) + s)) by (apply pow2_le; lia).
    assert (C : 2 ^ ((d1 - 1) + s) ≤ m1 * 2 ^ s).
    { rewrite Z.pow_add_r by lia. apply Z.mul_le_mono_nonneg_r; lia. }
    lia. }
  assert (0 < 2 ^ (prec - 1)) by (apply Z.pow_pos_nonneg; lia).
  assert (Hdq : prec ≤ Zdigits2 (m' / m2)) by (apply Zdigits2_ge_iff; lia).
  unfold SpecFloat.fexp. lia.
Qed.

Lemma SFdiv_valid x y :
  valid_binary prec emax (SFdiv prec emax x y) = true.
Proof.
  destruct x as [sx|sx| |sx mx ex], y as [sy|sy| |sy my ey]; try reflexivity.
  cbn [SFdiv].
  pose proof (SFdiv_core_binary_pre (Z.pos mx) ex (Z.pos my) ey
                ltac:(lia) ltac:(lia)) as H.
  destruct (SFdiv_core_binary prec emax (Z.pos mx) ex (Z.pos my) ey)
    as [[q e'] l].
  destruct H as [Hq He]. apply binary_round_aux_valid; assumption.
Qed.
End Rounding.

(** ** binary32 *)

Lemma F32_add_valid x y :
  F32.valid x = true → F32.valid y = true → F32.valid (F32.add x y) = true.
Proof. apply (SFadd_valid F32.prec F32.emax). reflexivity. Qed.

Lemma F32_mul_valid x y :
  F32.valid x = true → F32.valid y = true → F32.valid (F32.mul x y) = true.
Proof. apply (SFmul_valid F32.prec F32.emax); reflexivity. Qed.

Lemma F32_div_valid x y : F32.valid (F32.div x y) = true.
Proof. apply (SFdiv_valid F32.prec F32.emax). reflexivity. Qed.

Lemma F32_of_N_valid n : F32.valid (F32.of_N n) = true.
Proof. apply (binary_normalize_valid F32.prec F32.emax). reflexivity. Qed.

Lemma F64_to_f32_valid d : F32.valid (F64.to_f32 d) = true.
Proof.
  destruct d; try reflexivity.
  apply (binary_round_valid F32.prec F32.emax). reflexivity.
Qed.

Lemma dependency_contribution_valid a b dep :
  F32.valid (dependency_contribution a b dep) = true.
Proof.
  apply F32_mul_valid; [apply F32_div_valid|apply F64_to_f32_valid].
Qed.

(** Adding a positive float to a float that is not negative gives a float
    that is no smaller, and not negative. *)
Lemma F32_add_increases x y :
  F32.valid x = true → f32_nonneg x → F32.ltb F32.zero y = true →
  F32.leb x (F32.add x y) = true ∧ f32_nonneg (F32.add x y).
Proof.
  unfold f32_nonneg. intros Hv Hx Hy.
  destruct x as [sx|[]| |[] mx ex]; try discriminate;
    destruct y as [sy|[]| |[] my ey]; try discriminate;
    try (split; reflexivity).
  apply (SFadd_finite_le F32.prec F32.emax); [reflexivity|exact Hv].
Qed.

Lemma f32_is_zero_nonneg x : f32_is_zero x → f32_nonneg x.
Proof.
  unfold f32_is_zero, f32_nonneg.
  destruct x as [s|[]| |[] m e]; try discriminate; reflexivity.
Qed.

Lemma f32_nonneg_not_pos x :
  f32_nonneg x → F32.ltb F32.zero x = false → f32_is_zero x.
Proof.
  unfold f32_is_zero, f32_nonneg.
  destruct x as [s|[]| |[] m e]; try discriminate; reflexivity.
Qed.

(** ** The operators that write the scores *)

Lemma DPAdd_go_eq st : DPAdd_go st = DPAdd_node <$> st.
Proof. apply do_all_alter_all. Qed.

Lemma BC_go_eq st : do_all BC_op (allNodesRange st) st = BC_node <$> st.
Proof. apply do_all_alter_all. Qed.

Lemma InitializeGraph_go_eq st : InitializeGraph_go st = InitializeGraph_node <$> st.
Proof. apply do_all_alter_all. Qed.

Lemma DPAdd_node_dependency d :
  f32_nonneg (dependency d) → f32_nonneg (dependency (DPAdd_node d)).
Proof.
  intros Hd. unfold DPAdd_node.
  destruct (F32.ltb F32.zero (to_add_float d)) eqn:E; [|exact Hd].
  cbn [dependency set_to_add_float set_dependency].
  unfold f32_nonneg in *.
  destruct (dependency d) as [sx|[]| |[] mx ex]; try discriminate;
    destruct (to_add_float d) as [sy|[]| |[] my ey]; try discriminate;
    try reflexivity.
  lazymatch goal with
  | |- F32.leb F32.zero (F32.add ?x ?y) = true =>
      change (F32.add x y) with (SFadd F32.prec F32.emax x y)
  end.
  cbn [SFadd cond_Zopp].
  lazymatch goal with
  | |- F32.leb _ (binary_normalize _ _ (Z.pos ?a + Z.pos ?b) ?e _) = true =>
      change (Z.pos a + Z.pos b)%Z with (Z.pos (a + b)); cbn [binary_normalize];
      unfold binary_round;
      destruct (shl_align (a + b) e _) as [mz ez]
  end.
  destruct (binary_round_aux_spec F32.prec F32.emax false (Z.pos mz) ez loc_Exact
              ltac:(lia)) as (m2 & Hm2 & ->).
  assert (H0 : (0 ≤ Z.pos mz / 2 ^ excess_bits F32.prec F32.emax (Z.pos mz) ez)%Z).
  { apply Z.div_pos; [lia|]. apply Z.pow_pos_nonneg; [lia|].
    unfold excess_bits. lia. }
  assert (H3 : (0 ≤ m2 / 2 ^ excess_bits F32.prec F32.emax m2
                            (ez + excess_bits F32.prec F32.emax (Z.pos mz) ez))%Z).
  { apply Z.div_pos; [lia|]. apply Z.pow_pos_nonneg; [lia|].
    unfold excess_bits. lia. }
  unfold build.
  destruct (m2 / 2 ^ _)%Z as [|p|p]; [reflexivity| |lia].
  destruct (_ <=? _)%Z; reflexivity.
Qed.

Lemma BC_node_dependency d :
  f32_nonneg (dependency d) → f32_is_zero (dependency (BC_node d)).
Proof.
  intros Hd. unfold BC_node.
  destruct (F32.ltb F32.zero (dependency d)) eqn:E; [reflexivity|].
  apply f32_nonneg_not_pos; assumption.
Qed.

(** ** The loops keep what every round keeps *)

Lemma do_while_accum_inv (P : State → Prop) round :
  (∀ st st' a, P st → round st = Ok (st', a) → P st') →
  ∀ fuel i st st' n,
    P st → do_while_accum fuel round i st = Some (Ok (st', n)) → P st'.
Proof.
  intros Hr. induction fuel as [|fuel IH]; intros i st st' n HP H; [discriminate|].
  cbn [do_while_accum] in H.
  destruct (round st) as [[s1 a]|] eqn:E; [|discriminate].
  pose proof (Hr _ _ _ HP E) as HP1.
  destruct (a =? 0); [inversion H; subst; exact HP1|]. eapply IH; eassumption.
Qed.

Lemma BC_iteration_Ok fuel g cur st st' :
  BC_iteration fuel g cur st = Some (Ok st') →
  ∃ s1 s2 n2 s4 n4 s5 n5,
    InitializeIteration_go g cur st = Ok s1
    ∧ SSSP_go fuel g s1 = Some (Ok (s2, n2))
    ∧ NumShortestPaths_go fuel g (PredAndSucc_go g s2) = Some (Ok (s4, n4))
    ∧ DependencyPropogation_go fuel g cur s4 = Some (Ok (s5, n5))
    ∧ st' = BC_node <$> s5.
Proof.
  unfold BC_iteration, and_then. intros H.
  destruct (InitializeIteration_go g cur st) as [s1|]; [|discriminate].
  destruct (SSSP_go fuel g s1) as [[[s2 n2]|]|] eqn:E2; try discriminate.
  destruct (NumShortestPaths_go fuel g (PredAndSucc_go g s2)) as [[[s4 n4]|]|]
    eqn:E4; try discriminate.
  destruct (DependencyPropogation_go fuel g cur s4) as [[[s5 n5]|]|] eqn:E5;
    try discriminate.
  inversion H. rewrite BC_go_eq.
  exists s1, s2, n2, s4, n4, s5, n5. repeat split; assumption.
Qed.

(** What a round of the delta phase does to a view that ignores the
    integer work fields and the delta buffer: only [DPAdd] shows. *)
Lemma DependencyPropogation_round_view {A : Type} (proj : NodeData → A)
    g cur st st' a :
  ignores_work proj → (∀ v d, proj (set_to_add_float v d) = proj d) →
  DependencyPropogation_round g cur st = Ok (st', a) →
  ∃ s1, proj <$> s1 = proj <$> st
        ∧ proj <$> st' = proj <$> (DPAdd_node <$> DPTrim_go s1).
Proof.
  intros Hw Hb. unfold DependencyPropogation_round.
  destruct (for_each _ _ (st, 0)) as [[s1 a1]|] eqn:E; [|discriminate].
  cbn [mbind res_bind]. intros H. inversion H; subst. exists s1. split.
  - apply (frame_for_each_accum proj _ _
             (DependencyPropogation_op_frame proj Hw Hb g cur) _ _ E).
  - rewrite (DependencyPropChanges_go_frame proj Hw), DPAdd_go_eq. reflexivity.
Qed.

(** ** The dependency is zero when a source iteration starts *)

Lemma Forall_fmap_DPAdd_dependency (st : State) :
  Forall f32_nonneg (dependency <$> st) →
  Forall f32_nonneg (dependency <$> (DPAdd_node <$> st)).
Proof.
  rewrite !Forall_fmap. intros H. eapply Forall_impl; [exact H|].
  intros d. apply DPAdd_node_dependency.
Qed.

Lemma DependencyPropogation_round_nonneg g cur st st' a :
  Forall f32_nonneg (dependency <$> st) →
  DependencyPropogation_round g cur st = Ok (st', a) →
  Forall f32_nonneg (dependency <$> st').
Proof.
  intros Hn H.
  destruct (DependencyPropogation_round_view dependency g cur st st' a
              ignores_work_dependency ltac:(reflexivity) H) as (s1 & H1 & ->).
  apply Forall_fmap_DPAdd_dependency.
  rewrite (DPTrim_go_frame dependency ignores_work_dependency), H1. exact Hn.
Qed.

Lemma BC_iteration_dependency fuel g cur st st' :
  Forall f32_nonneg (dependency <$> st) →
  BC_iteration fuel g cur st = Some (Ok st') →
  Forall f32_is_zero (dependency <$> st').
Proof.
  intros Hn H.
  destruct (BC_iteration_Ok _ _ _ _ _ H)
    as (s1 & s2 & n2 & s4 & n4 & s5 & n5 & H1 & H2 & H4 & H5 & ->).
  pose proof ignores_work_dependency as Hw.
  assert (Hn4 : Forall f32_nonneg (dependency <$> s4)).
  { rewrite (NumShortestPaths_go_frame dependency Hw _ _ _ _ _ H4).
    rewrite (PredAndSucc_go_frame dependency Hw).
    rewrite (SSSP_go_frame dependency Hw _ _ _ _ _ H2).
    rewrite (InitializeIteration_go_frame dependency Hw _ _ _ _ H1). exact Hn. }
  assert (Hn5 : Forall f32_nonneg (dependency <$> s5)).
  { unfold DependencyPropogation_go in H5.
    refine (do_while_accum_inv (λ s, Forall f32_nonneg (dependency <$> s)) _ _
              _ _ _ _ _ Hn4 H5).
    intros s s' a Hs Hr. eapply DependencyPropogation_round_nonneg; eassumption. }
  rewrite Forall_fmap in *. rewrite Forall_fmap.
  eapply Forall_impl; [exact Hn5|]. intros d. apply BC_node_dependency.
Qed.

Lemma iteration_start_dependency g st :
  iteration_start g st → Forall f32_is_zero (dependency <$> st).
Proof.
  induction 1 as [st0 _|fuel cur st st' _ IH H].
  - rewrite InitializeGraph_go_eq, !Forall_fmap. apply Forall_forall.
    intros d _. reflexivity.
  - eapply BC_iteration_dependency; [|exact H].
    eapply Forall_impl; [exact IH|]. apply f32_is_zero_nonneg.
Qed.

(** C10: in every state in which a source iteration starts, after
    [InitializeGraph] and after any number of completed source
    iterations, [delta(v) == 0] at every vertex; the per-iteration reset
    leaves the dependency as it is, and the accumulation operator leaves
    a zero wherever the dependency was not negative. *)
Theorem dependency_zero_at_iteration_start (g : Graph) (st : State) :
  iteration_start g st →
  Forall (λ d, F32.eqb (dependency d) F32.zero = true) st
  ∧ (∀ cur st', InitializeIteration_go g cur st = Ok st' →
       dependency <$> st' = dependency <$> st)
  ∧ (∀ d, F32.leb F32.zero (dependency d) = true →
       F32.eqb (dependency (BC_node d)) F32.zero = true).
Proof.
  intros H. split; [|split].
  - apply iteration_start_dependency in H. rewrite Forall_fmap in H. exact H.
  - intros cur st'. apply InitializeIteration_go_frame, ignores_work_dependency.
  - intros d. apply BC_node_dependency.
Qed.

(** The driver starts every round in such a state. *)
Lemma BC_loop_iteration_start fuel cfg g :
  ∀ rounds i it w w',
    iteration_start g w.1 →
    BC_loop fuel cfg g rounds i it w = Some (Ok w') →
    iteration_start g w'.1.
Proof.
  induction rounds as [|rounds IH]; intros i it w w' Hs H.
  - inversion H; subst. exact Hs.
  - cbn [BC_loop] in H.
    destruct (next_source cfg i it) as [[cur rest]|]; [|discriminate].
    unfold and_then in H.
    destruct (BC_iteration fuel g cur w.1) as [[s1|]|] eqn:E; try discriminate.
    apply IH in H; [exact H|]. cbn [fst]. econstructor; eassumption.
Qed.

(** ** The centrality never decreases *)

Lemma ignores_work_floats : ignores_work floats.
Proof. repeat split. Qed.

Lemma for_each_inv {X S : Type} (P : S → Prop) (body : X → S → res S) (l : list X) :
  (∀ x s s', P s → body x s = Ok s' → P s') →
  ∀ s s', P s → for_each body l s = Ok s' → P s'.
Proof.
  intros Hb. induction l as [|x l IH]; intros s s' HP H.
  - inversion H; subst. exact HP.
  - rewrite for_each_cons in H. destruct (body x s) as [s1|] eqn:E; [|discriminate].
    cbn [mbind res_bind] in H. eapply IH; [|exact H]. eapply Hb; eassumption.
Qed.

Lemma DependencyPropogation_edge_floats g cur src dst w w' :
  Forall floats_ok (floats <$> w.1) →
  DependencyPropogation_edge g cur src dst w = Ok w' →
  Forall floats_ok (floats <$> w'.1).
Proof.
  destruct w as [st accum]. unfold DependencyPropogation_edge. cbn [fst].
  intros Hok.
  destruct (getGID g dst =? cur); [intros H; inversion H; exact Hok|].
  destruct (st !! src) as [ds|]; [|intros H; inversion H; exact Hok].
  destruct (st !! dst) as [dt|] eqn:Ht; [|intros H; inversion H; exact Hok].
  destruct (F32.to_u32 (dependency ds)) as [dep|]; [|discriminate].
  destruct (_ =? _); intros H; inversion H; [|exact Hok]. cbn [fst].
  rewrite list_fmap_insert. apply Forall_insert; [exact Hok|].
  rewrite Forall_fmap, Forall_lookup in Hok. specialize (Hok dst dt Ht).
  destruct Hok as (Hd & Ht' & Hb & Hn). unfold floats, floats_ok in *. cbn in *.
  repeat split; try assumption.
  apply F32_add_valid; [exact Ht'|apply dependency_contribution_valid].
Qed.

Lemma DependencyPropogation_op_floats g cur src w w' :
  Forall floats_ok (floats <$> w.1) →
  DependencyPropogation_op g infinity cur src w = Ok w' →
  Forall floats_ok (floats <$> w'.1).
Proof.
  intros Hok. unfold DependencyPropogation_op.
  destruct (w.1 !! src) as [ds|]; [|intros H; inversion H; subst; exact Hok].
  destruct (negb _); [|intros H; inversion H; subst; exact Hok].
  destruct (propogation_flag ds); [|intros H; inversion H; subst; exact Hok].
  destruct (if negb _ then _ else _); [|discriminate]. cbn [mbind res_bind].
  destruct (for_each _ (edge_dsts g src) w) as [[s1 a1]|] eqn:E; [|discriminate].
  cbn [mbind res_bind].
  assert (H1 : Forall floats_ok (floats <$> s1)).
  { change s1 with (s1, a1).1.
    refine (for_each_inv (λ w, Forall floats_ok (floats <$> w.1)) _ _ _ _ _ Hok E).
    intros dst s s' Hs Hb. eapply DependencyPropogation_edge_floats; eassumption. }
  destruct (s1 !! src) as [d1|] eqn:Hs1; intros H; inversion H; subst;
    cbn [fst]; [|exact H1].
  rewrite (frame_insert floats s1 src d1); [exact H1|exact Hs1|].
  cbn [dep_prop_flag set_propogation_flag].
  destruct (negb (dep_prop_flag d1)); reflexivity.
Qed.

Lemma DPAdd_node_floats d : floats_ok (floats d) → floats_ok (floats (DPAdd_node d)).
Proof.
  intros (Hd & Ht & Hb & Hn). unfold DPAdd_node.
  destruct (F32.ltb F32.zero (to_add_float d)); [|repeat split; assumption].
  unfold floats, floats_ok in *. cbn in *.
  repeat split; try assumption. apply F32_add_valid; assumption.
Qed.

Lemma DPAdd_node_bc d : betweeness_centrality (DPAdd_node d) = betweeness_centrality d.
Proof. unfold DPAdd_node. destruct (F32.ltb _ _); reflexivity. Qed.

Lemma BC_node_floats d : floats_ok (floats d) → floats_ok (floats (BC_node d)).
Proof.
  intros (Hd & Ht & Hb & Hn). unfold BC_node.
  destruct (F32.ltb F32.zero (dependency d)) eqn:E; [|repeat split; assumption].
  unfold floats, floats_ok, Galois_add_float in *. cbn in *.
  split; [reflexivity|]. split; [exact Ht|]. split.
  - apply F32_add_valid; assumption.
  - apply F32_add_increases; assumption.
Qed.

Lemma F32_leb_refl x : f32_nonneg x → F32.leb x x = true.
Proof.
  unfold f32_nonneg. destruct x as [s|[]| |[] m e]; try discriminate;
    try reflexivity.
  intros _. unfold F32.leb, SFleb, SFcompare. rewrite Z.compare_refl.
  change (Pos.compare_cont Eq m m) with (Pos.compare m m).
  rewrite Pos.compare_refl. reflexivity.
Qed.

Lemma BC_node_bc d :
  floats_ok (floats d) →
  F32.leb (betweeness_centrality d) (betweeness_centrality (BC_node d)) = true.
Proof.
  intros (Hd & Ht & Hb & Hn). unfold BC_node. cbn in Hb, Hn.
  destruct (F32.ltb F32.zero (dependency d)) eqn:E.
  - cbn. unfold Galois_add_float. apply F32_add_increases; assumption.
  - apply F32_leb_refl, Hn.
Qed.

Lemma DependencyPropogation_round_floats g cur st st' a :
  Forall floats_ok (floats <$> st) →
  DependencyPropogation_round g cur st = Ok (st', a) →
  Forall floats_ok (floats <$> st').
Proof.
  intros Hok. unfold DependencyPropogation_round.
  destruct (for_each _ _ (st, 0)) as [[s1 a1]|] eqn:E; [|discriminate].
  cbn [mbind res_bind]. intros H. inversion H; subst.
  assert (H1 : Forall floats_ok (floats <$> s1)).
  { change s1 with (s1, a).1.
    refine (for_each_inv (λ w, Forall floats_ok (floats <$> w.1)) _ _ _ _ _ _ E);
      [|exact Hok].
    intros src s s' Hs Hb. eapply DependencyPropogation_op_floats; eassumption. }
  rewrite (DependencyPropChanges_go_frame floats ignores_work_floats), DPAdd_go_eq.
  rewrite <- (DPTrim_go_frame floats ignores_work_floats) in H1.
  rewrite Forall_fmap in *. rewrite Forall_fmap.
  eapply Forall_impl; [exact H1|]. intros d. apply DPAdd_node_floats.
Qed.

Lemma DependencyPropogation_round_bc g cur st st' a :
  DependencyPropogation_round g cur st = Ok (st', a) →
  betweeness_centrality <$> st' = betweeness_centrality <$> st.
Proof.
  intros H.
  destruct (DependencyPropogation_round_view betweeness_centrality g cur st st' a
              ignores_work_betweeness_centrality ltac:(reflexivity) H)
    as (s1 & H1 & ->).
  rewrite <- list_fmap_compose.
  rewrite (list_fmap_ext (betweeness_centrality ∘ DPAdd_node)
             betweeness_centrality (DPTrim_go s1))
    by (intros; apply DPAdd_node_bc).
  rewrite (DPTrim_go_frame betweeness_centrality
             ignores_work_betweeness_centrality). exact H1.
Qed.

(** One source iteration: the four phases keep the centrality and the
    float invariant, and the accumulation operator closes it. *)
Lemma BC_iteration_floats fuel g cur st st' :
  Forall floats_ok (floats <$> st) →
  BC_iteration fuel g cur st = Some (Ok st') →
  ∃ pre,
    betweeness_centrality <$> pre = betweeness_centrality <$> st
    ∧ Forall floats_ok (floats <$> pre)
    ∧ st' = BC_node <$> pre.
Proof.
  intros Hok H.
  destruct (BC_iteration_Ok _ _ _ _ _ H)
    as (s1 & s2 & n2 & s4 & n4 & s5 & n5 & H1 & H2 & H4 & H5 & ->).
  exists s5. split; [|split; [|reflexivity]].
  - pose proof ignores_work_betweeness_centrality as Hw.
    unfold DependencyPropogation_go in H5.
    rewrite (frame_do_while betweeness_centrality _
               (DependencyPropogation_round_bc g cur) _ _ _ _ _ H5).
    rewrite (NumShortestPaths_go_frame _ Hw _ _ _ _ _ H4).
    rewrite (PredAndSucc_go_frame _ Hw).
    rewrite (SSSP_go_frame _ Hw _ _ _ _ _ H2).
    apply (InitializeIteration_go_frame _ Hw _ _ _ _ H1).
  - pose proof ignores_work_floats as Hw.
    assert (Hok4 : Forall floats_ok (floats <$> s4)).
    { rewrite (NumShortestPaths_go_frame _ Hw _ _ _ _ _ H4).
      rewrite (PredAndSucc_go_frame _ Hw).
      rewrite (SSSP_go_frame _ Hw _ _ _ _ _ H2).
      rewrite (InitializeIteration_go_frame _ Hw _ _ _ _ H1). exact Hok. }
    unfold DependencyPropogation_go in H5.
    refine (do_while_accum_inv (λ s, Forall floats_ok (floats <$> s)) _ _
              _ _ _ _ _ Hok4 H5).
    intros s s' a Hs Hr. eapply DependencyPropogation_round_floats; eassumption.
Qed.

Lemma iteration_start_floats g st :
  iteration_start g st → Forall floats_ok (floats <$> st).
Proof.
  induction 1 as [st0 Hv|fuel cur st st' _ IH H].
  - rewrite InitializeGraph_go_eq, !Forall_fmap.
    eapply Forall_impl; [exact Hv|]. intros d Hd.
    unfold floats, floats_ok, f32_nonneg. cbn. repeat split; try reflexivity.
    exact Hd.
  - destruct (BC_iteration_floats _ _ _ _ _ IH H) as (pre & _ & Hpre & ->).
    rewrite Forall_fmap in *. rewrite Forall_fmap.
    eapply Forall_impl; [exact Hpre|]. intros d. apply BC_node_floats.
Qed.

Lemma F32_leb_trans x y z :
  f32_nonneg x → f32_nonneg y →
  F32.leb x y = true → F32.leb y z = true → F32.leb x z = true.
Proof.
  unfold f32_nonneg, F32.leb, SFleb, SFcompare.
  destruct x as [sx|[]| |[] mx ex]; try discriminate;
    destruct y as [sy|[]| |[] my ey]; try discriminate;
    destruct z as [sz|[]| |[] mz ez]; try discriminate; try reflexivity.
  intros _ _.
  change (Pos.compare_cont Eq mx my) with (Pos.compare mx my).
  change (Pos.compare_cont Eq my mz) with (Pos.compare my mz).
  change (Pos.compare_cont Eq mx mz) with (Pos.compare mx mz).
  destruct (Z.compare_spec ex ey), (Z.compare_spec ey ez), (Z.compare_spec ex ez);
    try discriminate; try reflexivity; try lia;
    destruct (Pos.compare_spec mx my), (Pos.compare_spec my mz),
      (Pos.compare_spec mx mz); try discriminate; try reflexivity; lia.
Qed.

Lemma bc_no_smaller_refl st :
  Forall floats_ok (floats <$> st) → bc_no_smaller st st.
Proof.
  intros Hok. split; [reflexivity|]. intros v d Hv. exists d.
  split; [exact Hv|]. rewrite Forall_fmap, Forall_lookup in Hok.
  destruct (Hok v d Hv) as (_ & _ & _ & Hn). apply F32_leb_refl, Hn.
Qed.

Lemma bc_no_smaller_trans st1 st2 st3 :
  Forall floats_ok (floats <$> st1) → Forall floats_ok (floats <$> st2) →
  bc_no_smaller st1 st2 → bc_no_smaller st2 st3 → bc_no_smaller st1 st3.
Proof.
  intros Hok1 Hok2 [L12 H12] [L23 H23]. split; [congruence|].
  intros v d1 Hv. destruct (H12 v d1 Hv) as (d2 & Hv2 & Hle12).
  destruct (H23 v d2 Hv2) as (d3 & Hv3 & Hle23). exists d3.
  split; [exact Hv3|].
  rewrite Forall_fmap, Forall_lookup in Hok1, Hok2.
  destruct (Hok1 v d1 Hv) as (_ & _ & _ & Hn1).
  destruct (Hok2 v d2 Hv2) as (_ & _ & _ & Hn2).
  eapply F32_leb_trans; eassumption.
Qed.

Lemma BC_iteration_bc_no_smaller fuel g cur st st' :
  Forall floats_ok (floats <$> st) →
  BC_iteration fuel g cur st = Some (Ok st') →
  bc_no_smaller st st'.
Proof.
  intros Hok H.
  destruct (BC_iteration_floats _ _ _ _ _ Hok H) as (pre & Hbc & Hpre & ->).
  split.
  { rewrite length_fmap. apply (frame_length betweeness_centrality), Hbc. }
  intros v d Hv.
  destruct (frame_lookup betweeness_centrality st pre v d Hbc Hv) as (p & Hp & Hpd).
  exists (BC_node p). rewrite list_lookup_fmap, Hp. split; [reflexivity|].
  rewrite <- Hpd. apply BC_node_bc.
  rewrite Forall_fmap, Forall_lookup in Hpre. apply (Hpre v p Hp).
Qed.

Lemma BC_loop_bc_no_smaller fuel cfg g :
  ∀ rounds i it w w',
    iteration_start g w.1 →
    BC_loop fuel cfg g rounds i it w = Some (Ok w') →
    bc_no_smaller w.1 w'.1.
Proof.
  induction rounds as [|rounds IH]; intros i it w w' Hs H.
  - inversion H; subst. apply bc_no_smaller_refl, (iteration_start_floats g), Hs.
  - cbn [BC_loop] in H.
    destruct (next_source cfg i it) as [[cur rest]|]; [|discriminate].
    unfold and_then in H.
    destruct (BC_iteration fuel g cur w.1) as [[s1|]|] eqn:E; try discriminate.
    assert (Hs1 : iteration_start g s1) by (econstructor; eassumption).
    apply IH in H; [|exact Hs1]. cbn [fst] in H.
    eapply bc_no_smaller_trans; [| | |exact H].
    + apply (iteration_start_floats g), Hs.
    + apply (iteration_start_floats g), Hs1.
    + eapply BC_iteration_bc_no_smaller; [|exact E].
      apply (iteration_start_floats g), Hs.
Qed.

(** C8: over a source iteration, and so over any number of them, the
    centrality of no vertex decreases.  The four phases of an iteration
    leave [bc] as it is; the accumulation operator, its last step, adds
    [delta(v)] to [bc(v)] and resets [delta(v)] only where [delta(v) > 0],
    and leaves both alone elsewhere. *)
Theorem betweeness_centrality_monotone (g : Graph) (st : State) :
  iteration_start g st →
  (∀ fuel cur st',
     BC_iteration fuel g cur st = Some (Ok st') →
     (∃ pre,
        betweeness_centrality <$> pre = betweeness_centrality <$> st
        ∧ st' = BC_node <$> pre)
     ∧ length st' = length st
     ∧ ∀ v d, st !! v = Some d →
         ∃ d', st' !! v = Some d'
           ∧ F32.leb (betweeness_centrality d) (betweeness_centrality d') = true)
  ∧ (∀ d,
       BC_node d
       = if F32.ltb F32.zero (dependency d)
         then set_dependency F32.zero
                (set_betweeness_centrality
                   (F32.add (betweeness_centrality d) (dependency d)) d)
         else d)
  ∧ (∀ fuel cfg rounds i it visited st' visited',
       BC_loop fuel cfg g rounds i it (st, visited) = Some (Ok (st', visited')) →
       length st' = length st
       ∧ ∀ v d, st !! v = Some d →
           ∃ d', st' !! v = Some d'
             ∧ F32.leb (betweeness_centrality d) (betweeness_centrality d') = true).
Proof.
  intros Hs. pose proof (iteration_start_floats g st Hs) as Hok.
  split; [|split; [reflexivity|]].
  - intros fuel cur st' H. split.
    + destruct (BC_iteration_floats _ _ _ _ _ Hok H) as (pre & Hbc & _ & ->).
      exists pre. split; [exact Hbc|reflexivity].
    + apply (BC_iteration_bc_no_smaller fuel g cur), H. exact Hok.
  - intros fuel cfg rounds i it visited st' visited' H.
    apply (BC_loop_bc_no_smaller fuel cfg g rounds i it (st, visited)
             (st', visited') Hs H).
Qed.

(** ** SSSP: the distances at the end of the loop *)

Lemma elem_of_all_edges g s t :
  (s, t) ∈ all_edges g ↔ (s < numNodesWithEdges g)%nat ∧ t ∈ edge_dsts g s.
Proof.
  unfold all_edges, allNodesWithEdgesRange. rewrite list_elem_of_bind. split.
  - intros (x & Hin & Hx). apply list_elem_of_fmap in Hin as (y & Heq & Hy).
    inversion Heq; subst. apply elem_of_seq in Hx. split; [lia|exact Hy].
  - intros [Hs Ht]. exists s. split.
    + apply list_elem_of_fmap. exists t. split; [reflexivity|exact Ht].
    + apply elem_of_seq. lia.
Qed.

Lemma do_all_inv_in {X S : Type} (P : S → Prop) (body : X → S → S) (l : list X) :
  (∀ x s, x ∈ l → P s → P (body x s)) → ∀ s, P s → P (do_all body l s).
Proof.
  induction l as [|x l IH]; intros Hb s HP; [exact HP|].
  rewrite do_all_cons. apply IH.
  - intros y s' Hy. apply Hb. right. exact Hy.
  - apply Hb; [left|exact HP].
Qed.

Lemma infinity_succ_fits : infinity + 1 < U32.modulus.
Proof. reflexivity. Qed.

Lemma U32_add_1_small x : x ≤ infinity → U32.add 1 x = x + 1.
Proof.
  intros Hx. unfold U32.add. pose proof infinity_succ_fits.
  rewrite U32_wrap_small; lia.
Qed.

Lemma SSSP_edge_sound g st0 s t w :
  (s < numNodesWithEdges g)%nat → t ∈ edge_dsts g s →
  bfs_sound g st0 w.1 → bfs_sound g st0 (SSSP_edge s t w).1.
Proof.
  intros Hs Ht Hinv. destruct w as [st accum]. cbn [fst] in Hinv.
  destruct (st !! s) as [ds|] eqn:Es.
  2: { unfold SSSP_edge. rewrite Es. exact Hinv. }
  destruct (st !! t) as [dt|] eqn:Et.
  2: { unfold SSSP_edge. rewrite Es, Et. exact Hinv. }
  rewrite (SSSP_edge_eq st s t accum ds dt Es Et). cbv zeta.
  destruct (U32.add 1 (current_length dt) <? current_length ds) eqn:Hlt;
    [|exact Hinv].
  apply N.ltb_lt in Hlt. cbn [fst]. destruct Hinv as [Hlen Hnodes].
  split; [rewrite length_insert; exact Hlen|]. intros v d Hv.
  destruct (decide (v = s)) as [->|Hne].
  - rewrite list_lookup_insert_eq in Hv by (eapply lookup_lt_Some, Es).
    inversion Hv; subst d. cbn [current_length set_current_length].
    destruct (Hnodes s ds Es) as (Hb & (d00 & H00 & Hle) & _).
    destruct (Hnodes t dt Et) as (Hbt & _ & (u & k & d0 & Hw & Hu & Hk)).
    rewrite (U32_add_1_small _ Hbt) in *.
    split; [lia|]. split; [exists d00; split; [exact H00|lia]|].
    exists u, (k + 1), d0. split; [|split; [exact Hu|lia]].
    eapply walk_edge; [|exact Hw].
    repeat split; try assumption; rewrite <- Hlen; eapply lookup_lt_Some;
      eassumption.
  - rewrite list_lookup_insert_ne in Hv by congruence. apply Hnodes, Hv.
Qed.

Lemma SSSP_superstep_sound g st0 st :
  bfs_sound g st0 st → bfs_sound g st0 (SSSP_superstep g st).1.
Proof.
  intros Hinv. rewrite SSSP_superstep_edges.
  apply (do_all_inv_in (λ w, bfs_sound g st0 w.1)); [|exact Hinv].
  intros [s t] w Hin Hw. apply elem_of_all_edges in Hin as [Hs Ht].
  apply SSSP_edge_sound; assumption.
Qed.

Lemma bfs_sound_start g st0 :
  Forall (λ d, current_length d ≤ infinity) st0 → bfs_sound g st0 st0.
Proof.
  intros Hb. split; [reflexivity|]. intros v d Hv.
  rewrite Forall_lookup in Hb. split; [apply (Hb v d Hv)|].
  split; [exists d; split; [exact Hv|lia]|].
  exists v, 0, d. split; [|split; [exact Hv|lia]].
  apply walk_here. eapply lookup_lt_Some, Hv.
Qed.

Lemma SSSP_go_sound fuel g st st' n :
  Forall (λ d, current_length d ≤ infinity) st →
  SSSP_go fuel g st = Some (Ok (st', n)) → bfs_sound g st st'.
Proof.
  intros Hb H. unfold SSSP_go in H.
  refine (do_while_accum_inv (bfs_sound g st) _ _ _ _ _ _ _ (bfs_sound_start g st Hb) H).
  intros s s' a Hs Hr. unfold SSSP_round in Hr. inversion Hr as [E].
  pose proof (SSSP_superstep_sound g st s Hs) as H1. rewrite E in H1. exact H1.
Qed.

(** A pass that leaves the accumulator at zero has changed nothing. *)
Lemma SSSP_edges_count (E : list (nat * nat)) :
  ∀ st a st' a',
    a < U32.modulus →
    do_all (λ e, SSSP_edge e.1 e.2) E (st, a) = (st', a') →
    ∃ c : nat,
      (c ≤ length E)%nat ∧ a' = U32.wrap (a + N.of_nat c)
      ∧ (c = 0%nat → st' = st ∧ relaxed st E).
Proof.
  induction E as [|[s t] E IH]; intros st a st' a' Ha H.
  - inversion H; subst. exists 0%nat. split; [reflexivity|].
    split; [rewrite N.add_0_r, U32_wrap_small; [reflexivity|exact Ha]|].
    intros _. split; [reflexivity|]. intros e ds dt He. inversion He.
  - rewrite do_all_cons in H. cbn [fst snd] in H.
    assert (Hcase :
      (∃ ds dt, st !! s = Some ds ∧ st !! t = Some dt
                ∧ U32.add 1 (current_length dt) < current_length ds
                ∧ SSSP_edge s t (st, a)
                  = (<[s := set_current_length (U32.add 1 (current_length dt)) ds]> st,
                     U32.add a 1))
      ∨ (SSSP_edge s t (st, a) = (st, a)
         ∧ ∀ ds dt, st !! s = Some ds → st !! t = Some dt →
             current_length ds ≤ U32.add 1 (current_length dt))).
    { destruct (st !! s) as [ds|] eqn:Es.
      2: { right. unfold SSSP_edge. rewrite Es. split; [reflexivity|]. discriminate. }
      destruct (st !! t) as [dt|] eqn:Et.
      2: { right. unfold SSSP_edge. rewrite Es, Et. split; [reflexivity|]. discriminate. }
      rewrite (SSSP_edge_eq st s t a ds dt Es Et). cbv zeta.
      destruct (U32.add 1 (current_length dt) <? current_length ds) eqn:Hlt.
      - apply N.ltb_lt in Hlt. left. exists ds, dt. auto.
      - apply N.ltb_ge in Hlt. right. split; [reflexivity|].
        intros ds' dt' E1 E2. inversion E1; inversion E2; subst. exact Hlt. }
    destruct Hcase as [(ds & dt & Es & Et & Hlt & Heq)|[Heq Hno]]; rewrite Heq in H.
    + apply IH in H as (c & Hc & Ha' & _); [|apply U32_add_lt].
      exists (S c). split; [simpl; lia|]. split; [|discriminate].
      rewrite Ha'. unfold U32.add. rewrite U32_wrap_add_l. f_equal. lia.
    + apply IH in H as (c & Hc & Ha' & Hz); [|exact Ha].
      exists c. split; [simpl; lia|]. split; [exact Ha'|].
      intros Hc0. destruct (Hz Hc0) as [-> Hrel]. split; [reflexivity|].
      intros e ds dt He. apply elem_of_cons in He as [->|He].
      * cbn [fst snd]. apply Hno.
      * apply Hrel, He.
Qed.

Lemma SSSP_superstep_quiet g st st' :
  N.of_nat (length (all_edges g)) < U32.modulus →
  SSSP_superstep g st = (st', 0) → st' = st ∧ relaxed st (all_edges g).
Proof.
  intros Hsmall H. rewrite SSSP_superstep_edges in H.
  apply SSSP_edges_count in H as (c & Hc & Ha & Hz); [|reflexivity].
  apply Hz. rewrite N.add_0_l, U32_wrap_small in Ha by lia. lia.
Qed.

Lemma SSSP_go_relaxed fuel g st st' n :
  N.of_nat (length (all_edges g)) < U32.modulus →
  SSSP_go fuel g st = Some (Ok (st', n)) → relaxed st' (all_edges g).
Proof.
  intros Hsmall H. unfold SSSP_go in H.
  apply do_while_accum_last in H as [sp Hsp]. unfold SSSP_round in Hsp.
  inversion Hsp as [E]. destruct (SSSP_superstep_quiet g sp st' Hsmall E) as [-> Hr].
  exact Hr.
Qed.

Lemma relaxed_walk g st0 st :
  bfs_sound g st0 st → relaxed st (all_edges g) →
  ∀ v u k, walk g (length st0) v u k →
    ∀ dv du, st !! v = Some dv → st !! u = Some du →
      current_length dv ≤ current_length du + k.
Proof.
  intros [Hlen Hnodes] Hrel v u k Hw.
  induction Hw as [v Hv|s t u k (Hs & Ht & Hsn & Htn) Hw IH]; intros dv du Ev Eu.
  - rewrite Ev in Eu. inversion Eu. lia.
  - destruct (lookup_lt_is_Some_2 st t) as [dt Et]; [lia|].
    specialize (IH dt du Et Eu).
    pose proof (Hrel (s, t) dv dt) as Hst. cbn [fst snd] in Hst.
    specialize (Hst (proj2 (elem_of_all_edges g s t) (conj Hs Ht)) Ev Et).
    destruct (Hnodes t dt Et) as (Hbt & _). rewrite (U32_add_1_small _ Hbt) in Hst.
    lia.
Qed.

Lemma walk_ends g n v u k : walk g n v u k → (v < n)%nat ∧ (u < n)%nat.
Proof.
  induction 1 as [v Hv|s t u k (_ & _ & Hs & _) _ [_ Hu]]; split; assumption.
Qed.

(** X1: when the loop of [SSSP::go] returns, its node array is a fixed
    point of the superstep: one more superstep changes nothing and
    records no work, and along every out-edge [(s, t)] the distance of
    [s] is at most [1 + dist(t)] in [uint32_t].  The accumulator is a
    [uint32_t], so this needs fewer than 2^32 edges: 2^32 updates in one
    superstep would read as zero. *)
Theorem SSSP_go_fixed_point (fuel : nat) (g : Graph) (st st' : State) (n : N) :
  N.of_nat (length (all_edges g)) < U32.modulus →
  SSSP_go fuel g st = Some (Ok (st', n)) →
  SSSP_superstep g st' = (st', 0)
  ∧ ∀ s t src_data dst_data,
      (s < numNodesWithEdges g)%nat → t ∈ edge_dsts g s →
      st' !! s = Some src_data → st' !! t = Some dst_data →
      current_length src_data ≤ U32.add 1 (current_length dst_data).
Proof.
  intros Hsmall H. split.
  - unfold SSSP_go in H. apply do_while_accum_last in H as [sp Hsp].
    unfold SSSP_round in Hsp.
    assert (E : SSSP_superstep g sp = (st', 0)) by congruence.
    destruct (SSSP_superstep_quiet g sp st' Hsmall E) as [Heq _].
    subst st'. exact E.
  - intros s t ds dt Hs Ht Es Et.
    apply (SSSP_go_relaxed fuel g st st' n Hsmall H (s, t) ds dt);
      [apply elem_of_all_edges; split; assumption|exact Es|exact Et].
Qed.

Lemma SSSP_go_fixed_point_witness :
  SSSP_superstep chain3 chain3_bfs = (chain3_bfs, 0)
  ∧ ∀ s t src_data dst_data,
      (s < numNodesWithEdges chain3)%nat → t ∈ edge_dsts chain3 s →
      chain3_bfs !! s = Some src_data → chain3_bfs !! t = Some dst_data →
      current_length src_data ≤ U32.add 1 (current_length dst_data).
Proof.
  apply (SSSP_go_fixed_point 5 chain3 chain3_reset chain3_bfs 3);
    vm_compute; reflexivity.
Defined.

(** X2: on a graph with fewer than 2^32 edges and started from a node
    array whose distances are at most [infinity], [SSSP::go] returns in
    every record the least value of [dist0(u) + k] over the walks of [k]
    out-edges from the vertex to a vertex [u], [dist0] being the
    distances it started from: the value is attained by a walk and no
    walk gives less. *)
Theorem SSSP_go_shortest_walks (fuel : nat) (g : Graph) (st st' : State) (n : N) :
  N.of_nat (length (all_edges g)) < U32.modulus →
  Forall (λ d, current_length d ≤ infinity) st →
  SSSP_go fuel g st = Some (Ok (st', n)) →
  length st' = length st
  ∧ ∀ v d', st' !! v = Some d' →
      (∃ u k d0, walk g (length st) v u k ∧ st !! u = Some d0
                 ∧ current_length d' = current_length d0 + k)
      ∧ ∀ u k d0, walk g (length st) v u k → st !! u = Some d0 →
          current_length d' ≤ current_length d0 + k.
Proof.
  intros Hsmall Hb H.
  pose proof (SSSP_go_sound fuel g st st' n Hb H) as Hsound.
  pose proof (SSSP_go_relaxed fuel g st st' n Hsmall H) as Hrel.
  destruct Hsound as [Hlen Hnodes]. split; [exact Hlen|]. intros v d' Hv.
  split; [apply (Hnodes v d' Hv)|]. intros u k d0 Hw Hu.
  destruct (lookup_lt_is_Some_2 st' u) as [du Eu].
  { rewrite Hlen. eapply lookup_lt_Some, Hu. }
  pose proof (relaxed_walk g st st' (conj Hlen Hnodes) Hrel v u k Hw d' du Hv Eu).
  destruct (Hnodes u du Eu) as (_ & (d00 & H00 & Hle) & _).
  rewrite Hu in H00. inversion H00; subst d00. lia.
Qed.

Lemma SSSP_go_shortest_walks_witness :
  length chain3_bfs = length chain3_reset
  ∧ ∀ v d', chain3_bfs !! v = Some d' →
      (∃ u k d0, walk chain3 (length chain3_reset) v u k
                 ∧ chain3_reset !! u = Some d0
                 ∧ current_length d' = current_length d0 + k)
      ∧ ∀ u k d0, walk chain3 (length chain3_reset) v u k →
          chain3_reset !! u = Some d0 →
          current_length d' ≤ current_length d0 + k.
Proof.
  apply (SSSP_go_shortest_walks 5 chain3 chain3_reset chain3_bfs 3).
  - vm_compute. reflexivity.
  - repeat constructor; vm_compute; discriminate.
  - vm_compute. reflexivity.
Defined.

Lemma InitializeIteration_go_dists g cur st0 st :
  InitializeIteration_go g cur st0 = Ok st →
  length st = length st0
  ∧ ∀ v d, st !! v = Some d →
      current_length d = if getGID g v =? cur then 0 else infinity.
Proof.
  rewrite InitializeIteration_go_eq. intros H.
  destruct (map_nodes_Ok _ _ _ _ H) as [Hlen Hnodes]. split; [exact Hlen|].
  intros v d Hv.
  destruct (lookup_lt_is_Some_2 st0 v) as [d0 E0].
  { rewrite <- Hlen. eapply lookup_lt_Some, Hv. }
  destruct (Hnodes v d0 E0) as (d' & Hd' & Hl). rewrite Hv in Hl.
  inversion Hl; subst d'. cbn [Nat.add] in Hd'.
  rewrite InitializeIteration_node_eq in Hd'.
  destruct (num_predecessors d0 =? 0); [|discriminate]. inversion Hd'.
  reflexivity.
Qed.

(** X3: on a graph with fewer than 2^32 edges, after the reset for a
    source, [SSSP::go] leaves in every record the hop distance of the
    vertex to the source along out-edges, or [infinity] when the source
    is that far or cannot be reached: the distance is at most
    [infinity] and at most the length of any walk to a replica of the
    source, and a distance below [infinity] is the length of such a
    walk. *)
Theorem SSSP_go_hop_distance
    (fuel : nat) (g : Graph) (current_src_node : N) (st0 st st' : State) (n : N) :
  N.of_nat (length (all_edges g)) < U32.modulus →
  InitializeIteration_go g current_src_node st0 = Ok st →
  SSSP_go fuel g st = Some (Ok (st', n)) →
  ∀ v d', st' !! v = Some d' →
    current_length d' ≤ infinity
    ∧ (∀ u k, getGID g u = current_src_node → walk g (length st0) v u k →
         current_length d' ≤ k)
    ∧ (current_length d' < infinity →
       ∃ u, getGID g u = current_src_node
            ∧ walk g (length st0) v u (current_length d')).
Proof.
  intros Hsmall Hreset H v d' Hv.
  destruct (InitializeIteration_go_dists g current_src_node st0 st Hreset)
    as [Hlen0 Hd0].
  assert (Hb : Forall (λ d, current_length d ≤ infinity) st).
  { apply Forall_lookup. intros i d Hi. rewrite (Hd0 i d Hi).
    destruct (_ =? _); [apply N.le_0_l|reflexivity]. }
  pose proof (SSSP_go_sound fuel g st st' n Hb H) as Hsound.
  pose proof (SSSP_go_relaxed fuel g st st' n Hsmall H) as Hrel.
  destruct (proj2 Hsound v d' Hv) as (Hle & _ & (u & k & du & Hw & Hu & Hk)).
  rewrite Hlen0 in Hw. split; [exact Hle|]. split.
  - intros u1 k1 Hg Hw1. rewrite <- Hlen0 in Hw1.
    destruct (walk_ends _ _ _ _ _ Hw1) as [_ Hu1].
    destruct (lookup_lt_is_Some_2 st u1 Hu1) as [d1 E1].
    destruct (lookup_lt_is_Some_2 st' u1) as [d1' E1'].
    { rewrite (proj1 Hsound). exact Hu1. }
    pose proof (relaxed_walk g st st' Hsound Hrel v u1 k1 Hw1 d' d1' Hv E1').
    destruct (proj2 Hsound u1 d1' E1') as (_ & (d00 & H00 & Hle1) & _).
    rewrite E1 in H00. inversion H00; subst d00.
    rewrite (Hd0 u1 d1 E1) in Hle1. apply N.eqb_eq in Hg. rewrite Hg in Hle1.
    lia.
  - intros Hlt. exists u. rewrite (Hd0 u du Hu) in Hk.
    destruct (getGID g u =? current_src_node) eqn:Hg; [|lia].
    apply N.eqb_eq in Hg. split; [exact Hg|].
    replace (current_length d') with k by lia. exact Hw.
Qed.

Lemma SSSP_go_hop_distance_witness :
  current_length kite_bfs_gid4 ≤ infinity
  ∧ (∀ u k, getGID kite u = 0 → walk kite (length kite_loaded) 3 u k →
       current_length kite_bfs_gid4 ≤ k)
  ∧ (current_length kite_bfs_gid4 < infinity →
     ∃ u, getGID kite u = 0
          ∧ walk kite (length kite_loaded) 3 u (current_length kite_bfs_gid4)).
Proof.
  apply (SSSP_go_hop_distance 10 kite 0 kite_loaded kite_reset kite_bfs 2);
    vm_compute; reflexivity.
Defined.

(** ** The fields each phase writes *)

Lemma dist_no_larger_refl st : dist_no_larger st st.
Proof.
  split; [reflexivity|]. intros v d d' H1 H2. rewrite H1 in H2.
  inversion H2. reflexivity.
Qed.

Lemma dist_no_larger_trans st1 st2 st3 :
  dist_no_larger st1 st2 → dist_no_larger st2 st3 → dist_no_larger st1 st3.
Proof.
  intros [L12 H12] [L23 H23]. split; [congruence|]. intros v d1 d3 E1 E3.
  destruct (lookup_lt_is_Some_2 st2 v) as [d2 E2].
  { rewrite L12. eapply lookup_lt_Some, E1. }
  specialize (H12 v d1 d2 E1 E2). specialize (H23 v d2 d3 E2 E3). lia.
Qed.

Lemma SSSP_edge_no_larger src dst w : dist_no_larger w.1 (SSSP_edge src dst w).1.
Proof.
  destruct w as [st accum].
  destruct (st !! src) as [ds|] eqn:Es.
  2: { unfold SSSP_edge. rewrite Es. apply dist_no_larger_refl. }
  destruct (st !! dst) as [dt|] eqn:Et.
  2: { unfold SSSP_edge. rewrite Es, Et. apply dist_no_larger_refl. }
  rewrite (SSSP_edge_eq st src dst accum ds dt Es Et). cbv zeta.
  destruct (U32.add 1 (current_length dt) <? current_length ds) eqn:Hlt;
    [|apply dist_no_larger_refl].
  apply N.ltb_lt in Hlt. cbn [fst]. split; [apply length_insert|].
  intros v d d' Hv Hv'. destruct (decide (v = src)) as [->|Hne].
  - rewrite list_lookup_insert_eq in Hv' by (eapply lookup_lt_Some, Es).
    rewrite Es in Hv. inversion Hv; inversion Hv'; subst.
    cbn [current_length set_current_length]. lia.
  - rewrite list_lookup_insert_ne in Hv' by congruence. rewrite Hv in Hv'.
    inversion Hv'. reflexivity.
Qed.

Lemma do_all_no_larger {X : Type} (body : X → State * N → State * N) (l : list X) :
  (∀ x w, dist_no_larger w.1 (body x w).1) →
  ∀ w, dist_no_larger w.1 (do_all body l w).1.
Proof.
  intros Hb. induction l as [|x l IH]; intros w; [apply dist_no_larger_refl|].
  rewrite do_all_cons. eapply dist_no_larger_trans; [apply Hb|apply IH].
Qed.

Lemma SSSP_superstep_no_larger g st : dist_no_larger st (SSSP_superstep g st).1.
Proof.
  unfold SSSP_superstep.
  apply (do_all_no_larger (SSSP_op g) _) with (w := (st, 0)).
  intros src w. unfold SSSP_op. apply do_all_no_larger.
  intros dst w'. apply SSSP_edge_no_larger.
Qed.

Section WriteSets.
Context {A : Type} (proj : NodeData → A).

Ltac ignore_set :=
  repeat match goal with
  | Hs : ∀ v d, proj (?set v d) = proj d |- context [proj (?set _ _)] =>
      rewrite Hs
  end; try reflexivity.

Lemma SSSP_go_writes fuel g st st' n :
  (∀ v d, proj (set_current_length v d) = proj d) →
  SSSP_go fuel g st = Some (Ok (st', n)) → proj <$> st' = proj <$> st.
Proof.
  intros Hd. apply frame_do_while. intros s s' a H. unfold SSSP_round in H.
  assert (E : SSSP_superstep g s = (s', a)) by congruence.
  change s' with (s', a).1. rewrite <- E. unfold SSSP_superstep.
  rewrite (frame_do_all_accum proj (SSSP_op g)); [reflexivity|].
  intros src w. unfold SSSP_op. apply frame_do_all_accum. intros dst [s1 a1].
  unfold SSSP_edge.
  destruct (s1 !! src) as [ds|] eqn:Hs; [|reflexivity].
  destruct (s1 !! dst) as [dt|]; [|reflexivity].
  destruct (Galois_min _ _) as [len old].
  destruct (_ <? old); cbn [fst]; (eapply frame_insert; [exact Hs|]);
    ignore_set.
Qed.

Section Sigma.
Hypothesis Htrim : ∀ v d, proj (set_trim v d) = proj d.
Hypothesis Hto_add : ∀ v d, proj (set_to_add v d) = proj d.
Hypothesis Hnpred : ∀ v d, proj (set_num_predecessors v d) = proj d.
Hypothesis Hsigma : ∀ v d, proj (set_num_shortest_paths v d) = proj d.
Hypothesis Hprop : ∀ v d, proj (set_propogation_flag v d) = proj d.
Hypothesis Hsp : ∀ v d, proj (set_num_short_paths_flag v d) = proj d.

Lemma NumShortestPaths_round_writes g st st' a :
  NumShortestPaths_round g st = Ok (st', a) → proj <$> st' = proj <$> st.
Proof.
  unfold NumShortestPaths_round.
  assert (Hf : proj <$> (do_all (NumShortestPaths_op g infinity)
                           (allNodesWithEdgesRange g) (st, 0)).1 = proj <$> st).
  { apply (frame_do_all_accum proj (NumShortestPaths_op g infinity)).
    intros src w. unfold NumShortestPaths_op.
    destruct (w.1 !! src) as [ds|]; [|reflexivity].
    destruct (negb _); [|reflexivity]. destruct (0 <? _); [|reflexivity].
    apply frame_do_all_accum. intros dst [s1 a1]. unfold NumShortestPaths_edge.
    destruct (s1 !! src) as [ds1|] eqn:Hs; [|reflexivity].
    destruct (s1 !! dst) as [dt|]; [|reflexivity].
    destruct (propogation_flag dt); [|reflexivity].
    destruct (_ =? _); [|reflexivity]. cbn [fst].
    eapply frame_insert; [exact Hs|]. ignore_set. }
  destruct (do_all (NumShortestPaths_op g infinity) _ (st, 0)) as [s1 a1].
  cbn [fst] in Hf.
  destruct (NumShortestPathsChanges_go (NSPAdd_go (NSPTrim_go s1))) as [s2|] eqn:E2;
    [|discriminate].
  cbn [mbind res_bind]. intros H; inversion H; subst. rewrite <- Hf.
  transitivity (proj <$> NSPAdd_go (NSPTrim_go s1)).
  { revert E2. apply frame_for_each. intros src s s' Hop.
    unfold NumShortestPathsChanges_op in Hop.
    destruct (s !! src) as [d|] eqn:Hd; [|inversion Hop; reflexivity].
    destruct (NumShortestPathsChanges_node infinity d) as [d'|] eqn:E;
      [|discriminate].
    cbn [mbind res_bind] in Hop. inversion Hop; subst.
    eapply frame_insert; [exact Hd|]. revert E.
    unfold NumShortestPathsChanges_node.
    destruct (negb (current_length d =? infinity));
      [|intros E; inversion E; reflexivity].
    destruct ((num_predecessors d =? 0) && propogation_flag d).
    - destruct (negb (num_successors d =? 0));
        [|intros E; inversion E; reflexivity].
      cbn [num_short_paths_flag set_propogation_flag].
      destruct (negb (num_short_paths_flag d)); intros E; inversion E;
        ignore_set.
    - destruct ((num_predecessors d =? 0) && negb (num_short_paths_flag d));
        [|intros E; inversion E; reflexivity].
      destruct (assert _); [|discriminate]. cbn [mbind res_bind].
      intros E; inversion E. ignore_set. }
  transitivity (proj <$> NSPTrim_go s1).
  { apply frame_do_all. intros src s. apply frame_alter. intros d.
    unfold NSPAdd_node. destruct (0 <? to_add d); [|reflexivity]. ignore_set. }
  apply frame_do_all. intros src s. apply frame_alter. intros d.
  unfold NSPTrim_node. destruct (0 <? trim d); [|reflexivity]. ignore_set.
Qed.
End Sigma.

Section DeltaPass.
Hypothesis Htrim2 : ∀ v d, proj (set_trim2 v d) = proj d.
Hypothesis Hto_add_float : ∀ v d, proj (set_to_add_float v d) = proj d.
Hypothesis Hprop : ∀ v d, proj (set_propogation_flag v d) = proj d.
Hypothesis Hdep_flag : ∀ v d, proj (set_dep_prop_flag v d) = proj d.

Lemma DependencyPropogation_op_writes g cur src w w' :
  DependencyPropogation_op g infinity cur src w = Ok w' →
  proj <$> w'.1 = proj <$> w.1.
Proof.
  unfold DependencyPropogation_op.
  destruct (w.1 !! src) as [ds|]; [|intros Hop; inversion Hop; reflexivity].
  destruct (negb _); [|intros Hop; inversion Hop; reflexivity].
  destruct (propogation_flag ds); [|intros Hop; inversion Hop; reflexivity].
  destruct (if negb _ then _ else _); [|discriminate]. cbn [mbind res_bind].
  destruct (for_each _ (edge_dsts g src) w) as [[s2 a2]|] eqn:E2;
    [|discriminate].
  cbn [mbind res_bind].
  assert (Hf2 : proj <$> s2 = proj <$> w.1).
  { change s2 with (s2, a2).1. revert E2. apply frame_for_each_accum.
    intros dst [s3 a3] w3. unfold DependencyPropogation_edge.
    destruct (getGID g dst =? cur); [intros He; inversion He; reflexivity|].
    destruct (s3 !! src) as [ds3|]; [|intros He; inversion He; reflexivity].
    destruct (s3 !! dst) as [dt|] eqn:Ht; [|intros He; inversion He; reflexivity].
    destruct (F32.to_u32 (dependency ds3)) as [dep|]; [|discriminate].
    destruct (_ =? _); intros He; inversion He; [|reflexivity]. cbn [fst].
    eapply frame_insert; [exact Ht|]. ignore_set. }
  destruct (s2 !! src) as [d2|] eqn:H2; intros Hop; inversion Hop; subst;
    cbn [fst]; [|exact Hf2].
  rewrite <- Hf2. eapply frame_insert; [exact H2|].
  cbn [dep_prop_flag set_propogation_flag].
  destruct (negb (dep_prop_flag d2)); ignore_set.
Qed.
End DeltaPass.

Section Delta.
Hypothesis Htrim2 : ∀ v d, proj (set_trim2 v d) = proj d.
Hypothesis Hto_add_float : ∀ v d, proj (set_to_add_float v d) = proj d.
Hypothesis Hprop : ∀ v d, proj (set_propogation_flag v d) = proj d.
Hypothesis Hdep_flag : ∀ v d, proj (set_dep_prop_flag v d) = proj d.
Hypothesis Hnsucc : ∀ v d, proj (set_num_successors v d) = proj d.
Hypothesis Htrim : ∀ v d, proj (set_trim v d) = proj d.
Hypothesis Hdependency : ∀ v d, proj (set_dependency v d) = proj d.

Lemma DependencyPropogation_round_writes g cur st st' a :
  DependencyPropogation_round g cur st = Ok (st', a) →
  proj <$> st' = proj <$> st.
Proof.
  unfold DependencyPropogation_round.
  destruct (for_each _ _ (st, 0)) as [[s1 a1]|] eqn:E; [|discriminate].
  cbn [mbind res_bind]. intros H. inversion H; subst.
  pose proof (frame_for_each_accum proj _ _
                (DependencyPropogation_op_writes Htrim2 Hto_add_float Hprop
                   Hdep_flag g cur) _ _ E) as Hf.
  cbn [fst] in Hf. rewrite <- Hf.
  transitivity (proj <$> DPAdd_go (DPTrim_go s1)).
  { apply frame_do_all. intros src s. apply frame_alter. intros d.
    unfold DependencyPropChanges_node. destruct (negb _); [|reflexivity].
    destruct (_ && _); [|reflexivity]. ignore_set. }
  transitivity (proj <$> DPTrim_go s1).
  { apply frame_do_all. intros src s. apply frame_alter. intros d.
    unfold DPAdd_node. destruct (F32.ltb _ _); [|reflexivity]. ignore_set. }
  apply frame_do_all. intros src s. apply frame_alter. intros d.
  unfold DPTrim_node. destruct (0 <? trim2 d); [|reflexivity]. ignore_set.
Qed.
End Delta.
End WriteSets.

Lemma out_dag_edges_dists g (st st' : State) s :
  current_length <$> st' = current_length <$> st →
  out_dag_edges g st' s = out_dag_edges g st s.
Proof.
  intros H. unfold out_dag_edges. rewrite (reached_dists st st' s H).
  destruct (reached st s); [|reflexivity]. f_equal.
  induction (edge_dsts g s) as [|t l IH]; [reflexivity|].
  rewrite !filter_cons, (dag_edge_dists st st' s t H), IH. reflexivity.
Qed.

Lemma dag_edges_dists g (st st' : State) :
  current_length <$> st' = current_length <$> st →
  dag_edges g st' = dag_edges g st.
Proof.
  intros H. unfold dag_edges.
  induction (allNodesWithEdgesRange g) as [|s l IH]; [reflexivity|].
  rewrite !bind_cons, IH, (out_dag_edges_dists g st st' s H). reflexivity.
Qed.

(** X4: [SSSP::go] writes no field but [current_length]: every view of
    the records that does not look at it is the same after the loop,
    and no distance is larger after the loop than before. *)
Theorem SSSP_go_writes_only_distances {A : Type} (proj : NodeData → A)
    (fuel : nat) (g : Graph) (st st' : State) (n : N) :
  (∀ v d, proj (set_current_length v d) = proj d) →
  SSSP_go fuel g st = Some (Ok (st', n)) →
  proj <$> st' = proj <$> st ∧ dist_no_larger st st'.
Proof.
  intros Hd H. split; [eapply SSSP_go_writes; eassumption|].
  unfold SSSP_go in H.
  refine (do_while_accum_inv (dist_no_larger st) _ _ _ _ _ _ _
            (dist_no_larger_refl st) H).
  intros s s' a Hs Hr. unfold SSSP_round in Hr.
  assert (E : SSSP_superstep g s = (s', a)) by congruence.
  eapply dist_no_larger_trans; [exact Hs|].
  pose proof (SSSP_superstep_no_larger g s) as H1. rewrite E in H1. exact H1.
Qed.

Lemma SSSP_go_writes_only_distances_witness :
  outside_bfs <$> kite_bfs = outside_bfs <$> kite_reset
  ∧ dist_no_larger kite_reset kite_bfs.
Proof.
  apply (SSSP_go_writes_only_distances outside_bfs 10 kite kite_reset kite_bfs 2).
  - reflexivity.
  - vm_compute. reflexivity.
Defined.

(** X5: the sigma phase ([NumShortestPaths::go] with [NSPTrim], [NSPAdd]
    and [NumShortestPathsChanges]) writes only [trim], [to_add],
    [num_predecessors], [num_shortest_paths], [propogation_flag] and
    [num_short_paths_flag]: every view of the records that ignores
    these six is the same after the loop.  In particular the distances
    stay, so the edges the operators take for DAG edges are the same in
    every round. *)
Theorem NumShortestPaths_go_writes {A : Type} (proj : NodeData → A)
    (fuel : nat) (g : Graph) (st st' : State) (n : N) :
  (∀ v d, proj (set_trim v d) = proj d) →
  (∀ v d, proj (set_to_add v d) = proj d) →
  (∀ v d, proj (set_num_predecessors v d) = proj d) →
  (∀ v d, proj (set_num_shortest_paths v d) = proj d) →
  (∀ v d, proj (set_propogation_flag v d) = proj d) →
  (∀ v d, proj (set_num_short_paths_flag v d) = proj d) →
  NumShortestPaths_go fuel g st = Some (Ok (st', n)) →
  proj <$> st' = proj <$> st ∧ dag_edges g st' = dag_edges g st.
Proof.
  intros H1 H2 H3 H4 H5 H6 H. split.
  - revert H. apply frame_do_while. intros s s' a.
    apply NumShortestPaths_round_writes; assumption.
  - apply dag_edges_dists. revert H. apply frame_do_while. intros s s' a.
    apply NumShortestPaths_round_writes; reflexivity.
Qed.

Lemma NumShortestPaths_go_writes_witness :
  outside_sigma <$> kite_sigma = outside_sigma <$> kite_counted
  ∧ dag_edges kite kite_sigma = dag_edges kite kite_counted.
Proof.
  apply (NumShortestPaths_go_writes outside_sigma 10 kite kite_counted kite_sigma 4);
    reflexivity.
Defined.

(** X6: the delta phase ([DependencyPropogation::go] with [DPTrim],
    [DPAdd] and [DependencyPropChanges]) writes only [trim2],
    [to_add_float], [propogation_flag], [dep_prop_flag],
    [num_successors], [trim] and [dependency]: every view of the records
    that ignores these seven is the same after the loop.  In particular
    the distances and the path counts stay. *)
Theorem DependencyPropogation_go_writes {A : Type} (proj : NodeData → A)
    (fuel : nat) (g : Graph) (current_src_node : N) (st st' : State) (n : N) :
  (∀ v d, proj (set_trim2 v d) = proj d) →
  (∀ v d, proj (set_to_add_float v d) = proj d) →
  (∀ v d, proj (set_propogation_flag v d) = proj d) →
  (∀ v d, proj (set_dep_prop_flag v d) = proj d) →
  (∀ v d, proj (set_num_successors v d) = proj d) →
  (∀ v d, proj (set_trim v d) = proj d) →
  (∀ v d, proj (set_dependency v d) = proj d) →
  DependencyPropogation_go fuel g current_src_node st = Some (Ok (st', n)) →
  proj <$> st' = proj <$> st ∧ dag_edges g st' = dag_edges g st.
Proof.
  intros H1 H2 H3 H4 H5 H6 H7 H. split.
  - revert H. apply frame_do_while. intros s s' a.
    apply DependencyPropogation_round_writes; assumption.
  - apply dag_edges_dists. revert H. apply frame_do_while. intros s s' a.
    apply DependencyPropogation_round_writes; reflexivity.
Qed.

Lemma DependencyPropogation_go_writes_witness :
  outside_delta <$> kite_delta = outside_delta <$> kite_sigma
  ∧ dag_edges kite kite_delta = dag_edges kite kite_sigma.
Proof.
  apply (DependencyPropogation_go_writes outside_delta 10 kite 0 kite_sigma
           kite_delta 3); reflexivity.
Defined.

(** ** The token and the buffers in the sigma and delta phases *)

Lemma NumShortestPathsChanges_node_Ok local_infinity d :
  ∃ d', NumShortestPathsChanges_node local_infinity d = Ok d'.
Proof.
  unfold NumShortestPathsChanges_node.
  destruct (current_length d =? local_infinity), (num_predecessors d =? 0),
    (propogation_flag d) eqn:Hp, (num_successors d =? 0),
    (num_short_paths_flag d) eqn:Hs; cbn; rewrite ?Hp, ?Hs; cbn; eauto.
Qed.

Lemma NumShortestPathsChanges_go_eq st :
  NumShortestPathsChanges_go st
  = map_nodes (λ _, NumShortestPathsChanges_node infinity) 0 st.
Proof.
  apply (for_each_update_all (λ _, NumShortestPathsChanges_node infinity)).
Qed.

Lemma NumShortestPathsChanges_go_Ok st :
  ∃ st', NumShortestPathsChanges_go st = Ok st'.
Proof.
  rewrite NumShortestPathsChanges_go_eq. apply map_nodes_total.
  intros v d _. apply NumShortestPathsChanges_node_Ok.
Qed.

Lemma NumShortestPaths_round_Ok g st :
  ∃ st' a, NumShortestPaths_round g st = Ok (st', a).
Proof.
  unfold NumShortestPaths_round.
  destruct (do_all (NumShortestPaths_op g infinity) _ (st, 0)) as [s1 a1].
  destruct (NumShortestPathsChanges_go_Ok (NSPAdd_go (NSPTrim_go s1))) as [s2 E].
  rewrite E. cbn [mbind res_bind]. eauto.
Qed.

(** X7: the sigma phase cannot abort.  The assertion
    [assert(!src_data.propogation_flag)] of [NumShortestPathsChanges] is
    reached only on the branch where [num_predecessors == 0 &&
    propogation_flag] has failed with [num_predecessors == 0], so it
    holds on every record; hence every round of [NumShortestPaths::go]
    completes and the loop never ends in a fault. *)
Theorem NumShortestPaths_go_never_faults
    (fuel : nat) (g : Graph) (st : State) (f : fault) :
  (∀ local_infinity d,
     NumShortestPathsChanges_node local_infinity d ≠ Fault f)
  ∧ NumShortestPathsChanges_go st ≠ Fault f
  ∧ NumShortestPaths_round g st ≠ Fault f
  ∧ NumShortestPaths_go fuel g st ≠ Some (Fault f).
Proof.
  split; [|split; [|split]].
  - intros inf d H.
    destruct (NumShortestPathsChanges_node_Ok inf d) as [d' E]. congruence.
  - intros H. destruct (NumShortestPathsChanges_go_Ok st) as [st' E]. congruence.
  - intros H. destruct (NumShortestPaths_round_Ok g st) as (st' & a & E).
    congruence.
  - intros H. apply do_while_accum_fault in H as [sl Hsl].
    destruct (NumShortestPaths_round_Ok g sl) as (st' & a & E). congruence.
Qed.

Lemma NumShortestPathsChanges_node_token local_infinity d d' :
  NumShortestPathsChanges_node local_infinity d = Ok d' →
  d' = set_num_short_paths_flag (num_short_paths_flag d')
         (set_propogation_flag (propogation_flag d') d)
  ∧ (num_short_paths_flag d = true → num_short_paths_flag d' = true)
  ∧ (propogation_flag d = false → propogation_flag d' = true →
     current_length d ≠ local_infinity ∧ num_predecessors d = 0
     ∧ num_short_paths_flag d = false ∧ num_short_paths_flag d' = true)
  ∧ (propogation_flag d = true → propogation_flag d' = false →
     current_length d ≠ local_infinity ∧ num_predecessors d = 0
     ∧ num_successors d ≠ 0 ∧ num_short_paths_flag d' = true).
Proof.
  unfold NumShortestPathsChanges_node.
  destruct (current_length d =? local_infinity) eqn:Hi,
    (num_predecessors d =? 0) eqn:Hn, (propogation_flag d) eqn:Hp,
    (num_successors d =? 0) eqn:Hs, (num_short_paths_flag d) eqn:Hf;
    cbn; rewrite ?Hp, ?Hf; cbn; intros H; inversion H; subst d'; cbn;
    rewrite ?Hp, ?Hf;
    try apply N.eqb_neq in Hi; try apply N.eqb_eq in Hn;
    try apply N.eqb_neq in Hs;
    (split; [destruct d; cbn in *; subst; reflexivity|]);
    repeat split; try assumption; try discriminate; try reflexivity.
Qed.

(** X8: the token of the sigma phase is handed out once.
    [NumShortestPathsChanges::go] completes on every node array and
    changes nothing but the two flags; the done flag
    [num_short_paths_flag] is never cleared; the token
    [propogation_flag] is given only to a reached vertex with
    [num_predecessors == 0] whose done flag was clear, and the flag is
    set with it; the token is taken back only from a vertex with
    [num_predecessors == 0] and [num_successors != 0], which is marked
    done. *)
Theorem NumShortestPathsChanges_go_token (st : State) :
  ∃ st', NumShortestPathsChanges_go st = Ok st'
    ∧ length st' = length st
    ∧ ∀ v d, st !! v = Some d →
        ∃ d', st' !! v = Some d'
          ∧ d' = set_num_short_paths_flag (num_short_paths_flag d')
                   (set_propogation_flag (propogation_flag d') d)
          ∧ (num_short_paths_flag d = true → num_short_paths_flag d' = true)
          ∧ (propogation_flag d = false → propogation_flag d' = true →
             current_length d ≠ infinity ∧ num_predecessors d = 0
             ∧ num_short_paths_flag d = false
             ∧ num_short_paths_flag d' = true)
          ∧ (propogation_flag d = true → propogation_flag d' = false →
             current_length d ≠ infinity ∧ num_predecessors d = 0
             ∧ num_successors d ≠ 0 ∧ num_short_paths_flag d' = true).
Proof.
  destruct (NumShortestPathsChanges_go_Ok st) as [st' E]. exists st'.
  split; [exact E|]. rewrite NumShortestPathsChanges_go_eq in E.
  destruct (map_nodes_Ok _ _ _ _ E) as [Hlen Hnodes]. split; [exact Hlen|].
  intros v d Hv. destruct (Hnodes v d Hv) as (d' & Hd' & Hl). exists d'.
  split; [exact Hl|]. eapply NumShortestPathsChanges_node_token, Hd'.
Qed.

Lemma do_all_alter_seq (f : NodeData → NodeData) :
  ∀ n a (st : State) v,
    do_all (λ src st, alter f src st) (seq a n) st !! v
    = if decide (a ≤ v < a + n)%nat then f <$> st !! v else st !! v.
Proof.
  induction n as [|n IH]; intros a st v.
  - cbn. destruct (decide _); [lia|reflexivity].
  - cbn [seq]. rewrite do_all_cons, IH.
    destruct (decide (v = a)) as [->|Hne].
    + rewrite list_lookup_alter_eq.
      destruct (decide (S a ≤ a < S a + n)%nat); [lia|].
      destruct (decide (a ≤ a < a + S n)%nat); [reflexivity|lia].
    + rewrite list_lookup_alter_ne by congruence.
      destruct (decide (S a ≤ v < S a + n)%nat),
        (decide (a ≤ v < a + S n)%nat); try reflexivity; lia.
Qed.

Lemma DependencyPropChanges_node_token local_infinity d :
  let d' := DependencyPropChanges_node local_infinity d in
  d' = set_dep_prop_flag (dep_prop_flag d')
         (set_propogation_flag (propogation_flag d') d)
  ∧ (dep_prop_flag d = true → d' = d)
  ∧ (propogation_flag d = true → propogation_flag d' = true)
  ∧ (propogation_flag d = false → propogation_flag d' = true →
     current_length d ≠ local_infinity ∧ num_successors d = 0
     ∧ dep_prop_flag d = false ∧ dep_prop_flag d' = true).
Proof.
  unfold DependencyPropChanges_node.
  destruct (current_length d =? local_infinity) eqn:Hi,
    (num_successors d =? 0) eqn:Hs, (dep_prop_flag d) eqn:Hf,
    (propogation_flag d) eqn:Hp; cbn; rewrite ?Hp, ?Hf;
    try apply N.eqb_neq in Hi; try apply N.eqb_eq in Hs;
    (split; [destruct d; cbn in *; subst; reflexivity|]);
    repeat split; try assumption; try discriminate; try reflexivity.
Qed.

(** X9: the token of the delta phase.  [DependencyPropChanges::go] runs
    over the vertices with edges only and leaves every other record as
    it is; on a record it visits it changes nothing but the two flags,
    leaves a record whose [dep_prop_flag] is set as it is, never takes a
    token away, and gives the token only to a reached vertex with
    [num_successors == 0] whose [dep_prop_flag] was clear, setting the
    flag with it. *)
Theorem DependencyPropChanges_go_token (g : Graph) (st : State) :
  length (DependencyPropChanges_go g st) = length st
  ∧ ∀ v d, st !! v = Some d →
      ∃ d', DependencyPropChanges_go g st !! v = Some d'
        ∧ ((numNodesWithEdges g ≤ v)%nat → d' = d)
        ∧ d' = set_dep_prop_flag (dep_prop_flag d')
                 (set_propogation_flag (propogation_flag d') d)
        ∧ (dep_prop_flag d = true → d' = d)
        ∧ (propogation_flag d = true → propogation_flag d' = true)
        ∧ (propogation_flag d = false → propogation_flag d' = true →
           (v < numNodesWithEdges g)%nat
           ∧ current_length d ≠ infinity ∧ num_successors d = 0
           ∧ dep_prop_flag d = false ∧ dep_prop_flag d' = true).
Proof.
  split.
  - apply (frame_length (λ _, ())). unfold DependencyPropChanges_go.
    apply frame_do_all. intros src s. apply frame_alter. reflexivity.
  - intros v d Hv. unfold DependencyPropChanges_go, allNodesWithEdgesRange.
    change (DependencyPropChanges_op infinity)
      with (λ (src : nat) (st : State),
              alter (DependencyPropChanges_node infinity) src st).
    rewrite do_all_alter_seq, Hv.
    destruct (decide (0 ≤ v < 0 + numNodesWithEdges g)%nat) as [Hin|Hout].
    + exists (DependencyPropChanges_node infinity d). split; [reflexivity|].
      split; [lia|].
      destruct (DependencyPropChanges_node_token infinity d)
        as (H1 & H2 & H3 & H4).
      split; [exact H1|]. split; [exact H2|]. split; [exact H3|].
      intros Hp Hp'. split; [lia|]. apply H4; assumption.
    + exists d. split; [reflexivity|]. split; [reflexivity|].
      split; [destruct d; reflexivity|]. split; [reflexivity|].
      split; [intros H; exact H|]. intros Hp Hp'. congruence.
Qed.

Lemma NSPTrim_go_eq st : NSPTrim_go st = NSPTrim_node <$> st.
Proof. apply do_all_alter_all. Qed.

Lemma NSPAdd_go_eq st : NSPAdd_go st = NSPAdd_node <$> st.
Proof. apply do_all_alter_all. Qed.

Lemma NSPTrim_node_drained d :
  trim (NSPTrim_node d) = 0
  ∧ num_predecessors (NSPTrim_node d)
    = (if 0 <? trim d then U32.sub (num_predecessors d) (trim d)
       else num_predecessors d).
Proof.
  unfold NSPTrim_node. destruct (0 <? trim d) eqn:E; cbn; [auto|].
  apply N.ltb_ge in E. split; [lia|reflexivity].
Qed.

Lemma NSPAdd_node_drained d :
  to_add (NSPAdd_node d) = 0 ∧ trim (NSPAdd_node d) = trim d
  ∧ num_shortest_paths (NSPAdd_node d)
    = (if 0 <? to_add d then U32.add (num_shortest_paths d) (to_add d)
       else num_shortest_paths d).
Proof.
  unfold NSPAdd_node. destruct (0 <? to_add d) eqn:E; cbn; [auto|].
  apply N.ltb_ge in E. split; [lia|]. split; reflexivity.
Qed.

Lemma NumShortestPaths_round_buffers g st st' a :
  NumShortestPaths_round g st = Ok (st', a) →
  Forall (λ d, trim d = 0 ∧ to_add d = 0) st'.
Proof.
  unfold NumShortestPaths_round.
  destruct (do_all (NumShortestPaths_op g infinity) _ (st, 0)) as [s1 a1].
  destruct (NumShortestPathsChanges_go (NSPAdd_go (NSPTrim_go s1))) as [s2|] eqn:E;
    [|discriminate].
  cbn [mbind res_bind]. intros H. inversion H; subst.
  rewrite NumShortestPathsChanges_go_eq in E.
  destruct (map_nodes_Ok _ _ _ _ E) as [Hlen Hnodes].
  apply Forall_lookup. intros v d' Hv.
  destruct (lookup_lt_is_Some_2 (NSPAdd_go (NSPTrim_go s1)) v) as [d Hd].
  { rewrite <- Hlen. eapply lookup_lt_Some, Hv. }
  destruct (Hnodes v d Hd) as (d2 & Hd2 & Hl). rewrite Hv in Hl.
  inversion Hl; subst d2.
  destruct (NumShortestPathsChanges_node_token _ _ _ Hd2) as [Heq _].
  rewrite Heq. cbn [trim to_add set_num_short_paths_flag set_propogation_flag].
  rewrite NSPAdd_go_eq, NSPTrim_go_eq, !list_lookup_fmap in Hd.
  destruct (s1 !! v) as [d1|]; [|discriminate]. cbn in Hd. inversion Hd.
  destruct (NSPAdd_node_drained (NSPTrim_node d1)) as (Ha1 & Ha2 & _).
  destruct (NSPTrim_node_drained d1) as (Ha3 & _). split; congruence.
Qed.

(** X10: [NSPTrim] and [NSPAdd] drain the two integer buffers of the
    sigma phase: after every round of [NumShortestPaths::go], and so
    when the loop returns, [trim == 0] and [to_add == 0] at every
    vertex.  A pass of [NSPTrim::go] lowers [num_predecessors] by [trim]
    and a pass of [NSPAdd::go] raises [num_shortest_paths] by [to_add],
    both modulo 2^32, where the buffer is nonzero. *)
Theorem NumShortestPaths_go_drains_buffers
    (fuel : nat) (g : Graph) (st st' : State) (n : N) :
  NumShortestPaths_go fuel g st = Some (Ok (st', n)) →
  Forall (λ d, trim d = 0 ∧ to_add d = 0) st'
  ∧ (∀ v d, st !! v = Some d →
       ∃ d', NSPTrim_go st !! v = Some d' ∧ trim d' = 0
         ∧ num_predecessors d'
           = if 0 <? trim d then U32.sub (num_predecessors d) (trim d)
             else num_predecessors d)
  ∧ (∀ v d, st !! v = Some d →
       ∃ d', NSPAdd_go st !! v = Some d' ∧ to_add d' = 0
         ∧ num_shortest_paths d'
           = if 0 <? to_add d then U32.add (num_shortest_paths d) (to_add d)
             else num_shortest_paths d).
Proof.
  intros H. split; [|split].
  - unfold NumShortestPaths_go in H. apply do_while_accum_last in H as [sp Hsp].
    eapply NumShortestPaths_round_buffers, Hsp.
  - intros v d Hv. exists (NSPTrim_node d).
    rewrite NSPTrim_go_eq, list_lookup_fmap, Hv.
    split; [reflexivity|]. apply NSPTrim_node_drained.
  - intros v d Hv. exists (NSPAdd_node d).
    rewrite NSPAdd_go_eq, list_lookup_fmap, Hv.
    split; [reflexivity|].
    destruct (NSPAdd_node_drained d) as (H1 & _ & H3). auto.
Qed.

Lemma NumShortestPaths_go_drains_buffers_witness :
  Forall (λ d, trim d = 0 ∧ to_add d = 0) kite_sigma
  ∧ (∀ v d, kite_counted !! v = Some d →
       ∃ d', NSPTrim_go kite_counted !! v = Some d' ∧ trim d' = 0
         ∧ num_predecessors d'
           = if 0 <? trim d then U32.sub (num_predecessors d) (trim d)
             else num_predecessors d)
  ∧ (∀ v d, kite_counted !! v = Some d →
       ∃ d', NSPAdd_go kite_counted !! v = Some d' ∧ to_add d' = 0
         ∧ num_shortest_paths d'
           = if 0 <? to_add d then U32.add (num_shortest_paths d) (to_add d)
             else num_shortest_paths d).
Proof.
  apply (NumShortestPaths_go_drains_buffers 10 kite kite_counted kite_sigma 4).
  vm_compute. reflexivity.
Defined.

Lemma DPAdd_node_drained d :
  F32.ltb F32.zero (to_add_float (DPAdd_node d)) = false.
Proof.
  unfold DPAdd_node. destruct (F32.ltb F32.zero (to_add_float d)) eqn:E;
    [reflexivity|exact E].
Qed.

Lemma DependencyPropogation_round_buffer g cur st st' a :
  DependencyPropogation_round g cur st = Ok (st', a) →
  Forall (λ d, F32.ltb F32.zero (to_add_float d) = false) st'.
Proof.
  unfold DependencyPropogation_round.
  destruct (for_each _ _ (st, 0)) as [[s1 a1]|]; [|discriminate].
  cbn [mbind res_bind]. intros H. inversion H; subst.
  assert (Hf : to_add_float <$> DependencyPropChanges_go g (DPAdd_go (DPTrim_go s1))
               = to_add_float <$> DPAdd_go (DPTrim_go s1)).
  { apply DependencyPropChanges_go_frame. repeat split. }
  apply Forall_lookup. intros v d' Hv.
  destruct (frame_lookup to_add_float _ _ v d' (eq_sym Hf) Hv) as (d & Hd & Heq).
  rewrite <- Heq. rewrite DPAdd_go_eq, list_lookup_fmap in Hd.
  destruct (DPTrim_go s1 !! v) as [d1|]; [|discriminate]. cbn in Hd.
  inversion Hd. apply DPAdd_node_drained.
Qed.

(** X11: [DPAdd] drains the float buffer of the delta phase: after every
    round of [DependencyPropogation::go], and so when the loop returns,
    no vertex has [to_add_float > 0]. *)
Theorem DependencyPropogation_go_drains_to_add_float
    (fuel : nat) (g : Graph) (current_src_node : N) (st st' : State) (n : N) :
  DependencyPropogation_go fuel g current_src_node st = Some (Ok (st', n)) →
  Forall (λ d, F32.ltb F32.zero (to_add_float d) = false) st'.
Proof.
  intros H. unfold DependencyPropogation_go in H.
  apply do_while_accum_last in H as [sp Hsp].
  eapply DependencyPropogation_round_buffer, Hsp.
Qed.

Lemma DependencyPropogation_go_drains_to_add_float_witness :
  Forall (λ d, F32.ltb F32.zero (to_add_float d) = false) kite_delta.
Proof.
  apply (DependencyPropogation_go_drains_to_add_float 10 kite 0 kite_sigma
           kite_delta 3).
  vm_compute. reflexivity.
Defined.

(** ** DependencyPropogation on one vertex *)

Lemma on_dag_irrefl d : on_dag d d = false.
Proof.
  unfold on_dag. apply N.eqb_neq. unfold U32.add, U32.wrap. intros H.
  assert (Hm : U32.modulus ≠ 0) by discriminate.
  assert (H1 : 1 < U32.modulus) by reflexivity.
  pose proof (N.mod_lt (current_length d + 1) U32.modulus Hm) as Hlt.
  rewrite H in Hlt.
  destruct (N.eq_dec (current_length d + 1) U32.modulus) as [E|E].
  - rewrite E, N.Div0.mod_same in H. lia.
  - rewrite N.mod_small in H by lia. lia.
Qed.

Lemma delta_done_eq d :
  (let d1 := set_propogation_flag false d in
   if negb (dep_prop_flag d1) then set_dep_prop_flag true d1 else d1)
  = delta_done d.
Proof.
  cbv zeta. cbn [dep_prop_flag set_propogation_flag]. unfold delta_done.
  destruct (dep_prop_flag d) eqn:E; cbn [negb]; [|reflexivity].
  destruct d; cbn in *; subst; reflexivity.
Qed.

Section DeltaEdges.
Variables (g : Graph) (cur : N) (src : nat) (st0 : State) (ds : NodeData).
Hypothesis Hsrc : st0 !! src = Some ds.

Lemma delta_reads_src st :
  delta_reads st0 st →
  ∃ ds', st !! src = Some ds'
    ∧ current_length ds' = current_length ds
    ∧ num_shortest_paths ds' = num_shortest_paths ds
    ∧ dependency ds' = dependency ds.
Proof.
  intros (H1 & H2 & H3).
  destruct (frame_lookup current_length st0 st src ds H1 Hsrc) as (d1 & E1 & P1).
  destruct (frame_lookup num_shortest_paths st0 st src ds H2 Hsrc) as (d2 & E2 & P2).
  destruct (frame_lookup dependency st0 st src ds H3 Hsrc) as (d3 & E3 & P3).
  exists d1. rewrite E1 in E2, E3. inversion E2; inversion E3; subst. auto.
Qed.

Lemma delta_reads_bump st t sigma dep :
  delta_reads st0 st → delta_reads st0 (alter (delta_bump sigma dep) t st).
Proof.
  intros (H1 & H2 & H3). unfold delta_reads.
  rewrite !frame_alter; [auto|reflexivity..].
Qed.

Lemma DependencyPropogation_edge_eq st accum t dep :
  delta_reads st0 st → F32.to_u32 (dependency ds) = Some dep →
  DependencyPropogation_edge g cur src t (st, accum)
  = if negb (getGID g t =? cur) && dag_edge st0 src t
    then Ok (alter (delta_bump (num_shortest_paths ds) dep) t st, U32.add accum 1)
    else Ok (st, accum).
Proof.
  intros Hr Hdep. unfold DependencyPropogation_edge.
  destruct (getGID g t =? cur); [reflexivity|]. cbn [negb andb].
  destruct (delta_reads_src st Hr) as (ds' & Es & Hd & Hs & Hp).
  rewrite (dag_edge_dists st st0 src t) by (symmetry; apply Hr).
  unfold dag_edge. rewrite Es.
  destruct (st !! t) as [dt|] eqn:Et; [|reflexivity].
  rewrite Hp, Hdep. unfold on_dag.
  destruct (U32.add (current_length dt) 1 =? current_length ds'); [|reflexivity].
  rewrite (alter_lookup_insert (delta_bump (num_shortest_paths ds) dep) st t dt Et).
  rewrite Hs. reflexivity.
Qed.

Lemma DependencyPropogation_edges dep (edges : list nat) :
  F32.to_u32 (dependency ds) = Some dep →
  ∀ st accum, delta_reads st0 st →
    let T := filter (λ t, negb (getGID g t =? cur) && dag_edge st0 src t = true)
               edges in
    ∃ accum',
      for_each (DependencyPropogation_edge g cur src) edges (st, accum)
      = Ok (do_all (λ t st, alter (delta_bump (num_shortest_paths ds) dep) t st) T st,
            accum')
      ∧ (accum < U32.modulus → accum' = U32.wrap (accum + N.of_nat (length T))).
Proof.
  intros Hdep. induction edges as [|t edges IH]; intros st accum Hr.
  - exists accum. split; [reflexivity|]. intros Ha. cbn.
    rewrite N.add_0_r, U32_wrap_small; [reflexivity|exact Ha].
  - cbv zeta. rewrite for_each_cons, (DependencyPropogation_edge_eq st accum t dep Hr Hdep).
    rewrite filter_cons.
    destruct (negb (getGID g t =? cur) && dag_edge st0 src t) eqn:Hq.
    + destruct (decide (true = true)) as [_|]; [|congruence].
      cbn [mbind res_bind].
      destruct (IH _ (U32.add accum 1)
                  (delta_reads_bump st t (num_shortest_paths ds) dep Hr))
        as (a' & Hloop & Ha').
      exists a'. rewrite Hloop. split; [reflexivity|]. intros _.
      rewrite Ha' by apply U32_add_lt. cbn [length]. unfold U32.add.
      rewrite U32_wrap_add_l. f_equal. lia.
    + destruct (decide (false = true)) as [|_]; [congruence|].
      cbn [mbind res_bind]. apply IH, Hr.
Qed.

Lemma DependencyPropogation_edges_undefined (edges : list nat) :
  F32.to_u32 (dependency ds) = None →
  ∀ accum,
    for_each (DependencyPropogation_edge g cur src) edges (st0, accum)
    = if existsb (reads_dependency g cur st0) edges
      then Fault UndefinedBehaviour else Ok (st0, accum).
Proof.
  intros Hdep. induction edges as [|t edges IH]; intros accum; [reflexivity|].
  rewrite for_each_cons. cbn [existsb]. unfold reads_dependency at 1.
  unfold DependencyPropogation_edge.
  destruct (getGID g t =? cur); cbn [negb andb orb mbind res_bind]; [apply IH|].
  rewrite Hsrc. destruct (st0 !! t) as [dt|] eqn:Et.
  - rewrite Hdep. rewrite bool_decide_eq_true_2 by eauto. reflexivity.
  - rewrite bool_decide_eq_false_2 by (intros [x Hx]; discriminate).
    cbn [orb mbind res_bind]. apply IH.
Qed.
End DeltaEdges.

Lemma not_in_delta_targets g cur st src : src ∉ delta_targets g cur st src.
Proof.
  unfold delta_targets. intros Hin. apply list_elem_of_filter in Hin as [Hq _].
  apply andb_true_iff in Hq as [_ Hd]. unfold dag_edge in Hd.
  destruct (st !! src) as [d|]; [|discriminate].
  rewrite on_dag_irrefl in Hd. discriminate.
Qed.

Lemma do_all_alter_other (f : NodeData → NodeData) (T : list nat) v :
  v ∉ T → ∀ st : State, do_all (λ t st, alter f t st) T st !! v = st !! v.
Proof.
  induction T as [|t T IH]; intros Hv st; [reflexivity|].
  rewrite do_all_cons, IH by (intros H; apply Hv; right; exact H).
  apply list_lookup_alter_ne. intros ->. apply Hv. left.
Qed.

(** X12: what [DependencyPropogation::operator()] does at a vertex [s]
    that is reached, holds the token and has no successor left, when its
    dependency converts to the unsigned [dep]: along every out-edge to a
    destination [t] that is not the current source and has
    [dist(t) + 1 == dist(s)], [trim2(t)] grows by one and
    [to_add_float(t)] by
    [((float)sigma(t) / (float)sigma(s)) * (float)(1.0 + dep)]; the
    accumulator grows by the number of these edges; the token of [s] is
    cleared and its [dep_prop_flag] set; nothing else changes. *)
Theorem DependencyPropogation_op_spec
    (g : Graph) (current_src_node : N) (src : nat) (st : State) (accum : N)
    (src_data : NodeData) (dep : N) :
  st !! src = Some src_data →
  current_length src_data ≠ infinity →
  propogation_flag src_data = true →
  num_successors src_data = 0 →
  F32.to_u32 (dependency src_data) = Some dep →
  accum < U32.modulus →
  let T := delta_targets g current_src_node st src in
  DependencyPropogation_op g infinity current_src_node src (st, accum)
  = Ok (alter delta_done src
          (do_all (λ t st, alter (delta_bump (num_shortest_paths src_data) dep) t st)
             T st),
        U32.wrap (accum + N.of_nat (length T))).
Proof.
  intros Hs Hinf Hp Hn Hdep Ha T. unfold DependencyPropogation_op. cbn [fst].
  rewrite Hs. apply N.eqb_neq in Hinf. rewrite Hinf, Hp, Hn.
  cbn [negb N.eqb mbind res_bind].
  destruct (DependencyPropogation_edges g current_src_node src st src_data Hs dep
              (edge_dsts g src) Hdep st accum) as (a' & Hloop & Ha').
  { repeat split. }
  rewrite Hloop. cbn [mbind res_bind]. fold (delta_targets g current_src_node st src).
  fold T. rewrite (Ha' Ha).
  rewrite (do_all_alter_other _ T src (not_in_delta_targets g _ st src)), Hs.
  rewrite delta_done_eq.
  rewrite <- (alter_lookup_insert delta_done); [reflexivity|].
  rewrite (do_all_alter_other _ T src (not_in_delta_targets g _ st src)). exact Hs.
Qed.

Lemma DependencyPropogation_op_spec_witness :
  let T := delta_targets kite 0 kite_round1 1 in
  DependencyPropogation_op kite infinity 0 1 (kite_round1, 0)
  = Ok (alter delta_done 1%nat
          (do_all
             (λ t st,
                alter (delta_bump (num_shortest_paths kite_round1_gid2) 0) t st)
             T kite_round1),
        U32.wrap (0 + N.of_nat (length T))).
Proof.
  apply (DependencyPropogation_op_spec kite 0 1 kite_round1 0 kite_round1_gid2 0);
    vm_compute; first [reflexivity|discriminate].
Defined.

(** X13: the two ways [DependencyPropogation::operator()] can fail at a
    vertex with a record.  A vertex that is unreached or holds no token
    is left alone.  The assertion fails exactly when a reached token
    holder still has [num_successors != 0].  Otherwise the only
    undefined step is the conversion [uint32_t dep =
    src_data.dependency], which is evaluated on every out-edge whose
    destination is not the current source: the operator has no defined
    result exactly when the dependency does not convert (a NaN, an
    infinity, a value of -1 or less, or one of 2^32 or more; a value
    strictly between -1 and 0 truncates to 0 and converts) and there is
    such an edge. *)
Theorem DependencyPropogation_op_faults
    (g : Graph) (current_src_node : N) (src : nat) (st : State) (accum : N)
    (src_data : NodeData) :
  st !! src = Some src_data →
  let r := DependencyPropogation_op g infinity current_src_node src (st, accum) in
  let active :=
    negb (current_length src_data =? infinity) && propogation_flag src_data in
  (active = false → r = Ok (st, accum))
  ∧ (r = Fault AssertionFailure
     ↔ active = true ∧ num_successors src_data ≠ 0)
  ∧ (r = Fault UndefinedBehaviour
     ↔ active = true ∧ num_successors src_data = 0
       ∧ F32.to_u32 (dependency src_data) = None
       ∧ ∃ t, t ∈ edge_dsts g src ∧ getGID g t ≠ current_src_node
              ∧ is_Some (st !! t)).
Proof.
  intros Hs r active. subst r active. unfold DependencyPropogation_op. cbn [fst].
  rewrite Hs.
  destruct (negb (current_length src_data =? infinity)) eqn:Hi;
    cbn [andb]; cbv iota.
  2: { split; [reflexivity|]. split; split; try discriminate;
       intros [? _]; discriminate. }
  destruct (propogation_flag src_data) eqn:Hp; cbv iota.
  2: { split; [reflexivity|]. split; split; try discriminate;
       intros [? _]; discriminate. }
  split; [discriminate|].
  destruct (num_successors src_data =? 0) eqn:Hn; cbn [negb assert mbind res_bind].
  2: { apply N.eqb_neq in Hn. split; split; try discriminate; auto.
       intros (_ & Hz & _). contradiction. }
  apply N.eqb_eq in Hn.
  destruct (F32.to_u32 (dependency src_data)) as [dep|] eqn:Hdep.
  - destruct (DependencyPropogation_edges g current_src_node src st src_data Hs dep
                (edge_dsts g src) Hdep st accum) as (a' & Hloop & _).
    { repeat split. }
    rewrite Hloop. cbn [mbind res_bind]. cbv beta iota.
    destruct (do_all _ _ st !! src); split; split; try discriminate;
      intros (_ & H); try contradiction; destruct H as (_ & H & _); discriminate.
  - rewrite (DependencyPropogation_edges_undefined g current_src_node src st
               src_data Hs (edge_dsts g src) Hdep accum).
    destruct (existsb (reads_dependency g current_src_node st) (edge_dsts g src))
      eqn:Hex; cbn [mbind res_bind].
    + split; [split; [discriminate|intros [_ Hz]; contradiction]|].
      split; [intros _|reflexivity].
      split; [reflexivity|]. split; [exact Hn|]. split; [reflexivity|].
      apply existsb_exists in Hex as (t & Hin & Hr). exists t.
      unfold reads_dependency in Hr. apply andb_true_iff in Hr as [Hg Hl].
      split; [apply list_elem_of_In, Hin|]. split.
      * apply negb_true_iff, N.eqb_neq in Hg. exact Hg.
      * apply bool_decide_eq_true in Hl. exact Hl.
    + rewrite Hs. split; split; try discriminate.
      * intros [_ Hz]. contradiction.
      * intros (_ & _ & _ & t & Hin & Hg & Hl).
        assert (Hex' : existsb (reads_dependency g current_src_node st)
                         (edge_dsts g src) = true).
        { apply existsb_exists. exists t. split; [apply list_elem_of_In, Hin|].
          unfold reads_dependency. apply andb_true_iff. split.
          - apply negb_true_iff, N.eqb_neq. exact Hg.
          - apply bool_decide_eq_true. exact Hl. }
        congruence.
Qed.

Lemma DependencyPropogation_op_faults_witness :
  let r := DependencyPropogation_op kite infinity 0 1 (kite_round1, 0) in
  let active :=
    negb (current_length kite_round1_gid2 =? infinity)
    && propogation_flag kite_round1_gid2 in
  (active = false → r = Ok (kite_round1, 0))
  ∧ (r = Fault AssertionFailure
     ↔ active = true ∧ num_successors kite_round1_gid2 ≠ 0)
  ∧ (r = Fault UndefinedBehaviour
     ↔ active = true ∧ num_successors kite_round1_gid2 = 0
       ∧ F32.to_u32 (dependency kite_round1_gid2) = None
       ∧ ∃ t, t ∈ edge_dsts kite 1 ∧ getGID kite t ≠ 0
              ∧ is_Some (kite_round1 !! t)).
Proof.
  apply (DependencyPropogation_op_faults kite 0 1 kite_round1 0 kite_round1_gid2).
  reflexivity.
Defined.

(** ** InitializeGraph and the reset *)

Lemma map_nodes_after f1 f2 :
  (∀ v d d1, f1 v d = Ok d1 → f2 v d1 = f2 v d) →
  ∀ st k s1, map_nodes f1 k st = Ok s1 → map_nodes f2 k s1 = map_nodes f2 k st.
Proof.
  intros Hf. induction st as [|d st IH]; intros k s1 H.
  - inversion H. reflexivity.
  - cbn [map_nodes] in H. destruct (f1 k d) as [d1|] eqn:E1; [|discriminate].
    cbn [mbind res_bind] in H.
    destruct (map_nodes f1 (S k) st) as [r|] eqn:Er; [|discriminate].
    cbn [mbind res_bind] in H. inversion H; subst s1. cbn [map_nodes].
    rewrite (Hf _ _ _ E1), (IH _ _ Er). reflexivity.
Qed.

(** X14: [InitializeGraph::go] sets [betweeness_centrality],
    [num_shortest_paths], [num_successors], [num_predecessors] and
    [dependency] to zero and clears [propogation_flag] at every vertex,
    and leaves the other seven fields, which it does not initialise, as
    it found them; a second pass changes nothing; and the reset of the
    first source that follows it in [main] passes its assertions
    whatever the memory held. *)
Theorem InitializeGraph_go_spec (g : Graph) (current_src_node : N) (st : State) :
  length (InitializeGraph_go st) = length st
  ∧ (∀ v d, st !! v = Some d →
       ∃ d', InitializeGraph_go st !! v = Some d'
         ∧ betweeness_centrality d' = F32.zero
         ∧ num_shortest_paths d' = 0
         ∧ num_successors d' = 0
         ∧ num_predecessors d' = 0
         ∧ dependency d' = F32.zero
         ∧ propogation_flag d' = false
         ∧ current_length d' = current_length d
         ∧ trim d' = trim d ∧ to_add d' = to_add d
         ∧ trim2 d' = trim2 d ∧ to_add_float d' = to_add_float d
         ∧ num_short_paths_flag d' = num_short_paths_flag d
         ∧ dep_prop_flag d' = dep_prop_flag d)
  ∧ InitializeGraph_go (InitializeGraph_go st) = InitializeGraph_go st
  ∧ ∃ st', InitializeIteration_go g current_src_node (InitializeGraph_go st)
           = Ok st'.
Proof.
  rewrite !InitializeGraph_go_eq. split; [apply length_fmap|]. split; [|split].
  - intros v d Hv. exists (InitializeGraph_node d).
    rewrite list_lookup_fmap, Hv. repeat split.
  - rewrite <- list_fmap_compose. apply list_fmap_ext. intros i d _. reflexivity.
  - rewrite InitializeIteration_go_eq. apply map_nodes_total.
    intros v d' Hv. rewrite list_lookup_fmap in Hv.
    destruct (st !! v) as [d|]; [|discriminate]. inversion Hv; subst d'.
    rewrite InitializeIteration_node_eq. cbn. eauto.
Qed.

(** X15: the reset does not remember the previous source.  After a
    completed [InitializeIteration::go] for one source, the reset for
    any source gives what it would have given on the array before, and
    repeating the reset for the same source changes nothing. *)
Theorem InitializeIteration_go_forgets_source
    (g : Graph) (first next : N) (st st1 : State) :
  InitializeIteration_go g first st = Ok st1 →
  InitializeIteration_go g next st1 = InitializeIteration_go g next st
  ∧ InitializeIteration_go g first st1 = Ok st1.
Proof.
  intros H.
  assert (Hany : ∀ c, InitializeIteration_go g c st1 = InitializeIteration_go g c st).
  { intros c. rewrite !InitializeIteration_go_eq.
    rewrite InitializeIteration_go_eq in H.
    refine (map_nodes_after _ _ _ st 0%nat st1 H).
    intros v d d1 Hd. rewrite InitializeIteration_node_eq in Hd.
    destruct (num_predecessors d =? 0) eqn:E; [|discriminate].
    inversion Hd; subst d1. rewrite !InitializeIteration_node_eq.
    cbn [num_predecessors reset_node]. rewrite E. reflexivity. }
  split; [apply Hany|]. rewrite Hany. exact H.
Qed.

Lemma InitializeIteration_go_forgets_source_witness :
  InitializeIteration_go chain3 0 chain3_reset
  = InitializeIteration_go chain3 0 [zero_node; zero_node; zero_node]
  ∧ InitializeIteration_go chain3 2 chain3_reset = Ok chain3_reset.
Proof.
  apply (InitializeIteration_go_forgets_source chain3 2 0
           [zero_node; zero_node; zero_node] chain3_reset).
  reflexivity.
Defined.

(** ** PredAndSucc and the vertices off the DAG *)

Lemma do_all_count_edge_other (E : list (nat * nat)) v :
  Forall (λ e, e.1 ≠ v ∧ e.2 ≠ v) E →
  ∀ st : State, do_all count_edge E st !! v = st !! v.
Proof.
  induction E as [|e E IH]; intros HE st; [reflexivity|].
  apply Forall_cons in HE as [[H1 H2] HE].
  rewrite do_all_cons, (IH HE). unfold count_edge.
  rewrite !list_lookup_alter_ne by assumption. reflexivity.
Qed.

(** X16: the edges [PredAndSucc] counts go from a reached vertex to a
    reached vertex that is strictly nearer to the source, so none of
    them is a self-loop and they form no cycle; and the superstep leaves
    the record of every unreached vertex exactly as it was.  Distances
    are those of a BFS: none is above [infinity]. *)
Theorem PredAndSucc_go_only_reached (g : Graph) (st : State) :
  Forall (λ d, current_length d ≤ infinity) st →
  (∀ s t, (s, t) ∈ dag_edges g st →
     ∃ src_data dst_data,
       st !! s = Some src_data ∧ st !! t = Some dst_data
       ∧ current_length dst_data < current_length src_data
       ∧ current_length src_data < infinity
       ∧ s ≠ t)
  ∧ ∀ v d, st !! v = Some d → current_length d = infinity →
      PredAndSucc_go g st !! v = Some d.
Proof.
  intros Hb.
  assert (Hedges : ∀ s t, (s, t) ∈ dag_edges g st →
            ∃ src_data dst_data,
              st !! s = Some src_data ∧ st !! t = Some dst_data
              ∧ current_length dst_data < current_length src_data
              ∧ current_length src_data < infinity ∧ s ≠ t).
  { intros s t He.
    apply elem_of_dag_edges in He as (_ & _ & ds & dt & Es & Et & Hinf & Hd).
    rewrite Forall_lookup in Hb.
    pose proof (Hb s ds Es) as Hs. pose proof (Hb t dt Et) as Ht.
    assert (Hadd : U32.add (current_length dt) 1 = current_length dt + 1).
    { rewrite <- (U32_add_1_small _ Ht). unfold U32.add. f_equal. lia. }
    rewrite Hadd in Hd. exists ds, dt. split; [exact Es|]. split; [exact Et|].
    split; [lia|]. split; [lia|]. intros ->. rewrite Es in Et.
    inversion Et; subst. lia. }
  split; [exact Hedges|]. intros v d Hv Hinf.
  rewrite PredAndSucc_go_eq, do_all_count_edge_other; [exact Hv|].
  apply Forall_forall. intros [s t] He.
  destruct (Hedges s t He) as (ds & dt & Es & Et & Hlt & Hs & _).
  cbn [fst snd]. split; intros ->; rewrite Hv in *.
  - inversion Es; subst. lia.
  - inversion Et; subst. lia.
Qed.

Lemma PredAndSucc_go_only_reached_witness :
  (∀ s t, (s, t) ∈ dag_edges kite kite_bfs →
     ∃ src_data dst_data,
       kite_bfs !! s = Some src_data ∧ kite_bfs !! t = Some dst_data
       ∧ current_length dst_data < current_length src_data
       ∧ current_length src_data < infinity
       ∧ s ≠ t)
  ∧ ∀ v d, kite_bfs !! v = Some d → current_length d = infinity →
      PredAndSucc_go kite kite_bfs !! v = Some d.
Proof.
  apply (PredAndSucc_go_only_reached kite kite_bfs).
  repeat constructor; vm_compute; discriminate.
Defined.

(** ** BC::go: the sources it visits *)

Lemma BC_loop_trace_single fuel cfg g :
  singleSourceBC cfg = true →
  ∀ rounds i it st tr st' tr',
    BC_loop fuel cfg g rounds i it (st, tr) = Some (Ok (st', tr')) →
    tr' = tr ++ replicate rounds (startSource cfg).
Proof.
  intros Hs. induction rounds as [|rounds IH]; intros i it st tr st' tr' H.
  - inversion H; subst. cbn. rewrite app_nil_r. reflexivity.
  - cbn [BC_loop] in H. unfold next_source in H. rewrite Hs in H.
    unfold and_then in H. cbn [fst snd] in H.
    destruct (BC_iteration fuel g (startSource cfg) st) as [[s1|]|];
      try discriminate.
    apply IH in H as ->. cbn [replicate]. rewrite <- app_assoc. reflexivity.
Qed.

Lemma BC_loop_trace_all fuel cfg g :
  singleSourceBC cfg = false → use_random cfg = false →
  ∀ rounds i it st tr st' tr',
    BC_loop fuel cfg g rounds i it (st, tr) = Some (Ok (st', tr')) →
    i + N.of_nat rounds ≤ U64.modulus →
    tr' = tr ++ (N.of_nat <$> seq (N.to_nat i) rounds).
Proof.
  intros Hs Hr. induction rounds as [|rounds IH]; intros i it st tr st' tr' H Hi.
  - inversion H; subst. cbn. rewrite app_nil_r. reflexivity.
  - cbn [BC_loop] in H. unfold next_source in H. rewrite Hs, Hr in H.
    unfold and_then in H. cbn [fst snd] in H.
    destruct (BC_iteration fuel g i st) as [[s1|]|]; try discriminate.
    cbn [seq fmap list_fmap]. rewrite N2Nat.id.
    destruct rounds as [|rounds].
    + inversion H; subst. reflexivity.
    + assert (Hw : U64.wrap (i + 1) = i + 1).
      { unfold U64.wrap. apply N.mod_small. lia. }
      rewrite Hw in H. apply IH in H; [|lia]. rewrite H, <- app_assoc.
      replace (N.to_nat (i + 1)) with (S (N.to_nat i)) by lia. reflexivity.
Qed.

(** X17: the sources [BC::go] visits, when it returns.  With
    [singleSourceBC] it runs one iteration, for [startSource]; with
    neither option it runs one iteration for each of the global ids
    [0, 1, ..., totalNodes - 1] in this order; with [numberOfSources]
    set it reads that many elements from the front of [random_sources],
    which must hold at least as many. *)
Theorem BC_go_sources
    (fuel : nat) (cfg : Config) (g : Graph) (random_sources : list N)
    (st st' : State) (visited : list N) :
  totalNodes g < U64.modulus →
  BC_go fuel cfg g random_sources st = Some (Ok (st', visited)) →
  (singleSourceBC cfg = true → visited = [startSource cfg])
  ∧ (singleSourceBC cfg = false → numberOfSources cfg = 0 →
     visited = N.of_nat <$> seq 0 (N.to_nat (totalNodes g)))
  ∧ (singleSourceBC cfg = false → numberOfSources cfg ≠ 0 →
     visited = take (N.to_nat (numberOfSources cfg)) random_sources
     ∧ (N.to_nat (numberOfSources cfg) ≤ length random_sources)%nat).
Proof.
  intros Ht H. unfold BC_go in H. split; [|split].
  - intros Hs. apply (BC_loop_trace_single _ _ _ Hs) in H.
    unfold loop_end in H. rewrite Hs in H. exact H.
  - intros Hs Hn.
    assert (Hr : use_random cfg = false).
    { unfold use_random. rewrite Hs, Hn. reflexivity. }
    apply (BC_loop_trace_all _ _ _ Hs Hr) in H.
    + unfold loop_end in H. rewrite Hs, Hn in H. exact H.
    + unfold loop_end. rewrite Hs, Hn. cbn [negb N.eqb]. lia.
  - intros Hs Hn. apply N.eqb_neq in Hn.
    assert (Hr : use_random cfg = true).
    { unfold use_random. rewrite Hs, Hn. reflexivity. }
    apply (BC_loop_trace _ _ _ Hr) in H.
    unfold loop_end in H. rewrite Hs, Hn in H. exact H.
Qed.

Lemma BC_go_sources_witness :
  (singleSourceBC default_config = true → [0; 1] = [startSource default_config])
  ∧ (singleSourceBC default_config = false →
     numberOfSources default_config = 0 →
     [0; 1] = N.of_nat <$> seq 0 (N.to_nat (totalNodes two_isolated)))
  ∧ (singleSourceBC default_config = false →
     numberOfSources default_config ≠ 0 →
     [0; 1] = take (N.to_nat (numberOfSources default_config)) []
     ∧ (N.to_nat (numberOfSources default_config) ≤ length ([] : list N))%nat).
Proof.
  apply (BC_go_sources 5 default_config two_isolated [] [zero_node; zero_node]
           two_isolated_final [0; 1]).
  - reflexivity.
  - vm_compute. reflexivity.
Defined.

(** ** main: a request for more sources than there are vertices *)

Lemma sorted_above (l : list N) :
  Sorted N.lt l → ∀ lo n,
    Forall (λ x, lo ≤ x ∧ x < n) l → lo ≤ n → N.of_nat (length l) + lo ≤ n.
Proof.
  induction l as [|a l IH]; intros Hs lo n Hall Hlo; [cbn; lia|].
  apply Forall_cons in Hall as [[Ha1 Ha2] Hall].
  pose proof (Sorted_extends N.lt_strorder.(StrictOrder_Transitive) Hs) as Hext.
  apply Sorted_inv in Hs as [Hs _].
  assert (Hall' : Forall (λ x, a + 1 ≤ x ∧ x < n) l).
  { rewrite Forall_forall in *. intros x Hx.
    specialize (Hall x Hx). specialize (Hext x Hx). lia. }
  specialize (IH Hs (a + 1) n Hall'). cbn [length]. lia.
Qed.

Lemma fill_random_sources_stuck uid cfg g :
  (∀ gen, (r_dist uid g gen).1 < size g) →
  size g < numberOfSources cfg →
  ∀ fuel rs gen,
    Sorted N.lt rs → Forall (λ x, x < size g) rs →
    fill_random_sources uid fuel cfg g rs gen = None.
Proof.
  intros Hd Hk. induction fuel as [|fuel IH]; intros rs gen Hs Hall.
  - cbn [fill_random_sources].
    assert (Hlen : N.of_nat (length rs) + 0 ≤ size g).
    { apply sorted_above; [exact Hs| |lia].
      eapply Forall_impl; [exact Hall|]. cbv beta. intros x Hx. lia. }
    destruct (N.ltb_spec (N.of_nat (length rs)) (numberOfSources cfg));
      [reflexivity|lia].
  - cbn [fill_random_sources].
    assert (Hlen : N.of_nat (length rs) + 0 ≤ size g).
    { apply sorted_above; [exact Hs| |lia].
      eapply Forall_impl; [exact Hall|]. cbv beta. intros x Hx. lia. }
    destruct (N.ltb_spec (N.of_nat (length rs)) (numberOfSources cfg)); [|lia].
    pose proof (Hd gen) as Hx. destruct (r_dist uid g gen) as [x gen'].
    cbn [fst] in Hx. apply IH; [apply Sorted_set_insert, Hs|].
    apply Forall_forall. intros y Hy. apply elem_of_set_insert in Hy as [->|Hy];
      [exact Hx|]. rewrite Forall_forall in Hall. apply Hall, Hy.
Qed.

(** X18: when [numberOfSources] exceeds the number of vertices, the loop
    of [main] that fills [random_sources] does not end: the set holds
    [startSource] and values the distribution draws from
    [[0, size - 1]], so it never reaches [numberOfSources] elements, and
    no amount of fuel makes the run return. *)
Theorem main_random_sources_never_returns
    (uid : N → N → (N → N * N) → N → N * N)
    (fuel : nat) (cfg : Config) (g : Graph) (st : State) :
  (∀ gen, (r_dist uid g gen).1 < size g) →
  startSource cfg < size g →
  size g < numberOfSources cfg →
  main_random_sources uid fuel cfg g = None
  ∧ main_run uid fuel cfg g st = None.
Proof.
  intros Hd Hs Hk.
  assert (H : main_random_sources uid fuel cfg g = None).
  { unfold main_random_sources.
    destruct (N.eqb_spec (numberOfSources cfg) 0) as [E|_]; [lia|]. cbn [negb].
    apply fill_random_sources_stuck; [exact Hd|exact Hk| |].
    - repeat constructor.
    - repeat constructor. exact Hs. }
  split; [exact H|]. unfold main_run. rewrite H. reflexivity.
Qed.

Lemma main_random_sources_never_returns_witness :
  main_random_sources (λ _ _ _ s, (0, s)) 1000 sampled_config two_isolated = None
  ∧ main_run (λ _ _ _ s, (0, s)) 1000 sampled_config two_isolated
      [zero_node; zero_node] = None.
Proof.
  apply (main_random_sources_never_returns (λ _ _ _ s, (0, s)) 1000
           sampled_config two_isolated [zero_node; zero_node]).
  - intros gen. reflexivity.
  - reflexivity.
  - reflexivity.
Defined.

(** ** The library's distribution stays in its range *)

Lemma downscale_retry_lt urngmin past urng :
  ∀ fuel s ret s',
    downscale_retry fuel urngmin past urng s = Some (ret, s') → ret < past.
Proof.
  induction fuel as [|fuel IH]; intros s ret s' H; [discriminate|].
  cbn [downscale_retry] in H. destruct (urng s) as [x s1].
  destruct (N.leb_spec past (U64_sub x urngmin)) as [Hle|Hlt];
    [eapply IH, H|]. inversion H; subst. exact Hlt.
Qed.

Lemma U64_sub_0_r b : b < U64.modulus → U64_sub b 0 = b.
Proof.
  intros Hb. unfold U64_sub, U64.wrap.
  rewrite (N.mod_small b), (N.mod_small 0) by (try exact Hb; reflexivity).
  rewrite N.sub_0_r.
  rewrite <- (N.mul_1_l U64.modulus) at 1.
  rewrite N.Div0.mod_add. apply N.mod_small, Hb.
Qed.

Lemma gnu_uniform_int_downscale fuel urngmin urngmax b urng s v s' :
  b < urngmax - urngmin → urngmax - urngmin < U64.modulus →
  gnu_uniform_int fuel urngmin urngmax 0 b urng s = Some (v, s') →
  v ≤ b.
Proof.
  intros Hb Hr H. destruct fuel as [|fuel]; [discriminate|].
  cbn [gnu_uniform_int] in H. rewrite U64_sub_0_r in H by lia.
  apply N.ltb_lt in Hb as Hb'. rewrite Hb' in H. cbv zeta in H.
  destruct (downscale_retry fuel urngmin _ urng s) as [[ret s1]|] eqn:E;
    [|discriminate].
  cbn in H. apply downscale_retry_lt in E. inversion H; subst. clear H.
  rewrite N.add_0_r.
  assert (Hs : 0 < (urngmax - urngmin) / (b + 1)).
  { apply N.div_str_pos. lia. }
  assert (Hv : ret / ((urngmax - urngmin) / (b + 1)) < b + 1).
  { apply N.Div0.div_lt_upper_bound. lia. }
  unfold U64.wrap. rewrite N.mod_small by lia. lia.
Qed.

Lemma gnu_uniform_int_distribution_range fuel b urng s :
  b < minstd_rand0_max - minstd_rand0_min →
  (gnu_uniform_int_distribution fuel 0 b urng s).1 ≤ b.
Proof.
  intros Hb. unfold gnu_uniform_int_distribution.
  destruct (gnu_uniform_int fuel _ _ 0 b urng s) as [[v s']|] eqn:E;
    cbn [default fst]; [|lia].
  eapply gnu_uniform_int_downscale; [exact Hb| |exact E]. reflexivity.
Qed.

(** Five sources requested on a graph of two vertices: whatever the
    bound on the library's retries and however long the loop of [main]
    is left to run, the set never reaches five elements and the loop
    does not return. *)
Lemma sampled_sources_beyond_size :
  numberOfSources sampled_config = 5
  ∧ singleSourceBC sampled_config = false
  ∧ size two_isolated = 2
  ∧ ∀ retries fuel st,
      main_random_sources (gnu_uniform_int_distribution retries) fuel
        sampled_config two_isolated = None
      ∧ main_run (gnu_uniform_int_distribution retries) fuel
          sampled_config two_isolated st = None.
Proof.
  split; [reflexivity|]. split; [reflexivity|]. split; [reflexivity|].
  intros retries fuel st.
  assert (H : main_random_sources (gnu_uniform_int_distribution retries) fuel
                sampled_config two_isolated = None).
  { unfold main_random_sources. cbn [negb numberOfSources sampled_config N.eqb].
    apply fill_random_sources_stuck.
    - intros gen. unfold r_dist.
      change (U64.wrap (size two_isolated + U64.modulus - 1)) with 1.
      change (size two_isolated) with 2.
      pose proof (gnu_uniform_int_distribution_range retries 1
                    minstd_rand0.next gen ltac:(reflexivity)). lia.
    - reflexivity.
    - repeat constructor.
    - repeat constructor. }
  split; [exact H|]. unfold main_run. rewrite H. reflexivity.
Qed.

(** ** More retries change no draw that has ended *)

Lemma downscale_retry_more_fuel urngmin past urng :
  ∀ fuel fuel' s r,
    downscale_retry fuel urngmin past urng s = Some r → (fuel ≤ fuel')%nat →
    downscale_retry fuel' urngmin past urng s = Some r.
Proof.
  induction fuel as [|fuel IH]; intros fuel' s r H Hle; [discriminate|].
  destruct fuel' as [|fuel']; [lia|]. cbn [downscale_retry] in *.
  destruct (urng s) as [x s1].
  destruct (past <=? U64_sub x urngmin); [|exact H]. apply IH; [exact H|lia].
Qed.

Lemma upscale_retry_more_fuel (high high' : N → option (N * N))
    urngmin uerngrange urange urng :
  (∀ s r, high s = Some r → high' s = Some r) →
  ∀ fuel fuel' s r,
    upscale_retry fuel high urngmin uerngrange urange urng s = Some r →
    (fuel ≤ fuel')%nat →
    upscale_retry fuel' high' urngmin uerngrange urange urng s = Some r.
Proof.
  intros Hhigh. induction fuel as [|fuel IH]; intros fuel' s r H Hle;
    [discriminate|].
  destruct fuel' as [|fuel']; [lia|]. cbn [upscale_retry] in *.
  destruct (high s) as [[h s1]|] eqn:E; [|discriminate].
  rewrite (Hhigh _ _ E). destruct (urng s1) as [x s2].
  destruct (_ || _); [|exact H]. apply IH; [exact H|lia].
Qed.

Lemma gnu_uniform_int_more_fuel urngmin urngmax urng :
  ∀ fuel fuel' a b s r,
    gnu_uniform_int fuel urngmin urngmax a b urng s = Some r →
    (fuel ≤ fuel')%nat →
    gnu_uniform_int fuel' urngmin urngmax a b urng s = Some r.
Proof.
  induction fuel as [|fuel IH]; intros fuel' a b s r H Hle; [discriminate|].
  destruct fuel' as [|fuel']; [lia|]. cbn [gnu_uniform_int] in *. cbv zeta in *.
  destruct (U64_sub b a <? urngmax - urngmin).
  - destruct (downscale_retry fuel _ _ urng s) as [[ret s1]|] eqn:E;
      [|discriminate].
    rewrite (downscale_retry_more_fuel _ _ _ fuel fuel' s _ E) by lia. exact H.
  - destruct (urngmax - urngmin <? U64_sub b a); [|exact H].
    destruct (upscale_retry fuel _ _ _ _ urng s) as [r1|] eqn:E; [|discriminate].
    erewrite upscale_retry_more_fuel; [exact H| |exact E|lia].
    intros s0 r0 H0. apply (IH fuel'); [exact H0|lia].
Qed.

Lemma r_dist_more_fuel fuel fuel' g s r :
  gnu_uniform_int fuel minstd_rand0_min minstd_rand0_max 0
    (U64.wrap (size g + U64.modulus - 1)) minstd_rand0.next s = Some r →
  (fuel ≤ fuel')%nat →
  r_dist (gnu_uniform_int_distribution fuel') g s = r.
Proof.
  intros H Hle. unfold r_dist, gnu_uniform_int_distribution.
  rewrite (gnu_uniform_int_more_fuel _ _ _ fuel fuel' _ _ _ _ H Hle). reflexivity.
Qed.

(** On a graph of 1000 vertices each of the first five draws ends with
    the first value of the engine: they are the same for every bound on
    the retries that allows one. *)
Lemma sampled_draws_any_retries (retries : nat) :
  (2 ≤ retries)%nat →
  draws (gnu_uniform_int_distribution retries) thousand 5 (minstd_rand0.seed 100)
  = [0; 153; 560; 865; 276].
Proof.
  intros Hretries. change (minstd_rand0.seed 100) with 100.
  do 5 (cbn [draws];
        erewrite (r_dist_more_fuel 2 retries thousand);
          [|vm_compute; reflexivity|exact Hretries]).
  reflexivity.
Qed.

(** * The sampling loop under the GNU library's distribution *)

(** ** Powers of a generator modulo [p] *)

Lemma pow_mod_correct a e p : pow_mod a e p = (a ^ N.pos e) `mod` p.
Proof.
  induction e as [e IH|e IH|]; cbn [pow_mod].
  - rewrite IH. replace (N.pos e~1) with (1 + (N.pos e + N.pos e)) by lia.
    rewrite N.pow_add_r, N.pow_1_r, N.pow_add_r.
    rewrite <- N.Div0.mul_mod. rewrite N.Div0.mul_mod_idemp_r. reflexivity.
  - rewrite IH. replace (N.pos e~0) with (N.pos e + N.pos e) by lia.
    rewrite N.pow_add_r. rewrite <- N.Div0.mul_mod. reflexivity.
  - rewrite N.pow_1_r. reflexivity.
Qed.

Section Order.
Variables (p a : N) (primes : list N).
Hypothesis Hp : 1 < p.
Hypothesis Hfermat : a ^ (p - 1) `mod` p = 1.
Hypothesis Hfactors :
  ∀ c, (c | p - 1) → c ≠ 1 → ∃ q, q ∈ primes ∧ (q | c) ∧ q ≠ 0.
Hypothesis Horder : ∀ q, q ∈ primes → a ^ ((p - 1) / q) `mod` p ≠ 1.

Lemma unit_add d e :
  a ^ d `mod` p = 1 → a ^ (d + e) `mod` p = a ^ e `mod` p.
Proof.
  intros Hd. rewrite N.pow_add_r, N.Div0.mul_mod, Hd, N.mul_1_l.
  apply N.Div0.mod_mod.
Qed.

Lemma unit_mul d k : a ^ d `mod` p = 1 → a ^ (d * k) `mod` p = 1.
Proof.
  intros Hd. induction k as [|k IH] using N.peano_ind.
  - rewrite N.mul_0_r, N.pow_0_r. apply N.mod_small, Hp.
  - rewrite N.mul_succ_r, N.add_comm, unit_add; assumption.
Qed.

Lemma unit_mod d m :
  d ≠ 0 → a ^ d `mod` p = 1 → a ^ m `mod` p = 1 → a ^ (m `mod` d) `mod` p = 1.
Proof.
  intros Hd0 Hd Hm. rewrite (N.div_mod m d Hd0) in Hm.
  rewrite unit_add in Hm; [exact Hm|]. apply unit_mul, Hd.
Qed.

Lemma unit_gcd : ∀ n d m,
  (N.to_nat d < n)%nat →
  a ^ d `mod` p = 1 → a ^ m `mod` p = 1 → a ^ N.gcd d m `mod` p = 1.
Proof.
  induction n as [|n IH]; intros d m Hn Hd Hm; [lia|].
  destruct (N.eq_dec d 0) as [->|Hd0]; [rewrite N.gcd_0_l; exact Hm|].
  rewrite <- N.Lcm0.gcd_mod.
  apply IH; [|apply unit_mod; assumption|exact Hd].
  pose proof (N.mod_lt m d Hd0). lia.
Qed.

Lemma order_full d : 0 < d → d < p - 1 → a ^ d `mod` p ≠ 1.
Proof.
  intros Hd0 HdM Hd.
  pose proof (unit_gcd (S (N.to_nat d)) d (p - 1) ltac:(lia) Hd Hfermat) as Hg.
  destruct (N.gcd_divide_r d (p - 1)) as [c Hc].
  destruct (N.gcd_divide_l d (p - 1)) as [c' Hc'].
  assert (Hg0 : N.gcd d (p - 1) ≠ 0).
  { intros E. rewrite E, N.mul_0_r in Hc'. lia. }
  assert (Hc1 : c ≠ 1).
  { intros ->. rewrite N.mul_1_l in Hc.
    assert (N.gcd d (p - 1) ≤ d); [|lia].
    rewrite Hc' at 2. destruct c'; [lia|]. nia. }
  destruct (Hfactors c) as (q & Hq & [c2 Hc2] & Hq0);
    [exists (N.gcd d (p - 1)); lia|exact Hc1|].
  apply (Horder q Hq). remember (N.gcd d (p - 1)) as G eqn:HG.
  replace ((p - 1) / q) with (G * c2).
  - apply unit_mul, Hg.
  - apply N.div_unique_exact; [exact Hq0|]. rewrite Hc, Hc2. ring.
Qed.

Lemma pow_inverse i : i ≤ p - 1 → (a ^ (p - 1 - i) * a ^ i) `mod` p = 1.
Proof.
  intros Hi. rewrite <- N.pow_add_r.
  replace (p - 1 - i + i) with (p - 1) by lia. exact Hfermat.
Qed.

Lemma pow_nonzero i : a ^ i `mod` p ≠ 0.
Proof.
  intros H.
  assert (Hi : a ^ (i `mod` (p - 1)) `mod` p = 0).
  { destruct (N.eq_dec (p - 1) 0) as [E|E]; [lia|].
    rewrite (N.div_mod i (p - 1) E) in H.
    rewrite unit_add in H; [exact H|]. apply unit_mul, Hfermat. }
  pose proof (N.mod_lt i (p - 1) ltac:(lia)) as Hlt.
  pose proof (pow_inverse (i `mod` (p - 1)) ltac:(lia)) as Hinv.
  rewrite N.Div0.mul_mod, Hi, N.mul_0_r, N.Div0.mod_0_l in Hinv. discriminate.
Qed.

Lemma pow_injective i j :
  i < j → j < p - 1 → a ^ i `mod` p ≠ a ^ j `mod` p.
Proof.
  intros Hij Hj Heq.
  apply (order_full (j - i)); [lia|lia|].
  pose proof (pow_inverse i ltac:(lia)) as Hinv.
  replace j with (i + (j - i)) in Heq by lia.
  rewrite (N.pow_add_r a i) in Heq.
  assert (H : (a ^ (p - 1 - i) * (a ^ i * a ^ (j - i))) `mod` p
              = (a ^ (p - 1 - i) * a ^ i) `mod` p).
  { rewrite N.Div0.mul_mod, <- Heq, <- N.Div0.mul_mod. reflexivity. }
  rewrite Hinv, N.mul_assoc, N.Div0.mul_mod, Hinv, N.mul_1_l, N.Div0.mod_mod in H.
  exact H.
Qed.

Lemma pow_surjective y :
  1 ≤ y → y < p → ∃ j, j < p - 1 ∧ a ^ j `mod` p = y.
Proof.
  intros Hy1 Hyp.
  set (l := (λ j : nat, a ^ N.of_nat j `mod` p) <$> seq 0 (N.to_nat (p - 1))).
  set (k := (λ i : nat, N.of_nat (S i)) <$> seq 0 (N.to_nat (p - 1))).
  assert (Hnd : NoDup l).
  { apply NoDup_fmap_2_strong; [|apply NoDup_seq].
    intros i j Hi Hj Heq. apply elem_of_seq in Hi, Hj.
    destruct (Nat.lt_trichotomy i j) as [Hlt|[->|Hlt]]; [|reflexivity|].
    - exfalso. apply (pow_injective (N.of_nat i) (N.of_nat j)); [lia|lia|exact Heq].
    - exfalso. apply (pow_injective (N.of_nat j) (N.of_nat i)); [lia|lia|].
      symmetry. exact Heq. }
  assert (Hsub : ∀ x, x ∈ l → x ∈ k).
  { intros x Hx. apply list_elem_of_fmap in Hx as (j & -> & Hj).
    apply list_elem_of_fmap.
    pose proof (pow_nonzero (N.of_nat j)) as Hnz.
    pose proof (N.mod_lt (a ^ N.of_nat j) p ltac:(lia)) as Hlt.
    remember (a ^ N.of_nat j `mod` p) as x eqn:Hx.
    exists (Nat.pred (N.to_nat x)). split; [lia|].
    apply elem_of_seq. lia. }
  assert (Hperm : l ≡ₚ k).
  { apply submseteq_length_Permutation.
    - apply NoDup_submseteq; assumption.
    - unfold l, k. rewrite !length_fmap. reflexivity. }
  assert (Hy : y ∈ l).
  { rewrite Hperm. apply list_elem_of_fmap. exists (Nat.pred (N.to_nat y)).
    split; [lia|]. apply elem_of_seq. lia. }
  apply list_elem_of_fmap in Hy as (j & -> & Hj). apply elem_of_seq in Hj.
  exists (N.of_nat j). split; [lia|reflexivity].
Qed.

(** From every unit every unit is reached, in at least one and at most
    [p - 1] multiplications by [a]. *)
Lemma orbit_reaches s y :
  1 ≤ s → s < p → 1 ≤ y → y < p →
  ∃ j, 1 ≤ j ∧ j ≤ p - 1 ∧ (a ^ j * s) `mod` p = y.
Proof.
  intros Hs1 Hsp Hy1 Hyp.
  destruct (pow_surjective s Hs1 Hsp) as (i & Hi & Hsi).
  destruct (pow_surjective y Hy1 Hyp) as (l & Hl & Hyl).
  destruct (N.ltb_spec i l) as [Hlt|Hge].
  - exists (l - i). split; [lia|]. split; [lia|].
    rewrite <- Hsi, N.Div0.mul_mod_idemp_r, <- N.pow_add_r.
    replace (l - i + i) with l by lia. exact Hyl.
  - exists (p - 1 + l - i). split; [lia|]. split; [lia|].
    rewrite <- Hsi, N.Div0.mul_mod_idemp_r, <- N.pow_add_r.
    replace (p - 1 + l - i + i) with (p - 1 + l) by lia.
    rewrite unit_add by exact Hfermat. exact Hyl.
Qed.
Lemma unit_mul_nonzero s j : 1 ≤ s → s < p → (a ^ j * s) `mod` p ≠ 0.
Proof.
  intros Hs1 Hsp. destruct (pow_surjective s Hs1 Hsp) as (i & _ & <-).
  rewrite N.Div0.mul_mod_idemp_r, <- N.pow_add_r. apply pow_nonzero.
Qed.
End Order.

(** ** The factors of [2^31 - 2] *)

Lemma small_prime q :
  forallb (λ x, negb (q `mod` x =? 0)) (N.of_nat <$> seq 2 (N.to_nat q - 2)) = true →
  ∀ h, (h | q) → h = 1 ∨ h = q ∨ q = 0.
Proof.
  intros Hall h Hh.
  destruct (N.eq_dec q 0) as [->|Hq0]; [auto|].
  destruct (N.eq_dec h 1) as [->|H1]; [auto|].
  destruct (N.eq_dec h q) as [->|Hq]; [auto|]. exfalso.
  pose proof (N.divide_pos_le h q ltac:(lia) Hh) as Hle.
  assert (Hh0 : h ≠ 0).
  { intros ->. destruct Hh as [c Hc]. lia. }
  rewrite forallb_forall in Hall.
  specialize (Hall h). rewrite <- list_elem_of_In, list_elem_of_fmap in Hall.
  assert (Hmod : q `mod` h = 0) by (apply N.Lcm0.mod_divide; exact Hh).
  rewrite Hmod in Hall. cbn in Hall.
  assert (true = false); [|discriminate]. symmetry. apply Hall.
  exists (N.to_nat h). split; [lia|]. apply elem_of_seq. lia.
Qed.

Lemma coprime_product c l :
  (∀ q, q ∈ l → N.gcd c q = 1) → (c | foldr N.mul 1 l) → c = 1.
Proof.
  induction l as [|q l IH]; intros Hco Hdiv; cbn [foldr] in Hdiv.
  - apply N.divide_1_r in Hdiv. exact Hdiv.
  - apply IH; [intros x Hx; apply Hco; right; exact Hx|].
    apply (N.gauss c q); [exact Hdiv|]. apply Hco. left.
Qed.

Lemma minstd_rand0_factors c :
  (c | minstd_rand0.modulus - 1) → c ≠ 1 →
  ∃ q, q ∈ [2; 3; 3; 7; 11; 31; 151; 331] ∧ (q | c) ∧ q ≠ 0.
Proof.
  intros Hdiv Hc1.
  destruct (existsb (λ q, c `mod` q =? 0) [2; 3; 3; 7; 11; 31; 151; 331]) eqn:E.
  - apply existsb_exists in E as (q & Hq & Hmod). apply N.eqb_eq in Hmod.
    apply list_elem_of_In in Hq. exists q. split; [exact Hq|].
    assert (Hq0 : q ≠ 0).
    { repeat (apply elem_of_cons in Hq as [->|Hq]; [discriminate|]).
      apply elem_of_nil in Hq. destruct Hq. }
    split; [|exact Hq0]. apply N.Lcm0.mod_divide. exact Hmod.
  - exfalso. apply Hc1. apply (coprime_product c [2; 3; 3; 7; 11; 31; 151; 331]).
    + intros q Hq.
      assert (Hnd : ¬ (q | c)).
      { intros Hd. apply N.Lcm0.mod_divide in Hd.
        assert (Hex : existsb (λ q, c `mod` q =? 0) [2; 3; 3; 7; 11; 31; 151; 331]
                      = true); [|congruence].
        apply existsb_exists. exists q. split; [apply list_elem_of_In, Hq|].
        apply N.eqb_eq, Hd. }
      assert (Hprime : ∀ h, (h | q) → h = 1 ∨ h = q ∨ q = 0).
      { apply small_prime.
        repeat (apply elem_of_cons in Hq as [->|Hq]; [vm_compute; reflexivity|]).
        apply elem_of_nil in Hq. destruct Hq. }
      destruct (Hprime (N.gcd c q) (N.gcd_divide_r c q)) as [H|[H|H]];
        [exact H| |].
      * exfalso. apply Hnd. rewrite <- H. apply N.gcd_divide_l.
      * exfalso. repeat (apply elem_of_cons in Hq as [->|Hq]; [discriminate|]).
        apply elem_of_nil in Hq. destruct Hq.
    + replace (foldr N.mul 1 [2; 3; 3; 7; 11; 31; 151; 331])
        with (minstd_rand0.modulus - 1) by (vm_compute; reflexivity).
      exact Hdiv.
Qed.

Lemma minstd_rand0_fermat :
  minstd_rand0.multiplier ^ (minstd_rand0.modulus - 1) `mod` minstd_rand0.modulus = 1.
Proof.
  replace (minstd_rand0.modulus - 1) with (N.pos 2147483646) by reflexivity.
  rewrite <- pow_mod_correct. vm_compute. reflexivity.
Qed.

Lemma minstd_rand0_order q :
  q ∈ [2; 3; 3; 7; 11; 31; 151; 331] →
  minstd_rand0.multiplier ^ ((minstd_rand0.modulus - 1) / q)
    `mod` minstd_rand0.modulus ≠ 1.
Proof.
  intros Hq.
  repeat (apply elem_of_cons in Hq as [->|Hq];
    [match goal with
     | |- _ ^ ?e `mod` _ ≠ 1 =>
         let e' := eval vm_compute in e in
         replace e with e' by (vm_compute; reflexivity)
     end;
     rewrite <- pow_mod_correct; vm_compute; discriminate|]).
  apply elem_of_nil in Hq. destruct Hq.
Qed.

(** The engine visits every state in [[1, m - 1]] from every such
    state, in at most [m - 1] steps. *)
Lemma minstd_rand0_reaches s y :
  1 ≤ s → s < minstd_rand0.modulus → 1 ≤ y → y < minstd_rand0.modulus →
  ∃ j, 1 ≤ j ∧ j ≤ minstd_rand0.modulus - 1
       ∧ (minstd_rand0.multiplier ^ j * s) `mod` minstd_rand0.modulus = y.
Proof.
  apply (orbit_reaches minstd_rand0.modulus minstd_rand0.multiplier
           [2; 3; 3; 7; 11; 31; 151; 331]).
  - reflexivity.
  - exact minstd_rand0_fermat.
  - exact minstd_rand0_factors.
  - exact minstd_rand0_order.
Qed.

(** ** The engine *)

Lemma minstd_rand0_bounds :
  3 < minstd_rand0.modulus ∧ minstd_rand0.modulus < U64.modulus.
Proof. split; reflexivity. Qed.

Lemma minstd_rand0_after_eq j s :
  s < minstd_rand0.modulus →
  minstd_rand0_after j s
  = (minstd_rand0.multiplier ^ N.of_nat j * s) `mod` minstd_rand0.modulus.
Proof.
  intros Hs. unfold minstd_rand0_after. induction j as [|j IH].
  - cbn [Nat.iter]. change (N.of_nat 0) with 0.
    rewrite N.pow_0_r, N.mul_1_l, N.mod_small by exact Hs. reflexivity.
  - rewrite Nat.iter_succ, IH. unfold minstd_rand0.next. cbn [snd].
    rewrite N.Div0.mul_mod_idemp_r, N.mul_assoc.
    rewrite Nat2N.inj_succ, N.pow_succ_r'. reflexivity.
Qed.

Lemma minstd_rand0_after_valid j s :
  1 ≤ s → s < minstd_rand0.modulus →
  1 ≤ minstd_rand0_after j s ∧ minstd_rand0_after j s < minstd_rand0.modulus.
Proof.
  intros Hs1 Hsp. rewrite minstd_rand0_after_eq by exact Hsp.
  pose proof minstd_rand0_bounds as [Hp _].
  pose proof (unit_mul_nonzero minstd_rand0.modulus minstd_rand0.multiplier
                [2; 3; 3; 7; 11; 31; 151; 331] ltac:(lia) minstd_rand0_fermat
                minstd_rand0_factors minstd_rand0_order s (N.of_nat j) Hs1 Hsp).
  pose proof (N.mod_lt (minstd_rand0.multiplier ^ N.of_nat j * s)
                minstd_rand0.modulus ltac:(lia)).
  remember ((minstd_rand0.multiplier ^ N.of_nat j * s) `mod` minstd_rand0.modulus)
    as x eqn:Hx.
  lia.
Qed.

Lemma minstd_rand0_after_add i j s :
  minstd_rand0_after (i + j) s = minstd_rand0_after i (minstd_rand0_after j s).
Proof. unfold minstd_rand0_after. apply Nat.iter_add. Qed.

Lemma minstd_rand0_next_after s :
  minstd_rand0.next s = (minstd_rand0_after 1 s, minstd_rand0_after 1 s).
Proof. reflexivity. Qed.

Lemma U64_sub_small a b : b ≤ a → a < U64.modulus → U64_sub a b = a - b.
Proof.
  intros Hba Ha. unfold U64_sub, U64.wrap.
  rewrite (N.mod_small a), (N.mod_small b) by lia.
  replace (a + U64.modulus - b) with (a - b + 1 * U64.modulus) by lia.
  rewrite N.Div0.mod_add. apply N.mod_small. lia.
Qed.

(** ** The first accepted value *)

Lemma first_index (P : nat → bool) n :
  P n = true →
  ∃ c, (c ≤ n)%nat ∧ P c = true ∧ ∀ j, (j < c)%nat → P j = false.
Proof.
  intros Hn.
  assert (H : (∃ c, (c ≤ n)%nat ∧ P c = true ∧ ∀ j, (j < c)%nat → P j = false)
              ∨ ∀ j, (j ≤ n)%nat → P j = false).
  { clear Hn. induction n as [|n IH].
    - destruct (P 0%nat) eqn:E.
      + left. exists 0%nat. split; [lia|]. split; [exact E|]. intros j Hj. lia.
      + right. intros j Hj. replace j with 0%nat by lia. exact E.
    - destruct IH as [(c & Hc & HP & Hl)|Hnone].
      + left. exists c. split; [lia|]. auto.
      + destruct (P (S n)) eqn:E.
        * left. exists (S n). split; [lia|]. split; [exact E|].
          intros j Hj. apply Hnone. lia.
        * right. intros j Hj. destruct (Nat.eq_dec j (S n)) as [->|Hne];
            [exact E|apply Hnone; lia]. }
  destruct H as [H|H]; [exact H|]. rewrite H in Hn by lia. discriminate.
Qed.

Lemma downscale_retry_first past :
  ∀ fuel s c,
    1 ≤ s → s < minstd_rand0.modulus →
    (1 ≤ c)%nat → (c ≤ fuel)%nat →
    (∀ j, (1 ≤ j)%nat → (j < c)%nat → past ≤ minstd_rand0_after j s - 1) →
    minstd_rand0_after c s - 1 < past →
    downscale_retry fuel minstd_rand0_min past minstd_rand0.next s
    = Some (minstd_rand0_after c s - 1, minstd_rand0_after c s).
Proof.
  pose proof minstd_rand0_bounds as [Hp3 Hp64].
  induction fuel as [|fuel IH]; intros s c Hs1 Hsp Hc1 Hcf Hrej Hacc; [lia|].
  cbn [downscale_retry]. rewrite minstd_rand0_next_after.
  pose proof (minstd_rand0_after_valid 1 s Hs1 Hsp) as [Hv1 Hv2].
  unfold minstd_rand0_min. rewrite U64_sub_small by lia.
  destruct (Nat.eq_dec c 1%nat) as [->|Hne].
  - apply N.leb_gt in Hacc. rewrite Hacc. reflexivity.
  - pose proof (Hrej 1%nat ltac:(lia) ltac:(lia)) as H1.
    apply N.leb_le in H1. rewrite H1.
    replace c with (Nat.pred c + 1)%nat in Hacc |- * by lia.
    rewrite minstd_rand0_after_add in Hacc |- *.
    apply IH; [exact Hv1|exact Hv2|lia|lia| |exact Hacc].
    intros j Hj1 Hj2. rewrite <- minstd_rand0_after_add. apply Hrej; lia.
Qed.

Lemma scaling_pos g :
  1 ≤ size g → size g < minstd_rand0_max →
  0 < (minstd_rand0_max - minstd_rand0_min) / size g.
Proof. intros H1 H2. apply N.div_str_pos. unfold minstd_rand0_min. lia. Qed.

Lemma past_le g :
  size g * ((minstd_rand0_max - minstd_rand0_min) / size g)
  ≤ minstd_rand0_max - minstd_rand0_min.
Proof. apply N.Div0.mul_div_le. Qed.

Section Downscale.
Variables (retries : nat) (g : Graph).
Hypothesis Hretries : (N.to_nat minstd_rand0.modulus ≤ retries)%nat.
Hypothesis Hsize1 : 1 ≤ size g.
Hypothesis Hsize2 : size g < minstd_rand0_max.

Local Abbreviation scaling := ((minstd_rand0_max - minstd_rand0_min) / size g).
Local Abbreviation past := (size g * scaling).
Local Abbreviation accepted x := (x - 1 <? past).
Local Abbreviation uid := (gnu_uniform_int_distribution retries).

Lemma r_dist_first s c :
  1 ≤ s → s < minstd_rand0.modulus →
  (1 ≤ c)%nat → (c ≤ N.to_nat minstd_rand0_max)%nat →
  (∀ j, (1 ≤ j)%nat → (j < c)%nat → accepted (minstd_rand0_after j s) = false) →
  accepted (minstd_rand0_after c s) = true →
  gnu_uniform_int retries minstd_rand0_min minstd_rand0_max 0
    (U64.wrap (size g + U64.modulus - 1)) minstd_rand0.next s
  = Some ((minstd_rand0_after c s - 1) / scaling, minstd_rand0_after c s).
Proof.
  intros Hs1 Hsp Hc1 Hcm Hrej Hacc.
  pose proof minstd_rand0_bounds as [Hp3 Hp64].
  assert (Hmax : minstd_rand0_max = minstd_rand0.modulus - 1) by reflexivity.
  assert (Hb : U64.wrap (size g + U64.modulus - 1) = size g - 1).
  { unfold U64.wrap.
    replace (size g + U64.modulus - 1) with (size g - 1 + 1 * U64.modulus) by lia.
    rewrite N.Div0.mod_add. apply N.mod_small. lia. }
  rewrite Hb.
  assert (Hfuel : ∃ fuel, retries = S fuel ∧ (c ≤ fuel)%nat).
  { exists (Nat.pred retries). lia. }
  destruct Hfuel as (fuel & Hfuel & Hcf).
  rewrite Hfuel. cbn [gnu_uniform_int]. rewrite U64_sub_0_r by lia.
  assert (Hlt : (size g - 1 <? minstd_rand0_max - minstd_rand0_min) = true).
  { apply N.ltb_lt. unfold minstd_rand0_min. lia. }
  rewrite Hlt. cbv zeta. replace (size g - 1 + 1) with (size g) by lia.
  rewrite (downscale_retry_first past fuel s c); try assumption; try lia.
  - cbn. rewrite N.add_0_r. f_equal. f_equal. apply N.mod_small.
    apply N.ltb_lt in Hacc. pose proof (scaling_pos g Hsize1 Hsize2). pose proof (past_le g).
    assert ((minstd_rand0_after c s - 1) / scaling < size g).
    { apply N.Div0.div_lt_upper_bound. lia. }
    lia.
  - intros j Hj1 Hj2. apply N.ltb_ge, Hrej; assumption.
  - apply N.ltb_lt, Hacc.
Qed.

Lemma r_dist_accepted s j :
  1 ≤ s → s < minstd_rand0.modulus →
  (1 ≤ j)%nat → (j ≤ N.to_nat minstd_rand0_max)%nat →
  accepted (minstd_rand0_after j s) = true →
  ∃ c, (1 ≤ c)%nat ∧ (c ≤ j)%nat
    ∧ accepted (minstd_rand0_after c s) = true
    ∧ r_dist uid g s
      = ((minstd_rand0_after c s - 1) / scaling, minstd_rand0_after c s).
Proof.
  intros Hs1 Hsp Hj1 Hjm Hacc.
  destruct (first_index
              (λ i, (0 <? i)%nat && accepted (minstd_rand0_after i s)) j)
    as (c & Hcj & Hc & Hleast).
  { rewrite Hacc. destruct j; [lia|reflexivity]. }
  apply andb_true_iff in Hc as [Hc0 Hc]. apply Nat.ltb_lt in Hc0.
  exists c. split; [lia|]. split; [exact Hcj|]. split; [exact Hc|].
  unfold r_dist, gnu_uniform_int_distribution.
  rewrite (r_dist_first s c); try assumption; try lia; [reflexivity|].
  intros i Hi1 Hi2. specialize (Hleast i Hi2).
  apply andb_false_iff in Hleast as [H|H]; [|exact H].
  apply Nat.ltb_ge in H. lia.
Qed.

(** An accepted value of the engine is the value of one of the draws
    made up to then. *)
Lemma draws_accepted :
  ∀ k j s,
    (j ≤ k)%nat →
    1 ≤ s → s < minstd_rand0.modulus →
    (1 ≤ j)%nat → (j ≤ N.to_nat minstd_rand0_max)%nat →
    accepted (minstd_rand0_after j s) = true →
    ∃ i, (i < j)%nat
      ∧ ∀ n, (i < n)%nat →
          draws uid g n s !! i = Some ((minstd_rand0_after j s - 1) / scaling).
Proof.
  induction k as [|k IH]; intros j s Hjk Hs1 Hsp Hj1 Hjm Hacc; [lia|].
  destruct (r_dist_accepted s j Hs1 Hsp Hj1 Hjm Hacc)
    as (c & Hc1 & Hcj & Hc & Hdraw).
  destruct (Nat.eq_dec c j) as [->|Hne].
  - exists 0%nat. split; [lia|]. intros n Hn. destruct n as [|n]; [lia|].
    cbn [draws]. rewrite Hdraw. reflexivity.
  - pose proof (minstd_rand0_after_valid c s Hs1 Hsp) as [Hv1 Hv2].
    destruct (IH (j - c)%nat (minstd_rand0_after c s)) as (i & Hi & Hdraws);
      try assumption; try lia.
    { rewrite <- minstd_rand0_after_add. replace (j - c + c)%nat with j by lia.
      exact Hacc. }
    exists (S i). split; [lia|]. intros n Hn. destruct n as [|n]; [lia|].
    cbn [draws]. rewrite Hdraw. cbn [lookup list_lookup].
    rewrite Hdraws by lia.
    rewrite <- minstd_rand0_after_add. replace (j - c + c)%nat with j by lia.
    reflexivity.
Qed.

(** Every vertex id is drawn within one period of the engine. *)
Lemma draws_cover s v n :
  1 ≤ s → s < minstd_rand0.modulus → v < size g →
  (N.to_nat minstd_rand0_max ≤ n)%nat →
  v ∈ draws uid g n s.
Proof.
  intros Hs1 Hsp Hv Hn.
  pose proof minstd_rand0_bounds as [Hp3 Hp64].
  pose proof (scaling_pos g Hsize1 Hsize2) as Hsc. pose proof (past_le g) as Hpast.
  assert (Hmax : minstd_rand0_max = minstd_rand0.modulus - 1) by reflexivity.
  assert (Hmin : minstd_rand0_min = 1) by reflexivity.
  assert (Hy : v * scaling + 1 ≤ past).
  { replace (size g) with (v + 1 + (size g - v - 1)) at 2 by lia. nia. }
  destruct (minstd_rand0_reaches s (v * scaling + 1)) as (j & Hj1 & Hjm & Hj);
    [exact Hs1|exact Hsp|lia|lia|].
  assert (Hafter : minstd_rand0_after (N.to_nat j) s = v * scaling + 1).
  { rewrite minstd_rand0_after_eq, N2Nat.id by exact Hsp. exact Hj. }
  destruct (draws_accepted (N.to_nat j) (N.to_nat j) s) as (i & Hi & Hdraws);
    try assumption; try lia.
  { rewrite Hafter. apply N.ltb_lt. lia. }
  specialize (Hdraws n ltac:(lia)).
  rewrite Hafter in Hdraws.
  replace (v * scaling + 1 - 1) with (v * scaling) in Hdraws by lia.
  rewrite N.div_mul in Hdraws by lia.
  eapply list_elem_of_lookup_2, Hdraws.
Qed.
End Downscale.

Lemma sources_after_covers retries cfg g n :
  (N.to_nat minstd_rand0.modulus ≤ retries)%nat →
  1 ≤ size g → size g < minstd_rand0_max →
  (N.to_nat minstd_rand0_max ≤ n)%nat →
  size g
  ≤ N.of_nat (length (sources_after (gnu_uniform_int_distribution retries) cfg g n)).
Proof.
  intros Hretries Hs1 Hs2 Hn.
  set (l := N.of_nat <$> seq 0 (N.to_nat (size g))).
  assert (Hsub : l ⊆+ sources_after (gnu_uniform_int_distribution retries) cfg g n).
  { apply NoDup_submseteq.
    - apply NoDup_fmap_2; [intros x y; apply Nat2N.inj|apply NoDup_seq].
    - intros x Hx. apply list_elem_of_fmap in Hx as (i & -> & Hi).
      apply elem_of_seq in Hi. unfold sources_after, set_of. cbn [foldl].
      apply foldl_set_insert_elem. right.
      pose proof minstd_rand0_bounds as [Hp3 _].
      apply (draws_cover retries g Hretries Hs1 Hs2);
        change (minstd_rand0.seed 100) with 100;
        first [exact Hn|reflexivity|lia]. }
  apply submseteq_length in Hsub. unfold l in Hsub.
  rewrite length_fmap, length_seq in Hsub. lia.
Qed.

(** X27: with the GNU library's distribution over [std::minstd_rand0],
    the loop of [main] that fills [random_sources] returns whenever no
    more sources are requested than there are vertices, on a graph of
    fewer than [2^31 - 2] vertices.  The engine runs through all its
    [2^31 - 2] states before it repeats, so every vertex id is drawn
    within that many draws, no draw retries for longer than that, and
    the set reaches [numberOfSources] elements at some draw [n]; with at
    least [n] rounds allowed the loop returns the set of [startSource]
    and the first [n] draws. *)
Theorem main_random_sources_returns (retries : nat) (cfg : Config) (g : Graph) :
  numberOfSources cfg ≠ 0 →
  numberOfSources cfg ≤ size g →
  size g < minstd_rand0_max →
  (N.to_nat minstd_rand0.modulus ≤ retries)%nat →
  (∀ s, 1 ≤ s → s < minstd_rand0.modulus →
     ∃ x s', gnu_uniform_int retries minstd_rand0_min minstd_rand0_max 0
               (U64.wrap (size g + U64.modulus - 1)) minstd_rand0.next s
             = Some (x, s')
             ∧ x < size g ∧ 1 ≤ s' ∧ s' < minstd_rand0.modulus)
  ∧ ∃ n, (n ≤ N.to_nat minstd_rand0_max)%nat
      ∧ first_full (gnu_uniform_int_distribution retries) cfg g n = true
      ∧ ∀ fuel, (n ≤ fuel)%nat →
          main_random_sources (gnu_uniform_int_distribution retries) fuel cfg g
          = Some (sources_after (gnu_uniform_int_distribution retries) cfg g n).
Proof.
  intros Hk Hks Hsize Hretries.
  assert (Hs1 : 1 ≤ size g) by lia.
  pose proof minstd_rand0_bounds as [Hp3 Hp64].
  assert (Hmax : minstd_rand0_max = minstd_rand0.modulus - 1) by reflexivity.
  assert (Hmin : minstd_rand0_min = 1) by reflexivity.
  split.
  - intros s Hs Hsp.
    pose proof (scaling_pos g Hs1 Hsize) as Hsc.
    destruct (minstd_rand0_reaches s 1 Hs Hsp ltac:(lia) ltac:(lia))
      as (j & Hj1 & Hjm & Hj).
    assert (Hacc : (minstd_rand0_after (N.to_nat j) s - 1
                    <? size g * ((minstd_rand0_max - minstd_rand0_min) / size g))
                   = true).
    { rewrite minstd_rand0_after_eq, N2Nat.id, Hj by exact Hsp.
      apply N.ltb_lt. nia. }
    destruct (first_index
                (λ i, (0 <? i)%nat
                      && (minstd_rand0_after i s - 1
                          <? size g * ((minstd_rand0_max - minstd_rand0_min) / size g)))
                (N.to_nat j)) as (c & Hcj & Hc & Hleast).
    { rewrite Hacc. destruct (N.to_nat j) eqn:E; [lia|reflexivity]. }
    apply andb_true_iff in Hc as [Hc0 Hc]. apply Nat.ltb_lt in Hc0.
    pose proof (minstd_rand0_after_valid c s Hs Hsp) as [Hv1 Hv2].
    eexists _, _. split; [|split; [|split; [exact Hv1|exact Hv2]]].
    + apply (r_dist_first retries g Hretries Hs1 Hsize s c); try assumption; try lia.
      intros i Hi1 Hi2. specialize (Hleast i Hi2).
      apply andb_false_iff in Hleast as [H|H]; [|exact H].
      apply Nat.ltb_ge in H. lia.
    + apply N.ltb_lt in Hc. apply N.Div0.div_lt_upper_bound. lia.
  - remember (N.to_nat minstd_rand0_max) as period eqn:Hperiod.
    destruct (first_index
                (λ n, numberOfSources cfg
                      <=? N.of_nat (length (sources_after
                             (gnu_uniform_int_distribution retries) cfg g n)))
                period) as (n & Hn & Hfull & Hleast).
    { apply N.leb_le.
      pose proof (sources_after_covers retries cfg g period Hretries Hs1 Hsize
                    ltac:(lia)). lia. }
    assert (Hfirst : first_full (gnu_uniform_int_distribution retries) cfg g n = true).
    { apply first_full_spec. split; [|apply N.leb_le, Hfull].
      intros m Hm. apply N.leb_gt, Hleast, Hm. }
    exists n. split; [exact Hn|]. split; [exact Hfirst|].
    intros fuel Hfuel. apply main_random_sources_spec; [exact Hk|].
    exists n. auto.
Qed.

Lemma main_random_sources_returns_witness :
  (∀ s, 1 ≤ s → s < minstd_rand0.modulus →
     ∃ x s', gnu_uniform_int (N.to_nat minstd_rand0.modulus)
               minstd_rand0_min minstd_rand0_max 0
               (U64.wrap (size thousand + U64.modulus - 1)) minstd_rand0.next s
             = Some (x, s')
             ∧ x < size thousand ∧ 1 ≤ s' ∧ s' < minstd_rand0.modulus)
  ∧ ∃ n, (n ≤ N.to_nat minstd_rand0_max)%nat
      ∧ first_full (gnu_uniform_int_distribution (N.to_nat minstd_rand0.modulus))
          sampled_config thousand n = true
      ∧ ∀ fuel, (n ≤ fuel)%nat →
          main_random_sources
            (gnu_uniform_int_distribution (N.to_nat minstd_rand0.modulus)) fuel
            sampled_config thousand
          = Some (sources_after
                    (gnu_uniform_int_distribution (N.to_nat minstd_rand0.modulus))
                    sampled_config thousand n).
Proof.
  apply (main_random_sources_returns (N.to_nat minstd_rand0.modulus)
           sampled_config thousand).
  - discriminate.
  - discriminate.
  - reflexivity.
  - apply Nat.le_refl.
Defined.

(** ** Sanity *)

Ltac float_order :=
  repeat match goal with
  | |- context [Pos.compare_cont Eq ?a ?b] =>
      change (Pos.compare_cont Eq a b) with (Pos.compare a b)
  | H : context [Pos.compare_cont Eq ?a ?b] |- _ =>
      change (Pos.compare_cont Eq a b) with (Pos.compare a b) in H
  end;
  repeat match goal with
  | |- context [Z.compare ?a ?b] => destruct (Z.compare_spec a b)
  | H : context [Z.compare ?a ?b] |- _ => destruct (Z.compare_spec a b)
  end;
  repeat match goal with
  | |- context [Pos.compare ?a ?b] => destruct (Pos.compare_spec a b)
  | H : context [Pos.compare ?a ?b] |- _ => destruct (Pos.compare_spec a b)
  end;
  cbn in *; try discriminate; try reflexivity; try congruence; try lia.

Lemma SFleb_refl x : x ≠ S754_nan → SFleb x x = true.
Proof.
  unfold SFleb, SFcompare. destruct x as [s|[]| |[] m e]; try reflexivity;
    try congruence; intros _; float_order.
Qed.

Lemma SFltb_false_leb x y :
  x ≠ S754_nan → y ≠ S754_nan → SFltb x y = false → SFleb y x = true.
Proof.
  unfold SFltb, SFleb, SFcompare.
  destruct x as [sx|[]| |[] mx ex]; try congruence;
    destruct y as [sy|[]| |[] my ey]; try congruence; intros _ _;
    try reflexivity; try discriminate; float_order.
Qed.

Lemma SFltb_leb x y : SFltb x y = true → SFleb x y = true.
Proof.
  unfold SFltb, SFleb. destruct (SFcompare x y) as [[]|]; congruence.
Qed.

Lemma SFleb_trans x y z :
  SFleb x y = true → SFleb y z = true → SFleb x z = true.
Proof.
  unfold SFleb, SFcompare.
  destruct x as [sx|[]| |[] mx ex]; try discriminate;
    destruct y as [sy|[]| |[] my ey]; try discriminate;
    destruct z as [sz|[]| |[] mz ez]; try discriminate; try reflexivity;
    float_order.
Qed.

Lemma SFleb_not_nan x y : SFleb x y = true → x ≠ S754_nan ∧ y ≠ S754_nan.
Proof.
  unfold SFleb, SFcompare. destruct x, y; try discriminate; split; discriminate.
Qed.

Lemma Sanity_op_step isOwned g st x a :
  current_max a ≠ S754_nan → current_min a ≠ S754_nan →
  (∀ d, st !! x = Some d → isOwned (getGID g x) = true →
        betweeness_centrality d ≠ S754_nan) →
  let a1 := Sanity_op isOwned g st x a in
  current_max a1 ≠ S754_nan ∧ current_min a1 ≠ S754_nan
  ∧ F32.leb (current_max a) (current_max a1) = true
  ∧ F32.leb (current_min a1) (current_min a) = true
  ∧ (current_max a1 = current_max a
     ∨ ∃ d, st !! x = Some d ∧ isOwned (getGID g x) = true
            ∧ current_max a1 = betweeness_centrality d)
  ∧ (current_min a1 = current_min a
     ∨ ∃ d, st !! x = Some d ∧ isOwned (getGID g x) = true
            ∧ current_min a1 = betweeness_centrality d)
  ∧ ∀ d, st !! x = Some d → isOwned (getGID g x) = true →
      F32.leb (betweeness_centrality d) (current_max a1) = true
      ∧ F32.leb (current_min a1) (betweeness_centrality d) = true.
Proof.
  intros Hmax Hmin Hbc. unfold Sanity_op, F32.leb, F32.ltb in *.
  destruct (st !! x) as [d|] eqn:Ex.
  2: { cbv zeta. repeat split; try assumption; try (apply SFleb_refl; assumption);
       try (left; reflexivity). all: intros; discriminate. }
  destruct (isOwned (getGID g x)) eqn:Eo.
  2: { cbv zeta. repeat split; try assumption; try (apply SFleb_refl; assumption);
       try (left; reflexivity). all: intros; discriminate. }
  specialize (Hbc d eq_refl eq_refl). cbv zeta. cbn [current_max current_min].
  destruct (SFltb (current_max a) (betweeness_centrality d)) eqn:E1;
    destruct (SFltb (betweeness_centrality d) (current_min a)) eqn:E2;
    (split; [assumption|]); (split; [assumption|]).
  all: split; [first [apply SFltb_leb; assumption|apply SFleb_refl; assumption]|].
  all: split; [first [apply SFltb_leb; assumption|apply SFleb_refl; assumption]|].
  all: split; [first [left; reflexivity|right; exists d; auto]|].
  all: split; [first [left; reflexivity|right; exists d; auto]|].
  all: intros d' Hd' _; inversion Hd'; subst d'; split.
  all: first [apply SFleb_refl; assumption
             |apply SFltb_false_leb; assumption].
Qed.

Lemma Sanity_fold isOwned g st (nodes : list nat) :
  (∀ v d, owned_in isOwned g nodes st v d →
          betweeness_centrality d ≠ S754_nan) →
  ∀ a, current_max a ≠ S754_nan → current_min a ≠ S754_nan →
    let r := do_all (Sanity_op isOwned g st) nodes a in
    F32.leb (current_max a) (current_max r) = true
    ∧ F32.leb (current_min r) (current_min a) = true
    ∧ (∀ v d, owned_in isOwned g nodes st v d →
         F32.leb (betweeness_centrality d) (current_max r) = true
         ∧ F32.leb (current_min r) (betweeness_centrality d) = true)
    ∧ (current_max r = current_max a
       ∨ ∃ v d, owned_in isOwned g nodes st v d
                ∧ current_max r = betweeness_centrality d)
    ∧ (current_min r = current_min a
       ∨ ∃ v d, owned_in isOwned g nodes st v d
                ∧ current_min r = betweeness_centrality d).
Proof.
  unfold owned_in. induction nodes as [|x l IH]; intros Hbc a Hmax Hmin.
  - cbn. unfold F32.leb.
    split; [apply SFleb_refl; assumption|].
    split; [apply SFleb_refl; assumption|].
    split; [intros v d [H _]; inversion H|]. split; left; reflexivity.
  - cbv zeta. rewrite do_all_cons.
    destruct (Sanity_op_step isOwned g st x a Hmax Hmin)
      as (Hmax1 & Hmin1 & Hle1 & Hle2 & Hat1 & Hat2 & Hx).
    { intros d Hd Ho. apply (Hbc x d). split; [left|auto]. }
    destruct (IH (λ v d H, Hbc v d (conj (list_elem_of_further _ _ _ (proj1 H))
                                         (proj2 H)))
                 (Sanity_op isOwned g st x a) Hmax1 Hmin1)
      as (Hr1 & Hr2 & Hall & Hm1 & Hm2).
    unfold F32.leb in *.
    split; [eapply SFleb_trans; eassumption|].
    split; [eapply SFleb_trans; eassumption|]. split; [|split].
    + intros v d (Hin & Hv & Ho). apply elem_of_cons in Hin as [->|Hin].
      * destruct (Hx d Hv Ho) as [H1 H2].
        split; eapply SFleb_trans; eassumption.
      * apply (Hall v d). auto.
    + destruct Hm1 as [Hm1|(v & d & (Hin & Hv & Ho) & Hm1)].
      * rewrite Hm1. destruct Hat1 as [->|(d & Hd & Ho & ->)]; [left; reflexivity|].
        right. exists x, d. repeat split; try assumption. left.
      * right. exists v, d. repeat split; try assumption. right. exact Hin.
    + destruct Hm2 as [Hm2|(v & d & (Hin & Hv & Ho) & Hm2)].
      * rewrite Hm2. destruct Hat2 as [->|(d & Hd & Ho & ->)]; [left; reflexivity|].
        right. exists x, d. repeat split; try assumption. left.
      * right. exists v, d. repeat split; try assumption. right. exact Hin.
Qed.

(** X19: what [Sanity::go] reports, when no centrality it reads is a
    NaN.  The maximum is at least every centrality of an owned vertex
    of the range and is one of them or the starting value [0]; the
    minimum is at most every one of them and is one of them or the
    starting value [FLT_MAX / 4].  So a graph whose centralities all
    exceed [FLT_MAX / 4], or a range without owned vertices, is reported
    with that starting value as its minimum. *)
Theorem Sanity_go_extremes
    (isOwned : N → bool) (g : Graph) (nodes : list nat) (st : State) :
  (∀ v d, owned_in isOwned g nodes st v d →
          betweeness_centrality d ≠ S754_nan) →
  let r := Sanity_go isOwned g nodes st in
  (∀ v d, owned_in isOwned g nodes st v d →
     F32.leb (betweeness_centrality d) (current_max r) = true
     ∧ F32.leb (current_min r) (betweeness_centrality d) = true)
  ∧ F32.leb F32.zero (current_max r) = true
  ∧ F32.leb (current_min r) (F32.div FLT_MAX (F32.of_N 4)) = true
  ∧ (current_max r = F32.zero
     ∨ ∃ v d, owned_in isOwned g nodes st v d
              ∧ current_max r = betweeness_centrality d)
  ∧ (current_min r = F32.div FLT_MAX (F32.of_N 4)
     ∨ ∃ v d, owned_in isOwned g nodes st v d
              ∧ current_min r = betweeness_centrality d).
Proof.
  intros Hbc r.
  destruct (Sanity_fold isOwned g st nodes Hbc Sanity_start)
    as (H1 & H2 & H3 & H4 & H5); [discriminate|discriminate|].
  fold (Sanity_go isOwned g nodes st) in H1, H2, H3, H4, H5. fold r in H1, H2, H3, H4, H5.
  split; [exact H3|]. split; [exact H1|]. split; [exact H2|].
  split; [exact H4|exact H5].
Qed.

Lemma Sanity_go_extremes_witness :
  let r := Sanity_go (λ _, true) kite (allNodesRange kite_final) kite_final in
  (∀ v d, owned_in (λ _, true) kite (allNodesRange kite_final) kite_final v d →
     F32.leb (betweeness_centrality d) (current_max r) = true
     ∧ F32.leb (current_min r) (betweeness_centrality d) = true)
  ∧ F32.leb F32.zero (current_max r) = true
  ∧ F32.leb (current_min r) (F32.div FLT_MAX (F32.of_N 4)) = true
  ∧ (current_max r = F32.zero
     ∨ ∃ v d, owned_in (λ _, true) kite (allNodesRange kite_final) kite_final v d
              ∧ current_max r = betweeness_centrality d)
  ∧ (current_min r = F32.div FLT_MAX (F32.of_N 4)
     ∨ ∃ v d, owned_in (λ _, true) kite (allNodesRange kite_final) kite_final v d
              ∧ current_min r = betweeness_centrality d).
Proof.
  apply (Sanity_go_extremes (λ _, true) kite (allNodesRange kite_final) kite_final).
  intros v d (Hin & Hv & _).
  do 5 (destruct v as [|v]; [vm_compute in Hv; inversion Hv; discriminate|]).
  vm_compute in Hv. discriminate.
Defined.

(** ** The sigma phase: the path counts it returns *)

Lemma sigma_reads_lookup (st S : State) v :
  sigma_reads <$> st = sigma_reads <$> S →
  sigma_reads <$> (st !! v) = sigma_reads <$> (S !! v).
Proof. intros H. rewrite <- !list_lookup_fmap, H. reflexivity. Qed.

Lemma feeds_reads (st S : State) d t :
  sigma_reads <$> st = sigma_reads <$> S →
  feeds st d t = feeds S d t ∧ sigma_of st t = sigma_of S t.
Proof.
  intros H. pose proof (sigma_reads_lookup st S t H) as Ht.
  unfold feeds, sigma_of, on_dag.
  destruct (st !! t) as [a|], (S !! t) as [b|]; try discriminate; [|auto].
  cbn in Ht. unfold sigma_reads in Ht. inversion Ht. auto.
Qed.

Lemma filter_feeds_reads (st S : State) d (l : list nat) :
  sigma_reads <$> st = sigma_reads <$> S →
  filter (λ t, feeds st d t = true) l = filter (λ t, feeds S d t = true) l.
Proof.
  intros H. induction l as [|t l IH]; [reflexivity|].
  rewrite !filter_cons, IH, (proj1 (feeds_reads st S d t H)). reflexivity.
Qed.

Lemma sigma_of_reads (st S : State) (l : list nat) :
  sigma_reads <$> st = sigma_reads <$> S →
  sigma_of st <$> l = sigma_of S <$> l.
Proof.
  intros H. apply list_fmap_ext. intros i t _. apply (feeds_reads st S zero_node t H).
Qed.

Lemma sigma_take_idle g S v d :
  trim d < U32.modulus → to_add d < U32.modulus → fed g S v = [] →
  sigma_take g S v d = d.
Proof.
  intros Ht Ha Hf. unfold sigma_take. rewrite Hf. cbn [length fmap list_fmap sum_N foldr].
  change (N.of_nat 0) with 0. rewrite !N.add_0_r, !U32_wrap_small by assumption.
  destruct d; reflexivity.
Qed.

(** The operator on one vertex, in a node array that differs from [S]
    only in the buffers of vertices already visited. *)
Lemma NumShortestPaths_op_eq g (S st : State) a x :
  Forall (λ d, trim d < U32.modulus ∧ to_add d < U32.modulus) S →
  sigma_reads <$> st = sigma_reads <$> S → st !! x = S !! x →
  a < U32.modulus →
  NumShortestPaths_op g infinity x (st, a)
  = (match S !! x with
     | Some d => <[x := sigma_take g S x d]> st
     | None => st
     end,
     U32.wrap (a + N.of_nat (length (fed g S x)))).
Proof.
  intros Hrange Hreads Hx Ha. unfold NumShortestPaths_op, fed. cbn [fst].
  rewrite Hx. destruct (S !! x) as [d|] eqn:Ed.
  2: { cbn. rewrite N.add_0_r, U32_wrap_small by exact Ha. reflexivity. }
  rewrite Forall_lookup in Hrange. destruct (Hrange x d Ed) as [Ht Hadd].
  assert (Hidle : fed g S x = [] →
            (st, a) = (<[x := sigma_take g S x d]> st,
                       U32.wrap (a + N.of_nat (length (fed g S x))))).
  { intros Hf. rewrite (sigma_take_idle g S x d Ht Hadd Hf), Hf.
    cbn [length]. change (N.of_nat 0) with 0.
    rewrite N.add_0_r, U32_wrap_small by exact Ha.
    rewrite list_insert_id by (rewrite Hx; reflexivity). reflexivity. }
  assert (Hfed : fed g S x
            = if negb (current_length d =? infinity) && (0 <? num_predecessors d)
              then filter (λ t, feeds S d t = true) (edge_dsts g x) else []).
  { unfold fed. rewrite Ed. reflexivity. }
  destruct (negb (current_length d =? infinity)); cbn [andb] in *;
    [|rewrite <- Hfed; apply Hidle, Hfed].
  destruct (0 <? num_predecessors d);
    [|rewrite <- Hfed; apply Hidle, Hfed].
  assert (Hid : <[x := set_to_add (to_add d) (set_trim (trim d) d)]> st = st).
  { apply list_insert_id. rewrite Hx. f_equal. unfold set_to_add, set_trim.
    cbn. symmetry. apply set_get_eta. }
  rewrite <- Hid at 1.
  assert (Hsx : st !! x = Some d) by exact Hx.
  destruct (NumShortestPaths_edges (edge_dsts g x) st x d (to_add d) (trim d) a Hsx)
    as [E|[Hnil E]]; rewrite E; cbv zeta.
  - rewrite (filter_feeds_reads st S d _ Hreads), (sigma_of_reads st S _ Hreads).
    unfold sigma_take. rewrite Hfed. reflexivity.
  - rewrite Hid. rewrite (filter_feeds_reads st S d _ Hreads) in Hnil.
    rewrite <- Hfed in Hnil. rewrite <- Hfed. apply Hidle, Hnil.
Qed.

Lemma sigma_reads_take g S (st : State) x d :
  st !! x = Some d →
  sigma_reads <$> <[x := sigma_take g S x d]> st = sigma_reads <$> st.
Proof. intros Hx. eapply frame_insert; [exact Hx|reflexivity]. Qed.

(** The propagate pass over a range without repetition. *)
Lemma NumShortestPaths_pass g (S : State) :
  Forall (λ d, trim d < U32.modulus ∧ to_add d < U32.modulus) S →
  ∀ (range : list nat) (st : State) a,
    NoDup range →
    sigma_reads <$> st = sigma_reads <$> S →
    (∀ v, v ∈ range → st !! v = S !! v) →
    a < U32.modulus →
    let w := do_all (NumShortestPaths_op g infinity) range (st, a) in
    (∀ v, v ∈ range → w.1 !! v = sigma_take g S v <$> S !! v)
    ∧ (∀ v, v ∉ range → w.1 !! v = st !! v)
    ∧ w.2 = U32.wrap (a + N.of_nat (length (range ≫= fed g S))).
Proof.
  intros Hrange. induction range as [|x range IH]; intros st a Hnd Hreads Hsame Ha.
  - cbn. split; [intros v Hv; inversion Hv|]. split; [reflexivity|].
    rewrite N.add_0_r, U32_wrap_small by exact Ha. reflexivity.
  - cbv zeta. rewrite do_all_cons.
    apply NoDup_cons in Hnd as [Hx Hnd].
    rewrite (NumShortestPaths_op_eq g S st a x Hrange Hreads
               (Hsame x (list_elem_of_here _ _)) Ha).
    set (st1 := match S !! x with
                | Some d => <[x := sigma_take g S x d]> st
                | None => st
                end).
    assert (Hreads1 : sigma_reads <$> st1 = sigma_reads <$> S).
    { unfold st1. destruct (S !! x) as [d|] eqn:Ed; [|exact Hreads].
      rewrite sigma_reads_take; [exact Hreads|].
      rewrite (Hsame x (list_elem_of_here _ _)). exact Ed. }
    assert (Hother : ∀ v, v ≠ x → st1 !! v = st !! v).
    { intros v Hv. unfold st1. destruct (S !! x); [|reflexivity].
      apply list_lookup_insert_ne. congruence. }
    assert (Hx1 : st1 !! x = sigma_take g S x <$> S !! x).
    { unfold st1. destruct (S !! x) as [d|] eqn:Ed.
      - rewrite list_lookup_insert_eq; [reflexivity|].
        eapply lookup_lt_Some. rewrite (Hsame x (list_elem_of_here _ _)). exact Ed.
      - rewrite (Hsame x (list_elem_of_here _ _)). exact Ed. }
    destruct (IH st1 (U32.wrap (a + N.of_nat (length (fed g S x)))) Hnd Hreads1)
      as (H1 & H2 & H3).
    { intros v Hv. rewrite Hother; [apply Hsame; right; exact Hv|].
      intros ->. contradiction. }
    { apply U32_wrap_lt. }
    split; [|split].
    + intros v Hv. apply elem_of_cons in Hv as [->|Hv]; [|apply H1, Hv].
      rewrite H2 by exact Hx. exact Hx1.
    + intros v Hv. rewrite H2 by (intros H; apply Hv; right; exact H).
      apply Hother. intros ->. apply Hv. left.
    + rewrite H3, bind_cons, length_app, U32_wrap_add_l. f_equal. lia.
Qed.

Lemma sigma_changes_eq d :
  NumShortestPathsChanges_node infinity d = Ok (sigma_changes d).
Proof.
  unfold NumShortestPathsChanges_node, sigma_changes.
  destruct (current_length d =? infinity), (num_predecessors d =? 0),
    (propogation_flag d) eqn:Hp, (num_successors d =? 0),
    (num_short_paths_flag d) eqn:Hs; cbn; rewrite ?Hp, ?Hs; cbn;
    try reflexivity; f_equal; destruct d; cbn in *; subst; reflexivity.
Qed.

Lemma map_nodes_pure (f : NodeData → NodeData) (st : State) k :
  map_nodes (λ _ d, Ok (f d)) k st = Ok (f <$> st).
Proof.
  revert k. induction st as [|d st IH]; intros k; [reflexivity|].
  cbn [map_nodes mbind res_bind]. rewrite IH. reflexivity.
Qed.

Lemma NumShortestPathsChanges_go_pure st :
  NumShortestPathsChanges_go st = Ok (sigma_changes <$> st).
Proof.
  rewrite NumShortestPathsChanges_go_eq, <- (map_nodes_pure sigma_changes st 0).
  generalize 0%nat. induction st as [|d st IH]; intros k; [reflexivity|].
  cbn [map_nodes]. rewrite sigma_changes_eq, IH. reflexivity.
Qed.

(** One round, vertex by vertex. *)
Lemma NumShortestPaths_round_eq g (S S' : State) a :
  Forall (λ d, trim d < U32.modulus ∧ to_add d < U32.modulus) S →
  NumShortestPaths_round g S = Ok (S', a) →
  length S' = length S
  ∧ a = U32.wrap (N.of_nat (length (allNodesWithEdgesRange g ≫= fed g S)))
  ∧ ∀ v d, S !! v = Some d →
      S' !! v
      = Some (sigma_changes (NSPAdd_node (NSPTrim_node
                (if decide (v < numNodesWithEdges g)%nat
                 then sigma_take g S v d else d)))).
Proof.
  intros Hrange. unfold NumShortestPaths_round.
  destruct (NumShortestPaths_pass g S Hrange (allNodesWithEdgesRange g) S 0)
    as (H1 & H2 & H3);
    [apply NoDup_seq|reflexivity|reflexivity|reflexivity|].
  destruct (do_all (NumShortestPaths_op g infinity) _ (S, 0)) as [s1 a1].
  cbn [fst snd] in H1, H2, H3.
  rewrite NumShortestPathsChanges_go_pure. cbn [mbind res_bind].
  intros H. inversion H; subst S' a. clear H.
  assert (Hlen : length s1 = length S).
  { destruct (Nat.lt_ge_cases (length s1) (length S)) as [Hlt|Hge].
    - destruct (lookup_lt_is_Some_2 S (length s1) Hlt) as [d Hd].
      destruct (decide (length s1 ∈ allNodesWithEdgesRange g)) as [Hin|Hout].
      + pose proof (H1 _ Hin) as E. rewrite Hd in E. cbn in E.
        apply lookup_lt_Some in E. lia.
      + pose proof (H2 _ Hout) as E. rewrite Hd in E.
        apply lookup_lt_Some in E. lia.
    - destruct (Nat.eq_dec (length s1) (length S)) as [E|E]; [exact E|].
      assert (Hlt : (length S < length s1)%nat) by lia.
      destruct (lookup_lt_is_Some_2 s1 (length S) Hlt) as [d Hd].
      destruct (decide (length S ∈ allNodesWithEdgesRange g)) as [Hin|Hout].
      + pose proof (H1 _ Hin) as E1. rewrite Hd in E1.
        rewrite (lookup_ge_None_2 S (length S)) in E1 by lia. discriminate.
      + pose proof (H2 _ Hout) as E1. rewrite Hd in E1.
        rewrite (lookup_ge_None_2 S (length S)) in E1 by lia. discriminate. }
  split; [rewrite NSPAdd_go_eq, NSPTrim_go_eq, !length_fmap; exact Hlen|].
  split; [rewrite H3, N.add_0_l; reflexivity|].
  intros v d Hv. rewrite NSPAdd_go_eq, NSPTrim_go_eq, !list_lookup_fmap.
  destruct (decide (v < numNodesWithEdges g)%nat) as [Hin|Hout].
  - rewrite H1 by (apply elem_of_seq; lia). rewrite Hv. reflexivity.
  - rewrite H2 by (unfold allNodesWithEdgesRange; rewrite elem_of_seq; lia).
    rewrite Hv. reflexivity.
Qed.

(** *** The shortest-path DAG *)

Lemma dag_edges_nearer g (st : State) s t :
  Forall (λ d, current_length d ≤ infinity) st →
  (s, t) ∈ dag_edges g st →
  (s < numNodesWithEdges g)%nat ∧ t ∈ edge_dsts g s
  ∧ ∃ ds dt, st !! s = Some ds ∧ st !! t = Some dt
      ∧ current_length ds = current_length dt + 1
      ∧ current_length ds < infinity.
Proof.
  intros Hb He.
  apply elem_of_dag_edges in He as (Hs & Ht & ds & dt & Es & Et & Hinf & Hd).
  rewrite Forall_lookup in Hb.
  pose proof (Hb s ds Es) as Hbs. pose proof (Hb t dt Et) as Hbt.
  assert (Hadd : U32.add (current_length dt) 1 = current_length dt + 1).
  { rewrite <- (U32_add_1_small _ Hbt). unfold U32.add. f_equal. lia. }
  rewrite Hadd in Hd. split; [exact Hs|]. split; [exact Ht|].
  exists ds, dt. repeat split; try assumption; lia.
Qed.

Lemma filter_ext_bool {X : Type} (f h : X → bool) (l : list X) :
  (∀ x, x ∈ l → f x = h x) →
  filter (λ x, f x = true) l = filter (λ x, h x = true) l.
Proof.
  induction l as [|x l IH]; intros H; [reflexivity|].
  rewrite !filter_cons, (H x (list_elem_of_here _ _)), IH; [reflexivity|].
  intros y Hy. apply H. right. exact Hy.
Qed.

Lemma filter_none_bool {X : Type} (f : X → bool) (l : list X) :
  (∀ x, x ∈ l → f x = false) → filter (λ x, f x = true) l = [].
Proof.
  induction l as [|x l IH]; intros H; [reflexivity|].
  rewrite filter_cons, (H x (list_elem_of_here _ _)).
  destruct (decide (false = true)) as [|_]; [discriminate|].
  apply IH. intros y Hy. apply H. right. exact Hy.
Qed.

Lemma dag_preds_eq g (st : State) v :
  dag_preds g st v
  = if reached st v then filter (λ t, dag_edge st v t = true) (edge_dsts g v)
    else [].
Proof.
  unfold dag_preds, out_dag_edges. destruct (reached st v); [|reflexivity].
  rewrite <- list_fmap_compose. apply list_fmap_id.
Qed.

Lemma out_dag_edges_fst g (st : State) s e : e ∈ out_dag_edges g st s → e.1 = s.
Proof.
  unfold out_dag_edges. destruct (reached st s); [|intros H; inversion H].
  intros H. apply list_elem_of_fmap in H as (t & -> & _). reflexivity.
Qed.

Lemma filter_fst_out_dag_edges g (st : State) s v :
  filter (λ e : nat * nat, e.1 = v) (out_dag_edges g st s)
  = if decide (s = v) then out_dag_edges g st s else [].
Proof.
  pose proof (out_dag_edges_fst g st s) as H.
  induction (out_dag_edges g st s) as [|e l IH].
  - destruct (decide (s = v)); reflexivity.
  - rewrite filter_cons, IH by (intros e' He'; apply H; right; exact He').
    pose proof (H e (list_elem_of_here _ _)) as He.
    destruct (decide (s = v)) as [->|Hne].
    + destruct (decide (e.1 = v)); [reflexivity|contradiction].
    + destruct (decide (e.1 = v)); [congruence|reflexivity].
Qed.

Lemma filter_fst_bind g (st : State) v (range : list nat) :
  NoDup range →
  filter (λ e : nat * nat, e.1 = v) (range ≫= out_dag_edges g st)
  = if decide (v ∈ range) then out_dag_edges g st v else [].
Proof.
  induction range as [|s range IH]; intros Hnd.
  - cbn. destruct (decide (v ∈ [])) as [H|_]; [inversion H|reflexivity].
  - apply NoDup_cons in Hnd as [Hs Hnd].
    rewrite bind_cons, filter_app, IH, filter_fst_out_dag_edges by exact Hnd.
    destruct (decide (s = v)) as [->|Hne].
    + destruct (decide (v ∈ range)); [contradiction|].
      destruct (decide (v ∈ v :: range)) as [_|H]; [apply app_nil_r|].
      exfalso. apply H. left.
    + destruct (decide (v ∈ range)) as [Hin|Hout].
      * destruct (decide (v ∈ s :: range)) as [_|H]; [reflexivity|].
        exfalso. apply H. right. exact Hin.
      * destruct (decide (v ∈ s :: range)) as [H|_]; [|reflexivity].
        apply elem_of_cons in H as [->|H]; contradiction.
Qed.

Lemma count_out_dag_edges g (st : State) v :
  count_out (dag_edges g st) v
  = if decide (v < numNodesWithEdges g)%nat
    then N.of_nat (length (dag_preds g st v)) else 0.
Proof.
  unfold count_out, dag_edges, allNodesWithEdgesRange.
  rewrite filter_fst_bind by apply NoDup_seq.
  destruct (decide (v ∈ seq 0 (numNodesWithEdges g))) as [Hin|Hout];
    destruct (decide (v < numNodesWithEdges g)%nat) as [Hlt|Hge];
    try reflexivity.
  - unfold dag_preds. rewrite length_fmap. reflexivity.
  - apply elem_of_seq in Hin. lia.
  - exfalso. apply Hout, elem_of_seq. lia.
Qed.

Lemma count_out_pos g (st : State) v :
  0 < count_out (dag_edges g st) v →
  (v < numNodesWithEdges g)%nat ∧ ∃ t, (v, t) ∈ dag_edges g st.
Proof.
  intros H. unfold count_out in H.
  destruct (filter (λ e : nat * nat, e.1 = v) (dag_edges g st)) as [|[s t] l] eqn:E;
    [cbn in H; lia|].
  assert (Hin : (s, t) ∈ filter (λ e : nat * nat, e.1 = v) (dag_edges g st)).
  { rewrite E. left. }
  apply list_elem_of_filter in Hin as [Hfst Hin]. cbn in Hfst. subst s.
  split; [|exists t; exact Hin].
  apply elem_of_dag_edges in Hin as [Hs _]. exact Hs.
Qed.

Lemma dag_preds_dag_edges g (st : State) v t :
  (v < numNodesWithEdges g)%nat →
  t ∈ dag_preds g st v ↔ (v, t) ∈ dag_edges g st.
Proof.
  intros Hv. unfold dag_preds, dag_edges, allNodesWithEdgesRange.
  rewrite list_elem_of_bind, list_elem_of_fmap. split.
  - intros ([s t'] & -> & He). pose proof (out_dag_edges_fst _ _ _ _ He) as Hs.
    cbn in Hs. subst s. exists v. split; [exact He|]. apply elem_of_seq. lia.
  - intros (s & He & _). pose proof (out_dag_edges_fst _ _ _ _ He) as Hs.
    cbn in Hs. subst s. exists (v, t). split; [reflexivity|exact He].
Qed.

Lemma length_fed_le g (S : State) v :
  (length (fed g S v) ≤ length (edge_dsts g v))%nat.
Proof.
  unfold fed. destruct (S !! v) as [d|]; [|cbn; lia].
  destruct (_ && _); [apply length_filter|cbn; lia].
Qed.

Lemma length_bind_fed_le g (S : State) (range : list nat) :
  (length (range ≫= fed g S)
   ≤ length (range ≫= λ s, pair s <$> edge_dsts g s))%nat.
Proof.
  induction range as [|s range IH]; [reflexivity|].
  rewrite !bind_cons, !length_app, length_fmap.
  pose proof (length_fed_le g S s). lia.
Qed.

(** *** One round at level [r] *)

Lemma sigma_level_lookup g S0 r (S : State) v d :
  sigma_level g S0 r S → S !! v = Some d →
  ∃ d0, S0 !! v = Some d0.
Proof.
  intros [Hlen _] Hv. apply lookup_lt_is_Some_2. rewrite <- Hlen.
  eapply lookup_lt_Some, Hv.
Qed.

Lemma sigma_level_buffers g S0 r (S : State) :
  sigma_level g S0 r S →
  Forall (λ d, trim d < U32.modulus ∧ to_add d < U32.modulus) S.
Proof.
  intros Hl. apply Forall_lookup. intros v d Hv.
  destruct (sigma_level_lookup g S0 r S v d Hl Hv) as [d0 E0].
  destruct (proj2 Hl v d0 E0) as (d' & Hd' & _ & _ & Ht & Ha & _).
  rewrite Hv in Hd'. inversion Hd'; subst d'. rewrite Ht, Ha.
  split; reflexivity.
Qed.

Lemma sigma_ready_bound g S0 :
  sigma_ready g S0 → Forall (λ d, current_length d ≤ infinity) S0.
Proof.
  intros [_ H]. apply Forall_lookup. intros v d Hv. apply (H v d Hv).
Qed.

Lemma fed_at_level g S0 r (S : State) v d0 :
  sigma_ready g S0 → sigma_level g S0 r S →
  S0 !! v = Some d0 → current_length d0 = r + 1 → r + 1 < infinity →
  fed g S v = dag_preds g S0 v
  ∧ (v < numNodesWithEdges g)%nat
  ∧ N.of_nat (length (dag_preds g S0 v)) = count_out (dag_edges g S0) v
  ∧ 0 < count_out (dag_edges g S0) v.
Proof.
  intros Hready Hlevel Hv Hd Hr.
  destruct (proj2 Hready v d0 Hv) as (Hb & _ & _ & _ & _ & _ & _ & _ & Hpos).
  assert (Hc : 0 < count_out (dag_edges g S0) v) by (apply Hpos; lia).
  destruct (count_out_pos g S0 v Hc) as [Hvn _].
  pose proof (count_out_dag_edges g S0 v) as Hcount.
  destruct (decide (v < numNodesWithEdges g)%nat); [|contradiction].
  split; [|auto].
  destruct (proj2 Hlevel v d0 Hv) as (d & Ed & Hdist & _ & _ & _ & _ & Hreached).
  destruct (Hreached ltac:(lia)) as (_ & _ & _ & Hwait).
  destruct (Hwait ltac:(lia)) as (Hnp & _).
  unfold fed. rewrite Ed, dag_preds_eq. unfold reached. rewrite Hv.
  assert (Hne : (current_length d =? infinity) = false) by (apply N.eqb_neq; lia).
  assert (Hne0 : (current_length d0 =? infinity) = false) by (apply N.eqb_neq; lia).
  assert (Hnp' : (0 <? num_predecessors d) = true) by (apply N.ltb_lt; lia).
  rewrite Hne, Hne0, Hnp'. cbn [negb andb].
  apply filter_ext_bool. intros t _. unfold feeds, dag_edge. rewrite Hv.
  destruct (S0 !! t) as [dt0|] eqn:Et0.
  - destruct (proj2 Hlevel t dt0 Et0) as (dt & Edt & Hdt & _ & _ & _ & _ & Hrt).
    rewrite Edt. unfold on_dag. rewrite Hdt, Hdist.
    destruct (U32.add (current_length dt0) 1 =? current_length d0) eqn:Hon;
      [|apply andb_false_r].
    apply N.eqb_eq in Hon.
    destruct (proj2 Hready t dt0 Et0) as (Hbt & _).
    assert (Hadd : U32.add (current_length dt0) 1 = current_length dt0 + 1).
    { rewrite <- (U32_add_1_small _ Hbt). unfold U32.add. f_equal. lia. }
    rewrite Hadd in Hon.
    destruct (Hrt ltac:(lia)) as (_ & _ & Hfire & _).
    rewrite (Hfire ltac:(lia)). reflexivity.
  - rewrite (lookup_ge_None_2 S t); [reflexivity|].
    rewrite (proj1 Hlevel). apply lookup_ge_None, Et0.
Qed.

Lemma fed_off_level g S0 r (S : State) v :
  sigma_ready g S0 → sigma_level g S0 r S →
  (∀ d0, S0 !! v = Some d0 → current_length d0 = r + 1 → r + 1 < infinity → False) →
  fed g S v = [].
Proof.
  intros Hready Hlevel Hoff. unfold fed.
  destruct (S !! v) as [d|] eqn:Ed; [|reflexivity].
  destruct (sigma_level_lookup g S0 r S v d Hlevel Ed) as [d0 Hv].
  destruct (proj2 Hlevel v d0 Hv) as (d' & Ed' & Hdist & _ & _ & _ & _ & Hreached).
  rewrite Ed in Ed'. inversion Ed'; subst d'. clear Ed'.
  destruct (proj2 Hready v d0 Hv) as (Hb & _).
  destruct (N.eqb_spec (current_length d) infinity) as [Hinf|Hinf]; [reflexivity|].
  cbn [negb andb].
  destruct (N.ltb_spec 0 (num_predecessors d)) as [Hnp|Hnp]; [|reflexivity].
  destruct (Hreached ltac:(lia)) as (Hdone & _ & _ & Hwait).
  assert (Hfar : r + 1 < current_length d0).
  { destruct (N.le_gt_cases (current_length d0) r) as [Hle|Hgt].
    - destruct (Hdone Hle) as [Hz _]. lia.
    - destruct (N.eq_dec (current_length d0) (r + 1)) as [E|E]; [|lia].
      exfalso. apply (Hoff d0 Hv E). lia. }
  apply filter_none_bool. intros t _. unfold feeds.
  destruct (S !! t) as [dt|] eqn:Edt; [|reflexivity].
  destruct (sigma_level_lookup g S0 r S t dt Hlevel Edt) as [dt0 Et0].
  destruct (proj2 Hlevel t dt0 Et0) as (dt' & Edt' & Hdt & _ & _ & _ & _ & Hrt).
  rewrite Edt in Edt'. inversion Edt'; subst dt'. clear Edt'.
  unfold on_dag.
  destruct (U32.add (current_length dt) 1 =? current_length d) eqn:Hon;
    [|apply andb_false_r].
  apply N.eqb_eq in Hon.
  destruct (proj2 Hready t dt0 Et0) as (Hbt & _).
  assert (Hadd : U32.add (current_length dt) 1 = current_length dt + 1).
  { rewrite Hdt, <- (U32_add_1_small _ Hbt). unfold U32.add. f_equal. lia. }
  rewrite Hadd in Hon.
  destruct (Hrt ltac:(lia)) as (_ & _ & _ & Hwt).
  destruct (Hwt ltac:(lia)) as (_ & _ & Hp & _). rewrite Hp. reflexivity.
Qed.

Lemma sigma_round_idle d :
  trim d = 0 → to_add d = 0 → NSPAdd_node (NSPTrim_node d) = d.
Proof.
  intros Ht Ha. unfold NSPTrim_node. rewrite Ht. cbn.
  unfold NSPAdd_node. rewrite Ha. reflexivity.
Qed.

Lemma sigma_round_fire d n A :
  trim d = 0 → to_add d = 0 → num_predecessors d = n → 0 < n < U32.modulus →
  num_shortest_paths d = 0 → propogation_flag d = false →
  num_short_paths_flag d = false → current_length d ≠ infinity →
  let d' :=
    sigma_changes (NSPAdd_node (NSPTrim_node
      (set_to_add (U32.wrap (to_add d + A))
         (set_trim (U32.wrap (trim d + n)) d)))) in
  current_length d' = current_length d
  ∧ num_successors d' = num_successors d
  ∧ trim d' = 0 ∧ to_add d' = 0
  ∧ num_predecessors d' = 0
  ∧ num_shortest_paths d' = U32.wrap A
  ∧ propogation_flag d' = true
  ∧ num_short_paths_flag d' = true.
Proof.
  intros Ht Ha Hn Hr Hs Hp Hf Hinf. rewrite Ht, Ha, !N.add_0_l.
  assert (Hwn : U32.wrap n = n) by (apply U32_wrap_small; lia).
  rewrite Hwn. unfold NSPTrim_node.
  cbn [trim set_to_add set_trim num_predecessors].
  assert (Hpos : (0 <? n) = true) by (apply N.ltb_lt; lia). rewrite Hpos, Hn.
  assert (Hsub : U32.sub n n = 0).
  { unfold U32.sub. rewrite Hwn.
    replace (n + U32.modulus - n) with U32.modulus by lia.
    apply N.Div0.mod_same. }
  rewrite Hsub. unfold NSPAdd_node.
  cbn [to_add set_to_add set_trim set_num_predecessors num_shortest_paths].
  rewrite Hs.
  assert (Hww : U32.add 0 (U32.wrap A) = U32.wrap A).
  { unfold U32.add. rewrite N.add_0_l. apply U32_wrap_small, U32_wrap_lt. }
  rewrite Hww.
  apply N.eqb_neq in Hinf.
  destruct (0 <? U32.wrap A) eqn:HA; unfold sigma_changes;
    cbn [current_length num_predecessors propogation_flag num_successors
         num_short_paths_flag set_to_add set_trim set_num_predecessors
         set_num_shortest_paths set_num_short_paths_flag set_propogation_flag
         trim to_add num_shortest_paths];
    rewrite Hinf, Hp, Hf; cbn [negb andb N.eqb];
    cbn [current_length num_predecessors propogation_flag num_successors
         num_short_paths_flag set_to_add set_trim set_num_predecessors
         set_num_shortest_paths set_num_short_paths_flag set_propogation_flag
         trim to_add num_shortest_paths].
  - repeat split.
  - apply N.ltb_ge in HA. repeat split; lia.
Qed.

Lemma sigma_changes_keeps d :
  let d' := sigma_changes d in
  current_length d' = current_length d ∧ num_successors d' = num_successors d
  ∧ trim d' = trim d ∧ to_add d' = to_add d
  ∧ num_predecessors d' = num_predecessors d
  ∧ num_shortest_paths d' = num_shortest_paths d.
Proof.
  unfold sigma_changes.
  destruct (negb _); [|repeat split].
  destruct (_ && _); [destruct (negb _); repeat split|].
  destruct (_ && _); repeat split.
Qed.

Lemma sigma_changes_unreached d :
  current_length d = infinity → sigma_changes d = d.
Proof. intros H. unfold sigma_changes. rewrite H. reflexivity. Qed.

Lemma sigma_changes_waiting d :
  num_predecessors d ≠ 0 → sigma_changes d = d.
Proof.
  intros H. apply N.eqb_neq in H. unfold sigma_changes. rewrite H.
  destruct (negb _); reflexivity.
Qed.

Lemma sigma_changes_done d :
  num_predecessors d = 0 → current_length d ≠ infinity →
  (propogation_flag d = false → num_short_paths_flag d = true) →
  let d' := sigma_changes d in
  (propogation_flag d' = true → num_successors d = 0)
  ∧ (propogation_flag d' = false → num_short_paths_flag d' = true).
Proof.
  intros Hn Hinf Hsp. apply N.eqb_neq in Hinf. unfold sigma_changes.
  rewrite Hinf, Hn. cbn [negb N.eqb andb].
  destruct (propogation_flag d) eqn:Hp.
  - destruct (N.eqb_spec (num_successors d) 0) as [Hs|Hs]; cbn [negb].
    + split; [auto|]. rewrite Hp. discriminate.
    + cbn. split; [discriminate|reflexivity].
  - rewrite (Hsp eq_refl). cbn [negb]. split; [rewrite Hp; discriminate|].
    intros _. apply Hsp. reflexivity.
Qed.

Lemma bind_nil_iff {X Y : Type} (f : X → list Y) (l : list X) :
  l ≫= f = [] ↔ ∀ x, x ∈ l → f x = [].
Proof.
  induction l as [|x l IH].
  - split; [intros _ y Hy; inversion Hy|reflexivity].
  - rewrite bind_cons. split.
    + intros H. apply app_eq_nil in H as [H1 H2]. intros y Hy.
      apply elem_of_cons in Hy as [->|Hy]; [exact H1|]. apply IH; assumption.
    + intros H. rewrite (H x (list_elem_of_here _ _)). cbn.
      apply IH. intros y Hy. apply H. right. exact Hy.
Qed.

(** What round [r] does to the record of a vertex. *)
Lemma sigma_round_vertex g S0 r (S S' : State) a v d0 d :
  sigma_ready g S0 → sigma_level g S0 r S →
  NumShortestPaths_round g S = Ok (S', a) →
  S0 !! v = Some d0 → S !! v = Some d →
  (current_length d0 = r + 1 → r + 1 < infinity →
   S' !! v
   = Some (sigma_changes (NSPAdd_node (NSPTrim_node
       (set_to_add
          (U32.wrap (to_add d + sum_N (sigma_of S <$> dag_preds g S0 v)))
          (set_trim
             (U32.wrap (trim d + count_out (dag_edges g S0) v)) d))))))
  ∧ ((current_length d0 = r + 1 → r + 1 < infinity → False) →
     S' !! v = Some (sigma_changes d)).
Proof.
  intros Hready Hlevel Hround Hv0 Hv.
  pose proof (sigma_level_buffers g S0 r S Hlevel) as Hbuf.
  destruct (NumShortestPaths_round_eq g S S' a Hbuf Hround) as (_ & _ & Hnodes).
  rewrite (Hnodes v d Hv). split.
  - intros Hd Hr.
    destruct (fed_at_level g S0 r S v d0 Hready Hlevel Hv0 Hd Hr)
      as (Hfed & Hvn & Hcount & _).
    destruct (decide (v < numNodesWithEdges g)%nat); [|contradiction].
    unfold sigma_take. rewrite Hfed, Hcount. reflexivity.
  - intros Hoff.
    assert (Hfed : fed g S v = []).
    { apply (fed_off_level g S0 r S v Hready Hlevel). intros d0' Hv0'.
      rewrite Hv0 in Hv0'. inversion Hv0'; subst d0'. exact Hoff. }
    rewrite Forall_lookup in Hbuf. destruct (Hbuf v d Hv) as [Ht Ha].
    rewrite (sigma_take_idle g S v d Ht Ha Hfed).
    destruct (proj2 Hlevel v d0 Hv0) as (d' & Ed' & _ & _ & Ht0 & Ha0 & _).
    rewrite Hv in Ed'. inversion Ed'; subst d'.
    destruct (decide _); rewrite (sigma_round_idle d Ht0 Ha0); reflexivity.
Qed.

(** A vertex that is not at distance [r + 1] keeps its path count in
    round [r]. *)
Lemma sigma_round_keeps g S0 r (S S' : State) a t dt0 :
  sigma_ready g S0 → sigma_level g S0 r S →
  NumShortestPaths_round g S = Ok (S', a) →
  S0 !! t = Some dt0 → current_length dt0 ≤ r →
  sigma_of S' t = sigma_of S t.
Proof.
  intros Hready Hlevel Hround Ht0 Hle.
  destruct (proj2 Hlevel t dt0 Ht0) as (dt & Et & _).
  destruct (sigma_round_vertex g S0 r S S' a t dt0 dt Hready Hlevel Hround Ht0 Et)
    as [_ Hidle].
  unfold sigma_of. rewrite Hidle by lia. rewrite Et.
  apply (sigma_changes_keeps dt).
Qed.

Lemma length_dag_edges_le g (st : State) :
  (length (dag_edges g st) ≤ length (all_edges g))%nat.
Proof.
  unfold dag_edges, all_edges.
  induction (allNodesWithEdgesRange g) as [|s range IH]; [reflexivity|].
  rewrite !bind_cons, !length_app, length_fmap.
  assert (length (out_dag_edges g st s) ≤ length (edge_dsts g s))%nat; [|lia].
  unfold out_dag_edges. destruct (reached st s); [|cbn; lia].
  rewrite length_fmap. apply length_filter.
Qed.

Lemma count_out_lt g S0 v :
  sigma_ready g S0 → count_out (dag_edges g S0) v < U32.modulus.
Proof.
  intros [Hsmall _]. pose proof (count_key_le fst (dag_edges g S0) v) as H1.
  pose proof (length_dag_edges_le g S0) as H2.
  unfold count_key in H1. unfold count_out. lia.
Qed.

Lemma sigma_preds_level g S0 v d0 t :
  sigma_ready g S0 → S0 !! v = Some d0 →
  0 < current_length d0 < infinity → t ∈ dag_preds g S0 v →
  ∃ dt0, S0 !! t = Some dt0 ∧ current_length d0 = current_length dt0 + 1.
Proof.
  intros Hready Hv Hd Ht.
  destruct (proj2 Hready v d0 Hv) as (_ & _ & _ & _ & _ & _ & _ & _ & Hpos).
  destruct (count_out_pos g S0 v (Hpos Hd)) as [Hvn _].
  apply (dag_preds_dag_edges g S0 v t Hvn) in Ht.
  destruct (dag_edges_nearer g S0 v t (sigma_ready_bound g S0 Hready) Ht)
    as (_ & _ & ds & dt & Es & Et & Hlen & _).
  rewrite Hv in Es. inversion Es; subst ds. eauto.
Qed.

Lemma sum_sigma_of_ext (S S' : State) (l : list nat) :
  (∀ t, t ∈ l → sigma_of S' t = sigma_of S t) →
  sum_N (sigma_of S' <$> l) = sum_N (sigma_of S <$> l).
Proof.
  intros H. f_equal. apply list_fmap_ext. intros i t Hi. apply H.
  eapply list_elem_of_lookup_2, Hi.
Qed.

Lemma sigma_round_level g S0 r (S S' : State) a :
  sigma_ready g S0 → sigma_level g S0 r S →
  NumShortestPaths_round g S = Ok (S', a) →
  sigma_level g S0 (r + 1) S'.
Proof.
  intros Hready Hlevel Hround.
  pose proof (sigma_level_buffers g S0 r S Hlevel) as Hbuf.
  destruct (NumShortestPaths_round_eq g S S' a Hbuf Hround) as (Hlen & _ & _).
  split; [rewrite Hlen; apply Hlevel|]. intros v d0 Hv0.
  destruct (proj2 Hlevel v d0 Hv0)
    as (d & Ed & Hdist & Hsucc & Ht & Ha & Hunr & Hreached).
  destruct (sigma_round_vertex g S0 r S S' a v d0 d Hready Hlevel Hround Hv0 Ed)
    as [Hfire Hidle].
  destruct (proj2 Hready v d0 Hv0) as (Hb & _ & _ & _ & _ & _ & _ & _ & Hpos).
  assert (Hsums : ∀ d1, S0 !! v = Some d1 → 0 < current_length d1 < infinity →
            current_length d1 ≤ r + 1 →
            sum_N (sigma_of S' <$> dag_preds g S0 v)
            = sum_N (sigma_of S <$> dag_preds g S0 v)).
  { intros d1 Hv1 Hd1 Hle. apply sum_sigma_of_ext. intros t Ht'.
    destruct (sigma_preds_level g S0 v d1 t Hready Hv1 Hd1 Ht') as (dt0 & Et0 & Hl).
    apply (sigma_round_keeps g S0 r S S' a t dt0 Hready Hlevel Hround Et0). lia. }
  destruct (decide (current_length d0 = r + 1 ∧ r + 1 < infinity)) as [[Hd Hr]|Hoff].
  - specialize (Hfire Hd Hr).
    destruct (Hreached ltac:(lia)) as (_ & _ & _ & Hwait).
    destruct (Hwait ltac:(lia)) as (Hnp & Hsig & Hprop & Hsp).
    pose proof (count_out_lt g S0 v Hready) as Hlt.
    destruct (sigma_round_fire d (count_out (dag_edges g S0) v)
                (sum_N (sigma_of S <$> dag_preds g S0 v)) Ht Ha Hnp
                (conj (Hpos ltac:(lia)) Hlt) Hsig Hprop Hsp ltac:(lia))
      as (F1 & F2 & F3 & F4 & F5 & F6 & F7 & F8).
    eexists. split; [exact Hfire|].
    split; [rewrite F1; exact Hdist|]. split; [rewrite F2; exact Hsucc|].
    split; [exact F3|]. split; [exact F4|]. split; [intros Hi; lia|].
    intros _. split; [|split; [|split]].
    + intros _. split; [exact F5|]. split; [rewrite F1; intros Hz; lia|].
      intros _. rewrite F6. f_equal. symmetry.
      apply (Hsums d0 Hv0); lia.
    + intros Hc. lia.
    + intros _. exact F7.
    + intros Hc. lia.
  - assert (Hoff' : current_length d0 = r + 1 → r + 1 < infinity → False).
    { intros H1 H2. apply Hoff. auto. }
    specialize (Hidle Hoff').
    destruct (sigma_changes_keeps d) as (K1 & K2 & K3 & K4 & K5 & K6).
    exists (sigma_changes d). split; [exact Hidle|].
    split; [rewrite K1; exact Hdist|]. split; [rewrite K2; exact Hsucc|].
    split; [rewrite K3; exact Ht|]. split; [rewrite K4; exact Ha|]. split.
    + intros Hi. rewrite (Hunr Hi). apply sigma_changes_unreached. exact Hi.
    + intros Hre. destruct (Hreached Hre) as (Hdone & Hflags & Hfire' & Hwait).
      assert (Hne : current_length d0 ≠ r + 1) by (intros E; apply Hoff; split; lia).
      split; [|split; [|split]].
      * intros Hle. assert (Hle' : current_length d0 ≤ r) by lia.
        destruct (Hdone Hle') as [Hz [Hs0 Hs1]].
        split; [rewrite K5; exact Hz|]. split.
        -- rewrite K1, K6. exact Hs0.
        -- rewrite K1, K6. intros Hp. rewrite (Hs1 Hp). f_equal. symmetry.
           apply (Hsums d0 Hv0); lia.
      * intros Hlt. assert (Hle' : current_length d0 ≤ r) by lia.
        destruct (Hdone Hle') as [Hz _].
        assert (Hspd : propogation_flag d = false → num_short_paths_flag d = true).
        { intros Hp. destruct (N.eq_dec (current_length d0) r) as [E|E].
          - rewrite (Hfire' E) in Hp. discriminate.
          - apply Hflags; [lia|exact Hp]. }
        destruct (sigma_changes_done d Hz ltac:(lia) Hspd) as [D1 D2].
        split; [intros Hp; rewrite K2; apply D1, Hp|exact D2].
      * intros E. contradiction.
      * intros Hgt. destruct (Hwait ltac:(lia)) as (W1 & W2 & W3 & W4).
        assert (Hnz : num_predecessors d ≠ 0).
        { rewrite W1. specialize (Hpos ltac:(lia)). lia. }
        rewrite (sigma_changes_waiting d Hnz). auto.
Qed.

(** *** The loop *)

Lemma sigma_round_accum g S0 r (S S' : State) a :
  sigma_ready g S0 → sigma_level g S0 r S →
  NumShortestPaths_round g S = Ok (S', a) →
  a = 0
  ↔ ∀ v d0, S0 !! v = Some d0 → current_length d0 = r + 1 →
      r + 1 < infinity → False.
Proof.
  intros Hready Hlevel Hround.
  pose proof (sigma_level_buffers g S0 r S Hlevel) as Hbuf.
  destruct (NumShortestPaths_round_eq g S S' a Hbuf Hround) as (_ & Ha & _).
  pose proof (length_bind_fed_le g S (allNodesWithEdgesRange g)) as Hle.
  fold (all_edges g) in Hle. destruct Hready as [Hsmall Hnodes].
  rewrite U32_wrap_small in Ha by lia. split.
  - intros Hz v d0 Hv Hd Hr.
    destruct (fed_at_level g S0 r S v d0 (conj Hsmall Hnodes) Hlevel Hv Hd Hr)
      as (Hfed & Hvn & Hcount & Hpos).
    assert (Hnil : allNodesWithEdgesRange g ≫= fed g S = []).
    { apply length_zero_iff_nil. lia. }
    rewrite bind_nil_iff in Hnil.
    rewrite (Hnil v) in Hfed by (apply elem_of_seq; lia).
    rewrite <- Hfed in Hcount. cbn in Hcount. lia.
  - intros Hnone. rewrite Ha.
    assert (Hnil : allNodesWithEdgesRange g ≫= fed g S = []).
    { apply bind_nil_iff. intros v _.
      apply (fed_off_level g S0 r S v (conj Hsmall Hnodes) Hlevel).
      intros d0 Hv. apply (Hnone v d0 Hv). }
    rewrite Hnil. reflexivity.
Qed.

Lemma sigma_levels_contiguous g S0 r :
  sigma_ready g S0 →
  (∀ v d0, S0 !! v = Some d0 → current_length d0 = r + 1 →
     r + 1 < infinity → False) →
  ∀ v d0, S0 !! v = Some d0 → current_length d0 < infinity →
    current_length d0 ≤ r.
Proof.
  intros Hready Hnone.
  assert (H : ∀ n v d0, S0 !! v = Some d0 → current_length d0 < infinity →
            current_length d0 ≤ N.of_nat n → current_length d0 ≤ r).
  { induction n as [|n IH]; intros v d0 Hv Hinf Hn; [lia|].
    destruct (N.le_gt_cases (current_length d0) (N.of_nat n)) as [Hle|Hgt];
      [apply (IH v d0 Hv Hinf Hle)|].
    destruct (N.le_gt_cases (current_length d0) r) as [Hr|Hr]; [exact Hr|].
    exfalso.
    destruct (proj2 Hready v d0 Hv) as (_ & _ & _ & _ & _ & _ & _ & _ & Hpos).
    destruct (count_out_pos g S0 v (Hpos ltac:(lia))) as [Hvn [t Ht]].
    destruct (dag_edges_nearer g S0 v t (sigma_ready_bound g S0 Hready) Ht)
      as (_ & _ & ds & dt & Es & Et & Hlen & _).
    rewrite Hv in Es. inversion Es; subst ds.
    assert (Hdt : current_length dt ≤ r) by (apply (IH t dt Et); lia).
    apply (Hnone v d0 Hv); lia. }
  intros v d0 Hv Hinf.
  apply (H (N.to_nat (current_length d0)) v d0 Hv Hinf). lia.
Qed.

Lemma sigma_level_start g S0 : sigma_ready g S0 → sigma_level g S0 0 S0.
Proof.
  intros Hready. split; [reflexivity|]. intros v d0 Hv.
  destruct (proj2 Hready v d0 Hv)
    as (Hb & Ht & Ha & Hsp & Hnp & Hns & Hsrc & Hoth & Hpos).
  exists d0. split; [exact Hv|]. split; [reflexivity|]. split; [reflexivity|].
  split; [exact Ht|]. split; [exact Ha|]. split; [reflexivity|].
  intros Hinf. split; [|split; [|split]].
  - intros Hz. assert (Hd : current_length d0 = 0) by lia.
    split; [|split; [intros _; apply Hsrc, Hd|intros Hc; lia]].
    rewrite Hnp.
    destruct (N.eq_dec (count_out (dag_edges g S0) v) 0) as [E|E]; [exact E|].
    exfalso. destruct (count_out_pos g S0 v ltac:(lia)) as [_ [t Htd]].
    destruct (dag_edges_nearer g S0 v t (sigma_ready_bound g S0 Hready) Htd)
      as (_ & _ & ds & dt & Es & _ & Hlen & _).
    rewrite Hv in Es. inversion Es; subst ds. lia.
  - intros Hc. lia.
  - intros Hd. apply Hsrc, Hd.
  - intros Hd. split; [exact Hnp|]. destruct (Hoth ltac:(lia)) as [H1 H2]. auto.
Qed.

Lemma sigma_loop g S0 :
  sigma_ready g S0 →
  ∀ (k : nat) r (S : State) i,
    sigma_level g S0 r S →
    (∀ v d0, S0 !! v = Some d0 → current_length d0 < infinity →
       current_length d0 ≤ r + N.of_nat k) →
    ∀ fuel, (k < fuel)%nat →
      ∃ S' n r',
        do_while_accum fuel (NumShortestPaths_round g) i S = Some (Ok (S', n))
        ∧ sigma_level g S0 r' S'
        ∧ ∀ v d0, S0 !! v = Some d0 → current_length d0 < infinity →
            current_length d0 < r'.
Proof.
  intros Hready. induction k as [|k IH]; intros r S i Hlevel Hbound fuel Hfuel;
    (destruct fuel as [|fuel]; [lia|]); cbn [do_while_accum];
    destruct (NumShortestPaths_round_Ok g S) as (S1 & a & Hround);
    rewrite Hround;
    pose proof (sigma_round_level g S0 r S S1 a Hready Hlevel Hround) as Hlevel1;
    pose proof (sigma_round_accum g S0 r S S1 a Hready Hlevel Hround) as Hacc;
    destruct (N.eqb_spec a 0) as [Ha|Ha].
  - exists S1, (U32.add i 1), (r + 1). split; [reflexivity|].
    split; [exact Hlevel1|]. intros v d0 Hv Hinf.
    specialize (Hbound v d0 Hv Hinf). lia.
  - exfalso. apply Ha, Hacc. intros v d0 Hv Hd Hr.
    specialize (Hbound v d0 Hv ltac:(lia)). lia.
  - exists S1, (U32.add i 1), (r + 1). split; [reflexivity|].
    split; [exact Hlevel1|]. intros v d0 Hv Hinf.
    pose proof (sigma_levels_contiguous g S0 r Hready (proj1 Hacc Ha) v d0 Hv Hinf).
    lia.
  - apply (IH (r + 1) S1 (U32.add i 1) Hlevel1); [|lia].
    intros v d0 Hv Hinf. specialize (Hbound v d0 Hv Hinf). lia.
Qed.

Lemma sigma_level_done g S0 r (S : State) :
  sigma_level g S0 r S →
  (∀ v d0, S0 !! v = Some d0 → current_length d0 < infinity →
     current_length d0 < r) →
  sigma_done g S0 S.
Proof.
  intros [Hlen Hnodes] Hall. split; [exact Hlen|]. intros v d0 Hv.
  destruct (Hnodes v d0 Hv) as (d & Ed & Hd & _ & Ht & Ha & Hunr & Hre).
  exists d. split; [exact Ed|]. split; [exact Hd|]. split; [exact Ht|].
  split; [exact Ha|]. split; [exact Hunr|]. intros Hinf.
  destruct (Hre Hinf) as (Hdone & _). apply Hdone.
  specialize (Hall v d0 Hv Hinf). lia.
Qed.

Lemma NumShortestPaths_go_returns g S0 fuel :
  sigma_ready g S0 →
  (0 < fuel)%nat →
  (∀ v d0, S0 !! v = Some d0 → current_length d0 < infinity →
     (N.to_nat (current_length d0) < fuel)%nat) →
  ∃ S' n,
    NumShortestPaths_go fuel g S0 = Some (Ok (S', n)) ∧ sigma_done g S0 S'.
Proof.
  intros Hready Hfuel Hbound.
  destruct (sigma_loop g S0 Hready (fuel - 1) 0 S0 0
              (sigma_level_start g S0 Hready)) with (fuel := fuel)
    as (S' & n & r' & Hloop & Hlevel & Hall).
  - intros v d0 Hv Hinf. specialize (Hbound v d0 Hv Hinf). lia.
  - lia.
  - exists S', n. split; [exact Hloop|].
    eapply sigma_level_done; eassumption.
Qed.

(** Whatever the fuel, a result of the loop is the one above. *)
Lemma NumShortestPaths_go_done g S0 fuel S' n :
  sigma_ready g S0 →
  NumShortestPaths_go fuel g S0 = Some (Ok (S', n)) → sigma_done g S0 S'.
Proof.
  intros Hready H.
  destruct (NumShortestPaths_go_returns g S0
              (fuel + S (N.to_nat infinity)) Hready) as (S1 & n1 & H1 & Hdone);
    [lia|intros v d0 _ Hinf; lia|].
  unfold NumShortestPaths_go in *.
  rewrite (do_while_accum_more_fuel _ _ _ _ _ (fuel + S (N.to_nat infinity)) H)
    in H1 by lia.
  inversion H1; subst. exact Hdone.
Qed.

Lemma dag_preds_dists g (st st' : State) v :
  current_length <$> st' = current_length <$> st →
  dag_preds g st' v = dag_preds g st v.
Proof.
  intros H. unfold dag_preds. rewrite (out_dag_edges_dists g st st' v H).
  reflexivity.
Qed.

Lemma sigma_done_dists g S0 (S' : State) :
  sigma_done g S0 S' → current_length <$> S' = current_length <$> S0.
Proof.
  intros [Hlen Hnodes]. apply list_eq. intros v. rewrite !list_lookup_fmap.
  destruct (S0 !! v) as [d0|] eqn:E0.
  - destruct (Hnodes v d0 E0) as (d & Ed & Hd & _). rewrite Ed. cbn. congruence.
  - rewrite (lookup_ge_None_2 S' v); [reflexivity|].
    rewrite Hlen. apply lookup_ge_None, E0.
Qed.

Lemma sigma_done_counted g S0 (S' : State) :
  sigma_ready g S0 → sigma_done g S0 S' → paths_counted g S'.
Proof.
  intros Hready Hdone v d Hv.
  pose proof (sigma_done_dists g S0 S' Hdone) as Hdists.
  destruct (lookup_lt_is_Some_2 S0 v) as [d0 E0].
  { rewrite <- (proj1 Hdone). eapply lookup_lt_Some, Hv. }
  destruct (proj2 Hdone v d0 E0) as (d' & Ed' & Hd & Ht & Ha & Hunr & Hre).
  rewrite Hv in Ed'. inversion Ed'; subst d'. clear Ed'.
  destruct (proj2 Hready v d0 E0) as (Hb & _ & _ & _ & Hnp & _ & _ & Hoth & _).
  rewrite (dag_preds_dists g S0 S' v Hdists).
  split; [lia|].
  destruct (N.eq_dec (current_length d0) infinity) as [Hinf|Hinf].
  - rewrite (Hunr Hinf). rewrite Hunr in Ht, Ha by exact Hinf.
    assert (Hz : count_out (dag_edges g S0) v = 0).
    { destruct (N.eq_dec (count_out (dag_edges g S0) v) 0) as [E|E]; [exact E|].
      exfalso. destruct (count_out_pos g S0 v ltac:(lia)) as [_ [t Htd]].
      destruct (dag_edges_nearer g S0 v t (sigma_ready_bound g S0 Hready) Htd)
        as (_ & _ & ds & dt & Es & _ & _ & Hlt).
      rewrite E0 in Es. inversion Es; subst ds. lia. }
    split; [congruence|]. split; [exact Ht|]. split; [exact Ha|].
    split; [intros Hc; rewrite Hinf in Hc; discriminate|].
    split; [intros Hc; lia|]. intros _. apply Hoth. rewrite Hinf. discriminate.
  - destruct (Hre ltac:(lia)) as (Hz & Hs0 & Hs1).
    split; [exact Hz|]. split; [exact Ht|]. split; [exact Ha|].
    split; [exact Hs0|]. split; [intros Hc; apply Hs1; lia|].
    intros Hc. lia.
Qed.

(** X20: the sigma phase counts the shortest paths.  From a node array
    in which the distances are those of a BFS, the counters are what
    [PredAndSucc] leaves, both buffers are empty and only the vertices
    at distance 0 hold the token and a path count of 1,
    [NumShortestPaths::go] returns once the fuel exceeds the largest
    finite distance, and whenever it returns it leaves no predecessor
    uncounted, both buffers empty, the distances as they were, the path
    count 1 at distance 0 and, at every other reached vertex, the sum of
    the path counts of its DAG predecessors (one term for each parallel
    edge) modulo 2^32; the path count of an unreached vertex is 0. *)
Theorem NumShortestPaths_go_counts_paths (g : Graph) (st0 : State) (fuel : nat) :
  sigma_ready g st0 →
  ((0 < fuel)%nat →
   (∀ v d0, st0 !! v = Some d0 → current_length d0 < infinity →
      (N.to_nat (current_length d0) < fuel)%nat) →
   ∃ st' n, NumShortestPaths_go fuel g st0 = Some (Ok (st', n)))
  ∧ ∀ st' n,
      NumShortestPaths_go fuel g st0 = Some (Ok (st', n)) →
      current_length <$> st' = current_length <$> st0
      ∧ paths_counted g st'.
Proof.
  intros Hready. split.
  - intros Hfuel Hbound.
    destruct (NumShortestPaths_go_returns g st0 fuel Hready Hfuel Hbound)
      as (S' & n & H & _).
    eauto.
  - intros st' n H.
    pose proof (NumShortestPaths_go_done g st0 fuel st' n Hready H) as Hdone.
    split; [eapply sigma_done_dists, Hdone|].
    eapply sigma_done_counted; eassumption.
Qed.

(** ** The delta phase ends *)

Lemma pending_le_refl st : pending_le st st.
Proof.
  split; [reflexivity|]. intros v d d' H1 H2. rewrite H1 in H2.
  inversion H2; subst. auto.
Qed.

Lemma pending_le_trans st1 st2 st3 :
  pending_le st1 st2 → pending_le st2 st3 → pending_le st1 st3.
Proof.
  intros [L12 H12] [L23 H23]. split; [congruence|]. intros v d1 d3 E1 E3 Hp.
  destruct (lookup_lt_is_Some_2 st2 v) as [d2 E2].
  { rewrite L12. eapply lookup_lt_Some, E1. }
  eapply H12; [exact E1|exact E2|]. eapply H23; eassumption.
Qed.

Lemma pending_le_flags (st st' : State) :
  token_flags <$> st' = token_flags <$> st → pending_le st st'.
Proof.
  intros H. split; [eapply frame_length, H|]. intros v d d' E E' Hp.
  destruct (frame_lookup token_flags st st' v d H E) as (d1 & E1 & Hf).
  rewrite E' in E1. inversion E1; subst d1. unfold token_flags in Hf.
  inversion Hf as [[H1 H2]]. unfold token_pending in *. congruence.
Qed.

Lemma pending_count_le (st st' : State) :
  pending_le st st' → (pending_count st' ≤ pending_count st)%nat.
Proof.
  unfold pending_count. revert st'.
  induction st as [|d st IH]; intros [|d' st'] [Hlen H]; try discriminate;
    [reflexivity|].
  assert (Hrest : pending_le st st').
  { split; [cbn in Hlen; lia|]. intros v x y Hx Hy. apply (H (S v) x y Hx Hy). }
  specialize (IH st' Hrest). pose proof (H 0%nat d d' eq_refl eq_refl) as H0.
  rewrite !filter_cons.
  destruct (decide (token_pending d' = true)) as [Hp'|Hp'];
    destruct (decide (token_pending d = true)) as [Hp|Hp]; cbn [length];
    try lia.
  exfalso. apply Hp, H0, Hp'.
Qed.

Lemma pending_count_lt (st st' : State) v d d' :
  pending_le st st' → st !! v = Some d → st' !! v = Some d' →
  token_pending d = true → token_pending d' = false →
  (pending_count st' < pending_count st)%nat.
Proof.
  unfold pending_count. revert st' v.
  induction st as [|x st IH]; intros [|x' st'] v [Hlen H] Ev Ev' Hp Hp';
    try discriminate.
  assert (Hrest : pending_le st st').
  { split; [cbn in Hlen; lia|]. intros i a b Ha Hb. apply (H (S i) a b Ha Hb). }
  pose proof (H 0%nat x x' eq_refl eq_refl) as H0.
  rewrite !filter_cons. destruct v as [|v]; cbn in Ev, Ev'.
  - inversion Ev; inversion Ev'; subst x x'.
    pose proof (pending_count_le st st' Hrest) as Hle. unfold pending_count in Hle.
    destruct (decide (token_pending d' = true)) as [E|_]; [congruence|].
    destruct (decide (token_pending d = true)) as [_|E]; [cbn [length]; lia|].
    contradiction.
  - specialize (IH st' v Hrest Ev Ev' Hp Hp').
    destruct (decide (token_pending x' = true)) as [E'|E'];
      destruct (decide (token_pending x = true)) as [E|E]; cbn [length];
      try lia.
    exfalso. apply E, H0, E'.
Qed.

Lemma DependencyPropogation_edge_flags g cur src dst w w' :
  DependencyPropogation_edge g cur src dst w = Ok w' →
  token_flags <$> w'.1 = token_flags <$> w.1.
Proof.
  destruct w as [st accum]. unfold DependencyPropogation_edge.
  destruct (getGID g dst =? cur); [intros H; inversion H; reflexivity|].
  destruct (st !! src) as [ds|]; [|intros H; inversion H; reflexivity].
  destruct (st !! dst) as [dt|] eqn:Ht; [|intros H; inversion H; reflexivity].
  destruct (F32.to_u32 (dependency ds)) as [dep|]; [|discriminate].
  destruct (_ =? _); intros H; inversion H; [|reflexivity]. cbn [fst].
  eapply frame_insert; [exact Ht|reflexivity].
Qed.

(** A vertex whose operator records work gives its token up for good. *)
Lemma DependencyPropogation_op_pending g cur src w w' :
  DependencyPropogation_op g infinity cur src w = Ok w' →
  pending_le w.1 w'.1
  ∧ (w'.2 ≠ w.2 →
     ∃ d d', w.1 !! src = Some d ∧ w'.1 !! src = Some d'
       ∧ token_pending d = true ∧ token_pending d' = false).
Proof.
  unfold DependencyPropogation_op.
  destruct (w.1 !! src) as [ds|] eqn:Es;
    [|intros H; inversion H; split; [apply pending_le_refl|congruence]].
  destruct (negb _);
    [|intros H; inversion H; split; [apply pending_le_refl|congruence]].
  destruct (propogation_flag ds) eqn:Hp;
    [|intros H; inversion H; split; [apply pending_le_refl|congruence]].
  destruct (if negb _ then _ else _); [|discriminate]. cbn [mbind res_bind].
  destruct (for_each _ (edge_dsts g src) w) as [[s1 a1]|] eqn:E; [|discriminate].
  cbn [mbind res_bind].
  pose proof (frame_for_each_accum token_flags _ _
                (DependencyPropogation_edge_flags g cur src) _ _ E) as Hf.
  cbn [fst] in Hf.
  destruct (frame_lookup token_flags w.1 s1 src ds Hf Es) as (d1 & E1 & Hd1).
  rewrite E1. intros H. inversion H; subst w'. cbn [fst snd]. clear H.
  assert (Hdone : (if negb (dep_prop_flag (set_propogation_flag false d1))
                   then set_dep_prop_flag true (set_propogation_flag false d1)
                   else set_propogation_flag false d1) = delta_done d1)
    by apply (delta_done_eq d1).
  cbn [dep_prop_flag set_propogation_flag] in Hdone. rewrite Hdone.
  assert (Hle : pending_le w.1 (<[src := delta_done d1]> s1)).
  { eapply pending_le_trans; [apply pending_le_flags, Hf|].
    split; [apply length_insert|]. intros v d d' Hv Hv' Hpd.
    destruct (decide (v = src)) as [->|Hne].
    - rewrite list_lookup_insert_eq in Hv' by (eapply lookup_lt_Some, E1).
      inversion Hv'; subst d'. discriminate.
    - rewrite list_lookup_insert_ne in Hv' by congruence.
      rewrite Hv in Hv'. inversion Hv'; subst. exact Hpd. }
  split; [exact Hle|]. intros _. exists ds, (delta_done d1).
  split; [reflexivity|].
  split; [apply list_lookup_insert_eq; eapply lookup_lt_Some, E1|].
  split; [unfold token_pending; rewrite Hp; reflexivity|reflexivity].
Qed.

Lemma DependencyPropogation_pass_pending g cur (range : list nat) :
  ∀ w w',
    for_each (DependencyPropogation_op g infinity cur) range w = Ok w' →
    pending_le w.1 w'.1
    ∧ (w'.2 ≠ w.2 → (pending_count w'.1 < pending_count w.1)%nat).
Proof.
  induction range as [|s range IH]; intros w w' H.
  - inversion H; subst. split; [apply pending_le_refl|congruence].
  - rewrite for_each_cons in H.
    destruct (DependencyPropogation_op g infinity cur s w) as [w1|] eqn:E;
      [|discriminate].
    cbn [mbind res_bind] in H.
    destruct (DependencyPropogation_op_pending g cur s w w1 E) as [Hle1 Hfire].
    destruct (IH w1 w' H) as [Hle2 Hlt2].
    split; [eapply pending_le_trans; eassumption|]. intros Hne.
    destruct (N.eq_dec w1.2 w.2) as [Hsame|Hdiff].
    + rewrite <- Hsame in Hne. specialize (Hlt2 Hne).
      pose proof (pending_count_le _ _ Hle1). lia.
    + destruct (Hfire Hdiff) as (d & d' & Ed & Ed' & Hp & Hp').
      pose proof (pending_count_lt _ _ s d d' Hle1 Ed Ed' Hp Hp').
      pose proof (pending_count_le _ _ Hle2). lia.
Qed.

Lemma DependencyPropChanges_go_pending g st :
  pending_le st (DependencyPropChanges_go g st).
Proof.
  unfold DependencyPropChanges_go, allNodesWithEdgesRange.
  split.
  - apply (frame_length (λ _, ())). apply frame_do_all. intros src s.
    apply frame_alter. reflexivity.
  - intros v d d' Hv Hv'.
    change (DependencyPropChanges_op infinity)
      with (λ (src : nat) (st : State),
              alter (DependencyPropChanges_node infinity) src st) in Hv'.
    rewrite do_all_alter_seq, Hv in Hv'.
    destruct (decide _); cbn in Hv'; inversion Hv'; subst d'; [|auto].
    unfold DependencyPropChanges_node, token_pending.
    destruct (negb (current_length d =? infinity)); [|auto].
    destruct (num_successors d =? 0); cbn [andb]; [|auto].
    destruct (dep_prop_flag d) eqn:Hd; cbn; rewrite ?Hd; cbn; [auto|].
    intros _. apply orb_true_r.
Qed.

Lemma DependencyPropogation_round_pending g cur st st' a :
  DependencyPropogation_round g cur st = Ok (st', a) →
  a ≠ 0 → (pending_count st' < pending_count st)%nat.
Proof.
  unfold DependencyPropogation_round.
  destruct (for_each _ _ (st, 0)) as [[s1 a1]|] eqn:E; [|discriminate].
  cbn [mbind res_bind]. intros H Ha. inversion H; subst.
  destruct (DependencyPropogation_pass_pending g cur _ _ _ E) as [_ Hlt].
  cbn [fst snd] in Hlt. specialize (Hlt Ha).
  assert (Hle : pending_le s1 (DependencyPropChanges_go g (DPAdd_go (DPTrim_go s1)))).
  { eapply pending_le_trans; [|apply DependencyPropChanges_go_pending].
    apply pending_le_flags. rewrite DPAdd_go_eq, DPTrim_go_eq.
    rewrite <- !list_fmap_compose. apply list_fmap_ext. intros i d _. cbn.
    unfold DPAdd_node, DPTrim_node.
    destruct (0 <? trim2 d); cbn; destruct (F32.ltb _ _); reflexivity. }
  pose proof (pending_count_le _ _ Hle). lia.
Qed.

Lemma DependencyPropogation_loop_ends g cur :
  ∀ fuel i st, (pending_count st < fuel)%nat →
    ∃ r, do_while_accum fuel (DependencyPropogation_round g cur) i st = Some r.
Proof.
  induction fuel as [|fuel IH]; intros i st Hm; [lia|].
  cbn [do_while_accum].
  destruct (DependencyPropogation_round g cur st) as [[s1 a]|f] eqn:E; [|eauto].
  destruct (N.eqb_spec a 0) as [Ha|Ha]; [eauto|].
  pose proof (DependencyPropogation_round_pending g cur st s1 a E Ha).
  apply IH. lia.
Qed.

(** X23: the loop of [DependencyPropogation::go] ends on every graph
    and from every node array, after at most one round more than there
    are vertices that hold the token or are not yet marked by
    [dep_prop_flag]: a vertex whose operator records work clears its
    token and sets the mark, [DependencyPropChanges] gives the token to
    unmarked vertices only, so every round that records work lowers
    that number.  The loop ends with a result or with a fault of one of
    its rounds. *)
Theorem DependencyPropogation_go_ends
    (fuel : nat) (g : Graph) (current_src_node : N) (st : State) :
  (pending_count st < fuel)%nat →
  (pending_count st ≤ length st)%nat
  ∧ ((∃ st' n, DependencyPropogation_go fuel g current_src_node st
               = Some (Ok (st', n)))
     ∨ ∃ f st_last,
         DependencyPropogation_go fuel g current_src_node st = Some (Fault f)
         ∧ DependencyPropogation_round g current_src_node st_last = Fault f).
Proof.
  intros Hm. split; [apply length_filter|].
  destruct (DependencyPropogation_loop_ends g current_src_node fuel 0 st Hm)
    as [[[st' n]|f] H].
  - left. eauto.
  - right. exists f. unfold DependencyPropogation_go.
    destruct (do_while_accum_fault _ _ _ _ _ H) as [sl Hsl]. eauto.
Qed.

Lemma DependencyPropogation_go_ends_witness :
  (pending_count kite_sigma ≤ length kite_sigma)%nat
  ∧ ((∃ st' n, DependencyPropogation_go 10 kite 0 kite_sigma = Some (Ok (st', n)))
     ∨ ∃ f st_last,
         DependencyPropogation_go 10 kite 0 kite_sigma = Some (Fault f)
         ∧ DependencyPropogation_round kite 0 st_last = Fault f).
Proof.
  apply (DependencyPropogation_go_ends 10 kite 0 kite_sigma).
  vm_compute. lia.
Defined.

(** ** From the reset to the path counts *)

Lemma walk_zero g n v u : walk g n v u 0 → v = u.
Proof. intros H. inversion H; [reflexivity|lia]. Qed.

Lemma walk_pos g n v u k :
  walk g n v u k → 0 < k →
  ∃ t k', bfs_edge g n v t ∧ walk g n t u k' ∧ k = k' + 1.
Proof. intros H Hk. inversion H; subst; [lia|eauto]. Qed.

Lemma count_out_member (E : list (nat * nat)) v t :
  (v, t) ∈ E → 0 < count_out E v.
Proof.
  intros H. unfold count_out.
  assert (Hin : (v, t) ∈ filter (λ e : nat * nat, e.1 = v) E).
  { apply list_elem_of_filter. split; [reflexivity|exact H]. }
  destruct (filter (λ e : nat * nat, e.1 = v) E); [inversion Hin|cbn; lia].
Qed.

Lemma InitializeIteration_go_nodes g cur st0 s1 :
  InitializeIteration_go g cur st0 = Ok s1 →
  length s1 = length st0
  ∧ ∀ v d0, st0 !! v = Some d0 →
      num_predecessors d0 = 0
      ∧ s1 !! v = Some (reset_node infinity cur (getGID g v) d0).
Proof.
  rewrite InitializeIteration_go_eq. intros H.
  destruct (map_nodes_Ok _ _ _ _ H) as [Hlen Hnodes]. split; [exact Hlen|].
  intros v d0 Hv. destruct (Hnodes v d0 Hv) as (d1 & Hd1 & Hl).
  cbn [Nat.add] in Hd1. rewrite InitializeIteration_node_eq in Hd1.
  destruct (N.eqb_spec (num_predecessors d0) 0) as [E|E]; [|discriminate].
  inversion Hd1; subst d1. auto.
Qed.

(** The node array after the reset and the BFS. *)
Lemma bfs_after_reset g cur st0 s1 fuel s2 n2 :
  N.of_nat (length (all_edges g)) < U32.modulus →
  Forall (λ d, trim d = 0 ∧ to_add d = 0) st0 →
  InitializeIteration_go g cur st0 = Ok s1 →
  SSSP_go fuel g s1 = Some (Ok (s2, n2)) →
  ∀ v d2, s2 !! v = Some d2 →
    current_length d2 ≤ infinity
    ∧ trim d2 = 0 ∧ to_add d2 = 0 ∧ num_short_paths_flag d2 = false
    ∧ num_predecessors d2 = 0 ∧ num_successors d2 = 0
    ∧ (current_length d2 = 0 →
       num_shortest_paths d2 = 1 ∧ propogation_flag d2 = true)
    ∧ (current_length d2 ≠ 0 →
       num_shortest_paths d2 = 0 ∧ propogation_flag d2 = false)
    ∧ (0 < current_length d2 < infinity → ∃ t, (v, t) ∈ dag_edges g s2)
    ∧ (current_length d2 = 0 ↔ getGID g v = cur).
Proof.
  intros Hsmall Hzero Hreset Hbfs v d2 Hv2.
  destruct (InitializeIteration_go_nodes g cur st0 s1 Hreset) as [Hlen1 Hnodes1].
  destruct (InitializeIteration_go_dists g cur st0 s1 Hreset) as [_ Hd1].
  assert (Hb1 : Forall (λ d, current_length d ≤ infinity) s1).
  { apply Forall_lookup. intros i d Hi. rewrite (Hd1 i d Hi).
    destruct (_ =? _); [apply N.le_0_l|reflexivity]. }
  pose proof (SSSP_go_sound fuel g s1 s2 n2 Hb1 Hbfs) as Hsound.
  pose proof (SSSP_go_relaxed fuel g s1 s2 n2 Hsmall Hbfs) as Hrel.
  pose proof (SSSP_go_writes outside_bfs fuel g s1 s2 n2 (λ _ _, eq_refl) Hbfs)
    as Hout.
  destruct (proj2 Hsound v d2 Hv2)
    as (Hle & (d1 & Ev1 & Hle1) & (u & k & du & Hw & Eu & Hk)).
  destruct (lookup_lt_is_Some_2 st0 v) as [d0 Ev0].
  { rewrite <- Hlen1. eapply lookup_lt_Some, Ev1. }
  destruct (Hnodes1 v d0 Ev0) as [Hnp0 Ev1'].
  rewrite Ev1 in Ev1'. inversion Ev1'; subst d1. clear Ev1'.
  destruct (frame_lookup outside_bfs s1 s2 v _ Hout Ev1) as (d2' & Ev2' & Hfields).
  rewrite Hv2 in Ev2'. inversion Ev2'; subst d2'. clear Ev2'.
  rewrite Forall_lookup in Hzero. destruct (Hzero v d0 Ev0) as [Ht0 Ha0].
  unfold outside_bfs in Hfields.
  pose proof (f_equal trim Hfields) as F1.
  pose proof (f_equal to_add Hfields) as F2.
  pose proof (f_equal num_short_paths_flag Hfields) as F3.
  pose proof (f_equal num_predecessors Hfields) as F4.
  pose proof (f_equal num_successors Hfields) as F5.
  pose proof (f_equal num_shortest_paths Hfields) as F6.
  pose proof (f_equal propogation_flag Hfields) as F7.
  cbn in F1, F2, F3, F4, F5, F6, F7.
  pose proof (Hd1 v _ Ev1) as Hdv. cbn [current_length reset_node] in Hle1.
  split; [exact Hle|]. split; [congruence|]. split; [congruence|].
  split; [exact F3|]. split; [congruence|]. split; [exact F5|].
  assert (Hsrc : current_length d2 = 0 ↔ getGID g v = cur).
  { split.
    - intros Hz. assert (Hk0 : k = 0) by lia. subst k.
      apply walk_zero in Hw. subst u. rewrite Ev1 in Eu. inversion Eu; subst du.
      cbn [current_length reset_node] in Hk.
      destruct (N.eqb_spec (getGID g v) cur) as [E|E]; [exact E|].
      rewrite Hz in Hk. discriminate.
    - intros Hg. apply N.eqb_eq in Hg. rewrite Hg in Hle1. lia. }
  split; [|split; [|split; [|exact Hsrc]]].
  - intros Hz. apply Hsrc, N.eqb_eq in Hz. rewrite F6, F7, Hz. auto.
  - intros Hnz. assert (Hg : (getGID g v =? cur) = false).
    { apply N.eqb_neq. intros E. apply Hnz, Hsrc, E. }
    rewrite F6, F7, Hg. auto.
  - intros [Hpos Hinf].
    pose proof (Hd1 u du Eu) as Hdu.
    assert (Hdu0 : current_length du = 0).
    { destruct (getGID g u =? cur); [exact Hdu|]. rewrite Hdu in Hk. lia. }
    destruct (walk_pos g _ v u k Hw ltac:(lia))
      as (t & k' & (Hs & Ht & Hsn & Htn) & Hw' & ->).
    destruct (lookup_lt_is_Some_2 s2 t) as [dt Et].
    { rewrite (proj1 Hsound). exact Htn. }
    destruct (lookup_lt_is_Some_2 s2 u) as [du2 Eu2].
    { rewrite (proj1 Hsound). eapply lookup_lt_Some, Eu. }
    pose proof (relaxed_walk g s1 s2 Hsound Hrel t u k' Hw' dt du2 Et Eu2) as Hup.
    destruct (proj2 Hsound u du2 Eu2) as (_ & (du' & Eu' & Hleu) & _).
    rewrite Eu in Eu'. inversion Eu'; subst du'.
    destruct (proj2 Hsound t dt Et) as (Hbt & _).
    pose proof (Hrel (v, t) d2 dt
                  (proj2 (elem_of_all_edges g v t) (conj Hs Ht)) Hv2 Et) as Hvt.
    cbn [fst snd] in Hvt. rewrite (U32_add_1_small _ Hbt) in Hvt.
    exists t. apply elem_of_dag_edges. split; [exact Hs|]. split; [exact Ht|].
    exists d2, dt. split; [exact Hv2|]. split; [exact Et|]. split; [lia|].
    unfold U32.add. replace (current_length dt + 1) with (1 + current_length dt)
      by lia.
    fold (U32.add 1 (current_length dt)). rewrite (U32_add_1_small _ Hbt). lia.
Qed.

Lemma count_in_le (E : list (nat * nat)) v : count_in E v ≤ N.of_nat (length E).
Proof. apply (count_key_le snd E v). Qed.

Lemma count_out_le (E : list (nat * nat)) v : count_out E v ≤ N.of_nat (length E).
Proof. apply (count_key_le fst E v). Qed.

Lemma PredAndSucc_go_ready g cur st0 s1 fuel s2 n2 :
  N.of_nat (length (all_edges g)) < U32.modulus →
  Forall (λ d, trim d = 0 ∧ to_add d = 0) st0 →
  InitializeIteration_go g cur st0 = Ok s1 →
  SSSP_go fuel g s1 = Some (Ok (s2, n2)) →
  sigma_ready g (PredAndSucc_go g s2).
Proof.
  intros Hsmall Hzero Hreset Hbfs.
  pose proof (bfs_after_reset g cur st0 s1 fuel s2 n2 Hsmall Hzero Hreset Hbfs)
    as Hs2.
  assert (Hrange : Forall counts_in_range s2).
  { apply Forall_lookup. intros v d Hv.
    destruct (Hs2 v d Hv) as (_ & _ & _ & _ & Hp & Hs & _).
    unfold counts_in_range. rewrite Hp, Hs. split; reflexivity. }
  assert (Heq : PredAndSucc_go g s2 = imap (counted (dag_edges g s2)) s2).
  { rewrite PredAndSucc_go_eq. apply do_all_count_edge, Hrange. }
  assert (Hdag : dag_edges g (PredAndSucc_go g s2) = dag_edges g s2).
  { apply dag_edges_dists. rewrite PredAndSucc_go_eq.
    apply do_all_count_edge_dists. }
  split; [exact Hsmall|]. intros v d Hv. rewrite Hdag.
  rewrite Heq, list_lookup_imap in Hv.
  destruct (s2 !! v) as [d2|] eqn:E2; [|discriminate]. cbn in Hv.
  inversion Hv; subst d. clear Hv.
  destruct (Hs2 v d2 E2)
    as (Hb & Ht & Ha & Hsp & Hp & Hs & Hsrc & Hoth & Hedge & _).
  pose proof (length_dag_edges_le g s2) as Hlen.
  pose proof (count_out_le (dag_edges g s2) v) as Ho.
  pose proof (count_in_le (dag_edges g s2) v) as Hi.
  unfold counted.
  cbn [current_length trim to_add num_short_paths_flag num_predecessors
       num_successors num_shortest_paths propogation_flag
       set_num_successors set_num_predecessors].
  rewrite Hp, Hs, !N.add_0_l, !U32_wrap_small by lia.
  repeat split; try assumption; try (apply Hsrc; assumption);
    try (apply Hoth; assumption).
  intros Hd. destruct (Hedge Hd) as [t Hin]. eapply count_out_member, Hin.
Qed.

Lemma kite_counted_ready : sigma_ready kite kite_counted.
Proof.
  apply (PredAndSucc_go_ready kite 0 kite_loaded kite_reset 10 kite_bfs 2).
  - reflexivity.
  - repeat constructor.
  - reflexivity.
  - vm_compute. reflexivity.
Qed.

Lemma NumShortestPaths_go_counts_paths_witness :
  ((0 < 10)%nat →
   (∀ v d0, kite_counted !! v = Some d0 → current_length d0 < infinity →
      (N.to_nat (current_length d0) < 10)%nat) →
   ∃ st' n, NumShortestPaths_go 10 kite kite_counted = Some (Ok (st', n)))
  ∧ ∀ st' n,
      NumShortestPaths_go 10 kite kite_counted = Some (Ok (st', n)) →
      current_length <$> st' = current_length <$> kite_counted
      ∧ paths_counted kite st'.
Proof.
  apply (NumShortestPaths_go_counts_paths kite kite_counted 10).
  exact kite_counted_ready.
Defined.

(** X21: the first three phases of an iteration count the shortest
    paths.  On a graph with fewer than 2^32 edges, from a node array
    whose buffers [trim] and [to_add] are zero, when the reset, the BFS,
    [PredAndSucc] and the sigma phase have run for a source, the records
    at distance 0 are those of the source's replicas and hold the path
    count 1, every other reached vertex holds the sum of the path counts
    of the neighbours one step nearer to the source (modulo 2^32), an
    unreached vertex holds 0, and every [num_predecessors], [trim] and
    [to_add] is 0 again. *)
Theorem through_sigma_counts_paths
    (fuel : nat) (g : Graph) (current_src_node : N) (st0 st' : State) :
  N.of_nat (length (all_edges g)) < U32.modulus →
  Forall (λ d, trim d = 0 ∧ to_add d = 0) st0 →
  through_sigma fuel g current_src_node st0 = Some (Ok st') →
  paths_counted g st'
  ∧ length st' = length st0
  ∧ ∀ v d, st' !! v = Some d →
      (current_length d = 0 ↔ getGID g v = current_src_node).
Proof.
  intros Hsmall Hzero H. unfold through_sigma, and_then in H.
  destruct (InitializeIteration_go g current_src_node st0) as [s1|] eqn:E1;
    [|discriminate].
  destruct (SSSP_go fuel g s1) as [[[s2 n2]|]|] eqn:E2; try discriminate.
  destruct (NumShortestPaths_go fuel g (PredAndSucc_go g s2)) as [[[s4 n4]|]|]
    eqn:E4; try discriminate.
  inversion H; subst s4. clear H.
  pose proof (PredAndSucc_go_ready g current_src_node st0 s1 fuel s2 n2
                Hsmall Hzero E1 E2) as Hready.
  pose proof (NumShortestPaths_go_done g _ fuel st' n4 Hready E4) as Hdone.
  pose proof (sigma_done_dists g _ st' Hdone) as Hd4.
  assert (Hd3 : current_length <$> PredAndSucc_go g s2 = current_length <$> s2).
  { rewrite PredAndSucc_go_eq. apply do_all_count_edge_dists. }
  split; [eapply sigma_done_counted; eassumption|]. split.
  - rewrite (frame_length current_length _ _ Hd4),
      (frame_length current_length _ _ Hd3).
    rewrite (frame_length outside_bfs _ _
               (SSSP_go_writes outside_bfs fuel g s1 s2 n2 (λ _ _, eq_refl) E2)).
    apply (InitializeIteration_go_dists g current_src_node st0 s1 E1).
  - intros v d Hv.
    assert (Hd : current_length <$> st' = current_length <$> s2) by congruence.
    destruct (lookup_lt_is_Some_2 s2 v) as [d2 Ev2].
    { rewrite <- (frame_length current_length _ _ Hd). eapply lookup_lt_Some, Hv. }
    destruct (frame_lookup current_length s2 st' v d2 Hd Ev2) as (d' & Ev' & Hdd).
    rewrite Hv in Ev'. inversion Ev'; subst d'. rewrite Hdd.
    apply (bfs_after_reset g current_src_node st0 s1 fuel s2 n2 Hsmall Hzero
             E1 E2 v d2 Ev2).
Qed.

Lemma through_sigma_counts_paths_witness :
  paths_counted kite kite_sigma
  ∧ length kite_sigma = length kite_loaded
  ∧ ∀ v d, kite_sigma !! v = Some d →
      (current_length d = 0 ↔ getGID kite v = 0).
Proof.
  apply (through_sigma_counts_paths 10 kite 0 kite_loaded kite_sigma).
  - reflexivity.
  - repeat constructor.
  - vm_compute. reflexivity.
Defined.

(** ** Counters that start clean stay clean *)

Lemma DependencyPropogation_round_trim g cur st st' a :
  DependencyPropogation_round g cur st = Ok (st', a) →
  Forall (λ d, trim d = 0) st → Forall (λ d, trim d = 0) st'.
Proof.
  unfold DependencyPropogation_round.
  destruct (for_each _ _ (st, 0)) as [[s1 a1]|] eqn:E; [|discriminate].
  cbn [mbind res_bind]. intros H Hz. inversion H; subst.
  pose proof (frame_for_each_accum trim _ _
                (DependencyPropogation_op_writes trim
                   (λ _ _, eq_refl) (λ _ _, eq_refl) (λ _ _, eq_refl)
                   (λ _ _, eq_refl) g cur) _ _ E) as Hf.
  cbn [fst] in Hf.
  assert (H1 : Forall (λ d, trim d = 0) s1).
  { apply Forall_lookup. intros v d Hv.
    destruct (lookup_lt_is_Some_2 st v) as [d0 E0].
    { rewrite <- (frame_length trim _ _ Hf). eapply lookup_lt_Some, Hv. }
    destruct (frame_lookup trim st s1 v d0 Hf E0) as (d' & Ed' & Ht).
    rewrite Hv in Ed'. inversion Ed'; subst d'. rewrite Ht.
    rewrite Forall_lookup in Hz. apply (Hz v d0 E0). }
  assert (Hkeep : trim <$> DependencyPropChanges_go g (DPAdd_go (DPTrim_go s1))
                  = trim <$> DPTrim_go s1).
  { transitivity (trim <$> DPAdd_go (DPTrim_go s1)).
    - apply frame_do_all. intros src s. apply frame_alter. intros d.
      unfold DependencyPropChanges_node. destruct (negb _); [|reflexivity].
      destruct (_ && _); reflexivity.
    - apply frame_do_all. intros src s. apply frame_alter. intros d.
      unfold DPAdd_node. destruct (F32.ltb _ _); reflexivity. }
  apply Forall_lookup. intros v d Hv.
  destruct (lookup_lt_is_Some_2 (DPTrim_go s1) v) as [d1 E1].
  { rewrite <- (frame_length trim _ _ Hkeep). eapply lookup_lt_Some, Hv. }
  destruct (frame_lookup trim _ _ v d1 Hkeep E1) as (d' & Ed' & Ht).
  rewrite Hv in Ed'. inversion Ed'; subst d'. rewrite Ht.
  rewrite DPTrim_go_eq, list_lookup_fmap in E1.
  destruct (s1 !! v) as [d2|] eqn:E2; [|discriminate]. inversion E1.
  unfold DPTrim_node. destruct (0 <? trim2 d2); [reflexivity|].
  rewrite Forall_lookup in H1. apply (H1 v d2 E2).
Qed.

Lemma BC_iteration_clean fuel g cur st st' :
  N.of_nat (length (all_edges g)) < U32.modulus →
  Forall counters_clean st →
  BC_iteration fuel g cur st = Some (Ok st') →
  Forall counters_clean st'.
Proof.
  intros Hsmall Hclean H.
  destruct (BC_iteration_Ok fuel g cur st st' H)
    as (s1 & s2 & n2 & s4 & n4 & s5 & n5 & E1 & E2 & E4 & E5 & ->).
  assert (Hzero : Forall (λ d, trim d = 0 ∧ to_add d = 0) st).
  { eapply Forall_impl; [exact Hclean|]. intros d (_ & Ht & Ha). auto. }
  pose proof (PredAndSucc_go_ready g cur st s1 fuel s2 n2 Hsmall Hzero E1 E2)
    as Hready.
  pose proof (NumShortestPaths_go_done g _ fuel s4 n4 Hready E4) as Hdone.
  pose proof (sigma_done_counted g _ s4 Hready Hdone) as Hcounted.
  assert (Hkeep : (λ d, (num_predecessors d, to_add d)) <$> s5
                  = (λ d, (num_predecessors d, to_add d)) <$> s4).
  { revert E5. apply frame_do_while. intros s s' a.
    apply DependencyPropogation_round_writes; reflexivity. }
  assert (Htrim : Forall (λ d, trim d = 0) s5).
  { refine (do_while_accum_inv (λ s, Forall (λ d, trim d = 0) s) _ _ _ _ _ _ _ _ E5).
    - intros s s' a Hs Hr. eapply DependencyPropogation_round_trim; eassumption.
    - apply Forall_lookup. intros v d Hv. apply (Hcounted v d Hv). }
  rewrite Forall_fmap. apply Forall_lookup. intros v d5 Hv5.
  destruct (lookup_lt_is_Some_2 s4 v) as [d4 Ev4].
  { rewrite <- (frame_length _ _ _ Hkeep). eapply lookup_lt_Some, Hv5. }
  destruct (frame_lookup _ s4 s5 v d4 Hkeep Ev4) as (d' & Ed' & Hf).
  rewrite Hv5 in Ed'. inversion Ed'; subst d'. inversion Hf as [[Hnp Hta]].
  destruct (Hcounted v d4 Ev4) as (_ & Hn4 & _ & Ha4 & _).
  rewrite Forall_lookup in Htrim. pose proof (Htrim v d5 Hv5) as Ht5.
  unfold counters_clean, compose, BC_node.
  destruct (F32.ltb F32.zero (dependency d5)); cbn; repeat split; congruence.
Qed.

Lemma BC_loop_clean fuel cfg g :
  N.of_nat (length (all_edges g)) < U32.modulus →
  ∀ rounds i it w w',
    Forall counters_clean w.1 →
    BC_loop fuel cfg g rounds i it w = Some (Ok w') →
    Forall counters_clean w'.1.
Proof.
  intros Hsmall. induction rounds as [|rounds IH]; intros i it w w' Hs H.
  - inversion H; subst. exact Hs.
  - cbn [BC_loop] in H.
    destruct (next_source cfg i it) as [[cur rest]|]; [|discriminate].
    unfold and_then in H.
    destruct (BC_iteration fuel g cur w.1) as [[s1|]|] eqn:E; try discriminate.
    apply IH in H; [exact H|]. cbn [fst].
    eapply BC_iteration_clean; eassumption.
Qed.

(** X22: counters that start clean stay clean, so the reset of [BC::go]
    cannot fail.  On a graph with fewer than 2^32 edges, if
    [num_predecessors], [trim] and [to_add] are zero at every vertex
    when an iteration starts, they are zero again when it ends, and so
    after any run of [BC::go] that returns; from such an array the reset
    for any source passes its assertions; and an iteration can end in a
    fault only through its delta phase. *)
Theorem BC_iteration_keeps_counters_clean
    (fuel : nat) (cfg : Config) (g : Graph) (current_src_node : N)
    (random_sources : list N) (st : State) :
  N.of_nat (length (all_edges g)) < U32.modulus →
  Forall counters_clean st →
  (∃ st1, InitializeIteration_go g current_src_node st = Ok st1)
  ∧ (∀ st', BC_iteration fuel g current_src_node st = Some (Ok st') →
       Forall counters_clean st')
  ∧ (∀ st' visited,
       BC_go fuel cfg g random_sources st = Some (Ok (st', visited)) →
       Forall counters_clean st')
  ∧ (∀ f, BC_iteration fuel g current_src_node st = Some (Fault f) →
       ∃ st_last,
         DependencyPropogation_round g current_src_node st_last = Fault f).
Proof.
  intros Hsmall Hclean.
  assert (Hreset : ∃ st1, InitializeIteration_go g current_src_node st = Ok st1).
  { rewrite InitializeIteration_go_eq. apply map_nodes_total. intros v d Hv.
    rewrite InitializeIteration_node_eq. rewrite Forall_lookup in Hclean.
    destruct (Hclean v d Hv) as (Hn & _). rewrite Hn. cbn. eauto. }
  split; [exact Hreset|]. split; [|split].
  - intros st'. apply BC_iteration_clean; assumption.
  - intros st' visited H. unfold BC_go in H.
    apply (BC_loop_clean fuel cfg g Hsmall _ _ _ (st, []) (st', visited) Hclean H).
  - intros f H. destruct Hreset as [s1 E1].
    unfold BC_iteration, and_then in H. rewrite E1 in H.
    destruct (SSSP_go fuel g s1) as [[[s2 n2]|f2]|] eqn:E2; try discriminate.
    2: { unfold SSSP_go in E2. apply do_while_accum_fault in E2 as [sl Hsl].
         discriminate. }
    destruct (NumShortestPaths_go fuel g (PredAndSucc_go g s2))
      as [[[s4 n4]|f4]|] eqn:E4; try discriminate.
    2: { unfold NumShortestPaths_go in E4.
         apply do_while_accum_fault in E4 as [sl Hsl].
         destruct (NumShortestPaths_round_Ok g sl) as (x & y & Hxy). congruence. }
    destruct (DependencyPropogation_go fuel g current_src_node s4)
      as [[[s5 n5]|f5]|] eqn:E5; try discriminate.
    inversion H; subst f5. unfold DependencyPropogation_go in E5.
    apply do_while_accum_fault in E5. exact E5.
Qed.

Lemma BC_iteration_keeps_counters_clean_witness :
  (∃ st1, InitializeIteration_go kite 0 kite_loaded = Ok st1)
  ∧ (∀ st', BC_iteration 10 kite 0 kite_loaded = Some (Ok st') →
       Forall counters_clean st')
  ∧ (∀ st' visited,
       BC_go 10 single_source_config kite [] kite_loaded
       = Some (Ok (st', visited)) →
       Forall counters_clean st')
  ∧ (∀ f, BC_iteration 10 kite 0 kite_loaded = Some (Fault f) →
       ∃ st_last, DependencyPropogation_round kite 0 st_last = Fault f).
Proof.
  apply (BC_iteration_keeps_counters_clean 10 single_source_config kite 0 []
           kite_loaded).
  - reflexivity.
  - repeat constructor.
Defined.

(** ** The source and the unreached vertices keep their scores *)

Lemma DependencyPropogation_edge_spares g cur src dst w w' v d :
  DependencyPropogation_edge g cur src dst w = Ok w' →
  Forall (λ d, current_length d ≤ infinity) w.1 →
  w.1 !! v = Some d →
  getGID g v = cur ∨ current_length d = infinity →
  w'.1 !! v = Some d.
Proof.
  destruct w as [st accum]. unfold DependencyPropogation_edge. cbn [fst].
  intros H Hb Hv Hc.
  destruct (N.eqb_spec (getGID g dst) cur) as [Hg|Hg];
    [inversion H; subst; exact Hv|].
  destruct (st !! src) as [ds|] eqn:Es; [|inversion H; subst; exact Hv].
  destruct (st !! dst) as [dt|] eqn:Et; [|inversion H; subst; exact Hv].
  destruct (F32.to_u32 (dependency ds)) as [dep|]; [|discriminate].
  destruct (N.eqb_spec (U32.add (current_length dt) 1) (current_length ds))
    as [Hon|Hon]; inversion H; subst; cbn [fst]; [|exact Hv].
  destruct (decide (dst = v)) as [->|Hne];
    [|rewrite list_lookup_insert_ne by exact Hne; exact Hv].
  exfalso. rewrite Hv in Et. inversion Et; subst dt.
  destruct Hc as [Hc|Hc]; [contradiction|].
  rewrite Forall_lookup in Hb. pose proof (Hb src ds Es) as Hs.
  pose proof infinity_succ_fits.
  unfold U32.add in Hon. rewrite Hc, U32_wrap_small in Hon by lia. lia.
Qed.

Lemma Forall_dists (st st' : State) :
  current_length <$> st' = current_length <$> st →
  Forall (λ d, current_length d ≤ infinity) st →
  Forall (λ d, current_length d ≤ infinity) st'.
Proof.
  intros H Hb. apply Forall_lookup. intros i d' Hi.
  destruct (lookup_lt_is_Some_2 st i) as [d Hd].
  { rewrite <- (frame_length current_length _ _ H). eapply lookup_lt_Some, Hi. }
  destruct (frame_lookup current_length st st' i d H Hd) as (d1 & E1 & Hl).
  rewrite Hi in E1. inversion E1; subst d1. rewrite Hl.
  rewrite Forall_lookup in Hb. apply (Hb i d Hd).
Qed.

Lemma DependencyPropogation_op_passes g cur src w w' v d0 :
  DependencyPropogation_op g infinity cur src w = Ok w' →
  passed_by g cur v d0 w.1 → passed_by g cur v d0 w'.1.
Proof.
  intros H [Hb (d & Hv & Hf & Hc)].
  pose proof (DependencyPropogation_op_writes current_length
                (λ _ _, eq_refl) (λ _ _, eq_refl) (λ _ _, eq_refl)
                (λ _ _, eq_refl) g cur src w w' H) as Hd.
  split; [eapply Forall_dists; eassumption|].
  revert H. unfold DependencyPropogation_op.
  destruct (w.1 !! src) as [ds|]; [|intros H; inversion H; subst; eauto].
  destruct (negb _); [|intros H; inversion H; subst; eauto].
  destruct (propogation_flag ds); [|intros H; inversion H; subst; eauto].
  destruct (if negb _ then _ else _); [|discriminate]. cbn [mbind res_bind].
  destruct (for_each _ (edge_dsts g src) w) as [[s1 a1]|] eqn:E; [|discriminate].
  cbn [mbind res_bind].
  assert (H1 : Forall (λ d, current_length d ≤ infinity) (s1, a1).1
               ∧ (s1, a1).1 !! v = Some d).
  { refine (for_each_inv
              (λ w, Forall (λ d, current_length d ≤ infinity) w.1
                    ∧ w.1 !! v = Some d) _ _ _ _ _ (conj Hb Hv) E).
    intros dst s s' [Hbs Hvs] He. split.
    - eapply Forall_dists; [|exact Hbs].
      apply (frame_for_each_accum current_length
               (λ dst, DependencyPropogation_edge g cur src dst) [dst]).
      + intros x u u' Hu. revert Hu. destruct u as [su au].
        unfold DependencyPropogation_edge.
        destruct (getGID g x =? cur); [intros Hu; inversion Hu; reflexivity|].
        destruct (su !! src) as [dsu|]; [|intros Hu; inversion Hu; reflexivity].
        destruct (su !! x) as [dtu|] eqn:Etu; [|intros Hu; inversion Hu; reflexivity].
        destruct (F32.to_u32 (dependency dsu)); [|discriminate].
        destruct (_ =? _); intros Hu; inversion Hu; [|reflexivity]. cbn [fst].
        eapply frame_insert; [exact Etu|reflexivity].
      + cbn [for_each]. rewrite He. reflexivity.
    - eapply DependencyPropogation_edge_spares; eassumption. }
  cbn [fst] in H1. destruct H1 as [Hb1 Hv1].
  destruct (s1 !! src) as [d1|] eqn:E1; intros H; inversion H; subst;
    cbn [fst]; [|eauto].
  destruct (decide (src = v)) as [->|Hne].
  - rewrite Hv1 in E1. inversion E1; subst d1.
    eexists. split; [apply list_lookup_insert_eq; eapply lookup_lt_Some, Hv1|].
    cbn [dep_prop_flag set_propogation_flag].
    destruct (negb (dep_prop_flag d)); split; try exact Hf; exact Hc.
  - exists d. rewrite list_lookup_insert_ne by exact Hne. auto.
Qed.

Lemma DependencyPropogation_round_passes g cur st st' a v d0 :
  F32.ltb F32.zero (to_add_float d0) = false →
  DependencyPropogation_round g cur st = Ok (st', a) →
  passed_by g cur v d0 st → passed_by g cur v d0 st'.
Proof.
  intros Hbuf H Hp.
  pose proof (DependencyPropogation_round_writes current_length
                (λ _ _, eq_refl) (λ _ _, eq_refl) (λ _ _, eq_refl)
                (λ _ _, eq_refl) (λ _ _, eq_refl) (λ _ _, eq_refl)
                (λ _ _, eq_refl) g cur st st' a H) as Hd.
  split; [eapply Forall_dists; [exact Hd|apply Hp]|].
  revert H. unfold DependencyPropogation_round.
  destruct (for_each _ _ (st, 0)) as [[s1 a1]|] eqn:E; [|discriminate].
  cbn [mbind res_bind]. intros H. inversion H; subst. clear H.
  assert (H1 : passed_by g cur v d0 (s1, a).1).
  { refine (for_each_inv (λ w, passed_by g cur v d0 w.1) _ _ _ (st, 0) _ Hp E).
    intros src s s' Hs Hop. eapply DependencyPropogation_op_passes; eassumption. }
  destruct H1 as [_ (d & Hv & Hf & Hc)]. cbn [fst] in Hv.
  assert (Hv3 : DPAdd_go (DPTrim_go s1) !! v = Some (DPAdd_node (DPTrim_node d))).
  { rewrite DPAdd_go_eq, DPTrim_go_eq, !list_lookup_fmap, Hv. reflexivity. }
  assert (Hf3 : floats (DPAdd_node (DPTrim_node d)) = floats d
                ∧ current_length (DPAdd_node (DPTrim_node d)) = current_length d).
  { unfold floats in Hf. inversion Hf as [[F1 F2 F3]].
    unfold DPAdd_node.
    replace (to_add_float (DPTrim_node d)) with (to_add_float d)
      by (unfold DPTrim_node; destruct (0 <? trim2 d); reflexivity).
    rewrite F2, Hbuf. unfold DPTrim_node. destruct (0 <? trim2 d); auto. }
  destruct (DependencyPropChanges_go_token g (DPAdd_go (DPTrim_go s1)))
    as [_ Hch].
  destruct (Hch v _ Hv3) as (d' & Ev' & _ & Heq & _).
  exists d'. split; [exact Ev'|]. rewrite Heq.
  split; [rewrite <- Hf; apply Hf3|].
  destruct Hc as [Hc|Hc]; [left; exact Hc|right].
  cbn [current_length set_dep_prop_flag set_propogation_flag].
  rewrite (proj2 Hf3). exact Hc.
Qed.

(** X25: an iteration passes by its own source and by the vertices it
    does not reach.  The delta operator skips every edge into the
    current source and adds only along edges whose destination is one
    step nearer than a reached vertex; so a vertex that is a replica of
    the current source, or whose distance is [infinity] when the
    iteration ends, leaves the iteration with its [dependency],
    [to_add_float] and [betweeness_centrality] exactly as it entered,
    provided neither [dependency] nor [to_add_float] was positive on
    entry. *)
Theorem BC_iteration_passes_by
    (fuel : nat) (g : Graph) (current_src_node : N) (st st' : State)
    (v : nat) (d d' : NodeData) :
  BC_iteration fuel g current_src_node st = Some (Ok st') →
  st !! v = Some d → st' !! v = Some d' →
  F32.ltb F32.zero (dependency d) = false →
  F32.ltb F32.zero (to_add_float d) = false →
  getGID g v = current_src_node ∨ current_length d' = infinity →
  betweeness_centrality d' = betweeness_centrality d
  ∧ dependency d' = dependency d
  ∧ to_add_float d' = to_add_float d.
Proof.
  intros H Hv Hv' Hdep Hbuf Hc.
  destruct (BC_iteration_Ok fuel g current_src_node st st' H)
    as (s1 & s2 & n2 & s4 & n4 & s5 & n5 & E1 & E2 & E4 & E5 & ->).
  pose proof ignores_work_floats as Hw.
  pose proof (InitializeIteration_go_frame floats Hw g _ st s1 E1) as F1.
  pose proof (SSSP_go_frame floats Hw fuel g s1 s2 n2 E2) as F2.
  pose proof (PredAndSucc_go_frame floats Hw g s2) as F3.
  pose proof (NumShortestPaths_go_frame floats Hw fuel g _ s4 n4 E4) as F4.
  assert (Hf4 : floats <$> s4 = floats <$> st) by congruence.
  destruct (frame_lookup floats st s4 v d Hf4 Hv) as (d4 & Ev4 & Hfl4).
  assert (Hd5 : current_length <$> s5 = current_length <$> s4).
  { revert E5. apply frame_do_while. intros s s' a.
    apply DependencyPropogation_round_writes; reflexivity. }
  assert (Hb4 : Forall (λ d, current_length d ≤ infinity) s4).
  { assert (Hb1 : Forall (λ d, current_length d ≤ infinity) s1).
    { apply Forall_lookup. intros i x Hi.
      rewrite (proj2 (InitializeIteration_go_dists g _ st s1 E1) i x Hi).
      destruct (_ =? _); [apply N.le_0_l|reflexivity]. }
    pose proof (SSSP_go_sound fuel g s1 s2 n2 Hb1 E2) as Hsound.
    assert (Hb2 : Forall (λ d, current_length d ≤ infinity) s2).
    { apply Forall_lookup. intros i x Hi. apply (proj2 Hsound i x Hi). }
    eapply Forall_dists; [|exact Hb2].
    transitivity (current_length <$> PredAndSucc_go g s2).
    - revert E4. apply frame_do_while. intros s s' a.
      apply NumShortestPaths_round_writes; reflexivity.
    - rewrite PredAndSucc_go_eq. apply do_all_count_edge_dists. }
  rewrite list_lookup_fmap in Hv'.
  destruct (s5 !! v) as [d5|] eqn:Ev5; [|discriminate]. inversion Hv'; subst d'.
  destruct (frame_lookup current_length s4 s5 v d4 Hd5 Ev4) as (d5' & Ev5' & Hl5).
  rewrite Ev5 in Ev5'. inversion Ev5'; subst d5'. clear Ev5'.
  assert (Hc4 : getGID g v = current_src_node ∨ current_length d4 = infinity).
  { destruct Hc as [Hc|Hc]; [left; exact Hc|right]. rewrite <- Hl5.
    revert Hc. unfold BC_node.
    destruct (F32.ltb F32.zero (dependency d5)); cbn; auto. }
  assert (Hp5 : passed_by g current_src_node v d s5).
  { refine (do_while_accum_inv (passed_by g current_src_node v d) _ _ _ _ _ _ _ _ E5).
    - intros s s' a Hs Hr. eapply DependencyPropogation_round_passes; eassumption.
    - split; [exact Hb4|]. exists d4. auto. }
  destruct Hp5 as [_ (d5' & Ev5' & Hfl5 & _)].
  rewrite Ev5 in Ev5'. inversion Ev5'; subst d5'.
  unfold floats in Hfl5. inversion Hfl5 as [[G1 G2 G3]].
  unfold BC_node. rewrite G1, Hdep. auto.
Qed.

Lemma BC_iteration_passes_by_witness :
  betweeness_centrality (default zero_node (kite_final !! 4%nat))
  = betweeness_centrality zero_node
  ∧ dependency (default zero_node (kite_final !! 4%nat)) = dependency zero_node
  ∧ to_add_float (default zero_node (kite_final !! 4%nat))
    = to_add_float zero_node.
Proof.
  apply (BC_iteration_passes_by 10 kite 0 kite_loaded kite_final 4); try reflexivity.
  left. reflexivity.
Defined.

(** ** An iteration ends *)

Lemma BC_iteration_returns (g : Graph) (current_src_node : N) (st : State) :
  N.of_nat (length (all_edges g)) < U32.modulus →
  Forall counters_clean st →
  ∃ fuel0 r,
    (∀ fuel, (fuel0 ≤ fuel)%nat →
       BC_iteration fuel g current_src_node st = Some r)
    ∧ ∀ f, r = Fault f →
        ∃ st_last, DependencyPropogation_round g current_src_node st_last = Fault f.
Proof.
  intros Hsmall Hclean.
  assert (Hreset : ∃ s1, InitializeIteration_go g current_src_node st = Ok s1).
  { rewrite InitializeIteration_go_eq. apply map_nodes_total. intros v d Hv.
    rewrite InitializeIteration_node_eq. rewrite Forall_lookup in Hclean.
    destruct (Hclean v d Hv) as (Hn & _). rewrite Hn. cbn. eauto. }
  destruct Hreset as [s1 E1].
  assert (Hzero : Forall (λ d, trim d = 0 ∧ to_add d = 0) st).
  { eapply Forall_impl; [exact Hclean|]. intros d (_ & Ht & Ha). auto. }
  destruct (SSSP_loop_terminates g (S (N.to_nat (sum_dist s1))) 0 s1)
    as (s2 & n2 & E2); [lia|].
  pose proof (PredAndSucc_go_ready g current_src_node st s1 _ s2 n2
                Hsmall Hzero E1 E2) as Hready.
  destruct (NumShortestPaths_go_returns g _ (S (N.to_nat infinity)) Hready)
    as (s4 & n4 & E4 & _); [lia|intros v d0 _ Hinf; lia|].
  destruct (DependencyPropogation_loop_ends g current_src_node
              (S (pending_count s4)) 0 s4) as [r E5]; [lia|].
  exists (S (N.to_nat (sum_dist s1)) + S (N.to_nat infinity)
          + S (pending_count s4))%nat.
  exists (match r with
          | Ok (s5, _) => Ok (do_all BC_op (allNodesRange s5) s5)
          | Fault f => Fault f
          end).
  split; [|destruct r as [[s5 n5]|f0]; intros f Hf; [discriminate|];
           inversion Hf; subst f0;
           destruct (do_while_accum_fault _ _ _ _ _ E5) as [sl Hsl]; eauto].
  intros fuel Hfuel. unfold BC_iteration, and_then. rewrite E1.
  unfold SSSP_go, NumShortestPaths_go, DependencyPropogation_go in *.
  rewrite (do_while_accum_more_fuel _ _ _ _ _ fuel E2) by lia.
  rewrite (do_while_accum_more_fuel _ _ _ _ _ fuel E4) by lia.
  rewrite (do_while_accum_more_fuel _ _ _ _ _ fuel E5) by lia.
  destruct r as [[s5 n5]|f]; reflexivity.
Qed.

Lemma BC_loop_returns cfg g :
  N.of_nat (length (all_edges g)) < U32.modulus →
  ∀ rounds i it w,
    Forall counters_clean w.1 →
    ∃ fuel0 r, ∀ fuel, (fuel0 ≤ fuel)%nat →
      BC_loop fuel cfg g rounds i it w = Some r.
Proof.
  intros Hsmall. induction rounds as [|rounds IH]; intros i it w Hclean.
  - exists 0%nat, (Ok w). reflexivity.
  - cbn [BC_loop].
    destruct (next_source cfg i it) as [[cur rest]|];
      [|exists 0%nat, (Fault UndefinedBehaviour); reflexivity].
    destruct (BC_iteration_returns g cur w.1 Hsmall Hclean)
      as (fuel1 & r1 & Hr1 & _).
    destruct r1 as [s1|f].
    + assert (Hc1 : Forall counters_clean s1).
      { eapply BC_iteration_clean; [exact Hsmall|exact Hclean|].
        apply (Hr1 fuel1). lia. }
      destruct (IH (U64.wrap (i + 1)) rest (s1, w.2 ++ [cur]) Hc1)
        as (fuel2 & r2 & Hr2).
      exists (fuel1 + fuel2)%nat, r2. intros fuel Hfuel.
      rewrite Hr1 by lia. unfold and_then. apply Hr2. lia.
    + exists fuel1, (Fault f). intros fuel Hfuel.
      rewrite Hr1 by lia. reflexivity.
Qed.

(** X24: every iteration of [BC::go] ends.  On a graph with fewer than
    2^32 edges and from a node array whose [num_predecessors], [trim]
    and [to_add] are zero, the reset passes its assertions and the three
    loops of the iteration each leave after finitely many rounds: with
    enough fuel the iteration returns a node array, or ends in a fault
    raised by a round of the delta phase. *)
Theorem BC_iteration_ends (g : Graph) (current_src_node : N) (st : State) :
  N.of_nat (length (all_edges g)) < U32.modulus →
  Forall counters_clean st →
  ∃ fuel0, ∀ fuel, (fuel0 ≤ fuel)%nat →
    (∃ st', BC_iteration fuel g current_src_node st = Some (Ok st'))
    ∨ ∃ f st_last,
        BC_iteration fuel g current_src_node st = Some (Fault f)
        ∧ DependencyPropogation_round g current_src_node st_last = Fault f.
Proof.
  intros Hsmall Hclean.
  destruct (BC_iteration_returns g current_src_node st Hsmall Hclean)
    as (fuel0 & r & Hr & Hf).
  exists fuel0. intros fuel Hfuel. rewrite (Hr fuel Hfuel).
  destruct r as [st'|f]; [left; eauto|right].
  destruct (Hf f eq_refl) as [sl Hsl]. eauto.
Qed.

Lemma BC_iteration_ends_witness :
  ∃ fuel0, ∀ fuel, (fuel0 ≤ fuel)%nat →
    (∃ st', BC_iteration fuel kite 0 kite_loaded = Some (Ok st'))
    ∨ ∃ f st_last,
        BC_iteration fuel kite 0 kite_loaded = Some (Fault f)
        ∧ DependencyPropogation_round kite 0 st_last = Fault f.
Proof.
  apply (BC_iteration_ends kite 0 kite_loaded).
  - reflexivity.
  - repeat constructor.
Defined.

(** ** The driver ends *)

Lemma BC_loop_visits fuel cfg g :
  ∀ rounds i it w w',
    BC_loop fuel cfg g rounds i it w = Some (Ok w') →
    length w'.2 = (length w.2 + rounds)%nat.
Proof.
  induction rounds as [|rounds IH]; intros i it w w' H.
  - inversion H; subst. lia.
  - cbn [BC_loop] in H.
    destruct (next_source cfg i it) as [[cur rest]|]; [|discriminate].
    unfold and_then in H.
    destruct (BC_iteration fuel g cur w.1) as [[s1|]|]; try discriminate.
    apply IH in H. cbn [fst snd] in H. rewrite length_app in H. cbn in H. lia.
Qed.


(** X26: [BC::go] ends.  On a graph with fewer than 2^32 edges and from
    a node array whose [num_predecessors], [trim] and [to_add] are zero,
    the driver comes to an end whatever the configuration and the
    sampled sources: there is a result, a node array with the visited
    sources or a fault, that the driver returns for every large enough
    fuel; when it is a node array the three counters are zero in it
    again, and one source was visited per round. *)
Theorem BC_go_ends (cfg : Config) (g : Graph) (random_sources : list N)
    (st : State) :
  N.of_nat (length (all_edges g)) < U32.modulus →
  Forall counters_clean st →
  ∃ fuel0 r,
    (∀ fuel, (fuel0 ≤ fuel)%nat →
       BC_go fuel cfg g random_sources st = Some r)
    ∧ ∀ st' visited, r = Ok (st', visited) →
        Forall counters_clean st'
        ∧ length visited = N.to_nat (loop_end cfg g).
Proof.
  intros Hsmall Hclean. unfold BC_go.
  destruct (BC_loop_returns cfg g Hsmall (N.to_nat (loop_end cfg g)) 0
              random_sources (st, []) Hclean) as (fuel0 & r & Hr).
  exists fuel0, r. split; [exact Hr|].
  intros st' visited ->. pose proof (Hr fuel0 (Nat.le_refl _)) as H. split.
  - apply (BC_loop_clean fuel0 cfg g Hsmall _ _ _ (st, []) (st', visited) Hclean H).
  - pose proof (BC_loop_visits fuel0 cfg g _ _ _ (st, []) (st', visited) H) as Hl.
    cbn in Hl. lia.
Qed.

Lemma BC_go_ends_witness :
  ∃ fuel0 r,
    (∀ fuel, (fuel0 ≤ fuel)%nat →
       BC_go fuel default_config two_isolated [] (replicate 2 zero_node) = Some r)
    ∧ ∀ st' visited, r = Ok (st', visited) →
        Forall counters_clean st'
        ∧ length visited = N.to_nat (loop_end default_config two_isolated).
Proof.
  apply (BC_go_ends default_config two_isolated [] (replicate 2 zero_node)).
  - reflexivity.
  - repeat constructor.
Defined.

(** ** The theorems at concrete inputs *)

Lemma NumShortestPaths_op_spec_witness :
  NumShortestPaths_op kite infinity 0 (kite_counted, 0)
  = (<[0%nat := set_to_add 1 (set_trim 1 (set_num_predecessors 1
                  (set_num_successors 2
                     (set_current_length 1 (reset_node infinity 0 1 zero_node)))))]>
       kite_counted, 1).
Proof.
  refine (proj1 (NumShortestPaths_op_spec kite kite_counted 0 0
                   (set_num_predecessors 1
                      (set_num_successors 2
                         (set_current_length 1 (reset_node infinity 0 1 zero_node))))
                   _ _ _ _) _).
  - reflexivity.
  - reflexivity.
  - reflexivity.
  - reflexivity.
  - split; [discriminate|reflexivity].
Defined.

Lemma PredAndSucc_go_spec_witness :
  sum_N (num_predecessors <$> PredAndSucc_go kite kite_bfs)
  = N.of_nat (length (dag_edges kite kite_bfs))
  ∧ sum_N (num_successors <$> PredAndSucc_go kite kite_bfs)
    = N.of_nat (length (dag_edges kite kite_bfs)).
Proof.
  refine (proj2 (proj2 (proj2 (PredAndSucc_go_spec kite kite_bfs _))) _ _).
  - repeat constructor.
  - repeat constructor.
  - reflexivity.
Defined.

Lemma SSSP_go_terminates_witness :
  SSSP_superstep chain3 chain3_reset
  = foldl (λ w e, SSSP_edge e.1 e.2 w) (chain3_reset, 0)
      (seq 0 (numNodesWithEdges chain3) ≫= λ s, pair s <$> edge_dsts chain3 s)
  ∧ ∃ st' n,
      (∀ fuel, (N.to_nat (sum_dist chain3_reset) < fuel)%nat →
         SSSP_go fuel chain3 chain3_reset = Some (Ok (st', n)))
      ∧ ∃ k st_last,
          (k ≤ N.to_nat (sum_dist chain3_reset))%nat
          ∧ rounds_with_work (SSSP_round chain3) k chain3_reset st_last
          ∧ SSSP_superstep chain3 st_last = (st', 0)
          ∧ n = N.of_nat (S k) `mod` U32.modulus.
Proof.
  pose proof (SSSP_go_terminates chain3 chain3_reset) as (_ & H2 & _ & H4).
  exact (conj H2 H4).
Defined.

Lemma kite_loaded_iteration_start : iteration_start kite kite_loaded.
Proof. apply start_after_load. repeat constructor. Defined.

Lemma kite_final_iteration_start : iteration_start kite kite_final.
Proof.
  apply (start_after_source kite 10 0 kite_loaded kite_final).
  - exact kite_loaded_iteration_start.
  - vm_compute. reflexivity.
Defined.

Lemma betweeness_centrality_monotone_witness :
  length kite_final = length kite_loaded
  ∧ ∀ v d, kite_loaded !! v = Some d →
      ∃ d', kite_final !! v = Some d'
        ∧ F32.leb (betweeness_centrality d) (betweeness_centrality d') = true.
Proof.
  refine (proj2 (proj1 (betweeness_centrality_monotone kite kite_loaded _)
                   10%nat 0 kite_final _)).
  - exact kite_loaded_iteration_start.
  - vm_compute. reflexivity.
Defined.

Lemma dependency_zero_at_iteration_start_witness :
  Forall (λ d, F32.eqb (dependency d) F32.zero = true) kite_final.
Proof.
  exact (proj1 (dependency_zero_at_iteration_start kite kite_final
                  kite_final_iteration_start)).
Defined.
